(** * Prime-encoded knowledge base and reasoner (baz_prime_llm.py)

    A shallow embedding of the Python module [LLM/baz_prime_llm (2).py]:
    the incremental prime sieve, the concept registry and integer codec of
    [PrimeEncoder], the fact and rule store of [KnowledgeBase] and the
    backward-chaining search of [ReasoningEngine].

    Conventions of the embedding.
    - Python [int] is [Z]; list indices that only ever count up from 0
      ([_next_index], the argument of [PrimeGenerator.get]) are [nat].
    - A Python [dict] is an association list in insertion order with
      unique keys: iteration order is observable ([_decode_fact] unpacks the
      first three items as subject, predicate, object), while [==] on dicts
      is insensitive to order.
    - A Python [set] of strings is a list used through membership only.
    - [str] is [string], a sequence of bytes; [str.lower] is the ASCII
      lower-casing [lower], which is what [str.lower] does on ASCII text
      ([isascii]). A name with letters outside ASCII is folded by Python
      and kept by [lower]: statements that spell out a lower-cased name
      are made for ASCII names.
    - Loops whose trip count is not known from a list ([while], recursion)
      take a [fuel] argument; running out of it is the outcome [OutOfFuel],
      which is distinct from every Python exception.
    - [int(n ** 0.5)] is the integer square root [Z.sqrt].
    - The reasoner and the knowledge base share one encoder object, as in
      the module's docstring and [demo()]; that object is a field of the
      knowledge-base record, and every function that may intern a concept
      returns the updated record. *)

From Stdlib Require Import ZArith Znumtheory List String Ascii Bool Lia Arith.
Import ListNotations.

Local Open Scope list_scope.
Local Open Scope string_scope.
Local Open Scope Z_scope.

(* ------------------------------------------------------------------------- *)
(** ** Outcomes: a result, a Python exception, or exhausted fuel *)

Inductive exn : Type :=
| ValueError (msg : string)
| KeyError
| IndexError
| AttributeError
| ZeroDivisionError.

Inductive outcome (A : Type) : Type :=
| Ok (a : A)
| Raise (e : exn)
| OutOfFuel.

Arguments Ok {A} a.
Arguments Raise {A} e.
Arguments OutOfFuel {A}.

Definition bind {A B : Type} (m : outcome A) (k : A -> outcome B) : outcome B :=
  match m with
  | Ok a => k a
  | Raise e => Raise e
  | OutOfFuel => OutOfFuel
  end.

Notation "x <- m ;; k" := (bind m (fun x => k))
  (at level 61, m at next level, right associativity).
Notation "' pat <- m ;; k" := (bind m (fun x => match x with pat => k end))
  (at level 61, pat pattern, m at next level, right associativity).

(** [try: m; k  except Exception: handler] *)
Definition try_except {A B : Type} (m : outcome A) (handler : outcome B) (k : A -> outcome B)
  : outcome B :=
  match m with
  | Ok a => k a
  | Raise _ => handler
  | OutOfFuel => OutOfFuel
  end.

(* ------------------------------------------------------------------------- *)
(** ** Python dictionaries as insertion-ordered association lists *)

Module Dict.
Section Ops.
Context {K V : Type} (eqb : K -> K -> bool).

(** [d.get(k)] *)
Fixpoint get (d : list (K * V)) (k : K) : option V :=
  match d with
  | [] => None
  | (k', v) :: rest => if eqb k' k then Some v else get rest k
  end.

(** [d.get(k, dflt)] *)
Definition get_default (d : list (K * V)) (k : K) (dflt : V) : V :=
  match get d k with Some v => v | None => dflt end.

(** [k in d] *)
Definition contains (d : list (K * V)) (k : K) : bool :=
  match get d k with Some _ => true | None => false end.

(** [d[k] = v]: an existing key keeps its position, a new one is appended *)
Fixpoint set (d : list (K * V)) (k : K) (v : V) : list (K * V) :=
  match d with
  | [] => [(k, v)]
  | (k', v') :: rest =>
      if eqb k' k then (k', v) :: rest else (k', v') :: set rest k v
  end.

(** [del d[k]] for a key that is present *)
Fixpoint del (d : list (K * V)) (k : K) : list (K * V) :=
  match d with
  | [] => []
  | (k', v') :: rest => if eqb k' k then rest else (k', v') :: del rest k
  end.

Definition keys (d : list (K * V)) : list K := map fst d.
Definition values (d : list (K * V)) : list V := map snd d.
End Ops.
End Dict.

(** Exponent maps: [Dict[int, int]] *)
Definition ExponentMap : Type := list (Z * Z).

Definition eget (d : ExponentMap) (p dflt : Z) : Z := Dict.get_default Z.eqb d p dflt.
Definition eset (d : ExponentMap) (p e : Z) : ExponentMap := Dict.set Z.eqb d p e.
Definition edel (d : ExponentMap) (p : Z) : ExponentMap := Dict.del Z.eqb d p.

(** [a == b] on two [Dict[int, int]]: same size and every item of [a] is an
    item of [b]. *)
Definition dict_eqb (a b : ExponentMap) : bool :=
  Nat.eqb (List.length a) (List.length b)
  && forallb (fun kv => match Dict.get Z.eqb b (fst kv) with
                        | Some v => Z.eqb (snd kv) v
                        | None => false
                        end) a.

(* ------------------------------------------------------------------------- *)
(** ** Strings *)

Definition lower_ascii (c : ascii) : ascii :=
  let n := nat_of_ascii c in
  if (Nat.leb 65 n && Nat.leb n 90)%bool then ascii_of_nat (n + 32) else c.

(** [s.lower()], for ASCII text *)
Fixpoint lower (s : string) : string :=
  match s with
  | EmptyString => EmptyString
  | String c rest => String (lower_ascii c) (lower rest)
  end.

(** [s.isascii()]: every character is below 128 *)
Fixpoint isascii (s : string) : bool :=
  match s with
  | EmptyString => true
  | String c rest => (Nat.ltb (nat_of_ascii c) 128 && isascii rest)%bool
  end.

(** [x in s] for a set (or list) of strings *)
Definition mem (x : string) (s : list string) : bool := existsb (String.eqb x) s.

(** Truthiness of a string: [if s:] *)
Definition truthy (s : string) : bool := negb (String.eqb s "").

(* ------------------------------------------------------------------------- *)
(** ** [range] *)

(** [range(lo, hi)] *)
Definition range2 (lo hi : Z) : list Z :=
  map (fun k => lo + Z.of_nat k) (seq 0 (Z.to_nat (hi - lo))).

(** [range(lo, hi, step)] for [step > 0] *)
Definition range3 (lo hi step : Z) : list Z :=
  map (fun k => lo + Z.of_nat k * step) (seq 0 (Z.to_nat ((hi - lo + step - 1) / step))).

(* ------------------------------------------------------------------------- *)
(** ** class PrimeGenerator *)

Module PrimeGenerator.

Record t : Type := mk {
  _primes : list Z;
  _sieve_limit : Z
}.

(** [sieve[i] = v]; the sieve has [n + 1] cells and is only written inside *)
Fixpoint set_at (s : list bool) (i : nat) (v : bool) : list bool :=
  match s, i with
  | [], _ => []
  | _ :: rest, O => v :: rest
  | b :: rest, S j => b :: set_at rest j v
  end.

Definition get_at (s : list bool) (i : Z) : bool := nth (Z.to_nat i) s false.

(** [for multiple in range(p * p, n + 1, p): sieve[multiple] = False] *)
Definition mark_multiples (n p : Z) (sieve : list bool) : list bool :=
  fold_left (fun s m => set_at s (Z.to_nat m) false) (range3 (p * p) (n + 1) p) sieve.

(** body of [for p in range(2, int(n ** 0.5) + 1)] *)
Definition sieve_pass (n : Z) (sieve : list bool) (p : Z) : list bool :=
  if get_at sieve p then mark_multiples n p sieve else sieve.

Definition run_sieve (n : Z) : list bool :=
  let sieve := repeat true (Z.to_nat (n + 1)) in
  let sieve := set_at (set_at sieve 0 false) 1 false in
  fold_left (sieve_pass n) (range2 2 (Z.sqrt n + 1)) sieve.

Definition _generate_up_to (n : Z) (g : t) : t :=
  if n <=? _sieve_limit g then g
  else
    let sieve := run_sieve n in
    {| _primes := (_primes g
                   ++ filter (get_at sieve) (range2 (Z.max 2 (_sieve_limit g + 1)) (n + 1)))%list;
       _sieve_limit := n |}.

(** [PrimeGenerator(initial_limit)] *)
Definition __init__ (initial_limit : Z) : t :=
  _generate_up_to initial_limit {| _primes := []; _sieve_limit := 0 |}.

(** [get(index)]: the [while] loop doubles the sieve range until the list
    is long enough. *)
Fixpoint get (fuel : nat) (g : t) (index : nat) : outcome (Z * t) :=
  match fuel with
  | O => OutOfFuel
  | S f =>
      if Nat.leb (List.length (_primes g)) index
      then get f (_generate_up_to (if _sieve_limit g * 2 =? 0 then 1000
                                   else _sieve_limit g * 2) g) index
      else Ok (nth index (_primes g) 0, g)
  end.

End PrimeGenerator.

(* ------------------------------------------------------------------------- *)
(** ** class PrimeEncoder *)

Module PrimeEncoder.

Record t : Type := mk {
  prime_gen : PrimeGenerator.t;
  _concept_to_prime : list (string * Z);
  _prime_to_concept : list (Z * string);
  _next_index : nat;
  sign_prime : Z
}.

Definition c2p_get (self : t) (key : string) : option Z :=
  Dict.get String.eqb (_concept_to_prime self) key.

(** [self._prime_to_concept.get(p)] *)
Definition p2c_get (self : t) (p : Z) : option string :=
  Dict.get Z.eqb (_prime_to_concept self) p.

Definition _assign_prime (fuel : nat) (self : t) (concept : string) : outcome (Z * t) :=
  '(p, g) <- PrimeGenerator.get fuel (prime_gen self) (_next_index self) ;;
  Ok (p, {| prime_gen := g;
            _concept_to_prime := Dict.set String.eqb (_concept_to_prime self) concept p;
            _prime_to_concept := Dict.set Z.eqb (_prime_to_concept self) p concept;
            _next_index := S (_next_index self);
            sign_prime := sign_prime self |}).

Definition __init__ (fuel : nat) : outcome t :=
  let self := {| prime_gen := PrimeGenerator.__init__ 1000;
                 _concept_to_prime := [];
                 _prime_to_concept := [];
                 _next_index := O;
                 sign_prime := 0 |} in
  '(p, self) <- _assign_prime fuel self "_sign" ;;
  Ok {| prime_gen := prime_gen self;
        _concept_to_prime := _concept_to_prime self;
        _prime_to_concept := _prime_to_concept self;
        _next_index := _next_index self;
        sign_prime := p |}.

Definition get_prime (fuel : nat) (self : t) (concept : string) : outcome (Z * t) :=
  let key := lower concept in
  match c2p_get self key with
  | Some p => Ok (p, self)
  | None => _assign_prime fuel self key
  end.

(** Integer encoding/decoding *)

(** [while remaining % p == 0: encoding[p] = encoding.get(p, 0) + 1;
    remaining //= p] *)
Fixpoint strip (fuel : nat) (p : Z) (encoding : ExponentMap) (remaining : Z)
  : outcome (ExponentMap * Z) :=
  match fuel with
  | O => OutOfFuel
  | S f =>
      if p =? 0 then Raise ZeroDivisionError
      else if remaining mod p =? 0
      then strip f p (eset encoding p (eget encoding p 0 + 1)) (remaining / p)
      else Ok (encoding, remaining)
  end.

(** [for i in range(self._next_index)], leaving the loop at [break] *)
Fixpoint trial (fuel : nat) (idxs : list nat) (g : PrimeGenerator.t)
         (encoding : ExponentMap) (remaining : Z)
  : outcome (ExponentMap * Z * PrimeGenerator.t) :=
  match idxs with
  | [] => Ok (encoding, remaining, g)
  | i :: rest =>
      '(p, g) <- PrimeGenerator.get fuel g i ;;
      if remaining <? p * p then Ok (encoding, remaining, g)
      else
        '(encoding, remaining) <- strip fuel p encoding remaining ;;
        trial fuel rest g encoding remaining
  end.

Definition with_prime_gen (self : t) (g : PrimeGenerator.t) : t :=
  {| prime_gen := g;
     _concept_to_prime := _concept_to_prime self;
     _prime_to_concept := _prime_to_concept self;
     _next_index := _next_index self;
     sign_prime := sign_prime self |}.

(** [encode_integer(n)]; the enclosing [while True: ... break] runs its body
    once. *)
Definition encode_integer (fuel : nat) (self : t) (n : Z) : outcome (ExponentMap * t) :=
  if n =? 0 then Raise (ValueError "Zero cannot be encoded uniquely as a prime product.")
  else
    let encoding : ExponentMap := [] in
    let '(encoding, n) :=
      if n <? 0 then (eset encoding (sign_prime self) 1, - n) else (encoding, n) in
    let remaining := n in
    '(encoding, remaining, g) <-
       trial fuel (seq 0 (_next_index self)) (prime_gen self) encoding remaining ;;
    let encoding :=
      if 1 <? remaining then eset encoding remaining (eget encoding remaining 0 + 1)
      else encoding in
    Ok (encoding, with_prime_gen self g).

(** [decode_integer(encoding)], accumulating [(sign, result)] over the items;
    [p ** exp] is [Z.pow], which is Python's integer power for an exponent
    that is not negative; for a negative exponent Python leaves the
    integers (the result is a float), so statements about decoded values
    are made for maps whose primes other than the sign marker carry
    non-negative exponents, as the maps of [encode_integer] do. *)
Definition decode_step (self : t) (acc : Z * Z) (item : Z * Z) : Z * Z :=
  let '(sign, result) := acc in
  let '(p, exp) := item in
  if p =? sign_prime self
  then (sign * (if exp mod 2 =? 1 then -1 else 1), result)
  else (sign, result * p ^ exp).

Definition decode_integer (self : t) (encoding : ExponentMap) : Z :=
  let '(sign, result) := fold_left (decode_step self) encoding (1, 1) in
  sign * result.

Definition accumulate (result : ExponentMap) (items : ExponentMap) : ExponentMap :=
  fold_left (fun r item => eset r (fst item) (eget r (fst item) 0 + snd item)) items result.

Definition multiply (a b : ExponentMap) : ExponentMap :=
  let result := accumulate [] a in
  let result := accumulate result b in
  filter (fun item => negb (snd item =? 0)) result.

(** the [for p, e in b.items()] loop of [divide] *)
Fixpoint divide_loop (self : t) (items : list (Z * Z)) (result : ExponentMap)
  : outcome ExponentMap :=
  match items with
  | [] => Ok result
  | (p, e) :: rest =>
      if p =? sign_prime self
      then divide_loop self rest
             (eset result (sign_prime self) (eget result (sign_prime self) 0 - e))
      else
        let have := eget result p 0 in
        if have <? e then Raise (ValueError "Division results in non-integer.")
        else
          let result := eset result p (have - e) in
          let result := if eget result p 0 =? 0 then edel result p else result in
          divide_loop self rest result
  end.

Definition divide (self : t) (a b : ExponentMap) : outcome ExponentMap :=
  divide_loop self b a.

Definition add (fuel : nat) (self : t) (a b : ExponentMap) : outcome (ExponentMap * t) :=
  let ia := decode_integer self a in
  let ib := decode_integer self b in
  encode_integer fuel self (ia + ib).

Definition subtract (fuel : nat) (self : t) (a b : ExponentMap) : outcome (ExponentMap * t) :=
  let ia := decode_integer self a in
  let ib := decode_integer self b in
  encode_integer fuel self (ia - ib).

(** Concept encoding/decoding *)

Definition encode_symbol (fuel : nat) (self : t) (symbol : string)
  : outcome (ExponentMap * t) :=
  '(p, self) <- get_prime fuel self symbol ;;
  Ok ([(p, 1)], self).

Definition decode_symbol (self : t) (encoding : ExponentMap) : option string :=
  let primes := filter (fun p => negb (p =? sign_prime self)) (Dict.keys encoding) in
  match primes with
  | [p] => if eget encoding p 0 =? 1 then p2c_get self p else None
  | _ => None
  end.

End PrimeEncoder.

(* ------------------------------------------------------------------------- *)
(** ** Facts and rules *)

Module Fact.
Record t : Type := mk {
  subject : string;
  predicate : string;
  object : string
}.

(** [__str__] *)
Definition str (f : t) : string :=
  subject f ++ " " ++ predicate f ++ " " ++ object f.
End Fact.

Module Rule.
Record t : Type := mk {
  conditions : list Fact.t;
  conclusion : Fact.t;
  type : string;
  category : option string;
  property : option string;
  capability : option string
}.

Definition create_universal_rule (category property : string) : t :=
  let var := "_x_" in
  {| conditions := [Fact.mk var "is" category];
     conclusion := Fact.mk var "is" property;
     type := "universal";
     category := Some category;
     property := Some property;
     capability := None |}.

Definition create_capability_rule (category capability : string) : t :=
  let var := "_x_" in
  {| conditions := [Fact.mk var "is" category];
     conclusion := Fact.mk var "can" capability;
     type := "capability";
     category := Some category;
     property := None;
     capability := Some capability |}.
End Rule.

(** The encoded rule dictionaries built by [add_rule]: the universal and
    capability shape, keyed by its ['type'] string, and the standard shape
    (whose ['type'] is always ['standard']). *)
Inductive EncodedRule : Type :=
| Quantified (type : string) (category_prime property_prime predicate_prime : Z)
             (condition_encoding conclusion_encoding : ExponentMap)
| Standard (condition_encodings : list ExponentMap) (conclusion_encoding : ExponentMap).

(* ------------------------------------------------------------------------- *)
(** ** class KnowledgeBase *)

Module KnowledgeBase.

Record t : Type := mk {
  encoder : PrimeEncoder.t;
  fact_encodings : list ExponentMap;
  rules : list EncodedRule;
  facts : list Fact.t
}.

Definition __init__ (encoder : PrimeEncoder.t) : t :=
  {| encoder := encoder; fact_encodings := []; rules := []; facts := [] |}.

Definition with_encoder (self : t) (e : PrimeEncoder.t) : t :=
  {| encoder := e;
     fact_encodings := fact_encodings self;
     rules := rules self;
     facts := facts self |}.

(** [self.encoder.get_prime(concept)] on the shared encoder *)
Definition get_prime (fuel : nat) (self : t) (concept : string) : outcome (Z * t) :=
  '(p, e) <- PrimeEncoder.get_prime fuel (encoder self) concept ;;
  Ok (p, with_encoder self e).

Definition encode_symbol (fuel : nat) (self : t) (symbol : string)
  : outcome (ExponentMap * t) :=
  '(m, e) <- PrimeEncoder.encode_symbol fuel (encoder self) symbol ;;
  Ok (m, with_encoder self e).

Definition encode_fact (fuel : nat) (self : t) (fact : Fact.t) : outcome (ExponentMap * t) :=
  '(s_enc, self) <- encode_symbol fuel self (Fact.subject fact) ;;
  '(p_enc, self) <- encode_symbol fuel self (Fact.predicate fact) ;;
  '(o_enc, self) <- encode_symbol fuel self (Fact.object fact) ;;
  Ok (PrimeEncoder.multiply (PrimeEncoder.multiply s_enc p_enc) o_enc, self).

Definition add_fact (fuel : nat) (self : t) (fact : Fact.t) : outcome (ExponentMap * t) :=
  '(enc, self) <- encode_fact fuel self fact ;;
  Ok (enc, {| encoder := encoder self;
              fact_encodings := (fact_encodings self ++ [enc])%list;
              rules := rules self;
              facts := (facts self ++ [fact])%list |}).

Definition append_rule (self : t) (r : EncodedRule) : t :=
  {| encoder := encoder self;
     fact_encodings := fact_encodings self;
     rules := (rules self ++ [r])%list;
     facts := facts self |}.

(** [self.encoder.get_prime(name)] where [name] may be [None] *)
Definition get_prime_opt (fuel : nat) (self : t) (name : option string) : outcome (Z * t) :=
  match name with
  | None => Raise AttributeError
  | Some c => get_prime fuel self c
  end.

(** [[self.encode_fact(cond) for cond in conds]] *)
Fixpoint encode_facts (fuel : nat) (self : t) (conds : list Fact.t)
  : outcome (list ExponentMap * t) :=
  match conds with
  | [] => Ok ([], self)
  | cond :: rest =>
      '(enc, self) <- encode_fact fuel self cond ;;
      '(encs, self) <- encode_facts fuel self rest ;;
      Ok (enc :: encs, self)
  end.

Definition add_rule (fuel : nat) (self : t) (rule : Rule.t) : outcome (EncodedRule * t) :=
  if (Rule.type rule =? "universal")%string || (Rule.type rule =? "capability")%string
  then
    match Rule.conditions rule with
    | [] => Raise IndexError
    | cond0 :: _ =>
        '(cond_enc, self) <- encode_fact fuel self cond0 ;;
        '(concl_enc, self) <- encode_fact fuel self (Rule.conclusion rule) ;;
        '(category_prime, self) <- get_prime_opt fuel self (Rule.category rule) ;;
        '(property_prime, self) <-
           (if (Rule.type rule =? "universal")%string
            then get_prime_opt fuel self (Rule.property rule)
            else get_prime_opt fuel self (Rule.capability rule)) ;;
        '(predicate_prime, self) <-
           (if (Rule.type rule =? "universal")%string
            then get_prime fuel self "is"
            else get_prime fuel self "can") ;;
        let encoded_rule :=
          Quantified (Rule.type rule) category_prime property_prime predicate_prime
                     cond_enc concl_enc in
        Ok (encoded_rule, append_rule self encoded_rule)
    end
  else
    '(cond_encs, self) <- encode_facts fuel self (Rule.conditions rule) ;;
    '(concl_enc, self) <- encode_fact fuel self (Rule.conclusion rule) ;;
    let encoded_rule := Standard cond_encs concl_enc in
    Ok (encoded_rule, append_rule self encoded_rule).

End KnowledgeBase.

(* ------------------------------------------------------------------------- *)
(** ** class ReasoningEngine *)

Module ReasoningEngine.

(** The dictionary returned by [deduce]: ['result'], ['explanation'] and
    the optional ['equation']. *)
Record Result : Type := mkResult {
  result : bool;
  explanation : string;
  equation : option string
}.

Definition KB := KnowledgeBase.t.

(** The search state threaded through the recursion: the knowledge base
    (for its shared encoder) and a visited set. *)
Definition State : Type := (KB * list string)%type.

Definition _decode_fact (enc : ExponentMap) (kb : KB) : option Fact.t :=
  let sign := PrimeEncoder.sign_prime (KnowledgeBase.encoder kb) in
  let primes :=
    flat_map (fun item => if fst item =? sign then []
                          else repeat (fst item) (Z.to_nat (snd item))) enc in
  match primes with
  | [s; pred; o] =>
      let lookup := PrimeEncoder.p2c_get (KnowledgeBase.encoder kb) in
      match lookup s, lookup pred, lookup o with
      | Some sub, Some prd, Some obj =>
          if truthy sub && truthy prd && truthy obj
          then Some (Fact.mk sub prd obj) else None
      | _, _, _ => None
      end
  | _ => None
  end.

(** The [for rule in kb.rules] loop of [_universal_chain]; [rec] is the
    recursive call. *)
Fixpoint chain_loop
         (rec : KB -> string -> list string -> outcome (option (list string) * KB * list string))
         (rules : list EncodedRule) (kb : KB) (subj : string) (subj_prime : Z)
         (visited : list string)
  : outcome (option (list string) * KB * list string) :=
  match rules with
  | [] => Ok (None, kb, visited)
  | rule :: rest =>
      let continue := chain_loop rec rest kb subj subj_prime visited in
      match rule with
      | Quantified type category_prime property_prime _ _ _ =>
          if negb (type =? "universal")%string then continue
          else if negb (category_prime =? subj_prime) then continue
          else
            match PrimeEncoder.p2c_get (KnowledgeBase.encoder kb) property_prime with
            | None => continue
            | Some prop_name =>
                if negb (truthy prop_name) then continue
                else
                  '(chain, kb, visited) <- rec kb prop_name visited ;;
                  match chain with
                  | Some (c :: cs) => Ok (Some (subj :: c :: cs), kb, visited)
                  | _ => chain_loop rec rest kb subj subj_prime visited
                  end
            end
      | Standard _ _ => continue
      end
  end.

(** [_universal_chain(kb, subj, target, visited)] *)
Fixpoint _universal_chain (fuel : nat) (kb : KB) (subj target : string)
         (visited : list string)
  : outcome (option (list string) * KB * list string) :=
  match fuel with
  | O => OutOfFuel
  | S f =>
      if (subj =? target)%string then Ok (Some [subj], kb, visited)
      else if mem subj visited then Ok (None, kb, visited)
      else
        let visited := subj :: visited in
        '(subj_prime, kb) <- KnowledgeBase.get_prime f kb subj ;;
        chain_loop (fun kb prop_name visited => _universal_chain f kb prop_name target visited)
                   (KnowledgeBase.rules kb) kb subj subj_prime visited
  end.

(** The [for rule in kb.rules] loop of [_is_universal_subset]; [rec] is the
    recursive call. *)
Fixpoint subset_loop
         (rec : KB -> string -> list string -> outcome (bool * KB * list string))
         (rules : list EncodedRule) (kb : KB) (target : string) (subj_prime : Z)
         (visited : list string)
  : outcome (bool * KB * list string) :=
  match rules with
  | [] => Ok (false, kb, visited)
  | rule :: rest =>
      let continue := subset_loop rec rest kb target subj_prime visited in
      match rule with
      | Quantified type category_prime property_prime _ _ _ =>
          if negb (type =? "universal")%string then continue
          else if negb (category_prime =? subj_prime) then continue
          else
            match PrimeEncoder.p2c_get (KnowledgeBase.encoder kb) property_prime with
            | None => continue
            | Some prop_name =>
                if (prop_name =? target)%string then Ok (true, kb, visited)
                else
                  '(found, kb, visited) <- rec kb prop_name visited ;;
                  if found then Ok (true, kb, visited)
                  else subset_loop rec rest kb target subj_prime visited
            end
      | Standard _ _ => continue
      end
  end.

(** [_is_universal_subset(kb, subj, target, visited)] *)
Fixpoint _is_universal_subset (fuel : nat) (kb : KB) (subj target : string)
         (visited : list string)
  : outcome (bool * KB * list string) :=
  match fuel with
  | O => OutOfFuel
  | S f =>
      if (subj =? target)%string then Ok (true, kb, visited)
      else if mem subj visited then Ok (false, kb, visited)
      else
        let visited := subj :: visited in
        '(subj_prime, kb) <- KnowledgeBase.get_prime f kb subj ;;
        subset_loop (fun kb prop_name visited => _is_universal_subset f kb prop_name target visited)
                    (KnowledgeBase.rules kb) kb target subj_prime visited
  end.

(** Explanation of a chain: ["A are B, and B are C"] *)
Fixpoint chain_parts (chain : list string) : list string :=
  match chain with
  | a :: ((b :: _) as rest) => (a ++ " are " ++ b) :: chain_parts rest
  | _ => []
  end.

Definition Rec : Type := KB -> list string -> Fact.t -> Z -> outcome (Result * KB * list string).

(** The universal/capability loop of [_deduce] *)
Fixpoint quantified_loop (fuel : nat) (rec : Rec) (rules : list EncodedRule)
         (kb : KB) (visited : list string) (query : Fact.t) (depth : Z)
  : outcome (option Result * KB * list string) :=
  match rules with
  | [] => Ok (None, kb, visited)
  | rule :: rest =>
      match rule with
      | Quantified type category_prime property_prime _ _ _ =>
          if ((type =? "universal")%string || (type =? "capability")%string)
             && (Fact.predicate query =? (if (type =? "universal")%string then "is" else "can"))%string
          then
            '(p, kb) <- KnowledgeBase.get_prime fuel kb (Fact.object query) ;;
            if p =? property_prime then
              match PrimeEncoder.p2c_get (KnowledgeBase.encoder kb) category_prime with
              | None => Raise KeyError
              | Some cname =>
                  let membership := Fact.mk (Fact.subject query) "is" cname in
                  '(sub_res, kb, visited) <- rec kb visited membership (depth + 1) ;;
                  if result sub_res then
                    let clause := if (type =? "universal")%string then "are" else "can" in
                    let eq_form :=
                      match equation sub_res with
                      | Some e =>
                          if truthy e then e ++ " ⊆ " ++ Fact.object query
                          else if (type =? "universal")%string
                          then Fact.subject query ++ " ∈ " ++ Fact.object membership
                               ++ " ⊆ " ++ Fact.object query
                          else "∀x∈" ++ Fact.object membership ++ ": x can " ++ Fact.object query
                      | None =>
                          if (type =? "universal")%string
                          then Fact.subject query ++ " ∈ " ++ Fact.object membership
                               ++ " ⊆ " ++ Fact.object query
                          else "∀x∈" ++ Fact.object membership ++ ": x can " ++ Fact.object query
                      end in
                    match PrimeEncoder.p2c_get (KnowledgeBase.encoder kb) category_prime with
                    | None => Raise KeyError
                    | Some cname' =>
                        let expl := explanation sub_res ++ ", and all " ++ cname' ++ " "
                                    ++ clause ++ " " ++ Fact.object query in
                        Ok (Some (mkResult true expl (Some eq_form)), kb, visited)
                    end
                  else quantified_loop fuel rec rest kb visited query depth
              end
            else quantified_loop fuel rec rest kb visited query depth
          else quantified_loop fuel rec rest kb visited query depth
      | Standard _ _ => quantified_loop fuel rec rest kb visited query depth
      end
  end.

(** [for cond_enc in rule['condition_encodings']]: [None] when [all_ok]
    ends up false, the collected explanations otherwise. *)
Fixpoint conditions_loop (rec : Rec) (conds : list ExponentMap)
         (kb : KB) (visited : list string) (depth : Z) (explanations : list string)
  : outcome (option (list string) * KB * list string) :=
  match conds with
  | [] => Ok (Some explanations, kb, visited)
  | cond_enc :: rest =>
      match _decode_fact cond_enc kb with
      | None => Ok (None, kb, visited)
      | Some cond_fact =>
          '(sub_res, kb, visited) <- rec kb visited cond_fact (depth + 1) ;;
          if result sub_res
          then conditions_loop rec rest kb visited depth (explanations ++ [explanation sub_res])%list
          else Ok (None, kb, visited)
      end
  end.

(** The standard-rule loop of [_deduce] *)
Fixpoint standard_loop (rec : Rec) (rules : list EncodedRule) (q_enc : ExponentMap)
         (kb : KB) (visited : list string) (query : Fact.t) (depth : Z)
  : outcome (option Result * KB * list string) :=
  match rules with
  | [] => Ok (None, kb, visited)
  | rule :: rest =>
      match rule with
      | Standard condition_encodings conclusion_encoding =>
          if dict_eqb conclusion_encoding q_enc then
            '(all_ok, kb, visited) <- conditions_loop rec condition_encodings kb visited depth [] ;;
            match all_ok with
            | Some explanations =>
                Ok (Some (mkResult true (String.concat ", " explanations
                                         ++ ", which implies " ++ Fact.str query) None),
                    kb, visited)
            | None => standard_loop rec rest q_enc kb visited query depth
            end
          else standard_loop rec rest q_enc kb visited query depth
      | Quantified _ _ _ _ _ _ => standard_loop rec rest q_enc kb visited query depth
      end
  end.

(** The transitive loop of [_deduce] over [zip(kb.fact_encodings, kb.facts)] *)
Fixpoint transitive_loop (rec : Rec) (items : list (ExponentMap * Fact.t))
         (kb : KB) (visited : list string) (query : Fact.t) (depth : Z)
  : outcome (option Result * KB * list string) :=
  match items with
  | [] => Ok (None, kb, visited)
  | (_, fact) :: rest =>
      if (Fact.subject fact =? Fact.subject query)%string
         && (Fact.predicate fact =? Fact.predicate query)%string
      then
        let intermediate := Fact.mk (Fact.object fact) (Fact.predicate query) (Fact.object query) in
        '(sub_res, kb, visited) <- rec kb visited intermediate (depth + 1) ;;
        if result sub_res
        then Ok (Some (mkResult true (Fact.subject query ++ " " ++ Fact.predicate query ++ " "
                                      ++ Fact.object fact ++ ", and " ++ explanation sub_res) None),
                 kb, visited)
        else transitive_loop rec rest kb visited query depth
      else transitive_loop rec rest kb visited query depth
  end.

(** The part of [_deduce] after the transitive-closure shortcut *)
Definition after_chain (fuel : nat) (rec : Rec) (kb : KB) (visited : list string)
           (query : Fact.t) (depth : Z) : outcome (Result * KB * list string) :=
  '(q_enc, kb) <- KnowledgeBase.encode_fact fuel kb query ;;
  match find (fun item => dict_eqb (fst item) q_enc)
             (combine (KnowledgeBase.fact_encodings kb) (KnowledgeBase.facts kb)) with
  | Some (_, fact) =>
      Ok (mkResult true ("Direct fact in knowledge base: " ++ Fact.str fact) None, kb, visited)
  | None =>
      '(r, kb, visited) <- quantified_loop fuel rec (KnowledgeBase.rules kb) kb visited query depth ;;
      match r with
      | Some res => Ok (res, kb, visited)
      | None =>
          '(r, kb, visited) <- standard_loop rec (KnowledgeBase.rules kb) q_enc kb visited query depth ;;
          match r with
          | Some res => Ok (res, kb, visited)
          | None =>
              '(r, kb, visited) <-
                 (if (Fact.predicate query =? "is")%string || (Fact.predicate query =? "part of")%string
                  then transitive_loop rec (combine (KnowledgeBase.fact_encodings kb)
                                                    (KnowledgeBase.facts kb))
                                       kb visited query depth
                  else Ok (None, kb, visited)) ;;
              match r with
              | Some res => Ok (res, kb, visited)
              | None => Ok (mkResult false ("Could not deduce: " ++ Fact.str query) None, kb, visited)
              end
          end
      end
  end.

(** [_deduce(kb, query, depth)] with [self._visited] passed explicitly. The
    chain search sits in [try ... except Exception: pass]; no statement of
    [_universal_chain] raises, so the handler (which would go on with the
    state the exception left behind) is never entered: see
    [universal_chain_never_raises]. *)
Fixpoint _deduce (fuel : nat) (kb : KB) (visited : list string) (query : Fact.t) (depth : Z)
  : outcome (Result * KB * list string) :=
  match fuel with
  | O => OutOfFuel
  | S f =>
      let key := Fact.str query in
      if mem key visited
      then Ok (mkResult false ("Circular reasoning detected: " ++ Fact.str query) None, kb, visited)
      else
        let visited := key :: visited in
        if (Fact.predicate query =? "is")%string
           && (Fact.subject query =? Fact.object query)%string
        then Ok (mkResult true (Fact.subject query ++ " is itself by definition") None, kb, visited)
        else if (Fact.predicate query =? "is")%string
        then
          try_except
            (_universal_chain f kb (Fact.subject query) (Fact.object query) [])
            (after_chain f (_deduce f) kb visited query depth)
            (fun out =>
               let '(chain, kb, _) := out in
               match chain with
               | Some (c :: cs) =>
                   let chain_expl := String.concat ", and " (chain_parts (c :: cs)) in
                   let eq_form := String.concat " ⊆ " (c :: cs) in
                   Ok (mkResult true chain_expl (Some eq_form), kb, visited)
               | _ => after_chain f (_deduce f) kb visited query depth
               end)
        else after_chain f (_deduce f) kb visited query depth
  end.

(** [deduce(kb, query)]: resets the visited set and starts at depth 0 *)
Definition deduce (fuel : nat) (kb : KB) (query : Fact.t) : outcome (Result * KB) :=
  '(res, kb, _) <- _deduce fuel kb [] query 0 ;;
  Ok (res, kb).

End ReasoningEngine.

(* ------------------------------------------------------------------------- *)
(** ** Building stores through the public interface *)

Inductive Statement : Type :=
| AddFact (f : Fact.t)
| AddRule (r : Rule.t).

(** A script of [add_fact] / [add_rule] calls *)
Fixpoint build (fuel : nat) (kb : KnowledgeBase.t) (script : list Statement)
  : outcome KnowledgeBase.t :=
  match script with
  | [] => Ok kb
  | AddFact f :: rest =>
      '(_, kb) <- KnowledgeBase.add_fact fuel kb f ;;
      build fuel kb rest
  | AddRule r :: rest =>
      '(_, kb) <- KnowledgeBase.add_rule fuel kb r ;;
      build fuel kb rest
  end.

(** [KnowledgeBase(PrimeEncoder())] followed by a script *)
Definition store_of (fuel : nat) (script : list Statement) : outcome KnowledgeBase.t :=
  enc <- PrimeEncoder.__init__ fuel ;;
  build fuel (KnowledgeBase.__init__ enc) script.

Definition unwrap {A : Type} (dflt : A) (m : outcome A) : A :=
  match m with Ok a => a | _ => dflt end.

Definition no_encoder : PrimeEncoder.t :=
  PrimeEncoder.mk (PrimeGenerator.mk [] 0) [] [] O 0.

(** [PrimeEncoder()] *)
Definition encoder0 : PrimeEncoder.t := unwrap no_encoder (PrimeEncoder.__init__ 1).

(** Stores used in the examples *)
Definition store (script : list Statement) : KnowledgeBase.t :=
  unwrap (KnowledgeBase.__init__ no_encoder) (store_of 1 script).

Definition kb_empty : KnowledgeBase.t := store [].

Definition hilbert_script : list Statement :=
  [ AddRule (Rule.create_universal_rule "Hilbert_spaces" "inner_product_spaces");
    AddRule (Rule.create_universal_rule "inner_product_spaces" "normed_spaces");
    AddFact (Fact.mk "Hilbert_spaces" "is" "normed_spaces") ].

Definition kb_hilbert : KnowledgeBase.t := store hilbert_script.

Definition cycle_script : list Statement :=
  [ AddRule (Rule.create_universal_rule "A" "B");
    AddRule (Rule.create_universal_rule "B" "A") ].

Definition kb_cycle : KnowledgeBase.t := store cycle_script.

Definition kb_loop : KnowledgeBase.t :=
  store [ AddRule (Rule.create_universal_rule "a" "b");
          AddRule (Rule.create_universal_rule "b" "a") ].

Definition capital_script : list Statement :=
  [ AddRule (Rule.create_universal_rule "A" "B") ].

Definition kb_capital : KnowledgeBase.t := store capital_script.

(* ========================================================================= *)
(** * Properties *)

(* ------------------------------------------------------------------------- *)
(** ** Dictionaries *)

Section DictFacts.
Context {K V : Type} (eqb : K -> K -> bool).
Hypothesis eqb_eq : forall a b, eqb a b = true <-> a = b.

Lemma eqb_refl' : forall a, eqb a a = true.
Proof. intros a. apply eqb_eq. reflexivity. Qed.

Lemma eqb_neq' : forall a b, a <> b -> eqb a b = false.
Proof.
  intros a b Hab. destruct (eqb a b) eqn:E; [|reflexivity].
  apply eqb_eq in E. contradiction.
Qed.

Lemma get_set_same : forall (d : list (K * V)) k v,
  Dict.get eqb (Dict.set eqb d k v) k = Some v.
Proof.
  induction d as [|[k' v'] d IH]; intros k v; simpl.
  - rewrite eqb_refl'. reflexivity.
  - destruct (eqb k' k) eqn:E; simpl; rewrite E; auto.
Qed.

Lemma get_set_other : forall (d : list (K * V)) k k' v,
  k <> k' -> Dict.get eqb (Dict.set eqb d k' v) k = Dict.get eqb d k.
Proof.
  induction d as [|[k0 v0] d IH]; intros k k' v Hne; simpl.
  - rewrite eqb_neq'; auto.
  - destruct (eqb k0 k') eqn:E; simpl.
    + apply eqb_eq in E. subst k0. rewrite eqb_neq'; auto.
    + destruct (eqb k0 k); auto.
Qed.

Lemma get_del_other : forall (d : list (K * V)) k k',
  k <> k' -> Dict.get eqb (Dict.del eqb d k') k = Dict.get eqb d k.
Proof.
  induction d as [|[k0 v0] d IH]; intros k k' Hne; simpl; auto.
  destruct (eqb k0 k') eqn:E; simpl.
  - apply eqb_eq in E. subst k0. rewrite eqb_neq'; auto.
  - destruct (eqb k0 k); auto.
Qed.

Lemma get_some_in : forall (d : list (K * V)) k v,
  Dict.get eqb d k = Some v -> In (k, v) d.
Proof.
  induction d as [|[k0 v0] d IH]; intros k v H; simpl in *; [discriminate|].
  destruct (eqb k0 k) eqn:E.
  - apply eqb_eq in E. inversion H. subst. auto.
  - right. auto.
Qed.

Lemma get_none_notin : forall (d : list (K * V)) k,
  Dict.get eqb d k = None <-> ~ In k (Dict.keys d).
Proof.
  induction d as [|[k0 v0] d IH]; intros k; simpl.
  - tauto.
  - destruct (eqb k0 k) eqn:E.
    + apply eqb_eq in E. subst. split; [discriminate|]. intros H. exfalso. auto.
    + rewrite IH. split.
      * intros H [H1|H1]; auto. subst. rewrite eqb_refl' in E. discriminate.
      * tauto.
Qed.

Lemma in_get_nodup : forall (d : list (K * V)) k v,
  NoDup (Dict.keys d) -> In (k, v) d -> Dict.get eqb d k = Some v.
Proof.
  induction d as [|[k0 v0] d IH]; intros k v Hnd Hin; simpl in *; [contradiction|].
  inversion Hnd as [|? ? Hnotin Hnd']; subst.
  destruct Hin as [Heq|Hin].
  - inversion Heq; subst. rewrite eqb_refl'. reflexivity.
  - destruct (eqb k0 k) eqn:E.
    + apply eqb_eq in E. subst. exfalso. apply Hnotin.
      apply (in_map fst) in Hin. exact Hin.
    + auto.
Qed.

Lemma in_values_set : forall (d : list (K * V)) k v x,
  In x (Dict.values (Dict.set eqb d k v)) -> x = v \/ In x (Dict.values d).
Proof.
  induction d as [|[k0 v0] d IH]; intros k v x H; simpl in *.
  - destruct H; auto.
  - destruct (eqb k0 k); simpl in *.
    + destruct H; auto.
    + destruct H as [H|H]; auto. apply IH in H. tauto.
Qed.

Lemma in_set : forall (d : list (K * V)) k v kv,
  In kv (Dict.set eqb d k v) -> kv = (k, v) \/ In kv d.
Proof.
  induction d as [|[k0 v0] d IH]; intros k v kv H; simpl in *.
  - destruct H; auto.
  - destruct (eqb k0 k) eqn:E; simpl in *.
    + apply eqb_eq in E. subst. destruct H; auto.
    + destruct H as [H|H]; auto. apply IH in H. tauto.
Qed.

Lemma in_keys_set : forall (d : list (K * V)) k v x,
  In x (Dict.keys (Dict.set eqb d k v)) <-> x = k \/ In x (Dict.keys d).
Proof.
  induction d as [|[k0 v0] d IH]; intros k v x; simpl.
  - intuition.
  - destruct (eqb k0 k) eqn:E; simpl.
    + apply eqb_eq in E. subst. intuition.
    + rewrite IH. intuition.
Qed.

Lemma get_some_in_values : forall (d : list (K * V)) k v,
  Dict.get eqb d k = Some v -> In v (Dict.values d).
Proof.
  intros d k v H. apply get_some_in in H. apply (in_map snd) in H. exact H.
Qed.

End DictFacts.

Lemma eget_eset_same : forall d p v dflt, eget (eset d p v) p dflt = v.
Proof.
  intros. unfold eget, eset, Dict.get_default.
  rewrite (get_set_same Z.eqb Z.eqb_eq). reflexivity.
Qed.

Lemma eget_eset_other : forall d p q v dflt, p <> q -> eget (eset d q v) p dflt = eget d p dflt.
Proof.
  intros. unfold eget, eset, Dict.get_default.
  rewrite (get_set_other Z.eqb Z.eqb_eq); auto.
Qed.

Lemma eget_edel_other : forall d p q dflt, p <> q -> eget (edel d q) p dflt = eget d p dflt.
Proof.
  intros. unfold eget, edel, Dict.get_default.
  rewrite (get_del_other Z.eqb Z.eqb_eq); auto.
Qed.

Lemma eget_in_nodup : forall d p e dflt,
  NoDup (Dict.keys d) -> In (p, e) d -> eget d p dflt = e.
Proof.
  intros. unfold eget, Dict.get_default.
  rewrite (in_get_nodup Z.eqb Z.eqb_eq d p e); auto.
Qed.

(* ------------------------------------------------------------------------- *)
(** ** PrimeEncoder.divide *)

Lemma divide_loop_raises : forall self items result,
  NoDup (Dict.keys items) ->
  ((exists e, PrimeEncoder.divide_loop self items result = Raise e) <->
   (exists p e, In (p, e) items /\ p <> PrimeEncoder.sign_prime self /\ eget result p 0 < e)).
Proof.
  intros self items. induction items as [|[p e] items IH]; intros result Hnd.
  - simpl. split.
    + intros [e H]. discriminate.
    + intros (p & e & [] & _).
  - inversion Hnd as [|? ? Hnotin Hnd']; subst. simpl.
    assert (Hother : forall q e', In (q, e') items -> q <> p).
    { intros q e' Hin Heq. subst. apply Hnotin. apply (in_map fst) in Hin. exact Hin. }
    destruct (Z.eqb_spec p (PrimeEncoder.sign_prime self)) as [Hs|Hs].
    + rewrite IH by assumption. split.
      * intros (q & e' & Hin & Hq & Hlt). exists q, e'. repeat split; auto.
        rewrite eget_eset_other in Hlt; auto.
      * intros (q & e' & [Heq|Hin] & Hq & Hlt).
        { inversion Heq; subst. contradiction. }
        exists q, e'. repeat split; auto. rewrite eget_eset_other; auto.
    + destruct (Z.ltb_spec (eget result p 0) e) as [Hlt|Hge].
      * split; [|intros _; eexists; reflexivity].
        intros _. exists p, e. auto.
      * rewrite IH by assumption. split.
        { intros (q & e' & Hin & Hq & Hlt). exists q, e'. repeat split; auto.
          pose proof (Hother _ _ Hin) as Hqp.
          destruct (eget (eset result p (eget result p 0 - e)) p 0 =? 0).
          - rewrite eget_edel_other, eget_eset_other in Hlt; auto.
          - rewrite eget_eset_other in Hlt; auto. }
        { intros (q & e' & [Heq|Hin] & Hq & Hlt).
          - inversion Heq; subst. lia.
          - exists q, e'. repeat split; auto.
            pose proof (Hother _ _ Hin) as Hqp.
            destruct (eget (eset result p (eget result p 0 - e)) p 0 =? 0).
            + rewrite eget_edel_other, eget_eset_other; auto.
            + rewrite eget_eset_other; auto. }
Qed.

Lemma divide_loop_error_kind : forall self items result e,
  PrimeEncoder.divide_loop self items result = Raise e ->
  e = ValueError "Division results in non-integer.".
Proof.
  intros self items. induction items as [|[p x] items IH]; intros result e H; simpl in H.
  - discriminate.
  - destruct (p =? PrimeEncoder.sign_prime self).
    + eauto.
    + destruct (eget result p 0 <? x).
      * inversion H. reflexivity.
      * eauto.
Qed.

(** C5. [divide(a, b)] raises exactly when some key of [b] other than the
    sign marker has a larger exponent in [b] than in [a] (an absent key of
    [a] counting as exponent 0), and the only error it raises is the
    not-divisible [ValueError]; the sign marker's entry of [b] is never a
    reason to fail, whatever its exponent. When [a] stores no negative
    exponent the prime need not be named as a key of [b]: a prime absent
    from [b] has exponent 0 there. [b] is a Python dict, so its keys are
    pairwise distinct. *)
Theorem divide_fails_iff_deficit : forall self a b,
  NoDup (Dict.keys b) ->
  ((exists e, PrimeEncoder.divide self a b = Raise e) <->
   (exists p, In p (Dict.keys b) /\ p <> PrimeEncoder.sign_prime self
              /\ eget a p 0 < eget b p 0))
  /\ ((forall p e, In (p, e) a -> 0 <= e) ->
      ((exists e, PrimeEncoder.divide self a b = Raise e) <->
       (exists p, p <> PrimeEncoder.sign_prime self /\ eget a p 0 < eget b p 0)))
  /\ (forall e, PrimeEncoder.divide self a b = Raise e ->
                e = ValueError "Division results in non-integer.")
  /\ PrimeEncoder.divide self a b <> OutOfFuel.
Proof.
  intros self a b Hnd. unfold PrimeEncoder.divide.
  assert (Hiff : (exists e, PrimeEncoder.divide_loop self b a = Raise e) <->
                 (exists p, In p (Dict.keys b) /\ p <> PrimeEncoder.sign_prime self
                            /\ eget a p 0 < eget b p 0)).
  { rewrite divide_loop_raises by assumption. split.
    - intros (p & e & Hin & Hp & Hlt). exists p. repeat split; auto.
      + apply (in_map fst) in Hin. exact Hin.
      + rewrite (eget_in_nodup b p e); auto.
    - intros (p & Hin & Hp & Hlt).
      unfold Dict.keys in Hin. apply in_map_iff in Hin.
      destruct Hin as ([p' e] & Heq & Hin). simpl in Heq. subst p'.
      exists p, e. repeat split; auto.
      rewrite (eget_in_nodup b p e) in Hlt; auto. }
  split; [exact Hiff|]. split; [|split].
  - intros Hpos. rewrite Hiff. split.
    + intros (p & _ & Hp & Hlt). exists p. auto.
    + intros (p & Hp & Hlt). exists p. split; [|auto].
      destruct (in_dec Z.eq_dec p (Dict.keys b)) as [|Hnotin]; [assumption|exfalso].
      apply (get_none_notin Z.eqb Z.eqb_eq) in Hnotin.
      assert (Hb : eget b p 0 = 0) by (unfold eget, Dict.get_default; rewrite Hnotin; reflexivity).
      assert (Ha : 0 <= eget a p 0).
      { unfold eget, Dict.get_default.
        destruct (Dict.get Z.eqb a p) as [e|] eqn:E; [|lia].
        apply (get_some_in Z.eqb Z.eqb_eq) in E. eauto. }
      lia.
  - intros e. apply divide_loop_error_kind.
  - clear Hnd Hiff. revert a. induction b as [|[p e] b IH]; intros a; simpl.
    + discriminate.
    + destruct (p =? PrimeEncoder.sign_prime self); [apply IH|].
      destruct (eget a p 0 <? e); [discriminate|apply IH].
Qed.

(** Witness for C5 on a new encoder, with the encodings [{3: 1}] and
    [{2: 5, 3: 2}]: the sign marker 2 is short by five, the prime 3 by one. *)
Lemma divide_fails_iff_deficit_witness :
  NoDup (Dict.keys [(2, 5); (3, 2)]) /\
  (exists e, PrimeEncoder.divide encoder0 [(3, 1)] [(2, 5); (3, 2)] = Raise e).
Proof.
  assert (Hnd : NoDup (Dict.keys [(2, 5); (3, 2)])).
  { simpl. repeat constructor; simpl; intuition discriminate. }
  split; [exact Hnd|].
  apply (proj1 (divide_fails_iff_deficit encoder0 [(3, 1)] [(2, 5); (3, 2)] Hnd)).
  exists 3. split; [|split].
  - simpl. auto.
  - vm_compute. discriminate.
  - reflexivity.
Defined.

(* ------------------------------------------------------------------------- *)
(** ** The Z.prime supply *)

Lemma in_range2 : forall lo hi x, In x (range2 lo hi) <-> lo <= x < hi.
Proof.
  intros lo hi x. unfold range2. rewrite in_map_iff. split.
  - intros (k & Hk & Hin). apply in_seq in Hin. lia.
  - intros H. exists (Z.to_nat (x - lo)). split; [lia|].
    apply in_seq. lia.
Qed.

Lemma NoDup_map_inj : forall (A B : Type) (f : A -> B) (l : list A),
  (forall a b, f a = f b -> a = b) -> NoDup l -> NoDup (map f l).
Proof.
  intros A B f l Hinj Hnd. induction Hnd as [|x l Hx Hnd IH]; simpl; constructor; auto.
  rewrite in_map_iff. intros (y & Hy & Hin). apply Hinj in Hy. subst. contradiction.
Qed.

Lemma NoDup_range2 : forall lo hi, NoDup (range2 lo hi).
Proof.
  intros lo hi. unfold range2.
  apply NoDup_map_inj; [|apply seq_NoDup].
  intros a b H. lia.
Qed.

Lemma in_range3 : forall lo hi step x,
  In x (range3 lo hi step) -> exists k : nat, x = lo + Z.of_nat k * step.
Proof.
  intros lo hi step x H. unfold range3 in H. apply in_map_iff in H.
  destruct H as (k & Hk & _). exists k. auto.
Qed.

Lemma length_set_at : forall s i v, List.length (PrimeGenerator.set_at s i v) = List.length s.
Proof.
  induction s as [|b s IH]; intros [|i] v; simpl; auto.
Qed.

Lemma nth_set_at_other : forall s i j v d,
  i <> j -> nth i (PrimeGenerator.set_at s j v) d = nth i s d.
Proof.
  induction s as [|b s IH]; intros [|i] [|j] v d Hne; simpl; auto; contradiction.
Qed.

(** A sieve that still has every Z.prime up to [n] switched on *)
Definition keeps_primes (n : Z) (s : list bool) : Prop :=
  forall q, Z.prime q -> q <= n -> PrimeGenerator.get_at s q = true.

Lemma keeps_primes_set_at : forall n s m,
  keeps_primes n s -> ~ Z.prime m -> keeps_primes n (PrimeGenerator.set_at s (Z.to_nat m) false).
Proof.
  intros n s m Hk Hm q Hq Hle. unfold PrimeGenerator.get_at.
  rewrite nth_set_at_other; [apply Hk; auto|].
  pose proof (Z.prime_ge_2 q Hq). intros Heq.
  assert (m = q) by lia. subst. contradiction.
Qed.

Lemma multiple_not_prime : forall p (k : nat), 2 <= p -> ~ Z.prime (p * p + Z.of_nat k * p).
Proof.
  intros p k Hp Hprime.
  assert (Hdiv : (p | p * p + Z.of_nat k * p)).
  { exists (p + Z.of_nat k). ring. }
  destruct Hprime as [_ Hprime]. apply (Hprime p); [nia|assumption].
Qed.

Lemma keeps_primes_mark_multiples : forall n p s,
  2 <= p -> keeps_primes n s -> keeps_primes n (PrimeGenerator.mark_multiples n p s).
Proof.
  intros n p s Hp. unfold PrimeGenerator.mark_multiples.
  assert (H : forall l, (forall m, In m l -> ~ Z.prime m) ->
                        forall s, keeps_primes n s ->
                        keeps_primes n (fold_left (fun s m => PrimeGenerator.set_at s (Z.to_nat m) false) l s)).
  { induction l as [|m l IH]; intros Hl s0 Hs0; simpl; auto.
    apply IH; [intros; apply Hl; simpl; auto|].
    apply keeps_primes_set_at; auto. apply Hl. simpl. auto. }
  intros Hs. apply H; auto.
  intros m Hm. apply in_range3 in Hm. destruct Hm as (k & ->).
  apply multiple_not_prime. assumption.
Qed.

Lemma keeps_primes_run_sieve : forall n, keeps_primes n (PrimeGenerator.run_sieve n).
Proof.
  intros n. unfold PrimeGenerator.run_sieve.
  assert (H : forall l, (forall p, In p l -> 2 <= p) ->
                        forall s, keeps_primes n s ->
                        keeps_primes n (fold_left (PrimeGenerator.sieve_pass n) l s)).
  { induction l as [|p l IH]; intros Hl s Hs; simpl; auto.
    apply IH; [intros; apply Hl; simpl; auto|].
    unfold PrimeGenerator.sieve_pass.
    destruct (PrimeGenerator.get_at s p); auto.
    apply keeps_primes_mark_multiples; auto. apply Hl. simpl. auto. }
  apply H.
  - intros p Hp. apply in_range2 in Hp. lia.
  - intros q Hq Hle. pose proof (Z.prime_ge_2 q Hq) as Hge.
    unfold PrimeGenerator.get_at.
    rewrite !nth_set_at_other by lia.
    apply nth_repeat_lt. lia.
Qed.

(** Invariant of the generator: the list holds, without repetition, numbers
    between 2 and the sieve limit, among them every Z.prime up to the limit. *)
Record pg_wf (g : PrimeGenerator.t) : Prop := {
  pg_limit : 0 <= PrimeGenerator._sieve_limit g;
  pg_complete : forall q, Z.prime q -> q <= PrimeGenerator._sieve_limit g ->
                          In q (PrimeGenerator._primes g);
  pg_nodup : NoDup (PrimeGenerator._primes g);
  pg_bounds : forall p, In p (PrimeGenerator._primes g) ->
                        2 <= p <= PrimeGenerator._sieve_limit g
}.

Lemma generate_up_to_wf : forall n g, pg_wf g -> pg_wf (PrimeGenerator._generate_up_to n g).
Proof.
  intros n g [Hl Hc Hn Hb]. unfold PrimeGenerator._generate_up_to.
  destruct (Z.leb_spec n (PrimeGenerator._sieve_limit g)) as [Hle|Hgt].
  - constructor; auto.
  - constructor; simpl.
    + lia.
    + intros q Hq Hqn. apply in_or_app.
      destruct (Z_le_gt_dec q (PrimeGenerator._sieve_limit g)) as [H|H].
      * left. auto.
      * right. apply filter_In. split.
        -- apply in_range2. pose proof (Z.prime_ge_2 q Hq). lia.
        -- apply keeps_primes_run_sieve; auto.
    + apply NoDup_app; auto.
      * apply NoDup_filter. apply NoDup_range2.
      * intros a Ha Hin. apply filter_In in Hin. destruct Hin as [Hin _].
        apply in_range2 in Hin. apply Hb in Ha. lia.
    + intros p Hp. apply in_app_or in Hp. destruct Hp as [Hp|Hp].
      * apply Hb in Hp. lia.
      * apply filter_In in Hp. destruct Hp as [Hp _]. apply in_range2 in Hp. lia.
Qed.

Lemma generate_up_to_prefix : forall n g,
  exists ext, PrimeGenerator._primes (PrimeGenerator._generate_up_to n g)
              = (PrimeGenerator._primes g ++ ext)%list.
Proof.
  intros n g. unfold PrimeGenerator._generate_up_to.
  destruct (n <=? PrimeGenerator._sieve_limit g).
  - exists []. rewrite app_nil_r. reflexivity.
  - simpl. eexists. reflexivity.
Qed.

Lemma generate_up_to_limit : forall n g,
  PrimeGenerator._sieve_limit (PrimeGenerator._generate_up_to n g)
  = Z.max n (PrimeGenerator._sieve_limit g).
Proof.
  intros n g. unfold PrimeGenerator._generate_up_to.
  destruct (Z.leb_spec n (PrimeGenerator._sieve_limit g)); simpl; lia.
Qed.

Lemma pg_init_wf : forall n, pg_wf (PrimeGenerator.__init__ n).
Proof.
  intros n. unfold PrimeGenerator.__init__. apply generate_up_to_wf.
  constructor; simpl.
  - lia.
  - intros q Hq Hle. pose proof (Z.prime_ge_2 q Hq). lia.
  - constructor.
  - intros p [].
Qed.

(** What a completed [get] establishes *)
Lemma get_ok_spec : forall fuel g i p g',
  pg_wf g -> PrimeGenerator.get fuel g i = Ok (p, g') ->
  pg_wf g'
  /\ (exists ext, PrimeGenerator._primes g' = (PrimeGenerator._primes g ++ ext)%list)
  /\ nth_error (PrimeGenerator._primes g') i = Some p
  /\ ((i < List.length (PrimeGenerator._primes g))%nat -> g' = g).
Proof.
  induction fuel as [|f IH]; intros g i p g' Hwf H; simpl in H; [discriminate|].
  destruct (Nat.leb_spec (List.length (PrimeGenerator._primes g)) i) as [Hle|Hlt].
  - apply IH in H; [|apply generate_up_to_wf; assumption].
    destruct H as (Hwf' & (ext & Hext) & Hnth & _).
    split; [assumption|]. split; [|split; [assumption|lia]].
    destruct (generate_up_to_prefix
                (if PrimeGenerator._sieve_limit g * 2 =? 0 then 1000
                 else PrimeGenerator._sieve_limit g * 2) g) as (ext0 & Hext0).
    exists (ext0 ++ ext)%list. rewrite Hext, Hext0, app_assoc. reflexivity.
  - inversion H; subst. split; [assumption|]. split; [|split; [|reflexivity]].
    + exists []. rewrite app_nil_r. reflexivity.
    + apply nth_error_nth'. assumption.
Qed.

Lemma get_fast : forall f g i,
  (i < List.length (PrimeGenerator._primes g))%nat ->
  PrimeGenerator.get (S f) g i = Ok (nth i (PrimeGenerator._primes g) 0, g).
Proof.
  intros f g i Hlt. simpl.
  destruct (Nat.leb_spec (List.length (PrimeGenerator._primes g)) i); [lia|reflexivity].
Qed.

(** Infinitely many primes, after Euclid *)

Lemma prime_divisor_exists : forall n, 2 <= n -> exists p, Z.prime p /\ (p | n).
Proof.
  intros n Hn.
  assert (H : forall k : nat, forall m, 2 <= m -> m <= Z.of_nat k ->
                                        exists p, Z.prime p /\ (p | m)).
  { induction k as [|k IH]; intros m Hm Hk; [lia|].
    destruct (prime_dec m) as [Hp|Hnp].
    - exists m. split; [apply prime_alt; assumption|apply Z.divide_refl].
    - destruct (not_prime_divide m ltac:(lia) Hnp) as (d & Hd & Hdiv).
      destruct (IH d ltac:(lia) ltac:(lia)) as (p & Hp & Hpd).
      exists p. split; [assumption|]. eapply Z.divide_trans; eassumption. }
  apply (H (Z.to_nat n)); lia.
Qed.

Lemma divide_fact : forall (k d : nat), (1 <= d <= k)%nat -> Nat.divide d (fact k).
Proof.
  induction k as [|k IH]; intros d Hd; [lia|].
  change (fact (S k)) with (S k * fact k)%nat.
  destruct (Nat.eq_dec d (S k)) as [->|Hne].
  - apply Nat.divide_factor_l.
  - apply Nat.divide_mul_r. apply IH. lia.
Qed.

Lemma exists_prime_above : forall n, exists p, Z.prime p /\ n < p.
Proof.
  intros n.
  set (k := Z.to_nat n).
  pose proof (lt_O_fact k) as Hfact.
  destruct (prime_divisor_exists (Z.of_nat (fact k) + 1) ltac:(lia)) as (p & Hp & Hdiv).
  exists p. split; [assumption|].
  destruct (Z_lt_le_dec n p) as [|Hle]; [assumption|exfalso].
  pose proof (Z.prime_ge_2 p Hp) as Hge.
  assert (Hd : Nat.divide (Z.to_nat p) (fact k)) by (apply divide_fact; lia).
  destruct Hd as (c & Hc).
  assert (Hpf : (p | Z.of_nat (fact k))).
  { exists (Z.of_nat c). rewrite Hc. rewrite Nat2Z.inj_mul. rewrite Z2Nat.id by lia. reflexivity. }
  assert (H1 : (p | 1)).
  { replace 1 with ((Z.of_nat (fact k) + 1) - Z.of_nat (fact k)) by ring.
    apply Z.divide_sub_r; assumption. }
  apply Z.divide_1_r in H1. lia.
Qed.

Lemma many_primes : forall k : nat,
  exists l L, NoDup l /\ List.length l = k /\ (forall p, In p l -> Z.prime p /\ p <= L).
Proof.
  induction k as [|k (l & L & Hnd & Hlen & Hl)].
  - exists [], 0. split; [constructor|]. split; [reflexivity|]. intros p [].
  - destruct (exists_prime_above L) as (q & Hq & HLq).
    exists (q :: l), q. split; [|split].
    + constructor; auto. intros Hin. apply Hl in Hin. lia.
    + simpl. congruence.
    + intros p [<-|Hin]; [split; [assumption|lia]|].
      apply Hl in Hin. split; [tauto|lia].
Qed.

(** Beyond some limit the list has more than [k] entries *)
Lemma long_list_beyond : forall k : nat,
  exists L, 0 <= L /\
            forall g, pg_wf g -> L <= PrimeGenerator._sieve_limit g ->
                      (k < List.length (PrimeGenerator._primes g))%nat.
Proof.
  intros k. destruct (many_primes (S k)) as (l & L & Hnd & Hlen & Hl).
  exists (Z.max 0 L). split; [lia|]. intros g Hwf Hlim.
  assert (Hincl : incl l (PrimeGenerator._primes g)).
  { intros p Hp. apply Hl in Hp. apply (pg_complete g Hwf); [tauto|lia]. }
  apply NoDup_incl_length in Hincl; [|assumption]. lia.
Qed.

Lemma get_total_below : forall L (k : nat),
  (forall g, pg_wf g -> L <= PrimeGenerator._sieve_limit g ->
             (k < List.length (PrimeGenerator._primes g))%nat) ->
  forall (d : nat) g i fuel,
    pg_wf g -> (i <= k)%nat -> L - PrimeGenerator._sieve_limit g <= Z.of_nat d ->
    (S d <= fuel)%nat ->
    exists p g', PrimeGenerator.get fuel g i = Ok (p, g').
Proof.
  intros L k HL. induction d as [|d IH]; intros g i fuel Hwf Hi Hd Hfuel.
  - destruct fuel as [|f]; [lia|]. rewrite get_fast; [eauto|].
    specialize (HL g Hwf ltac:(lia)). lia.
  - destruct fuel as [|f]; [lia|]. simpl.
    destruct (Nat.leb_spec (List.length (PrimeGenerator._primes g)) i) as [Hle|Hlt]; [|eauto].
    apply IH; [apply generate_up_to_wf; assumption|assumption| |lia].
    rewrite generate_up_to_limit. pose proof (pg_limit g Hwf).
    destruct (Z.eqb_spec (PrimeGenerator._sieve_limit g * 2) 0); lia.
Qed.

(** [get] returns for every index, given enough fuel; the bound depends on
    the index only. *)
Lemma get_total : forall k : nat,
  exists F : nat, forall g i fuel,
    pg_wf g -> (i <= k)%nat -> (F <= fuel)%nat ->
    exists p g', PrimeGenerator.get fuel g i = Ok (p, g').
Proof.
  intros k. destruct (long_list_beyond k) as (L & HL0 & HL).
  exists (S (Z.to_nat L)). intros g i fuel Hwf Hi Hfuel.
  apply (get_total_below L k HL (Z.to_nat L)); auto.
  pose proof (pg_limit g Hwf). lia.
Qed.

(* ------------------------------------------------------------------------- *)
(** ** Strings and counting *)

Lemma lower_ascii_idem : forall c, lower_ascii (lower_ascii c) = lower_ascii c.
Proof.
  intros c. destruct c as [[] [] [] [] [] [] [] []]; vm_compute; reflexivity.
Qed.

Lemma lower_idem : forall s, lower (lower s) = lower s.
Proof.
  induction s as [|c s IH]; simpl; [reflexivity|].
  rewrite lower_ascii_idem, IH. reflexivity.
Qed.

Lemma mem_In : forall x s, mem x s = true <-> In x s.
Proof.
  intros x s. unfold mem. rewrite existsb_exists. split.
  - intros (y & Hy & Heq). apply String.eqb_eq in Heq. subst. assumption.
  - intros H. exists x. split; [assumption|apply String.eqb_refl].
Qed.

Lemma mem_false : forall x s, mem x s = false <-> ~ In x s.
Proof.
  intros x s. rewrite <- mem_In. destruct (mem x s); split; congruence.
Qed.

(** Shrinking a filter predicate shrinks the count, strictly when some
    listed element drops out. *)
Lemma filter_length_le : forall (A : Type) (f g : A -> bool) (l : list A),
  (forall y, In y l -> g y = true -> f y = true) ->
  (List.length (filter g l) <= List.length (filter f l))%nat.
Proof.
  intros A f g l. induction l as [|a l IH]; intros H; simpl; [lia|].
  assert (IH' := IH (fun y Hy => H y (or_intror Hy))).
  destruct (g a) eqn:Eg.
  - rewrite (H a (or_introl eq_refl) Eg). simpl. lia.
  - destruct (f a); simpl; lia.
Qed.

Lemma filter_length_lt : forall (A : Type) (f g : A -> bool) (l : list A) (x : A),
  In x l -> f x = true -> g x = false ->
  (forall y, In y l -> g y = true -> f y = true) ->
  (List.length (filter g l) < List.length (filter f l))%nat.
Proof.
  intros A f g l x. induction l as [|a l IH]; intros Hin Hf Hg H; simpl; [contradiction|].
  assert (Hle := filter_length_le A f g l (fun y Hy => H y (or_intror Hy))).
  destruct Hin as [->|Hin].
  - rewrite Hf, Hg. simpl. lia.
  - assert (IH' := IH Hin Hf Hg (fun y Hy => H y (or_intror Hy))).
    destruct (g a) eqn:Eg.
    + rewrite (H a (or_introl eq_refl) Eg). simpl. lia.
    + destruct (f a); simpl; lia.
Qed.

(** Number of entries of [U] not yet in the visited set [v] *)
Definition remaining (U v : list string) : nat :=
  List.length (filter (fun k => negb (mem k v)) U).

Lemma remaining_incl : forall U v v', incl v v' -> (remaining U v' <= remaining U v)%nat.
Proof.
  intros U v v' Hincl. unfold remaining. apply filter_length_le.
  intros y _ Hy. apply negb_true_iff in Hy. apply negb_true_iff.
  apply mem_false. apply mem_false in Hy. auto.
Qed.

Lemma remaining_cons : forall U v v' x,
  In x U -> ~ In x v -> incl (x :: v) v' -> (remaining U v' < remaining U v)%nat.
Proof.
  intros U v v' x HU Hx Hincl. unfold remaining. apply (filter_length_lt _ _ _ _ x); auto.
  - apply negb_true_iff. apply mem_false. assumption.
  - apply negb_false_iff. apply mem_In. apply Hincl. simpl. auto.
  - intros y _ Hy. apply negb_true_iff in Hy. apply negb_true_iff.
    apply mem_false. apply mem_false in Hy. intros Hin. apply Hy. apply Hincl. simpl. auto.
Qed.

Lemma remaining_le_length : forall U v, (remaining U v <= List.length U)%nat.
Proof.
  intros U v. unfold remaining.
  induction U as [|a U IH]; simpl; [lia|].
  destruct (negb (mem a v)); simpl; lia.
Qed.

(* ------------------------------------------------------------------------- *)
(** ** The concept registry *)

Abbreviation c2p_get := PrimeEncoder.c2p_get.
Abbreviation p2c_get := PrimeEncoder.p2c_get.

(** Invariant of an encoder: the generator is sound, every index handed out
    is within the list, the two registry maps are inverse to each other on
    lower-case names, and the primes in use are exactly those handed out. *)
Record enc_wf (e : PrimeEncoder.t) : Prop := {
  ew_pg : pg_wf (PrimeEncoder.prime_gen e);
  ew_index : (PrimeEncoder._next_index e
              <= List.length (PrimeGenerator._primes (PrimeEncoder.prime_gen e)))%nat;
  ew_p2c : forall p name, p2c_get e p = Some name -> c2p_get e name = Some p /\ lower name = name;
  ew_c2p : forall name p, c2p_get e name = Some p -> p2c_get e p = Some name;
  ew_used : forall p name, p2c_get e p = Some name ->
              exists i, (i < PrimeEncoder._next_index e)%nat
                        /\ nth_error (PrimeGenerator._primes (PrimeEncoder.prime_gen e)) i = Some p
}.

(** The registry of [e'] extends that of [e] *)
Record reg_le (e e' : PrimeEncoder.t) : Prop := {
  rl_c2p : forall name p, c2p_get e name = Some p -> c2p_get e' name = Some p;
  rl_p2c : forall p name, p2c_get e p = Some name -> p2c_get e' p = Some name;
  rl_sign : PrimeEncoder.sign_prime e' = PrimeEncoder.sign_prime e;
  rl_index : (PrimeEncoder._next_index e <= PrimeEncoder._next_index e')%nat
}.

Lemma reg_le_refl : forall e, reg_le e e.
Proof. intros e. constructor; auto. Qed.

Lemma reg_le_trans : forall e1 e2 e3, reg_le e1 e2 -> reg_le e2 e3 -> reg_le e1 e3.
Proof.
  intros e1 e2 e3 [A1 B1 C1 D1] [A2 B2 C2 D2]. constructor; auto.
  - congruence.
  - lia.
Qed.

(** What [_assign_prime] does to a sound encoder when the concept is a new,
    lower-case name *)
Lemma assign_prime_spec : forall fuel e concept p e',
  enc_wf e -> c2p_get e concept = None -> lower concept = concept ->
  PrimeEncoder._assign_prime fuel e concept = Ok (p, e') ->
  enc_wf e' /\ reg_le e e'
  /\ c2p_get e' concept = Some p
  /\ p2c_get e p = None
  /\ PrimeEncoder._next_index e' = S (PrimeEncoder._next_index e)
  /\ (forall n q, c2p_get e' n = Some q -> n = concept \/ c2p_get e n = Some q)
  /\ (forall q n, p2c_get e' q = Some n -> n = concept \/ p2c_get e q = Some n).
Proof.
  intros fuel e concept p e' Hwf Hnew Hlow H.
  unfold PrimeEncoder._assign_prime in H.
  destruct (PrimeGenerator.get fuel (PrimeEncoder.prime_gen e) (PrimeEncoder._next_index e))
    as [[p0 g]| |] eqn:Hget; simpl in H; try discriminate.
  inversion H; subst p0 e'; clear H.
  destruct (get_ok_spec _ _ _ _ _ (ew_pg e Hwf) Hget) as (Hpg & (ext & Hext) & Hnth & _).
  assert (Hfresh : p2c_get e p = None).
  { destruct (p2c_get e p) as [n|] eqn:E; [|reflexivity]. exfalso.
    destruct (ew_used e Hwf p n E) as (i & Hi & Hith).
    assert (Hith' : nth_error (PrimeGenerator._primes g) i = Some p).
    { rewrite Hext. rewrite nth_error_app1; [assumption|]. pose proof (ew_index e Hwf). lia. }
    pose proof (pg_nodup g Hpg) as Hnd.
    rewrite NoDup_nth_error in Hnd.
    assert (i = PrimeEncoder._next_index e).
    { apply Hnd; [|congruence]. apply nth_error_Some. congruence. }
    lia. }
  assert (Hc2p' : forall n,
             c2p_get {| PrimeEncoder.prime_gen := g;
                        PrimeEncoder._concept_to_prime :=
                          Dict.set String.eqb (PrimeEncoder._concept_to_prime e) concept p;
                        PrimeEncoder._prime_to_concept :=
                          Dict.set Z.eqb (PrimeEncoder._prime_to_concept e) p concept;
                        PrimeEncoder._next_index := S (PrimeEncoder._next_index e);
                        PrimeEncoder.sign_prime := PrimeEncoder.sign_prime e |} n
             = if String.eqb n concept then Some p else c2p_get e n).
  { intros n. unfold c2p_get. simpl.
    destruct (String.eqb_spec n concept) as [->|Hne].
    - apply (get_set_same String.eqb String.eqb_eq).
    - apply (get_set_other String.eqb String.eqb_eq). assumption. }
  assert (Hp2c' : forall q,
             p2c_get {| PrimeEncoder.prime_gen := g;
                        PrimeEncoder._concept_to_prime :=
                          Dict.set String.eqb (PrimeEncoder._concept_to_prime e) concept p;
                        PrimeEncoder._prime_to_concept :=
                          Dict.set Z.eqb (PrimeEncoder._prime_to_concept e) p concept;
                        PrimeEncoder._next_index := S (PrimeEncoder._next_index e);
                        PrimeEncoder.sign_prime := PrimeEncoder.sign_prime e |} q
             = if Z.eqb q p then Some concept else p2c_get e q).
  { intros q. unfold p2c_get. simpl.
    destruct (Z.eqb_spec q p) as [->|Hne].
    - apply (get_set_same Z.eqb Z.eqb_eq).
    - apply (get_set_other Z.eqb Z.eqb_eq). assumption. }
  split; [|split; [|split; [|split; [|split; [|split]]]]].
  - constructor; simpl.
    + assumption.
    + apply Nat.le_succ_l. apply nth_error_Some. congruence.
    + intros q n Hq. rewrite Hp2c' in Hq. rewrite (Hc2p' n).
      destruct (Z.eqb_spec q p) as [->|Hne].
      * inversion Hq; subst n. rewrite String.eqb_refl. auto.
      * destruct (ew_p2c e Hwf q n Hq) as (Hc & Hl). split; [|assumption].
        destruct (String.eqb_spec n concept) as [->|]; [congruence|assumption].
    + intros n q Hn. rewrite (Hc2p' n) in Hn. rewrite Hp2c'.
      destruct (String.eqb_spec n concept) as [->|Hne].
      * inversion Hn; subst q. rewrite Z.eqb_refl. reflexivity.
      * pose proof (ew_c2p e Hwf n q Hn) as Hq.
        destruct (Z.eqb_spec q p) as [->|]; [congruence|assumption].
    + intros q n Hq. rewrite Hp2c' in Hq.
      destruct (Z.eqb_spec q p) as [->|Hne].
      * exists (PrimeEncoder._next_index e). split; [lia|assumption].
      * destruct (ew_used e Hwf q n Hq) as (i & Hi & Hith).
        exists i. split; [lia|]. rewrite Hext. rewrite nth_error_app1; [assumption|].
        pose proof (ew_index e Hwf). lia.
  - constructor; simpl; auto.
    + intros n q Hn. rewrite (Hc2p' n).
      destruct (String.eqb_spec n concept) as [->|]; [congruence|assumption].
    + intros q n Hq. rewrite Hp2c'.
      destruct (Z.eqb_spec q p) as [->|]; [congruence|assumption].
  - rewrite (Hc2p' concept). rewrite String.eqb_refl. reflexivity.
  - assumption.
  - reflexivity.
  - intros n q Hn. rewrite (Hc2p' n) in Hn.
    destruct (String.eqb_spec n concept); auto.
  - intros q n Hq. rewrite Hp2c' in Hq.
    destruct (Z.eqb_spec q p); [inversion Hq|]; auto.
Qed.

(** A registered name is looked up without touching the encoder *)
Lemma get_prime_known : forall fuel e x p,
  c2p_get e (lower x) = Some p -> PrimeEncoder.get_prime fuel e x = Ok (p, e).
Proof.
  intros fuel e x p H. unfold PrimeEncoder.get_prime. rewrite H. reflexivity.
Qed.

Lemma get_prime_spec : forall fuel e x p e',
  enc_wf e -> PrimeEncoder.get_prime fuel e x = Ok (p, e') ->
  enc_wf e' /\ reg_le e e' /\ c2p_get e' (lower x) = Some p
  /\ (e' = e \/
      (c2p_get e (lower x) = None
       /\ p2c_get e p = None
       /\ PrimeEncoder._next_index e' = S (PrimeEncoder._next_index e)
       /\ (forall n q, c2p_get e' n = Some q -> n = lower x \/ c2p_get e n = Some q)
       /\ (forall q n, p2c_get e' q = Some n -> n = lower x \/ p2c_get e q = Some n))).
Proof.
  intros fuel e x p e' Hwf H. unfold PrimeEncoder.get_prime in H.
  destruct (c2p_get e (lower x)) as [p0|] eqn:E.
  - inversion H; subst. split; [assumption|]. split; [apply reg_le_refl|]. auto.
  - destruct (assign_prime_spec fuel e (lower x) p e' Hwf E (lower_idem x) H)
      as (H1 & H2 & H3 & H4 & H5 & H6 & H7).
    split; [assumption|]. split; [assumption|]. split; [assumption|].
    right. auto.
Qed.

Lemma get_prime_total : forall (k F : nat),
  (forall g i fuel, pg_wf g -> (i <= k)%nat -> (F <= fuel)%nat ->
                    exists p g', PrimeGenerator.get fuel g i = Ok (p, g')) ->
  forall fuel e x, enc_wf e -> (PrimeEncoder._next_index e <= k)%nat -> (F <= fuel)%nat ->
                   exists p e', PrimeEncoder.get_prime fuel e x = Ok (p, e').
Proof.
  intros k F HF fuel e x Hwf Hk Hfuel. unfold PrimeEncoder.get_prime.
  destruct (c2p_get e (lower x)) as [p|]; [eauto|].
  unfold PrimeEncoder._assign_prime.
  destruct (HF (PrimeEncoder.prime_gen e) (PrimeEncoder._next_index e) fuel
               (ew_pg e Hwf) Hk Hfuel) as (p & g' & ->).
  simpl. eauto.
Qed.

Lemma init_spec : forall fuel e, PrimeEncoder.__init__ fuel = Ok e -> enc_wf e.
Proof.
  intros fuel e H. unfold PrimeEncoder.__init__ in H.
  pose proof (pg_init_wf 1000) as Hg. revert H Hg.
  generalize (PrimeGenerator.__init__ 1000). intros g H Hg.
  match type of H with
  | bind (PrimeEncoder._assign_prime _ ?e0 _) _ = _ => set (e0' := e0) in H
  end.
  assert (Hwf0 : enc_wf e0').
  { constructor; simpl.
    - assumption.
    - lia.
    - intros p n Hp. discriminate.
    - intros n p Hn. discriminate.
    - intros p n Hp. discriminate. }
  destruct (PrimeEncoder._assign_prime fuel e0' "_sign") as [[p e1]| |] eqn:E;
    simpl in H; try discriminate.
  inversion H; subst e; clear H.
  destruct (assign_prime_spec fuel e0' "_sign" p e1 Hwf0 eq_refl eq_refl E) as (Hwf1 & _).
  destruct Hwf1 as [A B C D F]. constructor; auto.
Qed.

(* ------------------------------------------------------------------------- *)
(** ** Knowledge bases: invariant and extension *)

Abbreviation KB := KnowledgeBase.t.

(** The three stored lists of [kb'] are those of [kb] *)
Definition same_store (kb kb' : KB) : Prop :=
  KnowledgeBase.facts kb' = KnowledgeBase.facts kb
  /\ KnowledgeBase.fact_encodings kb' = KnowledgeBase.fact_encodings kb
  /\ KnowledgeBase.rules kb' = KnowledgeBase.rules kb.

(** [kb'] is [kb] after some concepts were interned *)
Record ext (kb kb' : KB) : Prop := {
  ext_store : same_store kb kb';
  ext_reg : reg_le (KnowledgeBase.encoder kb) (KnowledgeBase.encoder kb')
}.

Lemma ext_refl : forall kb, ext kb kb.
Proof. intros kb. constructor; [repeat split|apply reg_le_refl]. Qed.

Lemma ext_trans : forall a b c, ext a b -> ext b c -> ext a c.
Proof.
  intros a b c [(A1 & A2 & A3) R1] [(B1 & B2 & B3) R2]. constructor.
  - repeat split; congruence.
  - eapply reg_le_trans; eassumption.
Qed.

(** Invariant of a knowledge base: its encoder is sound, the category of
    every universal or capability rule is a registered concept, and a store
    holding a universal rule has the concept [is] registered. Established by
    the constructor and kept by [add_fact], [add_rule] and [deduce]. *)
Record kb_wf (kb : KB) : Prop := {
  kw_enc : enc_wf (KnowledgeBase.encoder kb);
  kw_rules : forall ty cat prop pred ce cc,
      In (Quantified ty cat prop pred ce cc) (KnowledgeBase.rules kb) ->
      p2c_get (KnowledgeBase.encoder kb) cat <> None
      /\ (ty = "universal" -> c2p_get (KnowledgeBase.encoder kb) "is" <> None)
}.

Lemma kb_wf_ext : forall kb kb',
  kb_wf kb -> ext kb kb' -> enc_wf (KnowledgeBase.encoder kb') -> kb_wf kb'.
Proof.
  intros kb kb' [He Hr] [(S1 & S2 & S3) R] He'. constructor; [assumption|].
  intros ty cat prop pred ce cc Hin. rewrite S3 in Hin.
  destruct (Hr _ _ _ _ _ _ Hin) as (Hcat & His). split.
  - destruct (p2c_get (KnowledgeBase.encoder kb) cat) as [n|] eqn:E; [|congruence].
    rewrite (rl_p2c _ _ R _ _ E). discriminate.
  - intros Hty. specialize (His Hty).
    destruct (c2p_get (KnowledgeBase.encoder kb) "is") as [p|] eqn:E; [|congruence].
    rewrite (rl_c2p _ _ R _ _ E). discriminate.
Qed.

Lemma with_encoder_ext : forall kb e,
  reg_le (KnowledgeBase.encoder kb) e -> ext kb (KnowledgeBase.with_encoder kb e).
Proof. intros kb e H. constructor; [repeat split|exact H]. Qed.

(** [name] is a registered concept of [kb] *)
Definition registered (kb : KB) (name : string) : Prop :=
  c2p_get (KnowledgeBase.encoder kb) (lower name) <> None.

Lemma registered_ext : forall kb kb' x, ext kb kb' -> registered kb x -> registered kb' x.
Proof.
  intros kb kb' x [_ R] H. unfold registered in *.
  destruct (c2p_get (KnowledgeBase.encoder kb) (lower x)) as [p|] eqn:E; [|congruence].
  rewrite (rl_c2p _ _ R _ _ E). discriminate.
Qed.

(** Partial-correctness facts about the knowledge-base wrappers *)

Lemma kb_get_prime_spec : forall fuel kb x p kb',
  kb_wf kb -> KnowledgeBase.get_prime fuel kb x = Ok (p, kb') ->
  kb_wf kb' /\ ext kb kb' /\ c2p_get (KnowledgeBase.encoder kb') (lower x) = Some p.
Proof.
  intros fuel kb x p kb' Hwf H. unfold KnowledgeBase.get_prime in H.
  destruct (PrimeEncoder.get_prime fuel (KnowledgeBase.encoder kb) x) as [[p0 e]| |] eqn:E;
    simpl in H; try discriminate.
  inversion H; subst p0 kb'; clear H.
  destruct (get_prime_spec _ _ _ _ _ (kw_enc kb Hwf) E) as (He & Hle & Hc & _).
  assert (Hext : ext kb (KnowledgeBase.with_encoder kb e)) by (apply with_encoder_ext; assumption).
  split; [|split; [assumption|exact Hc]].
  eapply kb_wf_ext; eauto.
Qed.

Lemma kb_encode_symbol_spec : forall fuel kb x m kb',
  kb_wf kb -> KnowledgeBase.encode_symbol fuel kb x = Ok (m, kb') ->
  kb_wf kb' /\ ext kb kb' /\ registered kb' x.
Proof.
  intros fuel kb x m kb' Hwf H. unfold KnowledgeBase.encode_symbol, PrimeEncoder.encode_symbol in H.
  destruct (PrimeEncoder.get_prime fuel (KnowledgeBase.encoder kb) x) as [[p0 e]| |] eqn:E;
    simpl in H; try discriminate.
  inversion H; subst m kb'; clear H.
  destruct (get_prime_spec _ _ _ _ _ (kw_enc kb Hwf) E) as (He & Hle & Hc & _).
  assert (Hext : ext kb (KnowledgeBase.with_encoder kb e)) by (apply with_encoder_ext; assumption).
  split; [|split; [assumption|]].
  - eapply kb_wf_ext; eauto.
  - unfold registered. simpl. rewrite Hc. discriminate.
Qed.

Lemma kb_encode_fact_spec : forall fuel kb f m kb',
  kb_wf kb -> KnowledgeBase.encode_fact fuel kb f = Ok (m, kb') ->
  kb_wf kb' /\ ext kb kb'
  /\ registered kb' (Fact.subject f) /\ registered kb' (Fact.predicate f)
  /\ registered kb' (Fact.object f).
Proof.
  intros fuel kb f m kb' Hwf H. unfold KnowledgeBase.encode_fact in H.
  destruct (KnowledgeBase.encode_symbol fuel kb (Fact.subject f)) as [[m1 kb1]| |] eqn:E1;
    simpl in H; try discriminate.
  destruct (KnowledgeBase.encode_symbol fuel kb1 (Fact.predicate f)) as [[m2 kb2]| |] eqn:E2;
    simpl in H; try discriminate.
  destruct (KnowledgeBase.encode_symbol fuel kb2 (Fact.object f)) as [[m3 kb3]| |] eqn:E3;
    simpl in H; try discriminate.
  inversion H; subst m kb'; clear H.
  destruct (kb_encode_symbol_spec _ _ _ _ _ Hwf E1) as (W1 & X1 & R1).
  destruct (kb_encode_symbol_spec _ _ _ _ _ W1 E2) as (W2 & X2 & R2).
  destruct (kb_encode_symbol_spec _ _ _ _ _ W2 E3) as (W3 & X3 & R3).
  split; [assumption|]. split; [eauto using ext_trans|].
  split; [|split]; eauto using registered_ext, ext_trans.
Qed.

Lemma kb_init_wf : forall e, enc_wf e -> kb_wf (KnowledgeBase.__init__ e).
Proof.
  intros e He. constructor; [exact He|]. intros ty cat prop pred ce cc [].
Qed.

Lemma add_fact_wf : forall fuel kb f m kb',
  kb_wf kb -> KnowledgeBase.add_fact fuel kb f = Ok (m, kb') -> kb_wf kb'.
Proof.
  intros fuel kb f m kb' Hwf H. unfold KnowledgeBase.add_fact in H.
  destruct (KnowledgeBase.encode_fact fuel kb f) as [[m1 kb1]| |] eqn:E;
    simpl in H; try discriminate.
  inversion H; subst m kb'; clear H.
  destruct (kb_encode_fact_spec _ _ _ _ _ Hwf E) as ([He Hr] & _).
  constructor; simpl; assumption.
Qed.

Lemma append_standard_wf : forall kb conds concl,
  kb_wf kb -> kb_wf (KnowledgeBase.append_rule kb (Standard conds concl)).
Proof.
  intros kb conds concl [He Hr]. constructor; simpl; [assumption|].
  intros ty cat prop pred ce cc Hin. apply in_app_or in Hin.
  destruct Hin as [Hin|[Hin|[]]]; [eauto|discriminate].
Qed.

Lemma kb_get_prime_opt_spec : forall fuel kb x p kb',
  kb_wf kb -> KnowledgeBase.get_prime_opt fuel kb x = Ok (p, kb') ->
  kb_wf kb' /\ ext kb kb' /\ p2c_get (KnowledgeBase.encoder kb') p <> None.
Proof.
  intros fuel kb [x|] p kb' Hwf H; simpl in H; [|discriminate].
  destruct (kb_get_prime_spec _ _ _ _ _ Hwf H) as (W & X & Hc).
  split; [assumption|]. split; [assumption|].
  rewrite (ew_c2p _ (kw_enc _ W) _ _ Hc). discriminate.
Qed.

Lemma add_rule_wf : forall fuel kb r er kb',
  kb_wf kb -> KnowledgeBase.add_rule fuel kb r = Ok (er, kb') -> kb_wf kb'.
Proof.
  intros fuel kb r er kb' Hwf H. unfold KnowledgeBase.add_rule in H.
  destruct ((Rule.type r =? "universal")%string || (Rule.type r =? "capability")%string).
  - destruct (Rule.conditions r) as [|cond0 rest]; [discriminate|].
    destruct (KnowledgeBase.encode_fact fuel kb cond0) as [[m1 kb1]| |] eqn:E1;
      simpl in H; try discriminate.
    destruct (KnowledgeBase.encode_fact fuel kb1 (Rule.conclusion r)) as [[m2 kb2]| |] eqn:E2;
      simpl in H; try discriminate.
    destruct (KnowledgeBase.get_prime_opt fuel kb2 (Rule.category r)) as [[cat kb3]| |] eqn:E3;
      simpl in H; try discriminate.
    destruct (kb_encode_fact_spec _ _ _ _ _ Hwf E1) as (W1 & _).
    destruct (kb_encode_fact_spec _ _ _ _ _ W1 E2) as (W2 & _).
    destruct (kb_get_prime_opt_spec _ _ _ _ _ W2 E3) as (W3 & _ & Hcat).
    match type of H with
    | bind ?m _ = _ => destruct m as [[prop kb4]| |] eqn:E4; simpl in H; try discriminate
    end.
    assert (W4 : kb_wf kb4 /\ ext kb3 kb4).
    { destruct (Rule.type r =? "universal")%string;
        destruct (kb_get_prime_opt_spec _ _ _ _ _ W3 E4) as (W & X & _); auto. }
    destruct W4 as (W4 & X4).
    match type of H with
    | bind ?m _ = _ => destruct m as [[pred kb5]| |] eqn:E5; simpl in H; try discriminate
    end.
    inversion H; subst er kb'; clear H.
    assert (W5 : kb_wf kb5 /\ ext kb4 kb5
                 /\ (Rule.type r = "universal" ->
                     c2p_get (KnowledgeBase.encoder kb5) "is" <> None)).
    { destruct (String.eqb_spec (Rule.type r) "universal") as [Hu|Hu].
      - destruct (kb_get_prime_spec _ _ _ _ _ W4 E5) as (W & X & Hc).
        split; [assumption|]. split; [assumption|]. intros _.
        change (lower "is") with "is" in Hc. rewrite Hc. discriminate.
      - destruct (kb_get_prime_spec _ _ _ _ _ W4 E5) as (W & X & Hc).
        split; [assumption|]. split; [assumption|]. intros Hu'. contradiction. }
    destruct W5 as (W5 & X5 & His).
    constructor; simpl; [apply W5|].
    intros ty c p q ce cc Hin. apply in_app_or in Hin. destruct Hin as [Hin|[Hin|[]]].
    + apply (kw_rules _ W5 _ _ _ _ _ _ Hin).
    + inversion Hin; subst. split; [|assumption].
      assert (X35 : ext kb3 kb5) by (eapply ext_trans; eassumption).
      destruct (p2c_get (KnowledgeBase.encoder kb3) c) as [n|] eqn:E; [|congruence].
      rewrite (rl_p2c _ _ (ext_reg _ _ X35) _ _ E). discriminate.
  - destruct (KnowledgeBase.encode_facts fuel kb (Rule.conditions r)) as [[encs kb1]| |] eqn:E1;
      simpl in H; try discriminate.
    assert (W1 : kb_wf kb1).
    { clear H. revert kb encs kb1 Hwf E1.
      induction (Rule.conditions r) as [|c conds IH]; intros kb encs kb1 Hwf E1; simpl in E1.
      - inversion E1; subst. assumption.
      - destruct (KnowledgeBase.encode_fact fuel kb c) as [[m0 kb0]| |] eqn:E0;
          simpl in E1; try discriminate.
        destruct (KnowledgeBase.encode_facts fuel kb0 conds) as [[ms kb2]| |] eqn:E2;
          simpl in E1; try discriminate.
        inversion E1; subst.
        destruct (kb_encode_fact_spec _ _ _ _ _ Hwf E0) as (W0 & _).
        eapply IH; eassumption. }
    destruct (KnowledgeBase.encode_fact fuel kb1 (Rule.conclusion r)) as [[m2 kb2]| |] eqn:E2;
      simpl in H; try discriminate.
    inversion H; subst er kb'; clear H.
    destruct (kb_encode_fact_spec _ _ _ _ _ W1 E2) as (W2 & _).
    apply append_standard_wf. assumption.
Qed.

(* ------------------------------------------------------------------------- *)
(** ** Running the reasoner inside a finite universe of names

    [N] is a finite set of names closed under lower-casing that contains the
    names a search can meet, [K] bounds the number of registry entries the
    search can reach and [G] is fuel enough for the generator to hand out any
    of the first [K + 1] primes. *)

Section Run.
Variables (N : list string) (K G : nat).
Hypothesis N_lower : forall x, In x N -> In (lower x) N.
Hypothesis N_is : In "is" N.
Hypothesis G_get : forall g i fuel,
  pg_wf g -> (i <= K)%nat -> (G <= fuel)%nat ->
  exists p g', PrimeGenerator.get fuel g i = Ok (p, g').

(** Names of [N] that are not registered yet *)
Definition unreg (e : PrimeEncoder.t) : nat :=
  List.length (filter (fun n => negb (Dict.contains String.eqb (PrimeEncoder._concept_to_prime e) n)) N).

Record Inv (kb : KB) : Prop := {
  inv_wf : kb_wf kb;
  inv_bound : (PrimeEncoder._next_index (KnowledgeBase.encoder kb)
               + unreg (KnowledgeBase.encoder kb) <= K)%nat;
  inv_names : forall p n, p2c_get (KnowledgeBase.encoder kb) p = Some n -> In n N;
  inv_facts : forall f, In f (KnowledgeBase.facts kb) -> In (Fact.object f) N
}.

Definition names_ok (q : Fact.t) : Prop :=
  In (Fact.subject q) N /\ In (Fact.predicate q) N /\ In (Fact.object q) N.

Lemma contains_c2p : forall e n,
  Dict.contains String.eqb (PrimeEncoder._concept_to_prime e) n = true <-> c2p_get e n <> None.
Proof.
  intros e n. unfold Dict.contains, c2p_get.
  destruct (Dict.get String.eqb (PrimeEncoder._concept_to_prime e) n); split; congruence.
Qed.

Lemma run_get_prime : forall fuel kb x,
  Inv kb -> In x N -> (G <= fuel)%nat ->
  exists p kb', KnowledgeBase.get_prime fuel kb x = Ok (p, kb')
                /\ Inv kb' /\ ext kb kb'
                /\ c2p_get (KnowledgeBase.encoder kb') (lower x) = Some p.
Proof.
  intros fuel kb x [Hwf Hb Hn Hf] Hx Hfuel.
  assert (Hk : (PrimeEncoder._next_index (KnowledgeBase.encoder kb) <= K)%nat) by lia.
  destruct (get_prime_total K G G_get fuel _ x (kw_enc kb Hwf) Hk Hfuel) as (p & e' & E).
  exists p, (KnowledgeBase.with_encoder kb e').
  unfold KnowledgeBase.get_prime. rewrite E. simpl.
  destruct (get_prime_spec _ _ _ _ _ (kw_enc kb Hwf) E) as (He & Hle & Hc & Hcase).
  assert (Hext : ext kb (KnowledgeBase.with_encoder kb e')) by (apply with_encoder_ext; assumption).
  split; [reflexivity|]. split; [|split; [assumption|exact Hc]].
  constructor; simpl.
  - eapply kb_wf_ext; eauto.
  - destruct Hcase as [->|(Hnone & _ & Hidx & _)]; [assumption|].
    rewrite Hidx.
    assert (unreg e' < unreg (KnowledgeBase.encoder kb))%nat; [|lia].
    unfold unreg. apply (filter_length_lt _ _ _ _ (lower x)).
    + apply N_lower. assumption.
    + apply negb_true_iff. destruct (Dict.contains String.eqb _ (lower x)) eqn:Ec; [|reflexivity].
      apply contains_c2p in Ec. congruence.
    + apply negb_false_iff. apply contains_c2p. congruence.
    + intros y _ Hy. apply negb_true_iff in Hy. apply negb_true_iff.
      destruct (Dict.contains String.eqb (PrimeEncoder._concept_to_prime (KnowledgeBase.encoder kb)) y) eqn:Ec;
        [|reflexivity].
      apply contains_c2p in Ec.
      destruct (c2p_get (KnowledgeBase.encoder kb) y) as [q|] eqn:Eq; [|congruence].
      pose proof (rl_c2p _ _ Hle _ _ Eq) as Hq.
      assert (Dict.contains String.eqb (PrimeEncoder._concept_to_prime e') y = true)
        by (apply contains_c2p; congruence).
      congruence.
  - intros q n Hq. destruct Hcase as [->|(_ & _ & _ & _ & Hp2c)]; [eauto|].
    destruct (Hp2c q n Hq) as [->|Hold]; [apply N_lower; assumption|eauto].
  - assumption.
Qed.

Lemma run_encode_symbol : forall fuel kb x,
  Inv kb -> In x N -> (G <= fuel)%nat ->
  exists m kb', KnowledgeBase.encode_symbol fuel kb x = Ok (m, kb')
                /\ Inv kb' /\ ext kb kb' /\ registered kb' x.
Proof.
  intros fuel kb x HI Hx Hfuel.
  destruct (run_get_prime fuel kb x HI Hx Hfuel) as (p & kb' & E & HI' & Hext & Hc).
  unfold KnowledgeBase.get_prime in E.
  unfold KnowledgeBase.encode_symbol, PrimeEncoder.encode_symbol.
  destruct (PrimeEncoder.get_prime fuel (KnowledgeBase.encoder kb) x) as [[p0 e]| |];
    simpl in E; try discriminate.
  inversion E; subst p0 kb'; clear E. simpl.
  eexists. eexists. split; [reflexivity|]. split; [assumption|]. split; [assumption|].
  unfold registered. rewrite Hc. discriminate.
Qed.

Lemma run_encode_fact : forall fuel kb f,
  Inv kb -> names_ok f -> (G <= fuel)%nat ->
  exists m kb', KnowledgeBase.encode_fact fuel kb f = Ok (m, kb')
                /\ Inv kb' /\ ext kb kb'
                /\ registered kb' (Fact.subject f) /\ registered kb' (Fact.predicate f)
                /\ registered kb' (Fact.object f).
Proof.
  intros fuel kb f HI (Hs & Hp & Ho) Hfuel. unfold KnowledgeBase.encode_fact.
  destruct (run_encode_symbol fuel kb _ HI Hs Hfuel) as (m1 & kb1 & -> & I1 & X1 & R1). simpl.
  destruct (run_encode_symbol fuel kb1 _ I1 Hp Hfuel) as (m2 & kb2 & -> & I2 & X2 & R2). simpl.
  destruct (run_encode_symbol fuel kb2 _ I2 Ho Hfuel) as (m3 & kb3 & -> & I3 & X3 & R3). simpl.
  eexists. eexists. split; [reflexivity|]. split; [assumption|].
  split; [eauto using ext_trans|].
  split; [|split]; eauto using registered_ext, ext_trans.
Qed.

Lemma decode_fact_names : forall kb enc f,
  Inv kb -> ReasoningEngine._decode_fact enc kb = Some f -> names_ok f.
Proof.
  intros kb enc f HI H. unfold ReasoningEngine._decode_fact in H.
  destruct (flat_map _ enc) as [|s [|p [|o [|]]]]; try discriminate.
  destruct (p2c_get (KnowledgeBase.encoder kb) s) as [sub|] eqn:Es; [|discriminate].
  destruct (p2c_get (KnowledgeBase.encoder kb) p) as [prd|] eqn:Ep; [|discriminate].
  destruct (p2c_get (KnowledgeBase.encoder kb) o) as [obj|] eqn:Eo; [|discriminate].
  destruct (truthy sub && truthy prd && truthy obj); [|discriminate].
  inversion H; subst f. unfold names_ok. simpl.
  repeat split; eapply (inv_names kb HI); eassumption.
Qed.

(** *** The chain search terminates *)

Section Chain.
Variable target : string.

(** What a found chain tells about the registry *)
Definition chain_post (kb' : KB) (s : string) (res : option (list string)) : Prop :=
  forall l, res = Some l ->
            s = target
            \/ (registered kb' s
                /\ c2p_get (KnowledgeBase.encoder kb') "is" <> None
                /\ registered kb' target).

Definition ChainRec : Type :=
  KB -> string -> list string -> outcome (option (list string) * KB * list string).

Definition good_chain_rec (m : nat) (rec : ChainRec) : Prop :=
  forall kb s v, Inv kb -> In s N -> (remaining N v <= m)%nat ->
    exists res kb' v', rec kb s v = Ok (res, kb', v')
                       /\ Inv kb' /\ ext kb kb' /\ incl v v' /\ chain_post kb' s res.

Lemma run_chain_loop : forall m rec, good_chain_rec m rec ->
  forall rules kb subj subj_prime v,
    Inv kb -> incl rules (KnowledgeBase.rules kb) -> registered kb subj ->
    (remaining N v <= m)%nat ->
    exists res kb' v',
      ReasoningEngine.chain_loop rec rules kb subj subj_prime v = Ok (res, kb', v')
      /\ Inv kb' /\ ext kb kb' /\ incl v v'
      /\ (forall l, res = Some l ->
                    registered kb' subj
                    /\ c2p_get (KnowledgeBase.encoder kb') "is" <> None
                    /\ registered kb' target).
Proof.
  intros m rec Hrec rules. induction rules as [|rule rest IH];
    intros kb subj subj_prime v HI Hincl Hreg Hm; simpl.
  - exists None, kb, v. split; [reflexivity|].
    split; [assumption|]. split; [apply ext_refl|]. split; [apply incl_refl|].
    intros l Hl. discriminate.
  - assert (Hrest : incl rest (KnowledgeBase.rules kb)).
    { intros r Hr. apply Hincl. simpl. auto. }
    destruct rule as [ty cat prop pred ce cc|conds concl]; [|apply IH; assumption].
    destruct (String.eqb_spec ty "universal") as [Hty|Hty]; simpl; [|apply IH; assumption].
    destruct (cat =? subj_prime); simpl; [|apply IH; assumption].
    destruct (p2c_get (KnowledgeBase.encoder kb) prop) as [prop_name|] eqn:Ep;
      [|apply IH; assumption].
    destruct (truthy prop_name); simpl; [|apply IH; assumption].
    destruct (Hrec kb prop_name v HI (inv_names kb HI _ _ Ep) Hm)
      as (res & kb1 & v1 & -> & I1 & X1 & V1 & P1).
    simpl.
    assert (Hcont :
      exists res' kb' v',
        ReasoningEngine.chain_loop rec rest kb1 subj subj_prime v1 = Ok (res', kb', v')
        /\ Inv kb' /\ ext kb kb' /\ incl v v'
        /\ (forall l, res' = Some l ->
                      registered kb' subj
                      /\ c2p_get (KnowledgeBase.encoder kb') "is" <> None
                      /\ registered kb' target)).
    { destruct (IH kb1 subj subj_prime v1 I1) as (r2 & kb2 & v2 & E2 & I2 & X2 & V2 & P2).
      - destruct X1 as [(_ & _ & Hr) _]. rewrite Hr. assumption.
      - eapply registered_ext; eassumption.
      - pose proof (remaining_incl N v v1 V1). lia.
      - exists r2, kb2, v2. split; [assumption|]. split; [assumption|].
        split; [eapply ext_trans; eassumption|].
        split; [eapply incl_tran; eassumption|assumption]. }
    destruct res as [[|c cs]|]; try exact Hcont.
    exists (Some (subj :: c :: cs)), kb1, v1. split; [reflexivity|].
    split; [assumption|]. split; [assumption|]. split; [assumption|].
    intros l _. split; [eapply registered_ext; eassumption|].
    assert (His : c2p_get (KnowledgeBase.encoder kb1) "is" <> None).
    { assert (Hin : In (Quantified ty cat prop pred ce cc) (KnowledgeBase.rules kb))
        by (apply Hincl; simpl; auto).
      destruct (kw_rules kb (inv_wf kb HI) _ _ _ _ _ _ Hin) as (_ & His).
      specialize (His Hty).
      destruct (c2p_get (KnowledgeBase.encoder kb) "is") as [q|] eqn:Eq; [|congruence].
      rewrite (rl_c2p _ _ (ext_reg _ _ X1) _ _ Eq). discriminate. }
    split; [assumption|].
    destruct (P1 _ eq_refl) as [Heq|(_ & _ & Ht)]; [|assumption].
    subst prop_name.
    destruct (ew_p2c _ (kw_enc kb (inv_wf kb HI)) _ _ Ep) as (Hc & Hl).
    apply (registered_ext kb kb1); [assumption|].
    unfold registered. rewrite Hl, Hc. discriminate.
Qed.

Lemma run_universal_chain : forall fuel kb s v,
  Inv kb -> In s N -> (remaining N v + G + 1 <= fuel)%nat ->
  exists res kb' v',
    ReasoningEngine._universal_chain fuel kb s target v = Ok (res, kb', v')
    /\ Inv kb' /\ ext kb kb' /\ incl v v' /\ chain_post kb' s res.
Proof.
  induction fuel as [|f IH]; intros kb s v HI Hs Hfuel; [lia|]. simpl.
  destruct (String.eqb_spec s target) as [Heq|Hne].
  - exists (Some [s]), kb, v. split; [reflexivity|]. split; [assumption|].
    split; [apply ext_refl|]. split; [apply incl_refl|]. intros l _. auto.
  - destruct (mem s v) eqn:Hmem.
    + exists None, kb, v. split; [reflexivity|]. split; [assumption|].
      split; [apply ext_refl|]. split; [apply incl_refl|]. intros l Hl. discriminate.
    + apply mem_false in Hmem.
      assert (Hrem : (remaining N (s :: v) < remaining N v)%nat)
        by (apply (remaining_cons N v (s :: v) s); auto using incl_refl).
      destruct (run_get_prime f kb s HI Hs ltac:(lia)) as (p & kb1 & -> & I1 & X1 & Hc).
      simpl.
      destruct (run_chain_loop (remaining N (s :: v))
                  (fun kb prop_name visited =>
                     ReasoningEngine._universal_chain f kb prop_name target visited))
        with (rules := KnowledgeBase.rules kb1) (kb := kb1) (subj := s) (subj_prime := p)
             (v := s :: v)
        as (res & kb2 & v2 & E2 & I2 & X2 & V2 & P2).
      * intros kb0 s0 v0 HI0 Hs0 Hv0. apply IH; auto. lia.
      * assumption.
      * apply incl_refl.
      * unfold registered. rewrite Hc. discriminate.
      * lia.
      * exists res, kb2, v2. split; [assumption|]. split; [assumption|].
        split; [eapply ext_trans; eassumption|].
        split; [intros y Hy; apply V2; simpl; auto|].
        intros l Hl. right. apply (P2 l Hl).
Qed.

End Chain.

(** *** The deduction search terminates *)

(** Every key a query over [N] can have *)
Definition U : list string :=
  flat_map (fun s => flat_map (fun p => map (fun o => Fact.str (Fact.mk s p o)) N) N) N.

Lemma key_in_U : forall q, names_ok q -> In (Fact.str q) U.
Proof.
  intros [s p o] (Hs & Hp & Ho). simpl in *. unfold U.
  apply in_flat_map. exists s. split; [assumption|].
  apply in_flat_map. exists p. split; [assumption|].
  apply in_map_iff. exists o. split; [reflexivity|assumption].
Qed.

Definition good_rec (m : nat) (rec : ReasoningEngine.Rec) : Prop :=
  forall kb v q d, Inv kb -> names_ok q -> (remaining U v <= m)%nat ->
    exists r kb' v', rec kb v q d = Ok (r, kb', v') /\ Inv kb' /\ ext kb kb' /\ incl v v'.

Lemma ext_rules : forall kb kb', ext kb kb' -> KnowledgeBase.rules kb' = KnowledgeBase.rules kb.
Proof. intros kb kb' [(_ & _ & H) _]. exact H. Qed.

Lemma ext_facts : forall kb kb', ext kb kb' -> KnowledgeBase.facts kb' = KnowledgeBase.facts kb.
Proof. intros kb kb' [(H & _ & _) _]. exact H. Qed.

Lemma run_quantified_loop : forall m rec fuel query d,
  good_rec m rec -> names_ok query -> (G <= fuel)%nat ->
  forall rules kb v,
    Inv kb -> incl rules (KnowledgeBase.rules kb) -> (remaining U v <= m)%nat ->
    exists r kb' v',
      ReasoningEngine.quantified_loop fuel rec rules kb v query d = Ok (r, kb', v')
      /\ Inv kb' /\ ext kb kb' /\ incl v v'.
Proof.
  intros m rec fuel query d Hrec Hq Hfuel rules.
  induction rules as [|rule rest IH]; intros kb v HI Hincl Hm; simpl.
  - exists None, kb, v. split; [reflexivity|]. split; [assumption|].
    split; [apply ext_refl|apply incl_refl].
  - assert (Hrest : incl rest (KnowledgeBase.rules kb)).
    { intros r Hr. apply Hincl. simpl. auto. }
    destruct rule as [ty cat prop pred ce cc|conds concl]; [|apply IH; assumption].
    match goal with
    | |- context [if ?c then _ else _] => destruct c; [|apply IH; assumption]
    end.
    destruct Hq as (Hqs & Hqp & Hqo).
    destruct (run_get_prime fuel kb _ HI Hqo Hfuel) as (p & kb1 & -> & I1 & X1 & Hc). simpl.
    assert (Hin1 : In (Quantified ty cat prop pred ce cc) (KnowledgeBase.rules kb1)).
    { rewrite (ext_rules _ _ X1). apply Hincl. simpl. auto. }
    assert (Hrest1 : incl rest (KnowledgeBase.rules kb1)).
    { rewrite (ext_rules _ _ X1). assumption. }
    assert (Hcont1 :
      exists r kb' v',
        ReasoningEngine.quantified_loop fuel rec rest kb1 v query d = Ok (r, kb', v')
        /\ Inv kb' /\ ext kb kb' /\ incl v v').
    { destruct (IH kb1 v I1 Hrest1 Hm) as (r & kb' & v' & E & I' & X' & V').
      exists r, kb', v'. split; [assumption|]. split; [assumption|].
      split; [eapply ext_trans; eassumption|assumption]. }
    destruct (p =? prop); [|exact Hcont1].
    destruct (p2c_get (KnowledgeBase.encoder kb1) cat) as [cname|] eqn:Ecat.
    2:{ exfalso. apply (proj1 (kw_rules kb1 (inv_wf kb1 I1) _ _ _ _ _ _ Hin1)). assumption. }
    assert (Hmem : names_ok (Fact.mk (Fact.subject query) "is" cname)).
    { unfold names_ok. simpl. split; [assumption|]. split; [assumption|].
      eapply (inv_names kb1 I1). eassumption. }
    destruct (Hrec kb1 v _ (d + 1) I1 Hmem Hm) as (sub & kb2 & v2 & -> & I2 & X2 & V2). simpl.
    assert (X02 : ext kb kb2) by (eapply ext_trans; eassumption).
    destruct (ReasoningEngine.result sub).
    + assert (Hin2 : In (Quantified ty cat prop pred ce cc) (KnowledgeBase.rules kb2)).
      { rewrite (ext_rules _ _ X2). assumption. }
      destruct (p2c_get (KnowledgeBase.encoder kb2) cat) as [cname'|] eqn:Ecat2.
      2:{ exfalso. apply (proj1 (kw_rules kb2 (inv_wf kb2 I2) _ _ _ _ _ _ Hin2)). assumption. }
      eexists. eexists. eexists. split; [reflexivity|]. auto.
    + destruct (IH kb2 v2 I2) as (r & kb' & v' & E & I' & X' & V').
      * rewrite (ext_rules _ _ X2). assumption.
      * pose proof (remaining_incl U v v2 V2). lia.
      * exists r, kb', v'. split; [assumption|]. split; [assumption|].
        split; [eapply ext_trans; eassumption|eapply incl_tran; eassumption].
Qed.

Lemma run_conditions_loop : forall m rec d,
  good_rec m rec ->
  forall conds kb v expls,
    Inv kb -> (remaining U v <= m)%nat ->
    exists r kb' v',
      ReasoningEngine.conditions_loop rec conds kb v d expls = Ok (r, kb', v')
      /\ Inv kb' /\ ext kb kb' /\ incl v v'.
Proof.
  intros m rec d Hrec conds.
  induction conds as [|c rest IH]; intros kb v expls HI Hm; simpl.
  - eexists. exists kb, v. split; [reflexivity|]. split; [assumption|].
    split; [apply ext_refl|apply incl_refl].
  - destruct (ReasoningEngine._decode_fact c kb) as [cf|] eqn:Ed.
    2:{ exists None, kb, v. split; [reflexivity|]. split; [assumption|].
        split; [apply ext_refl|apply incl_refl]. }
    destruct (Hrec kb v cf (d + 1) HI (decode_fact_names _ _ _ HI Ed) Hm)
      as (sub & kb1 & v1 & -> & I1 & X1 & V1). simpl.
    destruct (ReasoningEngine.result sub).
    + destruct (IH kb1 v1 (expls ++ [ReasoningEngine.explanation sub])%list I1)
        as (r & kb' & v' & E & I' & X' & V').
      * pose proof (remaining_incl U v v1 V1). lia.
      * exists r, kb', v'. split; [assumption|]. split; [assumption|].
        split; [eapply ext_trans; eassumption|eapply incl_tran; eassumption].
    + exists None, kb1, v1. auto.
Qed.

Lemma run_standard_loop : forall m rec q_enc query d,
  good_rec m rec ->
  forall rules kb v,
    Inv kb -> (remaining U v <= m)%nat ->
    exists r kb' v',
      ReasoningEngine.standard_loop rec rules q_enc kb v query d = Ok (r, kb', v')
      /\ Inv kb' /\ ext kb kb' /\ incl v v'.
Proof.
  intros m rec q_enc query d Hrec rules.
  induction rules as [|rule rest IH]; intros kb v HI Hm; simpl.
  - exists None, kb, v. split; [reflexivity|]. split; [assumption|].
    split; [apply ext_refl|apply incl_refl].
  - destruct rule as [ty cat prop pred ce cc|conds concl]; [apply IH; assumption|].
    destruct (dict_eqb concl q_enc); [|apply IH; assumption].
    destruct (run_conditions_loop m rec d Hrec conds kb v [] HI Hm)
      as (ok & kb1 & v1 & -> & I1 & X1 & V1). simpl.
    destruct ok as [expls|].
    + eexists. exists kb1, v1. split; [reflexivity|]. auto.
    + destruct (IH kb1 v1 I1) as (r & kb' & v' & E & I' & X' & V').
      * pose proof (remaining_incl U v v1 V1). lia.
      * exists r, kb', v'. split; [assumption|]. split; [assumption|].
        split; [eapply ext_trans; eassumption|eapply incl_tran; eassumption].
Qed.

Lemma run_transitive_loop : forall m rec query d,
  good_rec m rec -> names_ok query ->
  forall items kb v,
    Inv kb -> (forall item, In item items -> In (Fact.object (snd item)) N) ->
    (remaining U v <= m)%nat ->
    exists r kb' v',
      ReasoningEngine.transitive_loop rec items kb v query d = Ok (r, kb', v')
      /\ Inv kb' /\ ext kb kb' /\ incl v v'.
Proof.
  intros m rec query d Hrec (Hqs & Hqp & Hqo) items.
  induction items as [|[fe fact] rest IH]; intros kb v HI Hitems Hm; simpl.
  - exists None, kb, v. split; [reflexivity|]. split; [assumption|].
    split; [apply ext_refl|apply incl_refl].
  - assert (Hrest : forall item, In item rest -> In (Fact.object (snd item)) N).
    { intros item Hin. apply Hitems. simpl. auto. }
    match goal with
    | |- context [if ?c then _ else _] => destruct c; [|apply IH; assumption]
    end.
    assert (Hn : names_ok (Fact.mk (Fact.object fact) (Fact.predicate query) (Fact.object query))).
    { unfold names_ok. simpl. split; [|auto].
      apply (Hitems (fe, fact)). simpl. auto. }
    destruct (Hrec kb v _ (d + 1) HI Hn Hm) as (sub & kb1 & v1 & -> & I1 & X1 & V1). simpl.
    destruct (ReasoningEngine.result sub).
    + eexists. exists kb1, v1. split; [reflexivity|]. auto.
    + destruct (IH kb1 v1 I1 Hrest) as (r & kb' & v' & E & I' & X' & V').
      * pose proof (remaining_incl U v v1 V1). lia.
      * exists r, kb', v'. split; [assumption|]. split; [assumption|].
        split; [eapply ext_trans; eassumption|eapply incl_tran; eassumption].
Qed.

Lemma run_after_chain : forall m rec fuel kb v query d,
  good_rec m rec -> names_ok query -> (G <= fuel)%nat ->
  Inv kb -> (remaining U v <= m)%nat ->
  exists r kb' v',
    ReasoningEngine.after_chain fuel rec kb v query d = Ok (r, kb', v')
    /\ Inv kb' /\ ext kb kb' /\ incl v v'
    /\ registered kb' (Fact.subject query) /\ registered kb' (Fact.predicate query)
    /\ registered kb' (Fact.object query).
Proof.
  intros m rec fuel kb v query d Hrec Hq Hfuel HI Hm. unfold ReasoningEngine.after_chain.
  destruct (run_encode_fact fuel kb query HI Hq Hfuel)
    as (q_enc & kb1 & -> & I1 & X1 & Rs & Rp & Ro). simpl.
  assert (Hreg : forall kb', ext kb1 kb' ->
                 registered kb' (Fact.subject query) /\ registered kb' (Fact.predicate query)
                 /\ registered kb' (Fact.object query)).
  { intros kb' X. split; [|split]; eapply registered_ext; eassumption. }
  destruct (find _ (combine (KnowledgeBase.fact_encodings kb1) (KnowledgeBase.facts kb1)))
    as [[fe fact]|].
  { eexists. exists kb1, v. split; [reflexivity|]. split; [assumption|]. split; [assumption|].
    split; [apply incl_refl|]. apply Hreg. apply ext_refl. }
  destruct (run_quantified_loop m rec fuel query d Hrec Hq Hfuel
              (KnowledgeBase.rules kb1) kb1 v I1 (incl_refl _) Hm)
    as (r2 & kb2 & v2 & -> & I2 & X2 & V2). simpl.
  assert (X02 : ext kb kb2) by (eapply ext_trans; eassumption).
  destruct r2 as [res|].
  { exists res, kb2, v2. split; [reflexivity|]. split; [assumption|]. split; [assumption|].
    split; [assumption|]. apply Hreg. assumption. }
  assert (Hm2 : (remaining U v2 <= m)%nat) by (pose proof (remaining_incl U v v2 V2); lia).
  destruct (run_standard_loop m rec q_enc query d Hrec (KnowledgeBase.rules kb2) kb2 v2 I2 Hm2)
    as (r3 & kb3 & v3 & -> & I3 & X3 & V3). simpl.
  assert (X13 : ext kb1 kb3) by (eapply ext_trans; eassumption).
  assert (X03 : ext kb kb3) by (eapply ext_trans; eassumption).
  assert (V03 : incl v v3) by (eapply incl_tran; eassumption).
  destruct r3 as [res|].
  { exists res, kb3, v3. split; [reflexivity|]. split; [assumption|]. split; [assumption|].
    split; [assumption|]. apply Hreg. assumption. }
  assert (Hm3 : (remaining U v3 <= m)%nat) by (pose proof (remaining_incl U v v3 V03); lia).
  assert (Htr :
    exists r kb' v',
      (if ((Fact.predicate query =? "is")%string || (Fact.predicate query =? "part of")%string)%bool
       then ReasoningEngine.transitive_loop rec
              (combine (KnowledgeBase.fact_encodings kb3) (KnowledgeBase.facts kb3))
              kb3 v3 query d
       else Ok (None, kb3, v3)) = Ok (r, kb', v')
      /\ Inv kb' /\ ext kb3 kb' /\ incl v3 v').
  { destruct ((Fact.predicate query =? "is")%string || (Fact.predicate query =? "part of")%string)%bool.
    - apply (run_transitive_loop m rec query d Hrec Hq); auto.
      intros [fe fact] Hin. apply in_combine_r in Hin. simpl.
      apply (inv_facts kb3 I3). assumption.
    - exists None, kb3, v3. split; [reflexivity|]. split; [assumption|].
      split; [apply ext_refl|apply incl_refl]. }
  destruct Htr as (r4 & kb4 & v4 & -> & I4 & X4 & V4). simpl.
  assert (X14 : ext kb1 kb4) by (eapply ext_trans; eassumption).
  destruct r4 as [res|]; eexists; exists kb4, v4; (split; [reflexivity|]);
    (split; [assumption|]); (split; [eapply ext_trans; eassumption|]);
    (split; [eapply incl_tran; eassumption|]); apply Hreg; assumption.
Qed.

Definition is_identity (q : Fact.t) : bool :=
  ((Fact.predicate q =? "is")%string && (Fact.subject q =? Fact.object q)%string)%bool.

(** After a completed search the query was found in the visited set, was an
    identity query, or has its three names registered. *)
Definition deduce_post (kb' : KB) (v : list string) (q : Fact.t) : Prop :=
  mem (Fact.str q) v = true
  \/ is_identity q = true
  \/ (registered kb' (Fact.subject q) /\ registered kb' (Fact.predicate q)
      /\ registered kb' (Fact.object q)).

Lemma run_deduce : forall fuel kb v query d,
  Inv kb -> names_ok query ->
  (remaining U v + (List.length N + G + 1) + 1 <= fuel)%nat ->
  exists r kb' v',
    ReasoningEngine._deduce fuel kb v query d = Ok (r, kb', v')
    /\ Inv kb' /\ ext kb kb' /\ incl v v' /\ deduce_post kb' v query.
Proof.
  induction fuel as [|f IH]; intros kb v query d HI Hq Hfuel; [lia|]. simpl.
  destruct (mem (Fact.str query) v) eqn:Hmem.
  { eexists. exists kb, v. split; [reflexivity|]. split; [assumption|].
    split; [apply ext_refl|]. split; [apply incl_refl|]. left. exact Hmem. }
  apply mem_false in Hmem.
  assert (Hrem : (remaining U (Fact.str query :: v) < remaining U v)%nat).
  { apply (remaining_cons U v _ (Fact.str query)); auto using incl_refl, key_in_U. }
  assert (Hrec : good_rec (remaining U (Fact.str query :: v)) (ReasoningEngine._deduce f)).
  { intros kb0 v0 q0 d0 HI0 Hq0 Hv0.
    destruct (IH kb0 v0 q0 d0 HI0 Hq0 ltac:(lia)) as (r & kb' & v' & E & I' & X' & V' & _).
    exists r, kb', v'. auto. }
  assert (Hafter : forall kb1, Inv kb1 -> ext kb kb1 ->
    exists r kb' v',
      ReasoningEngine.after_chain f (ReasoningEngine._deduce f) kb1 (Fact.str query :: v) query d
      = Ok (r, kb', v')
      /\ Inv kb' /\ ext kb kb' /\ incl v v' /\ deduce_post kb' v query).
  { intros kb1 I1 X1.
    destruct (run_after_chain _ _ f kb1 (Fact.str query :: v) query d Hrec Hq ltac:(lia) I1 (le_n _))
      as (r & kb' & v' & E & I' & X' & V' & Hreg).
    exists r, kb', v'. split; [assumption|]. split; [assumption|].
    split; [eapply ext_trans; eassumption|].
    split; [intros y Hy; apply V'; simpl; auto|].
    right. right. assumption. }
  unfold is_identity in *.
  destruct (String.eqb_spec (Fact.predicate query) "is") as [Hp|Hp]; simpl.
  2:{ apply Hafter; [assumption|apply ext_refl]. }
  destruct (String.eqb_spec (Fact.subject query) (Fact.object query)) as [Hso|Hso].
  { eexists. exists kb. eexists. split; [reflexivity|]. split; [assumption|].
    split; [apply ext_refl|]. split; [intros y Hy; simpl; auto|].
    right. left. unfold is_identity. rewrite Hp, Hso. rewrite !String.eqb_refl. reflexivity. }
  destruct Hq as (Hqs & Hqp & Hqo).
  destruct (run_universal_chain (Fact.object query) f kb (Fact.subject query) [] HI Hqs)
    as (res & kb1 & v1 & -> & I1 & X1 & _ & P1).
  { pose proof (remaining_le_length N []). lia. }
  simpl.
  destruct res as [[|c cs]|]; try (apply Hafter; assumption).
  eexists. exists kb1. eexists. split; [reflexivity|]. split; [assumption|].
  split; [assumption|]. split; [intros y Hy; simpl; auto|].
  right. right.
  destruct (P1 _ eq_refl) as [Heq|(Rs & His & Ro)]; [contradiction|].
  split; [assumption|]. split; [|assumption].
  unfold registered. rewrite Hp. exact His.
Qed.

End Run.

(* ------------------------------------------------------------------------- *)
(** ** Stores built through the interface satisfy the invariant *)

Lemma build_wf : forall fuel script kb kb',
  kb_wf kb -> build fuel kb script = Ok kb' -> kb_wf kb'.
Proof.
  intros fuel script. induction script as [|[f|r] rest IH]; intros kb kb' Hwf H; simpl in H.
  - inversion H; subst. assumption.
  - destruct (KnowledgeBase.add_fact fuel kb f) as [[m kb1]| |] eqn:E; simpl in H; try discriminate.
    eapply IH; [|eassumption]. eapply add_fact_wf; eassumption.
  - destruct (KnowledgeBase.add_rule fuel kb r) as [[m kb1]| |] eqn:E; simpl in H; try discriminate.
    eapply IH; [|eassumption]. eapply add_rule_wf; eassumption.
Qed.

Lemma store_of_wf : forall fuel script kb, store_of fuel script = Ok kb -> kb_wf kb.
Proof.
  intros fuel script kb H. unfold store_of in H.
  destruct (PrimeEncoder.__init__ fuel) as [e| |] eqn:E; simpl in H; try discriminate.
  eapply build_wf; [|eassumption]. apply kb_init_wf. eapply init_spec. eassumption.
Qed.

Lemma store_wf : forall script,
  (exists kb, store_of 1 script = Ok kb) -> kb_wf (store script).
Proof.
  intros script (kb & H). unfold store. rewrite H. simpl. eapply store_of_wf. eassumption.
Qed.

Lemma kb_empty_wf : kb_wf kb_empty.
Proof. apply store_wf. eexists. vm_compute. reflexivity. Qed.

Lemma kb_hilbert_wf : kb_wf kb_hilbert.
Proof. apply store_wf. eexists. vm_compute. reflexivity. Qed.

Lemma kb_cycle_wf : kb_wf kb_cycle.
Proof. apply store_wf. eexists. vm_compute. reflexivity. Qed.

(* ------------------------------------------------------------------------- *)
(** ** [deduce] always returns *)

Lemma deduce_runs : forall kb q,
  kb_wf kb ->
  exists F : nat, forall fuel, (F <= fuel)%nat ->
    exists r kb', ReasoningEngine.deduce fuel kb q = Ok (r, kb')
                  /\ kb_wf kb' /\ ext kb kb'
                  /\ (is_identity q = true
                      \/ (registered kb' (Fact.subject q) /\ registered kb' (Fact.predicate q)
                          /\ registered kb' (Fact.object q))).
Proof.
  intros kb q Hwf.
  set (B := ([Fact.subject q; Fact.predicate q; Fact.object q; "is"]
             ++ map Fact.object (KnowledgeBase.facts kb)
             ++ Dict.values (PrimeEncoder._prime_to_concept (KnowledgeBase.encoder kb)))%list).
  set (N := (B ++ map lower B)%list).
  set (K := (PrimeEncoder._next_index (KnowledgeBase.encoder kb)
             + unreg N (KnowledgeBase.encoder kb))%nat).
  destruct (get_total K) as (G & HG).
  assert (HB : forall x, In x B -> In x N) by (intros x Hx; apply in_or_app; auto).
  assert (N_lower : forall x, In x N -> In (lower x) N).
  { intros x Hx. apply in_or_app. right. apply in_app_or in Hx. destruct Hx as [Hx|Hx].
    - apply in_map. assumption.
    - apply in_map_iff in Hx. destruct Hx as (y & <- & Hy). rewrite lower_idem.
      apply in_map. assumption. }
  assert (HI : Inv N K kb).
  { constructor; auto.
    - intros p n Hp. apply HB. unfold B. apply in_or_app. right. apply in_or_app. right.
      eapply (get_some_in_values Z.eqb Z.eqb_eq). exact Hp.
    - intros f Hf. apply HB. unfold B. apply in_or_app. right. apply in_or_app. left.
      apply in_map. assumption. }
  assert (Hq : names_ok N q).
  { unfold names_ok. repeat split; apply HB; unfold B; simpl; auto. }
  assert (N_is : In "is" N) by (apply HB; unfold B; simpl; auto).
  exists (List.length (U N) + (List.length N + G + 1) + 1)%nat. intros fuel Hfuel.
  destruct (run_deduce N K G N_lower N_is HG fuel kb [] q 0 HI Hq)
    as (r & kb' & v' & E & I' & X' & _ & P').
  { pose proof (remaining_le_length (U N) []). lia. }
  exists r, kb'. unfold ReasoningEngine.deduce. rewrite E. simpl.
  split; [reflexivity|]. split; [apply (inv_wf _ _ _ I')|]. split; [assumption|].
  destruct P' as [P'|[P'|P']]; [discriminate|auto|auto].
Qed.

(* ------------------------------------------------------------------------- *)
(** ** More fuel never changes a result

    An outcome other than [OutOfFuel] is final: every larger fuel gives the
    same one. *)

(** Both sides branch on the same scrutinee *)
Ltac same_case H :=
  match goal with
  | |- (match ?c with _ => _ end) = (match ?c with _ => _ end) =>
      destruct c; simpl in H |- *; try reflexivity
  end.

(** Both sides are a [bind]; [tac] proves that the first computations agree,
    up to the side condition that the smaller one is final. *)
Ltac same_bind H tac :=
  match goal with
  | |- bind ?m' _ = bind ?m _ =>
      let Hm := fresh "Hm" in
      let Hc := fresh "Hc" in
      assert (Hm : m' = m);
      [ tac; try (intro Hc; apply H; rewrite Hc; reflexivity)
      | rewrite Hm; clear Hm; destruct m; simpl in H |- *;
        [ repeat match goal with
                 | a : (_ * _)%type |- _ => destruct a
                 end; simpl in H |- *
        | reflexivity
        | exfalso; apply H; reflexivity ] ]
  end.

(** The same for a computation under [try ... except] *)
Ltac same_try H tac :=
  match goal with
  | |- try_except ?m' _ _ = try_except ?m _ _ =>
      let Hm := fresh "Hm" in
      let Hc := fresh "Hc" in
      assert (Hm : m' = m);
      [ tac; try (intro Hc; apply H; rewrite Hc; reflexivity)
      | rewrite Hm; clear Hm; destruct m; simpl in H |- *;
        [ repeat match goal with
                 | a : (_ * _)%type |- _ => destruct a
                 end; simpl in H |- *
        |
        | exfalso; apply H; reflexivity ] ]
  end.

Lemma get_mono : forall f f' g i,
  (f <= f')%nat -> PrimeGenerator.get f g i <> OutOfFuel ->
  PrimeGenerator.get f' g i = PrimeGenerator.get f g i.
Proof.
  induction f as [|f IH]; intros f' g i Hle H; simpl in H; [congruence|].
  destruct f' as [|f']; [lia|]. simpl.
  same_case H. apply IH; [lia|assumption].
Qed.

Lemma enc_get_prime_mono : forall f f' e c,
  (f <= f')%nat -> PrimeEncoder.get_prime f e c <> OutOfFuel ->
  PrimeEncoder.get_prime f' e c = PrimeEncoder.get_prime f e c.
Proof.
  intros f f' e c Hle H. unfold PrimeEncoder.get_prime in *.
  same_case H. unfold PrimeEncoder._assign_prime in *.
  same_bind H ltac:(apply get_mono; [lia|]). reflexivity.
Qed.

Lemma kb_get_prime_mono : forall f f' kb c,
  (f <= f')%nat -> KnowledgeBase.get_prime f kb c <> OutOfFuel ->
  KnowledgeBase.get_prime f' kb c = KnowledgeBase.get_prime f kb c.
Proof.
  intros f f' kb c Hle H. unfold KnowledgeBase.get_prime in *.
  same_bind H ltac:(apply enc_get_prime_mono; [lia|]). reflexivity.
Qed.

Lemma enc_encode_symbol_mono : forall f f' e c,
  (f <= f')%nat -> PrimeEncoder.encode_symbol f e c <> OutOfFuel ->
  PrimeEncoder.encode_symbol f' e c = PrimeEncoder.encode_symbol f e c.
Proof.
  intros f f' e c Hle H. unfold PrimeEncoder.encode_symbol in *.
  same_bind H ltac:(apply enc_get_prime_mono; [lia|]). reflexivity.
Qed.

Lemma kb_encode_symbol_mono : forall f f' kb c,
  (f <= f')%nat -> KnowledgeBase.encode_symbol f kb c <> OutOfFuel ->
  KnowledgeBase.encode_symbol f' kb c = KnowledgeBase.encode_symbol f kb c.
Proof.
  intros f f' kb c Hle H. unfold KnowledgeBase.encode_symbol in *.
  same_bind H ltac:(apply enc_encode_symbol_mono; [lia|]). reflexivity.
Qed.

Lemma kb_encode_fact_mono : forall f f' kb q,
  (f <= f')%nat -> KnowledgeBase.encode_fact f kb q <> OutOfFuel ->
  KnowledgeBase.encode_fact f' kb q = KnowledgeBase.encode_fact f kb q.
Proof.
  intros f f' kb q Hle H. unfold KnowledgeBase.encode_fact in *.
  same_bind H ltac:(apply kb_encode_symbol_mono; [lia|]).
  same_bind H ltac:(apply kb_encode_symbol_mono; [lia|]).
  same_bind H ltac:(apply kb_encode_symbol_mono; [lia|]).
  reflexivity.
Qed.

Definition chain_rec_le (rec rec' : ChainRec) : Prop :=
  forall kb s v, rec kb s v <> OutOfFuel -> rec' kb s v = rec kb s v.

Lemma chain_loop_mono : forall rec rec', chain_rec_le rec rec' ->
  forall rules kb subj sp v,
    ReasoningEngine.chain_loop rec rules kb subj sp v <> OutOfFuel ->
    ReasoningEngine.chain_loop rec' rules kb subj sp v
    = ReasoningEngine.chain_loop rec rules kb subj sp v.
Proof.
  intros rec rec' Hle rules. induction rules as [|rule rest IH]; intros kb subj sp v H;
    simpl in *; [reflexivity|].
  same_case H; [|auto].
  same_case H; [auto|].
  same_case H; [auto|].
  same_case H; [|auto].
  same_case H; [auto|].
  same_bind H ltac:(apply Hle).
  repeat same_case H; auto.
Qed.

Lemma universal_chain_mono : forall f f' kb s t v,
  (f <= f')%nat -> ReasoningEngine._universal_chain f kb s t v <> OutOfFuel ->
  ReasoningEngine._universal_chain f' kb s t v = ReasoningEngine._universal_chain f kb s t v.
Proof.
  induction f as [|f IH]; intros f' kb s t v Hle H; simpl in H; [congruence|].
  destruct f' as [|f']; [lia|]. simpl.
  same_case H. same_case H.
  same_bind H ltac:(apply kb_get_prime_mono; [lia|]).
  apply chain_loop_mono; [|assumption].
  intros kb0 s0 v0 H0. apply IH; [lia|assumption].
Qed.

Definition rec_le (rec rec' : ReasoningEngine.Rec) : Prop :=
  forall kb v q d, rec kb v q d <> OutOfFuel -> rec' kb v q d = rec kb v q d.

Lemma quantified_loop_mono : forall f f' rec rec', (f <= f')%nat -> rec_le rec rec' ->
  forall rules kb v q d,
    ReasoningEngine.quantified_loop f rec rules kb v q d <> OutOfFuel ->
    ReasoningEngine.quantified_loop f' rec' rules kb v q d
    = ReasoningEngine.quantified_loop f rec rules kb v q d.
Proof.
  intros f f' rec rec' Hf Hle rules. induction rules as [|rule rest IH]; intros kb v q d H;
    simpl in *; [reflexivity|].
  same_case H; [|auto].
  same_case H; [|auto].
  same_bind H ltac:(apply kb_get_prime_mono; [lia|]).
  same_case H; [|auto].
  same_case H.
  same_bind H ltac:(apply Hle).
  same_case H. auto.
Qed.

Lemma conditions_loop_mono : forall rec rec', rec_le rec rec' ->
  forall conds kb v d expls,
    ReasoningEngine.conditions_loop rec conds kb v d expls <> OutOfFuel ->
    ReasoningEngine.conditions_loop rec' conds kb v d expls
    = ReasoningEngine.conditions_loop rec conds kb v d expls.
Proof.
  intros rec rec' Hle conds. induction conds as [|c rest IH]; intros kb v d expls H;
    simpl in *; [reflexivity|].
  same_case H.
  same_bind H ltac:(apply Hle).
  same_case H. auto.
Qed.

Lemma standard_loop_mono : forall rec rec', rec_le rec rec' ->
  forall rules q_enc kb v q d,
    ReasoningEngine.standard_loop rec rules q_enc kb v q d <> OutOfFuel ->
    ReasoningEngine.standard_loop rec' rules q_enc kb v q d
    = ReasoningEngine.standard_loop rec rules q_enc kb v q d.
Proof.
  intros rec rec' Hle rules. induction rules as [|rule rest IH]; intros q_enc kb v q d H;
    simpl in *; [reflexivity|].
  same_case H; [auto|].
  same_case H; [|auto].
  same_bind H ltac:(apply conditions_loop_mono; [assumption|]).
  same_case H. auto.
Qed.

Lemma transitive_loop_mono : forall rec rec', rec_le rec rec' ->
  forall items kb v q d,
    ReasoningEngine.transitive_loop rec items kb v q d <> OutOfFuel ->
    ReasoningEngine.transitive_loop rec' items kb v q d
    = ReasoningEngine.transitive_loop rec items kb v q d.
Proof.
  intros rec rec' Hle items. induction items as [|[fe fact] rest IH]; intros kb v q d H;
    simpl in *; [reflexivity|].
  same_case H; [|auto].
  same_bind H ltac:(apply Hle).
  same_case H. auto.
Qed.

Lemma after_chain_mono : forall f f' rec rec', (f <= f')%nat -> rec_le rec rec' ->
  forall kb v q d,
    ReasoningEngine.after_chain f rec kb v q d <> OutOfFuel ->
    ReasoningEngine.after_chain f' rec' kb v q d = ReasoningEngine.after_chain f rec kb v q d.
Proof.
  intros f f' rec rec' Hf Hle kb v q d H. unfold ReasoningEngine.after_chain in *.
  same_bind H ltac:(apply kb_encode_fact_mono; [lia|]).
  same_case H.
  same_bind H ltac:(apply quantified_loop_mono; [lia|assumption|]).
  same_case H.
  same_bind H ltac:(apply standard_loop_mono; [assumption|]).
  same_case H.
  same_bind H ltac:(same_case H; apply transitive_loop_mono; [assumption|]).
  reflexivity.
Qed.

Lemma _deduce_mono : forall f f' kb v q d,
  (f <= f')%nat -> ReasoningEngine._deduce f kb v q d <> OutOfFuel ->
  ReasoningEngine._deduce f' kb v q d = ReasoningEngine._deduce f kb v q d.
Proof.
  induction f as [|f IH]; intros f' kb v q d Hle H; simpl in H; [congruence|].
  destruct f' as [|f']; [lia|]. simpl.
  assert (Hrec : rec_le (ReasoningEngine._deduce f) (ReasoningEngine._deduce f')).
  { intros kb0 v0 q0 d0 H0. apply IH; [lia|assumption]. }
  same_case H. same_case H.
  same_case H.
  - same_try H ltac:(apply universal_chain_mono; [lia|]).
    + repeat same_case H; apply after_chain_mono; auto; lia.
    + apply after_chain_mono; auto. lia.
  - apply after_chain_mono; auto. lia.
Qed.

Lemma deduce_mono : forall f f' kb q,
  (f <= f')%nat -> ReasoningEngine.deduce f kb q <> OutOfFuel ->
  ReasoningEngine.deduce f' kb q = ReasoningEngine.deduce f kb q.
Proof.
  intros f f' kb q Hle H. unfold ReasoningEngine.deduce in *.
  same_bind H ltac:(apply _deduce_mono; [lia|]). reflexivity.
Qed.

(** [deduce] has one result, reached by every sufficiently large fuel; with
    less fuel the run is cut short, it never ends differently. *)
Definition deduce_returns (kb : KB) (q : Fact.t) (r : ReasoningEngine.Result) (kb' : KB) : Prop :=
  exists F : nat,
    forall fuel,
      ((F <= fuel)%nat -> ReasoningEngine.deduce fuel kb q = Ok (r, kb'))
      /\ (ReasoningEngine.deduce fuel kb q = Ok (r, kb')
          \/ ReasoningEngine.deduce fuel kb q = OutOfFuel).

Lemma deduce_final : forall f1 f2 kb q,
  ReasoningEngine.deduce f1 kb q <> OutOfFuel ->
  ReasoningEngine.deduce f2 kb q <> OutOfFuel ->
  ReasoningEngine.deduce f1 kb q = ReasoningEngine.deduce f2 kb q.
Proof.
  intros f1 f2 kb q H1 H2. destruct (Nat.le_ge_cases f1 f2) as [Hle|Hle].
  - symmetry. apply deduce_mono; assumption.
  - apply deduce_mono; assumption.
Qed.

Lemma deduce_returns_of : forall f kb q r kb',
  ReasoningEngine.deduce f kb q = Ok (r, kb') -> deduce_returns kb q r kb'.
Proof.
  intros f kb q r kb' H. exists f. intros fuel. split.
  - intros Hle. rewrite (deduce_mono f fuel kb q Hle); [assumption|congruence].
  - assert (Hf : ReasoningEngine.deduce f kb q <> OutOfFuel) by congruence.
    destruct (ReasoningEngine.deduce fuel kb q) as [x|e|] eqn:E; auto; left.
    + etransitivity; [|exact H]. rewrite <- E. apply deduce_final; congruence.
    + etransitivity; [|exact H]. rewrite <- E. apply deduce_final; congruence.
Qed.

Lemma deduce_returns_unique : forall kb q r1 kb1 r2 kb2,
  deduce_returns kb q r1 kb1 -> deduce_returns kb q r2 kb2 -> r1 = r2 /\ kb1 = kb2.
Proof.
  intros kb q r1 kb1 r2 kb2 (F1 & H1) (F2 & H2).
  pose proof (proj1 (H1 (Nat.max F1 F2)) ltac:(lia)) as E1.
  pose proof (proj1 (H2 (Nat.max F1 F2)) ltac:(lia)) as E2.
  rewrite E1 in E2. inversion E2. auto.
Qed.

(* ------------------------------------------------------------------------- *)
(** ** The reasoner: termination, identity, frame *)

Lemma deduce_result : forall kb q,
  kb_wf kb ->
  exists r kb', deduce_returns kb q r kb'
                /\ kb_wf kb' /\ ext kb kb'
                /\ (is_identity q = true
                    \/ (registered kb' (Fact.subject q) /\ registered kb' (Fact.predicate q)
                        /\ registered kb' (Fact.object q))).
Proof.
  intros kb q Hwf. destruct (deduce_runs kb q Hwf) as (F & HF).
  destruct (HF F (le_n F)) as (r & kb' & E & W & X & P).
  exists r, kb'. split; [eapply deduce_returns_of; eassumption|auto].
Qed.

Lemma deduce_identity : forall fuel kb x,
  ReasoningEngine.deduce (S fuel) kb (Fact.mk x "is" x)
  = Ok (ReasoningEngine.mkResult true (x ++ " is itself by definition") None, kb).
Proof.
  intros fuel kb x. unfold ReasoningEngine.deduce. simpl.
  rewrite String.eqb_refl. reflexivity.
Qed.

(** C2. For every store built through the interface (every store satisfying
    the invariant [kb_wf]) and every query, [deduce] returns one definite
    result record: some amount of fuel suffices, every larger amount gives
    the same record, and no amount of fuel ends in an exception. Cyclic
    universal rules are no exception to this. *)
Theorem deduce_always_returns : forall kb q,
  kb_wf kb ->
  exists r kb', deduce_returns kb q r kb'.
Proof.
  intros kb q Hwf. destruct (deduce_result kb q Hwf) as (r & kb' & H & _).
  exists r, kb'. exact H.
Qed.

(** Witness for C2: the rules all A are B, all B are A and the query A is B *)
Lemma deduce_always_returns_witness :
  kb_wf kb_cycle /\ exists r kb', deduce_returns kb_cycle (Fact.mk "A" "is" "B") r kb'.
Proof.
  split; [exact kb_cycle_wf|].
  apply (deduce_always_returns kb_cycle (Fact.mk "A" "is" "B")). exact kb_cycle_wf.
Defined.

(** C4. Whatever the store, [deduce(store, X is X)] is entailed, with the
    explanation that X is itself by definition; the store (registry
    included) is returned as it was. One unit of fuel is enough. *)
Theorem identity_axiom : forall fuel kb x,
  ReasoningEngine.deduce (S fuel) kb (Fact.mk x "is" x)
  = Ok (ReasoningEngine.mkResult true (x ++ " is itself by definition") None, kb).
Proof. exact deduce_identity. Qed.

(** C9. [deduce] returns with the fact list, the fact-encoding list and the
    rule list of the store unchanged. *)
Theorem deduce_keeps_store : forall kb q,
  kb_wf kb ->
  exists r kb', deduce_returns kb q r kb'
                /\ KnowledgeBase.facts kb' = KnowledgeBase.facts kb
                /\ KnowledgeBase.fact_encodings kb' = KnowledgeBase.fact_encodings kb
                /\ KnowledgeBase.rules kb' = KnowledgeBase.rules kb.
Proof.
  intros kb q Hwf. destruct (deduce_result kb q Hwf) as (r & kb' & H & _ & [S _] & _).
  exists r, kb'. split; [exact H|exact S].
Qed.

(** Witness for C9 on the Hilbert-space store *)
Lemma deduce_keeps_store_witness :
  kb_wf kb_hilbert /\
  exists r kb', deduce_returns kb_hilbert (Fact.mk "Hilbert_spaces" "is" "banach_spaces") r kb'
                /\ KnowledgeBase.facts kb' = KnowledgeBase.facts kb_hilbert
                /\ KnowledgeBase.fact_encodings kb' = KnowledgeBase.fact_encodings kb_hilbert
                /\ KnowledgeBase.rules kb' = KnowledgeBase.rules kb_hilbert.
Proof.
  split; [exact kb_hilbert_wf|].
  apply (deduce_keeps_store kb_hilbert (Fact.mk "Hilbert_spaces" "is" "banach_spaces")).
  exact kb_hilbert_wf.
Defined.

(* ------------------------------------------------------------------------- *)
(** ** Queries intern their names *)

(** [get_prime(name)] on [kb] finds the prime [p] and registers nothing *)
Definition looks_up (kb : KB) (name : string) (p : Z) : Prop :=
  forall fuel, KnowledgeBase.get_prime fuel kb name = Ok (p, kb).

Lemma registered_looks_up : forall kb name p,
  c2p_get (KnowledgeBase.encoder kb) (lower name) = Some p -> looks_up kb name p.
Proof.
  intros kb name p H fuel. unfold KnowledgeBase.get_prime.
  rewrite (get_prime_known fuel _ _ _ H). cbn [bind]. destruct kb; reflexivity.
Qed.

(** [name] is interned in [kb']: [get_prime(name)] finds a prime [p] without
    registering anything, [p] and the registry key of the name are mapped to
    each other, that key being the lower-cased name (spelled out for an ASCII
    name, on which [lower] is [str.lower]), and [p] was unused in [kb] if
    [get_prime(name)] could not find the name there. *)
Definition interned (kb kb' : KB) (name : string) : Prop :=
  exists p key,
    looks_up kb' name p
    /\ c2p_get (KnowledgeBase.encoder kb') key = Some p
    /\ p2c_get (KnowledgeBase.encoder kb') p = Some key
    /\ (isascii name = true -> key = lower name)
    /\ ((forall p0, ~ looks_up kb name p0) -> p2c_get (KnowledgeBase.encoder kb) p = None).

Lemma registered_interned : forall kb kb' name,
  kb_wf kb -> kb_wf kb' -> ext kb kb' -> registered kb' name -> interned kb kb' name.
Proof.
  intros kb kb' name Hwf Hwf' X Hreg. unfold registered in Hreg.
  destruct (c2p_get (KnowledgeBase.encoder kb') (lower name)) as [p|] eqn:E; [|congruence].
  exists p, (lower name). split; [apply registered_looks_up; exact E|].
  split; [exact E|].
  pose proof (ew_c2p _ (kw_enc _ Hwf') _ _ E) as Hp. split; [assumption|].
  split; [reflexivity|].
  intros Hnone. destruct (p2c_get (KnowledgeBase.encoder kb) p) as [n|] eqn:En; [|reflexivity].
  pose proof (rl_p2c _ _ (ext_reg _ _ X) _ _ En) as Hn.
  assert (n = lower name) by congruence. subst n.
  destruct (ew_p2c _ (kw_enc _ Hwf) _ _ En) as (Hc & _).
  exfalso. apply (Hnone p). apply registered_looks_up. assumption.
Qed.

(** C10, as the code has it. An identity query (predicate [is], subject equal
    to object) is answered before anything is encoded and leaves the registry
    as it was. Every other query is returned with its subject, predicate and
    object interned in the shared registry, each under its lower-cased name,
    and the registry only grows: entries present before are kept, a later
    [get_prime] of the name finds its prime and registers nothing, and a
    name that [get_prime] could not find before is mapped to a prime that
    was not in use before. *)
Theorem deduce_interns_query_names : forall kb q,
  kb_wf kb ->
  (is_identity q = true ->
   forall fuel, exists r, ReasoningEngine.deduce (S fuel) kb q = Ok (r, kb))
  /\ (is_identity q = false ->
      exists r kb', deduce_returns kb q r kb'
                    /\ reg_le (KnowledgeBase.encoder kb) (KnowledgeBase.encoder kb')
                    /\ interned kb kb' (Fact.subject q)
                    /\ interned kb kb' (Fact.predicate q)
                    /\ interned kb kb' (Fact.object q)).
Proof.
  intros kb q Hwf. split.
  - intros Hid fuel. destruct q as [s p o]. unfold is_identity in Hid. simpl in Hid.
    apply andb_true_iff in Hid. destruct Hid as (Hp & Hso).
    apply String.eqb_eq in Hp, Hso. subst p o.
    eexists. apply deduce_identity.
  - intros Hid. destruct (deduce_result kb q Hwf) as (r & kb' & H & W & X & [P|(Ps & Pp & Po)]);
      [congruence|].
    exists r, kb'. split; [exact H|]. split; [apply X|].
    split; [|split]; apply registered_interned; assumption.
Qed.

(** Witness for C10: a query with three unseen names on the empty store *)
Lemma deduce_interns_query_names_witness :
  kb_wf kb_empty /\ is_identity (Fact.mk "Penguin" "can" "fly") = false /\
  exists r kb', deduce_returns kb_empty (Fact.mk "Penguin" "can" "fly") r kb'
                /\ reg_le (KnowledgeBase.encoder kb_empty) (KnowledgeBase.encoder kb')
                /\ interned kb_empty kb' "Penguin"
                /\ interned kb_empty kb' "can"
                /\ interned kb_empty kb' "fly".
Proof.
  split; [exact kb_empty_wf|]. split; [reflexivity|].
  apply (proj2 (deduce_interns_query_names kb_empty (Fact.mk "Penguin" "can" "fly") kb_empty_wf)).
  reflexivity.
Defined.

(** C10 as stated fails on an identity query: on the empty store the query
    zebra is zebra returns with neither [zebra] nor [is] interned. *)
Lemma identity_query_interns_nothing :
  exists r kb',
    ReasoningEngine.deduce 1 kb_empty (Fact.mk "zebra" "is" "zebra") = Ok (r, kb')
    /\ c2p_get (KnowledgeBase.encoder kb_empty) "zebra" = None
    /\ c2p_get (KnowledgeBase.encoder kb') "zebra" = None
    /\ c2p_get (KnowledgeBase.encoder kb') "is" = None.
Proof.
  eexists. eexists. split; [apply deduce_identity|].
  split; [|split]; vm_compute; reflexivity.
Qed.

(* ------------------------------------------------------------------------- *)
(** ** The transitive shortcut finds every chain of universal rules *)

(** One hop: a universal rule whose category is the concept of [a] (looked
    up lower-cased, as [get_prime] does) and whose property is the concept
    named [b]. *)
Definition edge (kb : KB) (a b : string) : Prop :=
  exists cat prop pred ce cc,
    In (Quantified "universal" cat prop pred ce cc) (KnowledgeBase.rules kb)
    /\ c2p_get (KnowledgeBase.encoder kb) (lower a) = Some cat
    /\ p2c_get (KnowledgeBase.encoder kb) prop = Some b
    /\ b <> "".

(** [chain_from kb target a l]: [l] lists the categories of a chain of hops
    from [a] to [target], both included. *)
Inductive chain_from (kb : KB) (target : string) : string -> list string -> Prop :=
| chain_end : chain_from kb target target [target]
| chain_hop : forall a b l,
    edge kb a b -> chain_from kb target b l -> chain_from kb target a (a :: l).

Section Search.
Variables (kb : KB) (target : string).
Hypothesis Hwf : kb_wf kb.

(** Every node that entered the visited set between [v] and [v'] has all its
    successors in [v'] *)
Definition closed (v v' : list string) : Prop :=
  forall x, In x v' -> ~ In x v -> forall y, edge kb x y -> In y v'.

Definition search_post (s : string) (v : list string)
           (out : option (list string) * KB * list string) : Prop :=
  let '(res, kb', v') := out in
  kb' = kb /\ incl v v' /\ ~ In target v'
  /\ match res with
     | Some l => chain_from kb target s l
     | None => In s v' /\ closed v v'
     end.

Definition search_rec_ok (rec : ChainRec) : Prop :=
  forall s v out, registered kb s -> ~ In target v -> rec kb s v = Ok out -> search_post s v out.

Lemma p2c_registered : forall p n,
  p2c_get (KnowledgeBase.encoder kb) p = Some n -> registered kb n.
Proof.
  intros p n H. destruct (ew_p2c _ (kw_enc kb Hwf) _ _ H) as (Hc & Hl).
  unfold registered. rewrite Hl, Hc. discriminate.
Qed.

Lemma search_loop : forall rec, search_rec_ok rec ->
  forall rules subj sp v res kb' v',
    incl rules (KnowledgeBase.rules kb) ->
    c2p_get (KnowledgeBase.encoder kb) (lower subj) = Some sp ->
    ~ In target v ->
    ReasoningEngine.chain_loop rec rules kb subj sp v = Ok (res, kb', v') ->
    kb' = kb /\ incl v v' /\ ~ In target v'
    /\ match res with
       | Some l => chain_from kb target subj l
       | None =>
           (forall cat prop pred ce cc y,
               In (Quantified "universal" cat prop pred ce cc) rules ->
               cat = sp -> p2c_get (KnowledgeBase.encoder kb) prop = Some y -> y <> "" ->
               In y v')
           /\ (forall x, In x v' -> ~ In x v -> forall y, edge kb x y -> In y v')
       end.
Proof.
  intros rec Hrec rules. induction rules as [|rule rest IH];
    intros subj sp v res kb' v' Hincl Hsp Hv H; simpl in H.
  - inversion H; subst. split; [reflexivity|]. split; [apply incl_refl|]. split; [assumption|].
    split; [intros ? ? ? ? ? ? []|]. intros x Hx Hnx. contradiction.
  - assert (Hrest : incl rest (KnowledgeBase.rules kb)).
    { intros r Hr. apply Hincl. simpl. auto. }
    assert (Hskip : forall P : Prop,
               (forall cat prop pred ce cc y,
                   rule = Quantified "universal" cat prop pred ce cc ->
                   cat = sp -> p2c_get (KnowledgeBase.encoder kb) prop = Some y -> y <> "" -> P) ->
               ReasoningEngine.chain_loop rec rest kb subj sp v = Ok (res, kb', v') ->
               kb' = kb /\ incl v v' /\ ~ In target v'
               /\ match res with
                  | Some l => chain_from kb target subj l
                  | None =>
                      (forall cat prop pred ce cc y,
                          In (Quantified "universal" cat prop pred ce cc) (rule :: rest) ->
                          cat = sp -> p2c_get (KnowledgeBase.encoder kb) prop = Some y ->
                          y <> "" -> P \/ In y v')
                      /\ (forall x, In x v' -> ~ In x v -> forall y, edge kb x y -> In y v')
                  end).
    { intros P HP H'. destruct (IH _ _ _ _ _ _ Hrest Hsp Hv H') as (A & B & C & D).
      split; [assumption|]. split; [assumption|]. split; [assumption|].
      destruct res as [l|]; [assumption|]. destruct D as (D1 & D2). split; [|assumption].
      intros cat prop pred ce cc y [Heq|Hin] Hcat Hp Hy.
      - left. eapply HP; eauto.
      - right. eapply D1; eauto. }
    assert (Hdrop : forall P : Prop,
               ~ P ->
               (forall cat prop pred ce cc y,
                   rule = Quantified "universal" cat prop pred ce cc ->
                   cat = sp -> p2c_get (KnowledgeBase.encoder kb) prop = Some y -> y <> "" -> P) ->
               ReasoningEngine.chain_loop rec rest kb subj sp v = Ok (res, kb', v') ->
               kb' = kb /\ incl v v' /\ ~ In target v'
               /\ match res with
                  | Some l => chain_from kb target subj l
                  | None =>
                      (forall cat prop pred ce cc y,
                          In (Quantified "universal" cat prop pred ce cc) (rule :: rest) ->
                          cat = sp -> p2c_get (KnowledgeBase.encoder kb) prop = Some y ->
                          y <> "" -> In y v')
                      /\ (forall x, In x v' -> ~ In x v -> forall y, edge kb x y -> In y v')
                  end).
    { intros P HnP HP H'. destruct (Hskip P HP H') as (A & B & C & D).
      split; [assumption|]. split; [assumption|]. split; [assumption|].
      destruct res as [l|]; [assumption|]. destruct D as (D1 & D2). split; [|assumption].
      intros cat prop pred ce cc y Hin Hcat Hp Hy.
      destruct (D1 _ _ _ _ _ _ Hin Hcat Hp Hy); [contradiction|assumption]. }
    destruct rule as [ty cat prop pred ce cc|conds concl].
    2:{ apply (Hdrop False); [tauto| |assumption]. intros; discriminate. }
    destruct (String.eqb_spec ty "universal") as [Hty|Hty]; simpl in H.
    2:{ apply (Hdrop False); [tauto| |assumption]. intros ? ? ? ? ? ? Heq. inversion Heq. congruence. }
    subst ty.
    destruct (Z.eqb_spec cat sp) as [Hcat|Hcat]; simpl in H.
    2:{ apply (Hdrop False); [tauto| |assumption]. intros ? ? ? ? ? ? Heq ?. inversion Heq. congruence. }
    destruct (p2c_get (KnowledgeBase.encoder kb) prop) as [pn|] eqn:Ep.
    2:{ apply (Hdrop False); [tauto| |assumption].
        intros ? ? ? ? ? ? Heq ? Hp. inversion Heq. subst. congruence. }
    destruct (String.eqb_spec pn "") as [Hpn|Hpn]; unfold truthy in H.
    { subst pn. simpl in H. apply (Hdrop False); [tauto| |assumption].
      intros ? ? ? ? ? ? Heq ? Hp Hy. inversion Heq. subst. congruence. }
    rewrite (proj2 (String.eqb_neq pn "") Hpn) in H. simpl in H.
    assert (Hedge : edge kb subj pn).
    { exists cat, prop, pred, ce, cc. split; [apply Hincl; simpl; auto|].
      split; [congruence|]. split; assumption. }
    destruct (rec kb pn v) as [[[chain kb1] v1]| |] eqn:Erec; simpl in H; try discriminate.
    pose proof (Hrec pn v _ (p2c_registered _ _ Ep) Hv Erec) as Hpost.
    simpl in Hpost. destruct Hpost as (-> & V1 & T1 & Hres).
    destruct chain as [[|c cs]|].
    + inversion Hres.
    + inversion H; subst. split; [reflexivity|]. split; [assumption|]. split; [assumption|].
      eapply chain_hop; eassumption.
    + destruct Hres as (Hpn1 & Hcl1).
      destruct (IH _ _ _ _ _ _ Hrest Hsp T1 H) as (A & B & C & D).
      split; [assumption|]. split; [eapply incl_tran; eassumption|]. split; [assumption|].
      destruct res as [l|]; [assumption|]. destruct D as (D1 & D2). split.
      * intros cat0 prop0 pred0 ce0 cc0 y [Heq|Hin] Hc Hp Hy.
        -- inversion Heq; subst. assert (y = pn) by congruence. subst. apply B. assumption.
        -- eapply D1; eauto.
      * intros x Hx Hnx y Hxy.
        destruct (in_dec string_dec x v1) as [Hin1|Hnin1].
        -- apply B. eapply Hcl1; eauto.
        -- eapply D2; eauto.
Qed.

Lemma search_spec : forall fuel, search_rec_ok (fun kb0 s v => ReasoningEngine._universal_chain fuel kb0 s target v).
Proof.
  induction fuel as [|f IH]; intros s v out Hreg Hv H; simpl in H; [discriminate|].
  destruct (String.eqb_spec s target) as [Heq|Hne].
  - inversion H; subst. simpl. split; [reflexivity|]. split; [apply incl_refl|].
    split; [assumption|]. constructor.
  - destruct (mem s v) eqn:Hmem.
    + inversion H; subst. simpl. split; [reflexivity|]. split; [apply incl_refl|].
      split; [assumption|]. split; [apply mem_In; assumption|].
      intros x Hx Hnx. contradiction.
    + apply mem_false in Hmem.
      unfold registered in Hreg.
      destruct (c2p_get (KnowledgeBase.encoder kb) (lower s)) as [sp|] eqn:Esp; [|congruence].
      unfold KnowledgeBase.get_prime in H.
      rewrite (get_prime_known f _ _ _ Esp) in H. simpl in H.
      assert (Hsame : KnowledgeBase.with_encoder kb (KnowledgeBase.encoder kb) = kb)
        by (destruct kb; reflexivity).
      rewrite Hsame in H.
      destruct out as [[res kb'] v'].
      assert (Hv1 : ~ In target (s :: v)).
      { simpl. intros [Heq|Hin]; [congruence|contradiction]. }
      destruct (search_loop _ IH _ _ _ _ _ _ _ (incl_refl _) Esp Hv1 H) as (A & B & C & D).
      simpl. split; [assumption|]. split; [intros y Hy; apply B; simpl; auto|].
      split; [assumption|].
      destruct res as [l|]; [assumption|]. destruct D as (D1 & D2).
      split; [apply B; simpl; auto|].
      intros x Hx Hnx y Hxy.
      destruct (string_dec x s) as [->|Hxs].
      * destruct Hxy as (cat & prop & pred & ce & cc & Hin & Hc & Hp & Hy).
        eapply D1; eauto. congruence.
      * eapply D2; eauto. simpl. intros [Heq|Hin]; [congruence|contradiction].
Qed.

Lemma closed_reaches : forall v' a l,
  closed [] v' -> chain_from kb target a l -> In a v' -> In target v'.
Proof.
  intros v' a l Hcl Hch. induction Hch as [|a b l Hab Hch IH]; intros Ha; [assumption|].
  apply IH. eapply Hcl; eauto.
Qed.

(** From the empty visited set the search finds a chain whenever there is one *)
Lemma search_complete : forall fuel s l0 out,
  registered kb s -> chain_from kb target s l0 ->
  ReasoningEngine._universal_chain fuel kb s target [] = Ok out ->
  exists l v', out = (Some l, kb, v') /\ chain_from kb target s l.
Proof.
  intros fuel s l0 [[res kb'] v'] Hreg Hch H.
  destruct (search_spec fuel s [] _ Hreg (fun F => F) H) as (-> & _ & Ht & Hres).
  destruct res as [l|].
  - exists l, v'. auto.
  - destruct Hres as (Hs & Hcl). exfalso. apply Ht. eapply closed_reaches; eassumption.
Qed.

End Search.

Lemma chain_from_nonempty : forall kb t a l, chain_from kb t a l -> exists c cs, l = c :: cs.
Proof. intros kb t a l H. destruct H; eauto. Qed.

Lemma chain_from_ends : forall kb t a l,
  chain_from kb t a l -> hd_error l = Some a /\ last l "" = t.
Proof.
  intros kb t a l H. induction H as [|a b l Hab Hch (IH1 & IH2)]; [auto|].
  split; [reflexivity|].
  destruct (chain_from_nonempty _ _ _ _ Hch) as (c & cs & ->). exact IH2.
Qed.

Lemma get_never_raises : forall fuel g i e, PrimeGenerator.get fuel g i <> Raise e.
Proof.
  induction fuel as [|f IH]; intros g i e; simpl; [discriminate|].
  destruct (Nat.leb (List.length (PrimeGenerator._primes g)) i); [apply IH|discriminate].
Qed.

Lemma kb_get_prime_never_raises : forall fuel kb x e,
  KnowledgeBase.get_prime fuel kb x <> Raise e.
Proof.
  intros fuel kb x e H. unfold KnowledgeBase.get_prime, PrimeEncoder.get_prime in H.
  destruct (c2p_get (KnowledgeBase.encoder kb) (lower x)); [discriminate|].
  unfold PrimeEncoder._assign_prime in H.
  destruct (PrimeGenerator.get fuel _ _) as [[p g]|e'|] eqn:E; simpl in H; try discriminate.
  eapply get_never_raises. eassumption.
Qed.

Lemma chain_loop_never_raises : forall rec : ChainRec,
  (forall kb s v e, rec kb s v <> Raise e) ->
  forall rules kb subj sp v e, ReasoningEngine.chain_loop rec rules kb subj sp v <> Raise e.
Proof.
  intros rec Hrec rules. induction rules as [|rule rest IH]; intros kb subj sp v e; simpl;
    [discriminate|].
  destruct rule as [ty cat prop pred ce cc|conds concl]; [|apply IH].
  destruct (negb (ty =? "universal")%string); [apply IH|].
  destruct (negb (cat =? sp)); [apply IH|].
  destruct (p2c_get (KnowledgeBase.encoder kb) prop) as [pn|]; [|apply IH].
  destruct (negb (truthy pn)); [apply IH|].
  destruct (rec kb pn v) as [[[chain kb1] v1]|e'|] eqn:E; simpl; try discriminate.
  - destruct chain as [[|c cs]|]; try apply IH. discriminate.
  - exfalso. eapply Hrec. eassumption.
Qed.

(** The chain search raises nothing, so the handler around it is dead *)
Lemma universal_chain_never_raises : forall fuel kb s t v e,
  ReasoningEngine._universal_chain fuel kb s t v <> Raise e.
Proof.
  induction fuel as [|f IH]; intros kb s t v e; simpl; [discriminate|].
  destruct (s =? t)%string; [discriminate|].
  destruct (mem s v); [discriminate|].
  destruct (KnowledgeBase.get_prime f kb s) as [[sp kb1]|e'|] eqn:E; simpl; try discriminate.
  - apply chain_loop_never_raises. intros kb0 s0 v0 e0. apply IH.
  - exfalso. eapply kb_get_prime_never_raises. eassumption.
Qed.

(** The shortcut when the object is spelled as the registry has it. For a
    query with predicate [is] whose subject differs from its object: if the
    universal rules of the store link the subject to the object by a chain
    of hops ([chain_from], whose last hop ends at the very string of the
    object), [deduce] returns entailed, its explanation
    listing the hops of such a chain ("A are B, and B are C") and its
    equation joining the same chain with the subset sign, and the store is
    returned as it was. Nothing is assumed about the stored facts, so the
    chain result is returned also when the queried fact is stored directly:
    that is the case in the Hilbert-space store of the second part, where
    the result is the one quoted in the specification. *)
Theorem universal_chain_shortcut :
  (forall kb q l0,
      kb_wf kb -> Fact.predicate q = "is" -> Fact.subject q <> Fact.object q ->
      chain_from kb (Fact.object q) (Fact.subject q) l0 ->
      exists l,
        chain_from kb (Fact.object q) (Fact.subject q) l
        /\ deduce_returns kb q
             (ReasoningEngine.mkResult true (String.concat ", and " (ReasoningEngine.chain_parts l))
                                       (Some (String.concat " ⊆ " l)))
             kb)
  /\ In (Fact.mk "Hilbert_spaces" "is" "normed_spaces") (KnowledgeBase.facts kb_hilbert)
  /\ deduce_returns kb_hilbert (Fact.mk "Hilbert_spaces" "is" "normed_spaces")
       (ReasoningEngine.mkResult true
          "Hilbert_spaces are inner_product_spaces, and inner_product_spaces are normed_spaces"
          (Some "Hilbert_spaces ⊆ inner_product_spaces ⊆ normed_spaces"))
       kb_hilbert.
Proof.
  split; [|split].
  - intros kb [s p o] l0 Hwf Hp Hso Hch. simpl in *. subst p.
    assert (Hreg : registered kb s).
    { inversion Hch as [|a b l (cat & prop & pred & ce & cc & _ & Hc & _) Hrest]; subst.
      - contradiction.
      - unfold registered. rewrite Hc. discriminate. }
    destruct (deduce_result kb (Fact.mk s "is" o) Hwf) as (r & kb' & (F & HF) & _).
    pose proof (proj1 (HF F) (le_n F)) as E.
    destruct F as [|f]; [discriminate|].
    unfold ReasoningEngine.deduce in E. simpl in E.
    rewrite (proj2 (String.eqb_neq s o) Hso) in E.
    destruct (ReasoningEngine._universal_chain f kb s o []) as [out|e|] eqn:Ech;
      simpl in E; try discriminate.
    2:{ exfalso. eapply universal_chain_never_raises. eassumption. }
    destruct (search_complete kb o Hwf f s l0 out Hreg Hch Ech) as (l & v' & -> & Hl).
    exists l. split; [assumption|].
    destruct (chain_from_nonempty _ _ _ _ Hl) as (c & cs & ->).
    apply (deduce_returns_of (S f)).
    unfold ReasoningEngine.deduce. simpl.
    rewrite (proj2 (String.eqb_neq s o) Hso). rewrite Ech. reflexivity.
  - vm_compute. auto.
  - apply (deduce_returns_of 10). vm_compute. reflexivity.
Qed.

(** The shortcut on the two Hilbert-space rules *)
Lemma universal_chain_shortcut_witness :
  let q := Fact.mk "Hilbert_spaces" "is" "normed_spaces" in
  kb_wf kb_hilbert /\ Fact.predicate q = "is" /\ Fact.subject q <> Fact.object q /\
  chain_from kb_hilbert (Fact.object q) (Fact.subject q)
             ["Hilbert_spaces"; "inner_product_spaces"; "normed_spaces"] /\
  exists l,
    chain_from kb_hilbert (Fact.object q) (Fact.subject q) l
    /\ deduce_returns kb_hilbert q
         (ReasoningEngine.mkResult true (String.concat ", and " (ReasoningEngine.chain_parts l))
                                   (Some (String.concat " ⊆ " l)))
         kb_hilbert.
Proof.
  intros q.
  assert (Hne : Fact.subject q <> Fact.object q) by (simpl; discriminate).
  assert (Hch : chain_from kb_hilbert (Fact.object q) (Fact.subject q)
                           ["Hilbert_spaces"; "inner_product_spaces"; "normed_spaces"]).
  { simpl. apply chain_hop with (b := "inner_product_spaces").
    - exists 7, 11, 5, [(3, 1); (5, 1); (7, 1)], [(3, 1); (5, 1); (11, 1)].
      split; [vm_compute; auto|]. split; [vm_compute; reflexivity|].
      split; [vm_compute; reflexivity|discriminate].
    - apply chain_hop with (b := "normed_spaces").
      + exists 11, 13, 5, [(3, 1); (5, 1); (11, 1)], [(3, 1); (5, 1); (13, 1)].
        split; [vm_compute; auto|]. split; [vm_compute; reflexivity|].
        split; [vm_compute; reflexivity|discriminate].
      + apply chain_end. }
  split; [exact kb_hilbert_wf|]. split; [reflexivity|]. split; [exact Hne|].
  split; [exact Hch|].
  exact (proj1 universal_chain_shortcut kb_hilbert q _ kb_hilbert_wf eq_refl Hne Hch).
Defined.

(** When the chain leads back to the subject the identity axiom answers
    first: with the rules all a are b, all b are a, a chain of two hops links
    [a] to [a], yet [deduce(a is a)] has no equation and no hop in its
    explanation. *)
Lemma chain_to_itself_is_answered_by_identity :
  chain_from kb_loop "a" "a" ["a"; "b"; "a"]
  /\ ReasoningEngine.deduce 10 kb_loop (Fact.mk "a" "is" "a")
     = Ok (ReasoningEngine.mkResult true "a is itself by definition" None, kb_loop).
Proof.
  split.
  - apply chain_hop with (b := "b").
    + exists 7, 11, 5, [(3, 1); (5, 1); (7, 1)], [(3, 1); (5, 1); (11, 1)].
      split; [vm_compute; auto|]. split; [vm_compute; reflexivity|].
      split; [vm_compute; reflexivity|discriminate].
    + apply chain_hop with (b := "a").
      * exists 11, 7, 5, [(3, 1); (5, 1); (11, 1)], [(3, 1); (5, 1); (7, 1)].
        split; [vm_compute; auto|]. split; [vm_compute; reflexivity|].
        split; [vm_compute; reflexivity|discriminate].
      * apply chain_end.
  - apply deduce_identity.
Qed.

Lemma store_of_capital : store_of 1 capital_script = Ok kb_capital.
Proof. vm_compute. reflexivity. Qed.

(** C3 at its failing input. The store holds the one universal rule all A
    are B, whose category and property primes are those [get_prime] gives
    for [A] and [B]; the rule links the subject of the query A is B to its
    object. [deduce] answers that query with not entailed: the chain search
    compares the registered name [b] with the object [B] as strings. The
    same query with the object spelled [b] gets the chain answer. *)
Theorem chain_search_misses_capitalised_object :
  store_of 1 capital_script = Ok kb_capital
  /\ KnowledgeBase.rules kb_capital
     = [Quantified "universal" 7 11 5 [(3, 1); (5, 1); (7, 1)] [(3, 1); (5, 1); (11, 1)]]
  /\ KnowledgeBase.get_prime 1 kb_capital "A" = Ok (7, kb_capital)
  /\ KnowledgeBase.get_prime 1 kb_capital "B" = Ok (11, kb_capital)
  /\ deduce_returns kb_capital (Fact.mk "A" "is" "B")
       (ReasoningEngine.mkResult false "Could not deduce: A is B" None) kb_capital
  /\ deduce_returns kb_capital (Fact.mk "A" "is" "b")
       (ReasoningEngine.mkResult true "A are b" (Some "A ⊆ b")) kb_capital.
Proof.
  split; [exact store_of_capital|].
  split; [vm_compute; reflexivity|].
  split; [vm_compute; reflexivity|].
  split; [vm_compute; reflexivity|].
  split; apply (deduce_returns_of 10); vm_compute; reflexivity.
Qed.

(* ------------------------------------------------------------------------- *)
(** ** The integer codec *)

Lemma strip_raises : forall fuel p enc r e,
  PrimeEncoder.strip fuel p enc r = Raise e -> e = ZeroDivisionError.
Proof.
  induction fuel as [|f IH]; intros p enc r e H; simpl in H; [discriminate|].
  destruct (p =? 0); [congruence|].
  destruct (r mod p =? 0); [eauto|discriminate].
Qed.

Lemma trial_raises : forall fuel idxs g enc r e,
  PrimeEncoder.trial fuel idxs g enc r = Raise e -> e = ZeroDivisionError.
Proof.
  intros fuel idxs. induction idxs as [|i rest IH]; intros g enc r e H; simpl in H;
    [discriminate|].
  destruct (PrimeGenerator.get fuel g i) as [[p g']|e'|] eqn:Eg; simpl in H; try discriminate.
  - destruct (r <? p * p); [discriminate|].
    destruct (PrimeEncoder.strip fuel p enc r) as [[enc' r']|e'|] eqn:Es; simpl in H;
      try discriminate.
    + eauto.
    + inversion H; subst. eapply strip_raises; eassumption.
  - exfalso. eapply get_never_raises; eassumption.
Qed.

(** [encode_integer] raises its [ValueError] exactly on zero *)
Lemma encode_integer_rejects_zero_only : forall fuel self n,
  (exists msg, PrimeEncoder.encode_integer fuel self n = Raise (ValueError msg)) <-> n = 0.
Proof.
  intros fuel self n. unfold PrimeEncoder.encode_integer. split.
  - intros (msg & H). destruct (Z.eqb_spec n 0) as [|Hn]; [assumption|exfalso].
    destruct (if n <? 0 then _ else _) as [enc m].
    destruct (PrimeEncoder.trial fuel _ _ enc m) as [[[enc' r] g]|e|] eqn:Et;
      simpl in H; try discriminate.
    inversion H; subst. apply trial_raises in Et. discriminate.
  - intros ->. simpl. eexists. reflexivity.
Qed.

Lemma strip_total : forall fuel p enc r,
  2 <= p -> 1 <= r -> (Z.to_nat r < fuel)%nat ->
  exists enc' r', PrimeEncoder.strip fuel p enc r = Ok (enc', r') /\ 1 <= r' <= r.
Proof.
  induction fuel as [|f IH]; intros p enc r Hp Hr Hfuel; [lia|]. simpl.
  destruct (Z.eqb_spec p 0); [lia|].
  destruct (Z.eqb_spec (r mod p) 0) as [Hmod|Hmod].
  - assert (Hdiv : r = p * (r / p)) by (apply Z_div_exact_full_2; lia).
    assert (Hq : 1 <= r / p < r) by nia.
    destruct (IH p (eset enc p (eget enc p 0 + 1)) (r / p) Hp ltac:(lia) ltac:(lia))
      as (enc' & r' & E & Hr').
    exists enc', r'. split; [assumption|lia].
  - exists enc, r. split; [reflexivity|lia].
Qed.

Lemma trial_total : forall fuel idxs g enc r,
  pg_wf g -> (forall i, In i idxs -> (i < List.length (PrimeGenerator._primes g))%nat) ->
  1 <= r -> (Z.to_nat r < fuel)%nat ->
  exists enc' r', PrimeEncoder.trial fuel idxs g enc r = Ok (enc', r', g) /\ 1 <= r'.
Proof.
  intros fuel idxs. induction idxs as [|i rest IH]; intros g enc r Hwf Hidx Hr Hfuel; simpl.
  - exists enc, r. auto.
  - assert (Hget : PrimeGenerator.get fuel g i
                   = Ok (nth i (PrimeGenerator._primes g) 0, g)).
    { destruct fuel as [|f]; [lia|]. apply get_fast. apply Hidx. simpl. auto. }
    rewrite Hget. cbn [bind].
    set (p := nth i (PrimeGenerator._primes g) 0).
    assert (Hp : 2 <= p).
    { apply (pg_bounds g Hwf). apply nth_In. apply Hidx. simpl. auto. }
    destruct (r <? p * p); [exists enc, r; auto|].
    destruct (strip_total fuel p enc r Hp Hr Hfuel) as (enc1 & r1 & -> & Hr1). cbn [bind].
    apply IH; auto; try lia. intros j Hj. apply Hidx. simpl. auto.
Qed.

(** On a sound encoder [encode_integer] returns a map for every non-zero
    integer, and leaves the encoder as it was. *)
Lemma encode_integer_total : forall self n,
  enc_wf self -> n <> 0 ->
  forall fuel, (Z.to_nat (Z.abs n) < fuel)%nat ->
    exists m, PrimeEncoder.encode_integer fuel self n = Ok (m, self).
Proof.
  intros self n Hwf Hn fuel Hfuel. unfold PrimeEncoder.encode_integer.
  destruct (Z.eqb_spec n 0); [contradiction|].
  assert (Hidx : forall i, In i (seq 0 (PrimeEncoder._next_index self)) ->
                           (i < List.length (PrimeGenerator._primes (PrimeEncoder.prime_gen self)))%nat).
  { intros i Hi. apply in_seq in Hi. pose proof (ew_index self Hwf). lia. }
  assert (Hself : PrimeEncoder.with_prime_gen self (PrimeEncoder.prime_gen self) = self)
    by (destruct self; reflexivity).
  destruct (Z.ltb_spec n 0).
  - destruct (trial_total fuel _ (PrimeEncoder.prime_gen self)
                (eset [] (PrimeEncoder.sign_prime self) 1) (- n) (ew_pg self Hwf) Hidx)
      as (enc' & r' & -> & _); [lia|lia|].
    simpl. rewrite Hself. eauto.
  - destruct (trial_total fuel _ (PrimeEncoder.prime_gen self) [] n (ew_pg self Hwf) Hidx)
      as (enc' & r' & -> & _); [lia|lia|].
    simpl. rewrite Hself. eauto.
Qed.

(** Exponent maps that store positive exponents only *)
Definition positive_exponents (m : ExponentMap) : Prop :=
  forall p e, In (p, e) m -> 0 < e.

Lemma eget_nonneg : forall m p, positive_exponents m -> 0 <= eget m p 0.
Proof.
  intros m p Hm. unfold eget, Dict.get_default.
  destruct (Dict.get Z.eqb m p) as [e|] eqn:E; [|lia].
  apply (get_some_in Z.eqb Z.eqb_eq) in E. apply Hm in E. lia.
Qed.

Lemma positive_bump : forall m p,
  positive_exponents m -> positive_exponents (eset m p (eget m p 0 + 1)).
Proof.
  intros m p Hm q e Hin. apply in_set in Hin; [|exact Z.eqb_eq].
  destruct Hin as [Heq|Hin]; [|eauto].
  inversion Heq; subst. pose proof (eget_nonneg m p Hm). lia.
Qed.

Lemma strip_positive : forall fuel p enc r enc' r',
  positive_exponents enc -> PrimeEncoder.strip fuel p enc r = Ok (enc', r') ->
  positive_exponents enc'.
Proof.
  induction fuel as [|f IH]; intros p enc r enc' r' Hpos H; simpl in H; [discriminate|].
  destruct (p =? 0); [discriminate|].
  destruct (r mod p =? 0).
  - eapply IH; [|eassumption]. apply positive_bump. assumption.
  - inversion H; subst. assumption.
Qed.

Lemma trial_positive : forall fuel idxs g enc r enc' r' g',
  positive_exponents enc -> PrimeEncoder.trial fuel idxs g enc r = Ok (enc', r', g') ->
  positive_exponents enc'.
Proof.
  intros fuel idxs. induction idxs as [|i rest IH]; intros g enc r enc' r' g' Hpos H;
    simpl in H.
  - inversion H; subst. assumption.
  - destruct (PrimeGenerator.get fuel g i) as [[p g1]| |]; simpl in H; try discriminate.
    destruct (r <? p * p); [inversion H; subst; assumption|].
    destruct (PrimeEncoder.strip fuel p enc r) as [[enc1 r1]| |] eqn:Es; simpl in H;
      try discriminate.
    eapply IH; [|eassumption]. eapply strip_positive; eassumption.
Qed.

(** Every map [encode_integer] returns stores positive exponents only *)
Lemma encode_integer_positive : forall fuel self n m self',
  PrimeEncoder.encode_integer fuel self n = Ok (m, self') -> positive_exponents m.
Proof.
  intros fuel self n m self' H. unfold PrimeEncoder.encode_integer in H.
  destruct (n =? 0); [discriminate|].
  assert (Hstart : positive_exponents
                     (fst (if n <? 0 then (eset [] (PrimeEncoder.sign_prime self) 1, - n)
                           else ([], n)))).
  { destruct (n <? 0); simpl.
    - intros p e [Heq|[]]. inversion Heq. lia.
    - intros p e []. }
  destruct (if n <? 0 then _ else _) as [enc0 n0]. simpl in Hstart.
  destruct (PrimeEncoder.trial fuel _ _ enc0 n0) as [[[enc1 r1] g1]| |] eqn:Et;
    simpl in H; try discriminate.
  inversion H; subst.
  pose proof (trial_positive _ _ _ _ _ _ _ _ Hstart Et) as Hpos.
  destruct (1 <? r1); [apply positive_bump|]; assumption.
Qed.

(** Every map [multiply] returns stores no zero exponent, whatever its
    arguments *)
Lemma multiply_stores_no_zero : forall a b p e,
  In (p, e) (PrimeEncoder.multiply a b) -> e <> 0.
Proof.
  intros a b p e H. unfold PrimeEncoder.multiply in H.
  apply filter_In in H. destruct H as (_ & H). simpl in H.
  apply negb_true_iff in H. apply Z.eqb_neq in H. exact H.
Qed.

(** *** Odd numbers do round-trip

    The value and the sign that [decode_integer] reads off a map *)

Fixpoint val_of (sign : Z) (enc : ExponentMap) : Z :=
  match enc with
  | [] => 1
  | (p, e) :: rest => if p =? sign then val_of sign rest else p ^ e * val_of sign rest
  end.

Fixpoint sgn_of (sign : Z) (enc : ExponentMap) : Z :=
  match enc with
  | [] => 1
  | (p, e) :: rest =>
      if p =? sign then (if e mod 2 =? 1 then -1 else 1) * sgn_of sign rest
      else sgn_of sign rest
  end.

Lemma decode_integer_eq : forall self enc,
  PrimeEncoder.decode_integer self enc
  = sgn_of (PrimeEncoder.sign_prime self) enc * val_of (PrimeEncoder.sign_prime self) enc.
Proof.
  intros self enc. unfold PrimeEncoder.decode_integer.
  assert (H : forall l s r,
             fold_left (PrimeEncoder.decode_step self) l (s, r)
             = (s * sgn_of (PrimeEncoder.sign_prime self) l,
                r * val_of (PrimeEncoder.sign_prime self) l)).
  { induction l as [|[p e] l IH]; intros s r; simpl.
    - f_equal; ring.
    - destruct (p =? PrimeEncoder.sign_prime self); rewrite IH; f_equal; ring. }
  rewrite H. ring.
Qed.

Lemma val_of_bump : forall sign enc p,
  p <> sign -> positive_exponents enc ->
  val_of sign (eset enc p (eget enc p 0 + 1)) = val_of sign enc * p.
Proof.
  intros sign enc p Hp. induction enc as [|[k e] rest IH]; intros Hpos.
  - unfold eset, eget, Dict.get_default. cbn [Dict.set Dict.get val_of].
    rewrite (proj2 (Z.eqb_neq p sign) Hp). change (0 + 1) with 1.
    rewrite Z.pow_1_r. ring.
  - assert (Hrest : positive_exponents rest) by (intros q x Hin; apply (Hpos q x); simpl; auto).
    unfold eset, eget, Dict.get_default in *. cbn [Dict.set Dict.get val_of].
    destruct (Z.eqb_spec k p) as [->|Hkp]; cbn [val_of].
    + rewrite (proj2 (Z.eqb_neq p sign) Hp).
      assert (0 < e) by (apply (Hpos p e); simpl; auto).
      rewrite Z.pow_add_r by lia. rewrite Z.pow_1_r. ring.
    + specialize (IH Hrest). destruct (k =? sign); rewrite IH; ring.
Qed.

Lemma sgn_of_set_other : forall sign enc p v,
  p <> sign -> sgn_of sign (eset enc p v) = sgn_of sign enc.
Proof.
  intros sign enc p v Hp. induction enc as [|[k e] rest IH]; unfold eset in *; simpl.
  - rewrite (proj2 (Z.eqb_neq p sign) Hp). reflexivity.
  - destruct (Z.eqb_spec k p) as [->|Hkp]; simpl.
    + rewrite (proj2 (Z.eqb_neq p sign) Hp). reflexivity.
    + rewrite IH. reflexivity.
Qed.

Lemma odd_quotient : forall r p, p <> 0 -> Z.odd r = true -> r mod p = 0 ->
  Z.odd p = true /\ Z.odd (r / p) = true.
Proof.
  intros r p Hp Hodd Hmod.
  assert (Hr : r = p * (r / p)) by (apply Z_div_exact_full_2; assumption).
  rewrite Hr in Hodd. rewrite Z.odd_mul in Hodd. apply andb_true_iff in Hodd. exact Hodd.
Qed.

Lemma strip_value : forall fuel p enc r enc' r',
  2 <= p -> 1 <= r -> Z.odd r = true -> positive_exponents enc ->
  PrimeEncoder.strip fuel p enc r = Ok (enc', r') ->
  val_of 2 enc' * r' = val_of 2 enc * r /\ sgn_of 2 enc' = sgn_of 2 enc
  /\ 1 <= r' /\ Z.odd r' = true /\ positive_exponents enc'.
Proof.
  induction fuel as [|f IH]; intros p enc r enc' r' Hp Hr Hodd Hpos H; simpl in H;
    [discriminate|].
  destruct (Z.eqb_spec p 0); [lia|].
  destruct (Z.eqb_spec (r mod p) 0) as [Hmod|Hmod].
  - destruct (odd_quotient r p ltac:(lia) Hodd Hmod) as (Hpodd & Hqodd).
    assert (Hp2 : p <> 2) by (intros ->; discriminate).
    assert (Hdiv : r = p * (r / p)) by (apply Z_div_exact_full_2; lia).
    assert (Hq : 1 <= r / p) by nia.
    destruct (IH _ _ _ _ _ Hp Hq Hqodd (positive_bump enc p Hpos) H) as (A & B & C & D & E).
    rewrite val_of_bump in A by assumption. rewrite sgn_of_set_other in B by assumption.
    split; [|auto]. rewrite A. rewrite Hdiv at 2. ring.
  - inversion H; subst. auto.
Qed.

Lemma trial_value : forall fuel idxs g enc r enc' r' g',
  pg_wf g -> 1 <= r -> Z.odd r = true -> positive_exponents enc ->
  PrimeEncoder.trial fuel idxs g enc r = Ok (enc', r', g') ->
  val_of 2 enc' * r' = val_of 2 enc * r /\ sgn_of 2 enc' = sgn_of 2 enc
  /\ 1 <= r' /\ Z.odd r' = true /\ positive_exponents enc'.
Proof.
  intros fuel idxs. induction idxs as [|i rest IH];
    intros g enc r enc' r' g' Hwf Hr Hodd Hpos H; simpl in H.
  - inversion H; subst. auto.
  - destruct (PrimeGenerator.get fuel g i) as [[p g1]| |] eqn:Eg; simpl in H; try discriminate.
    destruct (get_ok_spec _ _ _ _ _ Hwf Eg) as (Hwf1 & _ & Hnth & _).
    assert (Hp : 2 <= p) by (apply (pg_bounds g1 Hwf1); eapply nth_error_In; eassumption).
    destruct (r <? p * p); [inversion H; subst; auto|].
    destruct (PrimeEncoder.strip fuel p enc r) as [[enc1 r1]| |] eqn:Es; simpl in H;
      try discriminate.
    destruct (strip_value _ _ _ _ _ _ Hp Hr Hodd Hpos Es) as (A & B & C & D & E).
    destruct (IH _ _ _ _ _ _ Hwf1 C D E H) as (A' & B' & C' & D' & E').
    split; [congruence|]. split; [congruence|]. auto.
Qed.

(** On a sound encoder whose sign marker is 2, every odd integer is decoded
    back from its encoding. *)
Lemma odd_roundtrip : forall fuel self n m self',
  enc_wf self -> PrimeEncoder.sign_prime self = 2 -> Z.odd n = true ->
  PrimeEncoder.encode_integer fuel self n = Ok (m, self') ->
  PrimeEncoder.decode_integer self' m = n.
Proof.
  intros fuel self n m self' Hwf Hsign Hodd H. unfold PrimeEncoder.encode_integer in H.
  destruct (Z.eqb_spec n 0) as [->|Hn]; [discriminate|]. rewrite Hsign in H.
  assert (Hstart :
    forall enc0 n0, (enc0, n0) = (if n <? 0 then (eset [] 2 1, - n) else ([], n)) ->
      1 <= n0 /\ Z.odd n0 = true /\ positive_exponents enc0
      /\ sgn_of 2 enc0 * (val_of 2 enc0 * n0) = n).
  { intros enc0 n0 E. destruct (Z.ltb_spec n 0); inversion E; subst.
    - split; [lia|]. split; [rewrite Z.odd_opp; assumption|].
      split; [intros p e [Heq|[]]; inversion Heq; lia|].
      change (sgn_of 2 [(2, 1)]) with (-1). change (val_of 2 [(2, 1)]) with 1. ring.
    - split; [lia|]. split; [assumption|]. split; [intros p e []|].
      change (sgn_of 2 []) with 1. change (val_of 2 []) with 1. ring. }
  destruct (if n <? 0 then _ else _) as [enc0 n0].
  destruct (Hstart enc0 n0 eq_refl) as (Hn0 & Hodd0 & Hpos0 & Hval0).
  destruct (PrimeEncoder.trial fuel _ _ enc0 n0) as [[[enc1 r1] g1]| |] eqn:Et;
    simpl in H; try discriminate.
  inversion H; subst m self'; clear H.
  destruct (trial_value _ _ _ _ _ _ _ _ (ew_pg self Hwf) Hn0 Hodd0 Hpos0 Et)
    as (A & B & C & D & E).
  rewrite decode_integer_eq. simpl. rewrite Hsign.
  destruct (Z.ltb_spec 1 r1) as [Hgt|Hle].
  - assert (Hr2 : r1 <> 2) by (intros ->; discriminate).
    rewrite val_of_bump, sgn_of_set_other by assumption.
    rewrite B, A. exact Hval0.
  - assert (r1 = 1) by lia. subst r1. rewrite B. rewrite Z.mul_1_r in A. rewrite A. exact Hval0.
Qed.

Lemma encoder0_eq : PrimeEncoder.__init__ 1 = Ok encoder0.
Proof. vm_compute. reflexivity. Qed.

Lemma encoder0_wf : enc_wf encoder0.
Proof. exact (init_spec 1 encoder0 encoder0_eq). Qed.

(** C1 at its failing inputs. On a new encoder the sign marker is the prime
    2, so a factor 2 of [n] is counted on the sign marker's entry: 2 decodes
    to -1, 4 to 1, -2 to 1 and -6 to 3. (An odd number such as -15 comes
    back unchanged.) *)
Theorem roundtrip_breaks_on_even_numbers :
  PrimeEncoder.sign_prime encoder0 = 2
  /\ PrimeEncoder.encode_integer 10 encoder0 2 = Ok ([(2, 1)], encoder0)
  /\ PrimeEncoder.decode_integer encoder0 [(2, 1)] = -1
  /\ PrimeEncoder.encode_integer 10 encoder0 4 = Ok ([(2, 2)], encoder0)
  /\ PrimeEncoder.decode_integer encoder0 [(2, 2)] = 1
  /\ PrimeEncoder.encode_integer 10 encoder0 (-2) = Ok ([(2, 2)], encoder0)
  /\ PrimeEncoder.encode_integer 10 encoder0 (-6) = Ok ([(2, 2); (3, 1)], encoder0)
  /\ PrimeEncoder.decode_integer encoder0 [(2, 2); (3, 1)] = 3
  /\ PrimeEncoder.encode_integer 10 encoder0 (-15) = Ok ([(2, 1); (15, 1)], encoder0)
  /\ PrimeEncoder.decode_integer encoder0 [(2, 1); (15, 1)] = -15.
Proof. repeat (match goal with |- _ /\ _ => split end); vm_compute; reflexivity. Qed.

(** C6 at its failing input. [encode_integer(-2)] on a new encoder returns
    the map [{2: 2}]: the sign marker, which is the prime 2, ends with
    exponent 2, not 1. *)
Theorem negative_even_sign_exponent :
  PrimeEncoder.encode_integer 10 encoder0 (-2) = Ok ([(2, 2)], encoder0)
  /\ eget [(2, 2)] (PrimeEncoder.sign_prime encoder0) 0 = 2.
Proof. split; vm_compute; reflexivity. Qed.

(** C7 at its failing input. A new encoder knows the prime 2 only; trial
    division of 15 by it leaves the remainder 15, which is recorded as a key
    although it is not the sign marker and not prime. *)
Theorem composite_remainder_recorded :
  PrimeEncoder._next_index encoder0 = 1%nat
  /\ PrimeEncoder.encode_integer 10 encoder0 15 = Ok ([(15, 1)], encoder0)
  /\ 15 <> PrimeEncoder.sign_prime encoder0
  /\ ~ Z.prime 15.
Proof.
  split; [vm_compute; reflexivity|]. split; [vm_compute; reflexivity|].
  split; [vm_compute; discriminate|].
  intros [_ H]. apply (H 3); [lia|]. exists 5. reflexivity.
Qed.

(** C8 at its failing input. Dividing the encoding of -1 by itself leaves
    the sign marker in the result with exponent 0. *)
Theorem divide_keeps_cancelled_sign :
  PrimeEncoder.encode_integer 10 encoder0 (-1) = Ok ([(2, 1)], encoder0)
  /\ PrimeEncoder.divide encoder0 [(2, 1)] [(2, 1)] = Ok [(2, 0)]
  /\ PrimeEncoder.divide encoder0 [] [(2, 1)] = Ok [(2, -1)].
Proof. repeat (match goal with |- _ /\ _ => split end); vm_compute; reflexivity. Qed.

(* ========================================================================= *)
(** * Further properties of the code *)

From Stdlib Require Import Sorted.

(* ------------------------------------------------------------------------- *)
(** ** The sieve lists exactly the primes, in increasing order *)

Lemma nth_set_at_same : forall s i v d,
  (i < List.length s)%nat -> nth i (PrimeGenerator.set_at s i v) d = v.
Proof.
  induction s as [|b s IH]; intros [|i] v d Hlt; simpl in *; try lia; auto.
  apply IH. lia.
Qed.

Lemma get_at_set_false : forall s i m,
  PrimeGenerator.get_at s m = false ->
  PrimeGenerator.get_at (PrimeGenerator.set_at s i false) m = false.
Proof.
  intros s i m H. unfold PrimeGenerator.get_at in *.
  destruct (Nat.eq_dec (Z.to_nat m) i) as [<-|Hne].
  - destruct (Nat.lt_ge_cases (Z.to_nat m) (List.length s)) as [Hlt|Hge].
    + apply nth_set_at_same. assumption.
    + apply nth_overflow. rewrite length_set_at. assumption.
  - rewrite nth_set_at_other; assumption.
Qed.

Definition clear_all (l : list Z) (s : list bool) : list bool :=
  fold_left (fun s m => PrimeGenerator.set_at s (Z.to_nat m) false) l s.

Lemma clear_all_length : forall l s, List.length (clear_all l s) = List.length s.
Proof.
  induction l as [|m l IH]; intros s; simpl; [reflexivity|].
  unfold clear_all in *. simpl. rewrite IH. apply length_set_at.
Qed.

Lemma clear_all_keeps_false : forall l s m,
  PrimeGenerator.get_at s m = false -> PrimeGenerator.get_at (clear_all l s) m = false.
Proof.
  induction l as [|x l IH]; intros s m H; simpl; [assumption|].
  apply IH. apply get_at_set_false. assumption.
Qed.

Lemma clear_all_clears : forall l s m,
  In m l -> 0 <= m -> (Z.to_nat m < List.length s)%nat ->
  PrimeGenerator.get_at (clear_all l s) m = false.
Proof.
  induction l as [|x l IH]; intros s m Hin Hm Hlen; simpl in *; [contradiction|].
  destruct Hin as [->|Hin].
  - apply clear_all_keeps_false. unfold PrimeGenerator.get_at.
    apply nth_set_at_same. assumption.
  - apply IH; auto. rewrite length_set_at. assumption.
Qed.

Lemma range3_In : forall lo hi step (j : nat),
  0 < step -> lo + Z.of_nat j * step < hi -> In (lo + Z.of_nat j * step) (range3 lo hi step).
Proof.
  intros lo hi step j Hstep Hlt. unfold range3. apply in_map_iff.
  exists j. split; [reflexivity|]. apply in_seq. split; [lia|]. simpl.
  assert (Z.of_nat j + 1 <= (hi - lo + step - 1) / step).
  { apply Z.div_le_lower_bound; [assumption|]. nia. }
  lia.
Qed.

Lemma mark_multiples_length : forall n p s,
  List.length (PrimeGenerator.mark_multiples n p s) = List.length s.
Proof. intros. apply clear_all_length. Qed.

Lemma mark_multiples_keeps_false : forall n p s m,
  PrimeGenerator.get_at s m = false ->
  PrimeGenerator.get_at (PrimeGenerator.mark_multiples n p s) m = false.
Proof. intros. apply clear_all_keeps_false. assumption. Qed.

Lemma mark_multiples_clears : forall n p k s,
  2 <= p -> p <= k -> p * k <= n -> List.length s = Z.to_nat (n + 1) ->
  PrimeGenerator.get_at (PrimeGenerator.mark_multiples n p s) (p * k) = false.
Proof.
  intros n p k s Hp Hk Hn Hlen. unfold PrimeGenerator.mark_multiples.
  apply clear_all_clears; [|nia|rewrite Hlen; nia].
  replace (p * k) with (p * p + Z.of_nat (Z.to_nat (k - p)) * p) by (rewrite Z2Nat.id; [ring|lia]).
  apply range3_In; [lia|]. rewrite Z2Nat.id by lia. nia.
Qed.

Lemma sieve_pass_length : forall n s p,
  List.length (PrimeGenerator.sieve_pass n s p) = List.length s.
Proof.
  intros n s p. unfold PrimeGenerator.sieve_pass.
  destruct (PrimeGenerator.get_at s p); [apply mark_multiples_length|reflexivity].
Qed.

Lemma sieve_pass_keeps_false : forall n s p m,
  PrimeGenerator.get_at s m = false ->
  PrimeGenerator.get_at (PrimeGenerator.sieve_pass n s p) m = false.
Proof.
  intros n s p m H. unfold PrimeGenerator.sieve_pass.
  destruct (PrimeGenerator.get_at s p); [apply mark_multiples_keeps_false|]; assumption.
Qed.

Lemma sieve_pass_keeps_primes : forall n s p,
  2 <= p -> keeps_primes n s -> keeps_primes n (PrimeGenerator.sieve_pass n s p).
Proof.
  intros n s p Hp Hs. unfold PrimeGenerator.sieve_pass.
  destruct (PrimeGenerator.get_at s p); [apply keeps_primes_mark_multiples|]; assumption.
Qed.

Lemma passes_length : forall n l s,
  List.length (fold_left (PrimeGenerator.sieve_pass n) l s) = List.length s.
Proof.
  intros n l. induction l as [|p l IH]; intros s; simpl; [reflexivity|].
  rewrite IH. apply sieve_pass_length.
Qed.

Lemma passes_keep_false : forall n l s m,
  PrimeGenerator.get_at s m = false ->
  PrimeGenerator.get_at (fold_left (PrimeGenerator.sieve_pass n) l s) m = false.
Proof.
  intros n l. induction l as [|p l IH]; intros s m H; simpl; [assumption|].
  apply IH. apply sieve_pass_keeps_false. assumption.
Qed.

Lemma passes_keep_primes : forall n l s,
  (forall p, In p l -> 2 <= p) -> keeps_primes n s ->
  keeps_primes n (fold_left (PrimeGenerator.sieve_pass n) l s).
Proof.
  intros n l. induction l as [|p l IH]; intros s Hl Hs; simpl; [assumption|].
  apply IH; [intros; apply Hl; simpl; auto|].
  apply sieve_pass_keeps_primes; [apply Hl; simpl; auto|assumption].
Qed.

(** A composite number is a prime times a factor that is at least as large *)
Lemma composite_factor : forall m,
  2 <= m -> ~ Z.prime m -> exists p k, Z.prime p /\ m = p * k /\ p <= k.
Proof.
  intros m Hm Hnp.
  assert (Hnp' : ~ prime m) by (intros H; apply Hnp; apply prime_alt; assumption).
  destruct (not_prime_divide m ltac:(lia) Hnp') as (d & Hd & (c & Hc)).
  assert (Hcpos : 2 <= c) by nia.
  set (e := Z.min d c).
  assert (He : 2 <= e /\ e * e <= m /\ (e | m)).
  { unfold e. destruct (Z.min_spec d c) as [(Hlt & ->)|(Hle & ->)].
    - split; [lia|]. split; [nia|]. exists c. lia.
    - split; [lia|]. split; [nia|]. exists d. lia. }
  destruct He as (He2 & Hee & Hem).
  destruct (prime_divisor_exists e He2) as (p & Hp & Hpe).
  assert (Hple : p <= e) by (apply Z.divide_pos_le; [lia|assumption]).
  pose proof (Z.prime_ge_2 p Hp) as Hp2.
  destruct (Z.divide_trans _ _ _ Hpe Hem) as (k & Hk).
  exists p, k. split; [assumption|]. split; [lia|]. nia.
Qed.

Lemma run_sieve_length : forall n, List.length (PrimeGenerator.run_sieve n) = Z.to_nat (n + 1).
Proof.
  intros n. unfold PrimeGenerator.run_sieve.
  rewrite passes_length, !length_set_at, repeat_length. reflexivity.
Qed.

(** What the sieve leaves switched on is prime *)
Lemma run_sieve_sound : forall n m,
  2 <= m <= n -> PrimeGenerator.get_at (PrimeGenerator.run_sieve n) m = true -> Z.prime m.
Proof.
  intros n m Hm Hget.
  destruct (prime_dec m) as [Hp|Hnp]; [apply prime_alt; assumption|exfalso].
  assert (Hnp' : ~ Z.prime m) by (intros H; apply Hnp; apply prime_alt; assumption).
  destruct (composite_factor m ltac:(lia) Hnp') as (p & k & Hp & Hmk & Hpk).
  pose proof (Z.prime_ge_2 p Hp) as Hp2.
  assert (Hsqrt : p <= Z.sqrt n).
  { pose proof (Z.sqrt_spec n ltac:(lia)) as Hs. simpl in Hs.
    pose proof (Z.sqrt_nonneg n). nia. }
  assert (Hin : In p (range2 2 (Z.sqrt n + 1))) by (apply in_range2; lia).
  apply in_split in Hin. destruct Hin as (l1 & l2 & Hl).
  assert (Hall : forall q, In q (range2 2 (Z.sqrt n + 1)) -> 2 <= q)
    by (intros q Hq; apply in_range2 in Hq; lia).
  unfold PrimeGenerator.run_sieve in Hget. rewrite Hl in Hget, Hall.
  rewrite fold_left_app in Hget. simpl in Hget.
  set (s0 := PrimeGenerator.set_at
               (PrimeGenerator.set_at (repeat true (Z.to_nat (n + 1))) 0 false) 1 false) in *.
  set (s1 := fold_left (PrimeGenerator.sieve_pass n) l1 s0) in *.
  assert (Hk0 : keeps_primes n s0).
  { intros q Hq Hle. pose proof (Z.prime_ge_2 q Hq).
    unfold s0, PrimeGenerator.get_at. rewrite !nth_set_at_other by lia.
    apply nth_repeat_lt. lia. }
  assert (Hk1 : keeps_primes n s1).
  { apply passes_keep_primes; [|assumption].
    intros q Hq. apply Hall. apply in_or_app. auto. }
  assert (Hlen1 : List.length s1 = Z.to_nat (n + 1)).
  { unfold s1, s0. rewrite passes_length, !length_set_at, repeat_length. reflexivity. }
  assert (Hfalse : PrimeGenerator.get_at (PrimeGenerator.sieve_pass n s1 p) m = false).
  { unfold PrimeGenerator.sieve_pass. rewrite (Hk1 p Hp ltac:(nia)).
    rewrite Hmk. apply mark_multiples_clears; auto. lia. }
  apply (passes_keep_false n l2) in Hfalse. congruence.
Qed.

(** The list of a generator is exact: sound, complete up to the limit, and
    strictly increasing. *)
Record pg_exact (g : PrimeGenerator.t) : Prop := {
  pe_wf : pg_wf g;
  pe_prime : forall p, In p (PrimeGenerator._primes g) -> Z.prime p;
  pe_sorted : StronglySorted Z.lt (PrimeGenerator._primes g)
}.

Lemma StronglySorted_range : forall lo (len a : nat),
  StronglySorted Z.lt (map (fun k => lo + Z.of_nat k) (seq a len)).
Proof.
  intros lo len. induction len as [|len IH]; intros a; simpl; constructor.
  - apply IH.
  - apply Forall_forall. intros x Hx. apply in_map_iff in Hx.
    destruct Hx as (k & <- & Hk). apply in_seq in Hk. lia.
Qed.

Lemma StronglySorted_filter : forall (f : Z -> bool) l,
  StronglySorted Z.lt l -> StronglySorted Z.lt (filter f l).
Proof.
  intros f l H. induction H as [|a l Hs IH Hall]; simpl; [constructor|].
  destruct (f a); [|assumption]. constructor; [assumption|].
  apply Forall_forall. intros x Hx. apply filter_In in Hx.
  rewrite Forall_forall in Hall. apply Hall. tauto.
Qed.

Lemma StronglySorted_app : forall l1 l2,
  StronglySorted Z.lt l1 -> StronglySorted Z.lt l2 ->
  (forall a b, In a l1 -> In b l2 -> a < b) ->
  StronglySorted Z.lt (l1 ++ l2).
Proof.
  intros l1 l2 H1 H2 H. induction H1 as [|a l Hs IH Hall]; simpl; [assumption|].
  constructor.
  - apply IH. intros x y Hx Hy. apply H; simpl; auto.
  - apply Forall_forall. intros x Hx. apply in_app_or in Hx. destruct Hx as [Hx|Hx].
    + rewrite Forall_forall in Hall. auto.
    + apply H; simpl; auto.
Qed.

Lemma StronglySorted_nth : forall l (i j : nat) a b,
  StronglySorted Z.lt l -> (i < j)%nat ->
  nth_error l i = Some a -> nth_error l j = Some b -> a < b.
Proof.
  intros l i j a b H. revert i j. induction H as [|x l Hs IH Hall]; intros i j Hij Ha Hb.
  - destruct i; discriminate.
  - destruct j as [|j]; [lia|]. simpl in Hb. destruct i as [|i]; simpl in Ha.
    + inversion Ha; subst. rewrite Forall_forall in Hall. apply Hall.
      eapply nth_error_In. eassumption.
    + eapply IH; [|eassumption|eassumption]. lia.
Qed.

Lemma generate_up_to_exact : forall n g,
  pg_exact g -> pg_exact (PrimeGenerator._generate_up_to n g).
Proof.
  intros n g [Hwf Hp Hs]. constructor; [apply generate_up_to_wf; assumption| |].
  - unfold PrimeGenerator._generate_up_to.
    destruct (Z.leb_spec n (PrimeGenerator._sieve_limit g)); [assumption|]. simpl.
    intros p Hin. apply in_app_or in Hin. destruct Hin as [Hin|Hin]; [auto|].
    apply filter_In in Hin. destruct Hin as (Hr & Hget). apply in_range2 in Hr.
    apply (run_sieve_sound n); [lia|assumption].
  - unfold PrimeGenerator._generate_up_to.
    destruct (Z.leb_spec n (PrimeGenerator._sieve_limit g)); [assumption|]. simpl.
    apply StronglySorted_app; [assumption| |].
    + apply StronglySorted_filter. apply StronglySorted_range.
    + intros a b Ha Hb. apply (pg_bounds g Hwf) in Ha.
      apply filter_In in Hb. destruct Hb as (Hb & _). apply in_range2 in Hb. lia.
Qed.

Lemma pg_init_exact : forall n, pg_exact (PrimeGenerator.__init__ n).
Proof.
  intros n. unfold PrimeGenerator.__init__. apply generate_up_to_exact.
  constructor; simpl.
  - constructor; simpl; [lia| |constructor|intros p []].
    intros q Hq Hle. pose proof (Z.prime_ge_2 q Hq). lia.
  - intros p [].
  - constructor.
Qed.

Lemma get_exact : forall fuel g i p g',
  pg_exact g -> PrimeGenerator.get fuel g i = Ok (p, g') ->
  pg_exact g' /\ Z.prime p.
Proof.
  induction fuel as [|f IH]; intros g i p g' Hex H; simpl in H; [discriminate|].
  destruct (Nat.leb_spec (List.length (PrimeGenerator._primes g)) i) as [Hle|Hlt].
  - eapply IH; [|eassumption]. apply generate_up_to_exact. assumption.
  - inversion H; subst. split; [assumption|].
    apply (pe_prime g' Hex). apply nth_In. assumption.
Qed.

(** The generator built by [PrimeEncoder()] *)
Definition generator0 : PrimeGenerator.t := PrimeGenerator.__init__ 1000.

(** X1. [PrimeGenerator(n)] holds exactly the primes up to [n], each once
    and in increasing order. *)
Theorem generator_lists_the_primes : forall n,
  (forall q, In q (PrimeGenerator._primes (PrimeGenerator.__init__ n)) <-> Z.prime q /\ q <= n)
  /\ StronglySorted Z.lt (PrimeGenerator._primes (PrimeGenerator.__init__ n)).
Proof.
  intros n. pose proof (pg_init_exact n) as [Hwf Hp Hs]. split; [|assumption].
  assert (Hlim : PrimeGenerator._sieve_limit (PrimeGenerator.__init__ n) = Z.max n 0).
  { unfold PrimeGenerator.__init__. rewrite generate_up_to_limit. reflexivity. }
  intros q. split.
  - intros Hin. split; [auto|].
    pose proof (pg_bounds _ Hwf q Hin) as Hb. rewrite Hlim in Hb. lia.
  - intros (Hq & Hle). apply (pg_complete _ Hwf); [assumption|]. rewrite Hlim. lia.
Qed.

(** X2. [get(index)] returns for every index: the loop that doubles the
    sieve range stops, the number returned is prime, it is the entry of the
    grown list at that index, and the list only grew at its end. *)
Theorem get_returns_a_prime : forall g index,
  pg_exact g ->
  exists p g',
    (exists F : nat, forall fuel, (F <= fuel)%nat -> PrimeGenerator.get fuel g index = Ok (p, g'))
    /\ Z.prime p /\ pg_exact g'
    /\ nth_error (PrimeGenerator._primes g') index = Some p
    /\ exists ext, PrimeGenerator._primes g' = (PrimeGenerator._primes g ++ ext)%list.
Proof.
  intros g index Hex. destruct (get_total index) as (F & HF).
  destruct (HF g index F (pe_wf g Hex) (le_n _) (le_n _)) as (p & g' & E).
  exists p, g'. split.
  - exists F. intros fuel Hle. rewrite (get_mono F fuel g index Hle); [assumption|congruence].
  - destruct (get_exact _ _ _ _ _ Hex E) as (Hex' & Hp).
    destruct (get_ok_spec _ _ _ _ _ (pe_wf g Hex) E) as (_ & Hext & Hnth & _).
    auto.
Qed.

(** Witness for X2: index 200 lies beyond the 168 primes below 1000 *)
Lemma get_returns_a_prime_witness :
  pg_exact generator0 /\
  exists p g',
    (exists F : nat, forall fuel, (F <= fuel)%nat ->
                                  PrimeGenerator.get fuel generator0 200 = Ok (p, g'))
    /\ Z.prime p /\ pg_exact g'
    /\ nth_error (PrimeGenerator._primes g') 200 = Some p
    /\ exists ext, PrimeGenerator._primes g' = (PrimeGenerator._primes generator0 ++ ext)%list.
Proof.
  split; [exact (pg_init_exact 1000)|].
  exact (get_returns_a_prime generator0 200 (pg_init_exact 1000)).
Defined.

(** X3. The sequence handed out is stable and strictly increasing: of two
    calls in a row the one with the larger index returns the larger number,
    equal indices return equal numbers, and the first number is returned
    again, without further growth, by any later call with its index. *)
Theorem get_is_stable_and_increasing : forall g i j p q g1 g2 f1 f2,
  pg_exact g ->
  PrimeGenerator.get f1 g i = Ok (p, g1) ->
  PrimeGenerator.get f2 g1 j = Ok (q, g2) ->
  ((i < j)%nat -> p < q) /\ (i = j -> p = q) /\ ((j < i)%nat -> q < p)
  /\ forall f3, PrimeGenerator.get (S f3) g2 i = Ok (p, g2).
Proof.
  intros g i j p q g1 g2 f1 f2 Hex H1 H2.
  destruct (get_exact _ _ _ _ _ Hex H1) as (Hex1 & _).
  destruct (get_exact _ _ _ _ _ Hex1 H2) as (Hex2 & _).
  destruct (get_ok_spec _ _ _ _ _ (pe_wf g Hex) H1) as (_ & _ & Hnth1 & _).
  destruct (get_ok_spec _ _ _ _ _ (pe_wf g1 Hex1) H2) as (_ & (ext & Hext) & Hnth2 & _).
  assert (Hi : (i < List.length (PrimeGenerator._primes g1))%nat)
    by (apply nth_error_Some; congruence).
  assert (Hnth1' : nth_error (PrimeGenerator._primes g2) i = Some p)
    by (rewrite Hext, nth_error_app1; assumption).
  pose proof (pe_sorted g2 Hex2) as Hs.
  split; [|split; [|split]].
  - intros Hij. eapply StronglySorted_nth; eauto.
  - intros ->. congruence.
  - intros Hji. eapply StronglySorted_nth; eauto.
  - intros f3. rewrite get_fast.
    + rewrite (nth_error_nth _ _ 0 Hnth1'). reflexivity.
    + apply nth_error_Some. congruence.
Qed.

(** Witness for X3: index 3 first, then index 200, which makes the list grow *)
Lemma get_is_stable_and_increasing_witness :
  pg_exact generator0
  /\ PrimeGenerator.get 1 generator0 3 = Ok (7, generator0)
  /\ PrimeGenerator.get 5 generator0 200
     = Ok (1229, PrimeGenerator._generate_up_to 2000 generator0)
  /\ 7 < 1229
  /\ forall f3, PrimeGenerator.get (S f3) (PrimeGenerator._generate_up_to 2000 generator0) 3
                = Ok (7, PrimeGenerator._generate_up_to 2000 generator0).
Proof.
  assert (H1 : PrimeGenerator.get 1 generator0 3 = Ok (7, generator0))
    by (vm_compute; reflexivity).
  assert (H2 : PrimeGenerator.get 5 generator0 200
               = Ok (1229, PrimeGenerator._generate_up_to 2000 generator0))
    by (vm_compute; reflexivity).
  pose proof (get_is_stable_and_increasing generator0 3 200 7 1229 generator0
                (PrimeGenerator._generate_up_to 2000 generator0) 1 5
                (pg_init_exact 1000) H1 H2) as (Hlt & _ & _ & Hst).
  split; [exact (pg_init_exact 1000)|]. split; [exact H1|]. split; [exact H2|].
  split; [apply Hlt; lia|exact Hst].
Defined.

(* ------------------------------------------------------------------------- *)
(** ** The concept registry *)

(** Invariant of an encoder made by [PrimeEncoder()] and used through its
    methods: sound, with an exact generator, the sign marker being the prime
    of the reserved concept [_sign]. *)
Record enc_ok (e : PrimeEncoder.t) : Prop := {
  eo_wf : enc_wf e;
  eo_exact : pg_exact (PrimeEncoder.prime_gen e);
  eo_sign : p2c_get e (PrimeEncoder.sign_prime e) = Some "_sign"
}.

Lemma assign_prime_exact : forall fuel e c p e',
  pg_exact (PrimeEncoder.prime_gen e) ->
  PrimeEncoder._assign_prime fuel e c = Ok (p, e') ->
  pg_exact (PrimeEncoder.prime_gen e') /\ Z.prime p.
Proof.
  intros fuel e c p e' Hex H. unfold PrimeEncoder._assign_prime in H.
  destruct (PrimeGenerator.get fuel _ _) as [[p0 g]| |] eqn:E; simpl in H; try discriminate.
  inversion H; subst. simpl. eapply get_exact; eassumption.
Qed.

Lemma init_ok : forall fuel e, PrimeEncoder.__init__ fuel = Ok e -> enc_ok e.
Proof.
  intros fuel e H. pose proof (init_spec fuel e H) as Hwf.
  unfold PrimeEncoder.__init__ in H.
  pose proof (pg_init_exact 1000) as Hg. revert H Hg.
  generalize (PrimeGenerator.__init__ 1000). intros g H Hg.
  destruct (PrimeEncoder._assign_prime fuel _ "_sign") as [[p e1]| |] eqn:E;
    simpl in H; try discriminate.
  inversion H; subst e; clear H.
  pose proof (fun Hx => assign_prime_exact _ _ _ _ _ Hx E) as Hex.
  simpl in Hex. destruct (Hex Hg) as (Hex1 & _).
  constructor; [assumption|exact Hex1|].
  unfold PrimeEncoder._assign_prime in E.
  destruct (PrimeGenerator.get fuel _ _) as [[p0 g0]| |]; simpl in E; try discriminate.
  inversion E; subst. unfold p2c_get. simpl. rewrite Z.eqb_refl. reflexivity.
Qed.

Lemma get_prime_ok : forall fuel e x p e',
  enc_ok e -> PrimeEncoder.get_prime fuel e x = Ok (p, e') ->
  enc_ok e' /\ Z.prime p.
Proof.
  intros fuel e x p e' [Hwf Hex Hsign] H.
  destruct (get_prime_spec _ _ _ _ _ Hwf H) as (Hwf' & Hle & Hc & _).
  unfold PrimeEncoder.get_prime in H.
  destruct (c2p_get e (lower x)) as [p0|] eqn:E.
  - inversion H; subst. split; [constructor; assumption|].
    pose proof (ew_c2p _ Hwf _ _ E) as Hp.
    destruct (ew_used _ Hwf _ _ Hp) as (i & _ & Hi).
    apply (pe_prime _ Hex). eapply nth_error_In. eassumption.
  - destruct (assign_prime_exact _ _ _ _ _ Hex H) as (Hex' & Hp).
    split; [|assumption]. constructor; [assumption|assumption|].
    rewrite (rl_sign _ _ Hle). apply (rl_p2c _ _ Hle). assumption.
Qed.

Lemma encoder0_ok : enc_ok encoder0.
Proof. exact (init_ok 1 encoder0 encoder0_eq). Qed.

(** [get_prime(name)] on [e] finds the prime [p] and registers nothing *)
Definition finds (e : PrimeEncoder.t) (name : string) (p : Z) : Prop :=
  forall fuel, PrimeEncoder.get_prime fuel e name = Ok (p, e).

Lemma get_prime_registers : forall fuel e x p e',
  PrimeEncoder.get_prime fuel e x = Ok (p, e') -> c2p_get e' (lower x) = Some p.
Proof.
  intros fuel e x p e' H. unfold PrimeEncoder.get_prime in H.
  destruct (c2p_get e (lower x)) as [p0|] eqn:E.
  - inversion H; subst. assumption.
  - unfold PrimeEncoder._assign_prime in H.
    destruct (PrimeGenerator.get fuel _ _) as [[p0 g]| |]; simpl in H; try discriminate.
    inversion H; subst. unfold c2p_get. simpl.
    apply (get_set_same String.eqb String.eqb_eq).
Qed.

(** X4. A concept keeps its prime, and letter case does not matter: once
    [get_prime(x)] has returned, [get_prime(x)] again returns the same prime
    and changes nothing, and so does [get_prime(y)] for ASCII names [x] and
    [y] with the same lower-casing. *)
Theorem get_prime_is_idempotent_and_case_blind : forall fuel e x p e',
  PrimeEncoder.get_prime fuel e x = Ok (p, e') ->
  finds e' x p
  /\ forall y, isascii x = true -> isascii y = true -> lower y = lower x -> finds e' y p.
Proof.
  intros fuel e x p e' H. pose proof (get_prime_registers _ _ _ _ _ H) as Hc. split.
  - intros fuel'. apply get_prime_known. assumption.
  - intros y _ _ Hxy fuel'. apply get_prime_known. rewrite Hxy. assumption.
Qed.

(** [get_prime(x)] on [e], for the examples: the prime and the encoder after
    the call *)
Definition with_concept (e : PrimeEncoder.t) (x : string) : Z * PrimeEncoder.t :=
  unwrap (0, e) (PrimeEncoder.get_prime 1 e x).

Lemma with_concept_socrates :
  PrimeEncoder.get_prime 1 encoder0 "Socrates"
  = Ok (fst (with_concept encoder0 "Socrates"), snd (with_concept encoder0 "Socrates")).
Proof. vm_compute. reflexivity. Qed.

(** Witness for X4 on a new encoder *)
Lemma get_prime_is_idempotent_and_case_blind_witness :
  PrimeEncoder.get_prime 1 encoder0 "Socrates"
  = Ok (fst (with_concept encoder0 "Socrates"), snd (with_concept encoder0 "Socrates"))
  /\ isascii "Socrates" = true /\ isascii "SOCRATES" = true
  /\ lower "SOCRATES" = lower "Socrates"
  /\ finds (snd (with_concept encoder0 "Socrates")) "Socrates"
           (fst (with_concept encoder0 "Socrates"))
  /\ finds (snd (with_concept encoder0 "Socrates")) "SOCRATES"
           (fst (with_concept encoder0 "Socrates")).
Proof.
  split; [exact with_concept_socrates|]. split; [reflexivity|]. split; [reflexivity|].
  split; [reflexivity|]. split.
  - exact (proj1 (get_prime_is_idempotent_and_case_blind 1 encoder0 "Socrates" _ _
                    with_concept_socrates)).
  - exact (proj2 (get_prime_is_idempotent_and_case_blind 1 encoder0 "Socrates" _ _
                    with_concept_socrates) "SOCRATES" eq_refl eq_refl eq_refl).
Defined.

(** X5. The registry is collision-free: after two calls of [get_prime] on a
    sound encoder no two registered names share a prime, and for ASCII names
    the two calls return the same prime exactly when the names have the same
    lower-casing. *)
Theorem get_prime_is_injective : forall e x y p q e1 e2 f1 f2,
  enc_wf e ->
  PrimeEncoder.get_prime f1 e x = Ok (p, e1) ->
  PrimeEncoder.get_prime f2 e1 y = Ok (q, e2) ->
  (forall n1 n2 r, c2p_get e2 n1 = Some r -> c2p_get e2 n2 = Some r -> n1 = n2)
  /\ (isascii x = true -> isascii y = true -> (p = q <-> lower x = lower y)).
Proof.
  intros e x y p q e1 e2 f1 f2 Hwf H1 H2.
  destruct (get_prime_spec _ _ _ _ _ Hwf H1) as (Hwf1 & _ & Hc1 & _).
  destruct (get_prime_spec _ _ _ _ _ Hwf1 H2) as (Hwf2 & Hle & Hc2 & _).
  pose proof (rl_c2p _ _ Hle _ _ Hc1) as Hc1'.
  split.
  - intros n1 n2 r A B.
    pose proof (ew_c2p _ Hwf2 _ _ A) as A'. pose proof (ew_c2p _ Hwf2 _ _ B) as B'.
    congruence.
  - intros _ _. split.
    + intros ->.
      pose proof (ew_c2p _ Hwf2 _ _ Hc1') as A. pose proof (ew_c2p _ Hwf2 _ _ Hc2) as B.
      congruence.
    + intros Hxy. rewrite Hxy in Hc1'. congruence.
Qed.

Lemma with_concept_human :
  PrimeEncoder.get_prime 1 encoder0 "human"
  = Ok (fst (with_concept encoder0 "human"), snd (with_concept encoder0 "human")).
Proof. vm_compute. reflexivity. Qed.

Lemma with_concept_mortal :
  PrimeEncoder.get_prime 1 (snd (with_concept encoder0 "human")) "mortal"
  = Ok (fst (with_concept (snd (with_concept encoder0 "human")) "mortal"),
        snd (with_concept (snd (with_concept encoder0 "human")) "mortal")).
Proof. vm_compute. reflexivity. Qed.

(** Witness for X5 on a new encoder *)
Lemma get_prime_is_injective_witness :
  enc_wf encoder0
  /\ PrimeEncoder.get_prime 1 encoder0 "human"
     = Ok (fst (with_concept encoder0 "human"), snd (with_concept encoder0 "human"))
  /\ PrimeEncoder.get_prime 1 (snd (with_concept encoder0 "human")) "mortal"
     = Ok (fst (with_concept (snd (with_concept encoder0 "human")) "mortal"),
           snd (with_concept (snd (with_concept encoder0 "human")) "mortal"))
  /\ isascii "human" = true /\ isascii "mortal" = true
  /\ (fst (with_concept encoder0 "human")
      = fst (with_concept (snd (with_concept encoder0 "human")) "mortal")
      <-> lower "human" = lower "mortal").
Proof.
  split; [exact encoder0_wf|].
  split; [exact with_concept_human|]. split; [exact with_concept_mortal|].
  split; [reflexivity|]. split; [reflexivity|].
  exact (proj2 (get_prime_is_injective encoder0 "human" "mortal" _ _ _ _ 1 1 encoder0_wf
                  with_concept_human with_concept_mortal) eq_refl eq_refl).
Defined.

(** [decode_symbol] on the one-factor map of a registered concept *)
Lemma decode_symbol_single : forall e n p,
  enc_ok e -> c2p_get e n = Some p ->
  PrimeEncoder.decode_symbol e [(p, 1)]
  = if (n =? "_sign")%string then None else Some n.
Proof.
  intros e n p [Hwf _ Hsign] Hc. unfold PrimeEncoder.decode_symbol.
  cbn [Dict.keys map fst filter].
  pose proof (ew_c2p _ Hwf _ _ Hc) as Hp.
  destruct (Z.eqb_spec p (PrimeEncoder.sign_prime e)) as [Heq|Hne]; cbn [negb].
  - rewrite Heq in Hp. rewrite Hsign in Hp. inversion Hp; subst n. reflexivity.
  - unfold eget, Dict.get_default. cbn [Dict.get]. rewrite Z.eqb_refl. cbn [Z.eqb Pos.eqb].
    destruct (String.eqb_spec n "_sign") as [->|Hn]; [|assumption].
    destruct (ew_p2c _ Hwf _ _ Hsign) as (Hc' & _). congruence.
Qed.

(** X6. Symbols round-trip, but for the reserved name: the map returned by
    [encode_symbol(x)] is the one factor [p] that [get_prime(x)] finds from
    then on, and [decode_symbol] reads it back as the registry key of [p],
    now and after any later [get_prime], unless that key is [_sign], for
    which the answer is [None]. The key is the lower-cased [x], spelled out
    for an ASCII name. *)
Theorem symbol_roundtrip : forall fuel e x m e',
  enc_ok e ->
  PrimeEncoder.encode_symbol fuel e x = Ok (m, e') ->
  exists p key,
    m = [(p, 1)] /\ finds e' x p
    /\ c2p_get e' key = Some p /\ p2c_get e' p = Some key
    /\ (isascii x = true -> key = lower x)
    /\ let expected := if (key =? "_sign")%string then None else Some key in
       PrimeEncoder.decode_symbol e' m = expected
       /\ forall fuel' y q e'', PrimeEncoder.get_prime fuel' e' y = Ok (q, e'') ->
                                PrimeEncoder.decode_symbol e'' m = expected.
Proof.
  intros fuel e x m e' Hok H. unfold PrimeEncoder.encode_symbol in H.
  destruct (PrimeEncoder.get_prime fuel e x) as [[p e1]| |] eqn:E; simpl in H;
    try discriminate.
  inversion H; subst m e'; clear H.
  destruct (get_prime_ok _ _ _ _ _ Hok E) as (Hok1 & _).
  destruct (get_prime_spec _ _ _ _ _ (eo_wf _ Hok) E) as (_ & _ & Hc & _).
  exists p, (lower x). split; [reflexivity|].
  split; [intros fuel'; apply get_prime_known; assumption|].
  split; [assumption|]. split; [exact (ew_c2p _ (eo_wf _ Hok1) _ _ Hc)|].
  split; [reflexivity|].
  split.
  - apply decode_symbol_single; assumption.
  - intros fuel' y q e'' E2.
    destruct (get_prime_ok _ _ _ _ _ Hok1 E2) as (Hok2 & _).
    destruct (get_prime_spec _ _ _ _ _ (eo_wf _ Hok1) E2) as (_ & Hle & _).
    apply decode_symbol_single; [assumption|]. apply (rl_c2p _ _ Hle). assumption.
Qed.

Lemma encode_symbol_socrates :
  PrimeEncoder.encode_symbol 1 encoder0 "Socrates"
  = Ok ([(3, 1)], snd (with_concept encoder0 "Socrates")).
Proof. vm_compute. reflexivity. Qed.

(** Witness for X6 on a new encoder *)
Lemma symbol_roundtrip_witness :
  enc_ok encoder0
  /\ PrimeEncoder.encode_symbol 1 encoder0 "Socrates"
     = Ok ([(3, 1)], snd (with_concept encoder0 "Socrates"))
  /\ exists p key,
       [(3, 1)] = [(p, 1)] /\ finds (snd (with_concept encoder0 "Socrates")) "Socrates" p
       /\ c2p_get (snd (with_concept encoder0 "Socrates")) key = Some p
       /\ p2c_get (snd (with_concept encoder0 "Socrates")) p = Some key
       /\ (isascii "Socrates" = true -> key = lower "Socrates")
       /\ let expected := if (key =? "_sign")%string then None else Some key in
          PrimeEncoder.decode_symbol (snd (with_concept encoder0 "Socrates")) [(3, 1)]
          = expected
          /\ forall fuel' y q e'',
               PrimeEncoder.get_prime fuel' (snd (with_concept encoder0 "Socrates")) y
               = Ok (q, e'') ->
               PrimeEncoder.decode_symbol e'' [(3, 1)] = expected.
Proof.
  split; [exact encoder0_ok|]. split; [exact encode_symbol_socrates|].
  exact (symbol_roundtrip 1 encoder0 "Socrates" [(3, 1)]
           (snd (with_concept encoder0 "Socrates")) encoder0_ok
           encode_symbol_socrates).
Defined.

(* ------------------------------------------------------------------------- *)
(** ** The integer codec, continued *)

Lemma strip_mono : forall f f' p enc r x,
  (f <= f')%nat -> PrimeEncoder.strip f p enc r = Ok x -> PrimeEncoder.strip f' p enc r = Ok x.
Proof.
  induction f as [|f IH]; intros f' p enc r x Hle H; simpl in H; [discriminate|].
  destruct f' as [|f']; [lia|]. simpl.
  destruct (p =? 0); [discriminate|].
  destruct (r mod p =? 0); [|assumption]. apply IH; [lia|assumption].
Qed.

Lemma trial_mono : forall f f' idxs g enc r x,
  (f <= f')%nat -> PrimeEncoder.trial f idxs g enc r = Ok x ->
  PrimeEncoder.trial f' idxs g enc r = Ok x.
Proof.
  intros f f' idxs g enc r x Hle. revert g enc r x.
  induction idxs as [|i rest IH]; intros g enc r x H; simpl in *; [assumption|].
  destruct (PrimeGenerator.get f g i) as [[p g1]| |] eqn:Eg; simpl in H; try discriminate.
  rewrite (get_mono f f' g i Hle) by congruence. rewrite Eg. cbn [bind].
  destruct (r <? p * p); [assumption|].
  destruct (PrimeEncoder.strip f p enc r) as [[enc1 r1]| |] eqn:Es; simpl in H;
    try discriminate.
  rewrite (strip_mono _ _ _ _ _ _ Hle Es). cbn [bind]. apply IH; assumption.
Qed.

Lemma encode_integer_mono : forall f f' self n x,
  (f <= f')%nat -> PrimeEncoder.encode_integer f self n = Ok x ->
  PrimeEncoder.encode_integer f' self n = Ok x.
Proof.
  intros f f' self n x Hle H. unfold PrimeEncoder.encode_integer in *.
  destruct (n =? 0); [discriminate|].
  destruct (if n <? 0 then _ else _) as [enc0 n0].
  destruct (PrimeEncoder.trial f _ _ enc0 n0) as [[[enc1 r1] g1]| |] eqn:Et;
    simpl in H; try discriminate.
  rewrite (trial_mono _ _ _ _ _ _ _ Hle Et). exact H.
Qed.

(** X7. [encode_integer] rejects zero and nothing else: on a sound encoder
    it raises [ValueError] for 0 and, for every other integer, returns a map
    with positive exponents only and leaves the encoder as it was. *)
Theorem encode_integer_returns_unless_zero : forall self n,
  enc_wf self ->
  (n = 0 -> forall fuel, exists msg,
      PrimeEncoder.encode_integer fuel self n = Raise (ValueError msg))
  /\ (n <> 0 -> exists m,
        positive_exponents m
        /\ forall fuel, (Z.to_nat (Z.abs n) < fuel)%nat ->
                        PrimeEncoder.encode_integer fuel self n = Ok (m, self)).
Proof.
  intros self n Hwf. split.
  - intros -> fuel. apply encode_integer_rejects_zero_only. reflexivity.
  - intros Hn.
    destruct (encode_integer_total self n Hwf Hn (S (Z.to_nat (Z.abs n))) (Nat.lt_succ_diag_r _))
      as (m & E).
    exists m. split; [eapply encode_integer_positive; eassumption|].
    intros fuel Hfuel. eapply encode_integer_mono; [|eassumption]. lia.
Qed.

(** Witness for X7: the new encoder is sound *)
Lemma encode_integer_returns_unless_zero_witness :
  enc_wf encoder0
  /\ (exists msg, PrimeEncoder.encode_integer 5 encoder0 0 = Raise (ValueError msg))
  /\ exists m, positive_exponents m
               /\ PrimeEncoder.encode_integer 7 encoder0 (-6) = Ok (m, encoder0).
Proof.
  split; [exact encoder0_wf|].
  destruct (encode_integer_returns_unless_zero encoder0 0 encoder0_wf) as (H0 & _).
  destruct (encode_integer_returns_unless_zero encoder0 (-6) encoder0_wf) as (_ & H6).
  split; [exact (H0 eq_refl 5%nat)|].
  destruct (H6 ltac:(discriminate)) as (m & Hpos & Hm).
  exists m. split; [exact Hpos|]. apply Hm. vm_compute. lia.
Defined.

(** The product of the prime powers a map stands for *)
Definition product_of (m : ExponentMap) : Z :=
  fold_right (fun item acc => fst item ^ snd item * acc) 1 m.

Lemma product_bump : forall enc p,
  positive_exponents enc ->
  product_of (eset enc p (eget enc p 0 + 1)) = product_of enc * p.
Proof.
  intros enc p. induction enc as [|[k e] rest IH]; intros Hpos.
  - unfold eset, eget, Dict.get_default. cbn [Dict.set Dict.get product_of fold_right fst snd].
    change (0 + 1) with 1. rewrite Z.pow_1_r. ring.
  - assert (Hrest : positive_exponents rest) by (intros q x Hin; apply (Hpos q x); simpl; auto).
    unfold eset, eget, Dict.get_default in *. cbn [Dict.set Dict.get].
    destruct (Z.eqb_spec k p) as [->|Hkp]; cbn [product_of fold_right fst snd].
    + assert (0 < e) by (apply (Hpos p e); simpl; auto).
      rewrite Z.pow_add_r by lia. rewrite Z.pow_1_r. ring.
    + specialize (IH Hrest). unfold product_of in IH. rewrite IH. ring.
Qed.

Lemma strip_product : forall fuel p enc r enc' r',
  positive_exponents enc -> PrimeEncoder.strip fuel p enc r = Ok (enc', r') ->
  product_of enc' * r' = product_of enc * r.
Proof.
  induction fuel as [|f IH]; intros p enc r enc' r' Hpos H; simpl in H; [discriminate|].
  destruct (Z.eqb_spec p 0) as [|Hp]; [discriminate|].
  destruct (Z.eqb_spec (r mod p) 0) as [Hmod|Hmod].
  - rewrite (IH _ _ _ _ _ (positive_bump enc p Hpos) H).
    rewrite product_bump by assumption.
    rewrite (Z_div_exact_full_2 r p Hp Hmod) at 2. ring.
  - inversion H; subst. reflexivity.
Qed.

Lemma trial_product : forall fuel idxs g enc r enc' r' g',
  positive_exponents enc -> PrimeEncoder.trial fuel idxs g enc r = Ok (enc', r', g') ->
  product_of enc' * r' = product_of enc * r.
Proof.
  intros fuel idxs. induction idxs as [|i rest IH]; intros g enc r enc' r' g' Hpos H;
    simpl in H.
  - inversion H; subst. reflexivity.
  - destruct (PrimeGenerator.get fuel g i) as [[p g1]| |]; simpl in H; try discriminate.
    destruct (r <? p * p); [inversion H; subst; reflexivity|].
    destruct (PrimeEncoder.strip fuel p enc r) as [[enc1 r1]| |] eqn:Es; simpl in H;
      try discriminate.
    rewrite (IH _ _ _ _ _ _ (strip_positive _ _ _ _ _ _ Hpos Es) H).
    eapply strip_product; eassumption.
Qed.

(** The remainder of the trial division stays at least 1 *)
Lemma strip_remainder : forall fuel p enc r enc' r',
  1 <= p -> 1 <= r -> PrimeEncoder.strip fuel p enc r = Ok (enc', r') -> 1 <= r'.
Proof.
  induction fuel as [|f IH]; intros p enc r enc' r' Hp Hr H; simpl in H; [discriminate|].
  destruct (Z.eqb_spec p 0); [discriminate|].
  destruct (Z.eqb_spec (r mod p) 0) as [Hmod|Hmod].
  - eapply IH; [exact Hp| |exact H].
    assert (Hdiv : r = p * (r / p)) by (apply Z_div_exact_full_2; lia). nia.
  - inversion H; subst. assumption.
Qed.

Lemma trial_remainder : forall fuel idxs g enc r enc' r' g',
  pg_wf g -> 1 <= r -> PrimeEncoder.trial fuel idxs g enc r = Ok (enc', r', g') -> 1 <= r'.
Proof.
  intros fuel idxs. induction idxs as [|i rest IH]; intros g enc r enc' r' g' Hwf Hr H;
    simpl in H.
  - inversion H; subst. assumption.
  - destruct (PrimeGenerator.get fuel g i) as [[p g1]| |] eqn:Eg; simpl in H; try discriminate.
    destruct (get_ok_spec _ _ _ _ _ Hwf Eg) as (Hwf1 & _ & Hnth & _).
    assert (Hp : 2 <= p) by (apply (pg_bounds g1 Hwf1); eapply nth_error_In; eassumption).
    destruct (r <? p * p); [inversion H; subst; assumption|].
    destruct (PrimeEncoder.strip fuel p enc r) as [[enc1 r1]| |] eqn:Es; simpl in H;
      try discriminate.
    eapply IH; [exact Hwf1| |exact H]. eapply strip_remainder; [| |exact Es]; lia.
Qed.

(** X8. The map returned by [encode_integer(n)] is a factorisation: the
    product of its entries [p ** e] is [n] for a positive [n], and the sign
    marker times [-n] for a negative one. *)
Theorem encode_integer_is_a_factorisation : forall fuel self n m self',
  enc_wf self ->
  PrimeEncoder.encode_integer fuel self n = Ok (m, self') ->
  product_of m = if n <? 0 then PrimeEncoder.sign_prime self * - n else n.
Proof.
  intros fuel self n m self' Hwf H. unfold PrimeEncoder.encode_integer in H.
  destruct (Z.eqb_spec n 0) as [|Hn]; [discriminate|].
  assert (Hstart :
    forall enc0 n0,
      (enc0, n0) = (if n <? 0 then (eset [] (PrimeEncoder.sign_prime self) 1, - n) else ([], n)) ->
      1 <= n0 /\ positive_exponents enc0
      /\ product_of enc0 * n0 = if n <? 0 then PrimeEncoder.sign_prime self * - n else n).
  { intros enc0 n0 E. destruct (Z.ltb_spec n 0); inversion E; subst.
    - split; [lia|]. split; [intros p e [Heq|[]]; inversion Heq; lia|].
      unfold eset. cbn [Dict.set product_of fold_right fst snd]. rewrite Z.pow_1_r. ring.
    - split; [lia|]. split; [intros p e []|].
      cbn [product_of fold_right]. ring. }
  destruct (if n <? 0 then _ else _) as [enc0 n0].
  destruct (Hstart enc0 n0 eq_refl) as (Hn0 & Hpos0 & Hprod0).
  destruct (PrimeEncoder.trial fuel _ _ enc0 n0) as [[[enc1 r1] g1]| |] eqn:Et;
    simpl in H; try discriminate.
  inversion H; subst m self'; clear H.
  pose proof (trial_product _ _ _ _ _ _ _ _ Hpos0 Et) as Hprod.
  pose proof (trial_positive _ _ _ _ _ _ _ _ Hpos0 Et) as Hpos1.
  pose proof (trial_remainder _ _ _ _ _ _ _ _ (ew_pg self Hwf) Hn0 Et) as Hr1.
  rewrite <- Hprod0, <- Hprod.
  destruct (Z.ltb_spec 1 r1) as [Hgt|Hle].
  - apply product_bump. assumption.
  - assert (r1 = 1) by lia. subst r1. ring.
Qed.

Lemma encode_minus_360 :
  PrimeEncoder.encode_integer 400 encoder0 (-360) = Ok ([(2, 4); (45, 1)], encoder0).
Proof. vm_compute. reflexivity. Qed.

(** Witness for X8: -360 on a new encoder, whose sign marker is 2 *)
Lemma encode_integer_is_a_factorisation_witness :
  enc_wf encoder0
  /\ PrimeEncoder.encode_integer 400 encoder0 (-360) = Ok ([(2, 4); (45, 1)], encoder0)
  /\ product_of [(2, 4); (45, 1)] = 2 * 360.
Proof.
  split; [exact encoder0_wf|]. split; [exact encode_minus_360|].
  exact (encode_integer_is_a_factorisation 400 encoder0 (-360) [(2, 4); (45, 1)] encoder0
           encoder0_wf encode_minus_360).
Defined.

(** *** Which integers round-trip *)

Lemma first_prime_two : forall g,
  pg_exact g -> PrimeGenerator._primes g <> [] ->
  nth_error (PrimeGenerator._primes g) 0 = Some 2.
Proof.
  intros g [Hwf Hp Hs] Hne.
  destruct (PrimeGenerator._primes g) as [|h t] eqn:E; [congruence|]. simpl. f_equal.
  assert (Hh : In h (PrimeGenerator._primes g)) by (rewrite E; simpl; auto).
  pose proof (pg_bounds g Hwf h Hh) as Hb.
  assert (H2 : In 2 (PrimeGenerator._primes g)).
  { apply (pg_complete g Hwf); [exact Z.prime_2|lia]. }
  rewrite E in H2. destruct H2 as [H2|H2]; [assumption|].
  apply StronglySorted_inv in Hs. destruct Hs as (_ & Hall).
  rewrite Forall_forall in Hall. specialize (Hall 2 H2). lia.
Qed.

Lemma strip_ends : forall fuel p enc r enc' r',
  PrimeEncoder.strip fuel p enc r = Ok (enc', r') -> r' mod p <> 0.
Proof.
  induction fuel as [|f IH]; intros p enc r enc' r' H; simpl in H; [discriminate|].
  destruct (p =? 0); [discriminate|].
  destruct (Z.eqb_spec (r mod p) 0) as [Hmod|Hmod]; [eauto|].
  inversion H; subst. assumption.
Qed.

(** Maps whose keys are 2 or odd *)
Definition odd_keys (m : ExponentMap) : Prop :=
  forall p e, In (p, e) m -> p = 2 \/ Z.odd p = true.

Lemma odd_keys_set : forall m p v,
  odd_keys m -> p = 2 \/ Z.odd p = true -> odd_keys (eset m p v).
Proof.
  intros m p v Hm Hp q e Hin. apply in_set in Hin; [|exact Z.eqb_eq].
  destruct Hin as [Heq|Hin]; [inversion Heq; subst; assumption|eauto].
Qed.

Lemma val_of_odd : forall m,
  positive_exponents m -> odd_keys m -> Z.odd (val_of 2 m) = true.
Proof.
  induction m as [|[p e] rest IH]; intros Hpos Hodd; [reflexivity|]. cbn [val_of].
  assert (IH' : Z.odd (val_of 2 rest) = true).
  { apply IH; intros q x Hin; [apply (Hpos q x)|apply (Hodd q x)]; simpl; auto. }
  destruct (Z.eqb_spec p 2) as [|Hp]; [assumption|].
  rewrite Z.odd_mul, IH', andb_true_r.
  assert (0 < e) by (apply (Hpos p e); simpl; auto).
  rewrite Z.odd_pow by lia.
  destruct (Hodd p e) as [|Ho]; [simpl; auto|contradiction|assumption].
Qed.

Lemma sgn_of_odd : forall sign m, Z.odd (sgn_of sign m) = true.
Proof.
  intros sign. induction m as [|[p e] rest IH]; [reflexivity|]. cbn [sgn_of].
  destruct (p =? sign); [|assumption].
  rewrite Z.odd_mul, IH. destruct (e mod 2 =? 1); reflexivity.
Qed.

Lemma prime_two_or_odd : forall p, Z.prime p -> p = 2 \/ Z.odd p = true.
Proof.
  intros p Hp. destruct (Z.eq_dec p 2) as [|Hne]; [auto|right].
  destruct (Z.odd p) eqn:E; [reflexivity|exfalso].
  assert (He : Z.even p = true) by (rewrite <- Z.negb_odd, E; reflexivity).
  apply Z.even_spec in He. destruct He as (k & Hk).
  pose proof (Z.prime_ge_2 p Hp) as Hge.
  destruct Hp as [_ Hnd]. apply (Hnd 2); [lia|]. exists k. lia.
Qed.

Lemma strip_odd_keys : forall fuel p enc r enc' r',
  p = 2 \/ Z.odd p = true -> odd_keys enc ->
  PrimeEncoder.strip fuel p enc r = Ok (enc', r') -> odd_keys enc'.
Proof.
  induction fuel as [|f IH]; intros p enc r enc' r' Hp Hodd H; simpl in H; [discriminate|].
  destruct (p =? 0); [discriminate|].
  destruct (r mod p =? 0).
  - eapply IH; [exact Hp| |exact H]. apply odd_keys_set; assumption.
  - inversion H; subst. assumption.
Qed.

Lemma strip_keeps_odd : forall fuel p enc r enc' r',
  Z.odd r = true -> PrimeEncoder.strip fuel p enc r = Ok (enc', r') -> Z.odd r' = true.
Proof.
  induction fuel as [|f IH]; intros p enc r enc' r' Hr H; simpl in H; [discriminate|].
  destruct (Z.eqb_spec p 0) as [|Hp]; [discriminate|].
  destruct (Z.eqb_spec (r mod p) 0) as [Hmod|Hmod].
  - eapply IH; [|exact H]. apply (odd_quotient r p Hp Hr Hmod).
  - inversion H; subst. assumption.
Qed.

Lemma trial_odd_keys : forall fuel idxs g enc r enc' r' g',
  pg_exact g -> odd_keys enc ->
  PrimeEncoder.trial fuel idxs g enc r = Ok (enc', r', g') ->
  odd_keys enc' /\ (Z.odd r = true -> Z.odd r' = true).
Proof.
  intros fuel idxs. induction idxs as [|i rest IH]; intros g enc r enc' r' g' Hex Hodd H;
    simpl in H.
  - inversion H; subst. auto.
  - destruct (PrimeGenerator.get fuel g i) as [[p g1]| |] eqn:Eg; simpl in H; try discriminate.
    destruct (get_exact _ _ _ _ _ Hex Eg) as (Hex1 & Hp).
    destruct (r <? p * p); [inversion H; subst; auto|].
    destruct (PrimeEncoder.strip fuel p enc r) as [[enc1 r1]| |] eqn:Es; simpl in H;
      try discriminate.
    pose proof (strip_odd_keys _ _ _ _ _ _ (prime_two_or_odd p Hp) Hodd Es) as Hodd1.
    destruct (IH _ _ _ _ _ _ Hex1 Hodd1 H) as (A & B). split; [assumption|].
    intros Hr. apply B. eapply strip_keeps_odd; eassumption.
Qed.

(** Whatever [n], the map of [encode_integer(n)] decodes to an odd number
    when the sign marker is 2 *)
Lemma decode_encode_odd : forall fuel self n m self',
  enc_ok self -> PrimeEncoder.sign_prime self = 2 ->
  PrimeEncoder.encode_integer fuel self n = Ok (m, self') ->
  Z.odd (PrimeEncoder.decode_integer self' m) = true.
Proof.
  intros fuel self n m self' Hok Hsign H.
  pose proof (encode_integer_positive _ _ _ _ _ H) as Hpos.
  assert (Hkeys : odd_keys m /\ PrimeEncoder.sign_prime self' = 2).
  { unfold PrimeEncoder.encode_integer in H.
    destruct (Z.eqb_spec n 0) as [|Hn]; [discriminate|]. rewrite Hsign in H.
    assert (Hstart :
      forall enc0 n0, (enc0, n0) = (if n <? 0 then (eset [] 2 1, - n) else ([], n)) ->
        1 <= n0 /\ odd_keys enc0).
    { intros enc0 n0 E. destruct (Z.ltb_spec n 0); inversion E; subst.
      - split; [lia|]. intros p e [Heq|[]]. inversion Heq. auto.
      - split; [lia|]. intros p e []. }
    destruct (if n <? 0 then _ else _) as [enc0 n0].
    destruct (Hstart enc0 n0 eq_refl) as (Hn0 & Hodd0).
    destruct (PrimeEncoder.trial fuel _ _ enc0 n0) as [[[enc1 r1] g1]| |] eqn:Et;
      simpl in H; try discriminate.
    inversion H; subst m self'; clear H. split; [|exact Hsign].
    destruct (ew_used _ (eo_wf _ Hok) _ _ (eo_sign _ Hok)) as (i0 & Hi0 & _).
    destruct (PrimeEncoder._next_index self) as [|k]; [lia|].
    change (seq 0 (S k)) with (0%nat :: seq 1 k) in Et. cbn [PrimeEncoder.trial] in Et.
    destruct (PrimeGenerator.get fuel (PrimeEncoder.prime_gen self) 0) as [[p g0]| |] eqn:Eg;
      simpl in Et; try discriminate.
    destruct (get_exact _ _ _ _ _ (eo_exact _ Hok) Eg) as (Hex0 & _).
    destruct (get_ok_spec _ _ _ _ _ (pe_wf _ (eo_exact _ Hok)) Eg) as (_ & _ & Hnth & _).
    assert (p = 2).
    { assert (Hne : PrimeGenerator._primes g0 <> []) by (intros E0; rewrite E0 in Hnth; discriminate).
      pose proof (first_prime_two g0 Hex0 Hne). congruence. }
    subst p.
    assert (Hr1 : odd_keys enc1 /\ (r1 = 1 \/ r1 = 2 \/ Z.odd r1 = true)).
    { destruct (Z.ltb_spec n0 (2 * 2)) as [Hlt|Hge].
      - inversion Et; subst. split; [assumption|].
        assert (Hc : r1 = 1 \/ r1 = 2 \/ r1 = 3) by lia.
        destruct Hc as [-> | [-> | ->]]; auto.
      - destruct (PrimeEncoder.strip fuel 2 enc0 n0) as [[enc2 r2]| |] eqn:Es; simpl in Et;
          try discriminate.
        pose proof (strip_odd_keys _ _ _ _ _ _ (or_introl eq_refl) Hodd0 Es) as Hodd2.
        pose proof (strip_ends _ _ _ _ _ _ Es) as Hend.
        assert (Ho2 : Z.odd r2 = true).
        { rewrite Zodd_mod. apply Z.eqb_eq.
          pose proof (Z.mod_pos_bound r2 2 ltac:(lia)). lia. }
        destruct (trial_odd_keys _ _ _ _ _ _ _ _ Hex0 Hodd2 Et) as (A & B). auto. }
    destruct Hr1 as (Hodd1 & Hr1).
    destruct (1 <? r1); [|assumption].
    apply odd_keys_set; [assumption|]. destruct Hr1 as [-> | [-> | Ho]]; auto. }
  destruct Hkeys as (Hkeys & Hsign').
  rewrite decode_integer_eq, Hsign', Z.odd_mul, sgn_of_odd, val_of_odd by assumption.
  reflexivity.
Qed.

(** X9. The integers that survive the round trip are the odd ones: with the
    sign marker 2 of a new encoder, [decode_integer(encode_integer(n))] is
    [n] exactly when [n] is odd. *)
Theorem roundtrip_exactly_for_odd : forall fuel self n m self',
  enc_ok self -> PrimeEncoder.sign_prime self = 2 ->
  PrimeEncoder.encode_integer fuel self n = Ok (m, self') ->
  (PrimeEncoder.decode_integer self' m = n <-> Z.odd n = true).
Proof.
  intros fuel self n m self' Hok Hsign H. split.
  - intros Hd. rewrite <- Hd. eapply decode_encode_odd; eassumption.
  - intros Hodd. eapply odd_roundtrip; [exact (eo_wf _ Hok)|exact Hsign|exact Hodd|exact H].
Qed.

Lemma encode_minus_15 :
  PrimeEncoder.encode_integer 20 encoder0 (-15) = Ok ([(2, 1); (15, 1)], encoder0).
Proof. vm_compute. reflexivity. Qed.

(** Witness for X9: -15 on a new encoder *)
Lemma roundtrip_exactly_for_odd_witness :
  enc_ok encoder0 /\ PrimeEncoder.sign_prime encoder0 = 2
  /\ PrimeEncoder.encode_integer 20 encoder0 (-15) = Ok ([(2, 1); (15, 1)], encoder0)
  /\ (PrimeEncoder.decode_integer encoder0 [(2, 1); (15, 1)] = -15 <-> Z.odd (-15) = true).
Proof.
  split; [exact encoder0_ok|]. split; [reflexivity|]. split; [exact encode_minus_15|].
  exact (roundtrip_exactly_for_odd 20 encoder0 (-15) [(2, 1); (15, 1)] encoder0
           encoder0_ok eq_refl encode_minus_15).
Defined.

(* ------------------------------------------------------------------------- *)
(** ** Arithmetic on exponent maps *)

(** Maps in which every prime but the sign marker has a non-negative
    exponent: the maps for which [p ** e] is an integer *)
Definition nonneg_exponents (sign : Z) (m : ExponentMap) : Prop :=
  forall p e, In (p, e) m -> p <> sign -> 0 <= e.

(** The factor [-1 if exp % 2 == 1 else 1] of [decode_integer] *)
Definition parity_sign (e : Z) : Z := if e mod 2 =? 1 then -1 else 1.

Lemma parity_sign_add : forall x e, parity_sign (x + e) = parity_sign x * parity_sign e.
Proof.
  intros x e. unfold parity_sign. rewrite Z.add_mod by lia.
  pose proof (Z.mod_pos_bound x 2 ltac:(lia)). pose proof (Z.mod_pos_bound e 2 ltac:(lia)).
  assert (Hx : x mod 2 = 0 \/ x mod 2 = 1) by lia.
  assert (He : e mod 2 = 0 \/ e mod 2 = 1) by lia.
  destruct Hx as [-> | ->], He as [-> | ->]; reflexivity.
Qed.

Lemma parity_sign_sub : forall x e, parity_sign (x - e) * parity_sign e = parity_sign x.
Proof.
  intros x e. rewrite <- parity_sign_add. f_equal. ring.
Qed.

Lemma nonneg_tail : forall sign kv m, nonneg_exponents sign (kv :: m) -> nonneg_exponents sign m.
Proof. intros sign kv m H p e Hin. apply H. simpl. auto. Qed.

Lemma nonneg_set : forall sign m p v,
  nonneg_exponents sign m -> (p <> sign -> 0 <= v) -> nonneg_exponents sign (eset m p v).
Proof.
  intros sign m p v Hm Hv q e Hin Hq. apply in_set in Hin; [|exact Z.eqb_eq].
  destruct Hin as [Heq|Hin]; [inversion Heq; subst; auto|eauto].
Qed.

Lemma eget_nonneg' : forall sign m p,
  nonneg_exponents sign m -> p <> sign -> 0 <= eget m p 0.
Proof.
  intros sign m p Hm Hp. unfold eget, Dict.get_default.
  destruct (Dict.get Z.eqb m p) as [e|] eqn:E; [|lia].
  apply (get_some_in Z.eqb Z.eqb_eq) in E. eauto.
Qed.

(** [result[p] = result.get(p, 0) + e] multiplies the value by [p ** e] *)
Lemma val_of_add : forall sign m p e,
  p <> sign -> 0 <= e -> nonneg_exponents sign m ->
  val_of sign (eset m p (eget m p 0 + e)) = val_of sign m * p ^ e.
Proof.
  intros sign m p e Hp He. induction m as [|[k x] rest IH]; intros Hm.
  - unfold eset, eget, Dict.get_default. cbn [Dict.set Dict.get val_of].
    rewrite (proj2 (Z.eqb_neq p sign) Hp). rewrite Z.add_0_l. ring.
  - unfold eset, eget, Dict.get_default in *. cbn [Dict.set Dict.get val_of].
    destruct (Z.eqb_spec k p) as [->|Hkp]; cbn [val_of].
    + rewrite (proj2 (Z.eqb_neq p sign) Hp).
      assert (0 <= x) by (apply (Hm p x); simpl; auto).
      rewrite Z.pow_add_r by lia. ring.
    + specialize (IH (nonneg_tail _ _ _ Hm)). destruct (k =? sign); rewrite IH; ring.
Qed.

Lemma val_of_set_sign : forall sign m v, val_of sign (eset m sign v) = val_of sign m.
Proof.
  intros sign m v. induction m as [|[k x] rest IH]; unfold eset in *; cbn [Dict.set val_of].
  - rewrite Z.eqb_refl. reflexivity.
  - destruct (Z.eqb_spec k sign) as [->|Hk]; cbn [val_of].
    + rewrite Z.eqb_refl. reflexivity.
    + rewrite (proj2 (Z.eqb_neq k sign) Hk), IH. reflexivity.
Qed.

Lemma sgn_of_add_sign : forall sign m e,
  sgn_of sign (eset m sign (eget m sign 0 + e)) = sgn_of sign m * parity_sign e.
Proof.
  intros sign m e. induction m as [|[k x] rest IH];
    unfold eset, eget, Dict.get_default in *; cbn [Dict.set Dict.get sgn_of].
  - rewrite Z.eqb_refl, Z.add_0_l. fold (parity_sign e). ring.
  - destruct (Z.eqb_spec k sign) as [->|Hk]; cbn [sgn_of].
    + rewrite Z.eqb_refl. fold (parity_sign (x + e)) (parity_sign x).
      rewrite parity_sign_add. ring.
    + rewrite (proj2 (Z.eqb_neq k sign) Hk), IH. reflexivity.
Qed.

Lemma accumulate_spec : forall sign items result,
  nonneg_exponents sign result -> nonneg_exponents sign items ->
  val_of sign (PrimeEncoder.accumulate result items) = val_of sign result * val_of sign items
  /\ sgn_of sign (PrimeEncoder.accumulate result items) = sgn_of sign result * sgn_of sign items
  /\ nonneg_exponents sign (PrimeEncoder.accumulate result items).
Proof.
  intros sign items. unfold PrimeEncoder.accumulate.
  induction items as [|[p e] items IH]; intros result Hr Hi; cbn [fold_left fst snd].
  - cbn [val_of sgn_of]. repeat split; [ring|ring|assumption].
  - assert (Hnext : nonneg_exponents sign (eset result p (eget result p 0 + e))).
    { apply nonneg_set; [assumption|]. intros Hp.
      pose proof (eget_nonneg' sign result p Hr Hp).
      assert (0 <= e) by (apply (Hi p e); simpl; auto). lia. }
    destruct (IH _ Hnext (nonneg_tail _ _ _ Hi)) as (A & B & C).
    rewrite A, B. split; [|split; [|assumption]]; cbn [val_of sgn_of].
    + destruct (Z.eqb_spec p sign) as [->|Hp].
      * rewrite val_of_set_sign. reflexivity.
      * rewrite val_of_add; [ring|assumption| |assumption]. apply (Hi p e); simpl; auto.
    + destruct (Z.eqb_spec p sign) as [->|Hp].
      * rewrite sgn_of_add_sign. fold (parity_sign e). ring.
      * rewrite sgn_of_set_other by assumption. reflexivity.
Qed.

(** Dropping the zero exponents changes neither value nor sign *)
Lemma drop_zero_spec : forall sign m,
  val_of sign (filter (fun item => negb (snd item =? 0)) m) = val_of sign m
  /\ sgn_of sign (filter (fun item => negb (snd item =? 0)) m) = sgn_of sign m.
Proof.
  intros sign. induction m as [|[p e] m (IHv & IHs)]; [split; reflexivity|].
  cbn [filter snd]. destruct (Z.eqb_spec e 0) as [->|He]; cbn [negb val_of sgn_of].
  - rewrite IHv, IHs. destruct (p =? sign); split; try reflexivity.
    + change (0 mod 2 =? 1) with false. cbv iota. ring.
    + rewrite Z.pow_0_r. ring.
  - rewrite IHv, IHs. split; reflexivity.
Qed.

Lemma NoDup_keys_set : forall (m : ExponentMap) p v,
  NoDup (Dict.keys m) -> NoDup (Dict.keys (eset m p v)).
Proof.
  intros m p v. unfold eset. induction m as [|[k x] m IH]; intros Hnd; cbn [Dict.set].
  - constructor; [intros []|constructor].
  - inversion Hnd as [|? ? Hnotin Hnd']; subst.
    destruct (Z.eqb_spec k p) as [->|Hk].
    + exact Hnd.
    + cbn [Dict.keys map fst]. constructor; [|apply IH; assumption].
      intros Hin. apply (in_keys_set Z.eqb Z.eqb_eq) in Hin. destruct Hin as [Heq|Hin]; auto.
Qed.

Lemma NoDup_keys_accumulate : forall items result,
  NoDup (Dict.keys result) -> NoDup (Dict.keys (PrimeEncoder.accumulate result items)).
Proof.
  unfold PrimeEncoder.accumulate. induction items as [|[p e] items IH]; intros result Hnd;
    cbn [fold_left fst snd]; [assumption|].
  apply IH. apply NoDup_keys_set. assumption.
Qed.

(** What [multiply] returns: value, sign, and the shape of the map *)
Lemma multiply_spec : forall sign a b,
  nonneg_exponents sign a -> nonneg_exponents sign b ->
  val_of sign (PrimeEncoder.multiply a b) = val_of sign a * val_of sign b
  /\ sgn_of sign (PrimeEncoder.multiply a b) = sgn_of sign a * sgn_of sign b
  /\ nonneg_exponents sign (PrimeEncoder.multiply a b).
Proof.
  intros sign a b Ha Hb. unfold PrimeEncoder.multiply.
  destruct (drop_zero_spec sign (PrimeEncoder.accumulate (PrimeEncoder.accumulate [] a) b))
    as (-> & ->).
  assert (H0 : nonneg_exponents sign []) by (intros p e []).
  destruct (accumulate_spec sign a [] H0 Ha) as (A1 & A2 & A3).
  destruct (accumulate_spec sign b _ A3 Hb) as (B1 & B2 & B3).
  rewrite B1, B2, A1, A2. cbn [val_of sgn_of].
  split; [ring|]. split; [ring|].
  intros p e Hin. apply filter_In in Hin. destruct Hin as (Hin & _). eauto.
Qed.

(** X10. [multiply] multiplies: for maps whose primes other than the sign
    marker have non-negative exponents, the product map decodes to the
    product of the two decoded integers. *)
Theorem multiply_is_multiplication : forall self a b,
  nonneg_exponents (PrimeEncoder.sign_prime self) a ->
  nonneg_exponents (PrimeEncoder.sign_prime self) b ->
  PrimeEncoder.decode_integer self (PrimeEncoder.multiply a b)
  = PrimeEncoder.decode_integer self a * PrimeEncoder.decode_integer self b.
Proof.
  intros self a b Ha Hb. rewrite !decode_integer_eq.
  destruct (multiply_spec _ a b Ha Hb) as (-> & -> & _). ring.
Qed.

(** Witness for X10: -3 times 45 on a new encoder *)
Lemma multiply_is_multiplication_witness :
  nonneg_exponents (PrimeEncoder.sign_prime encoder0) [(2, 1); (3, 1)]
  /\ nonneg_exponents (PrimeEncoder.sign_prime encoder0) [(3, 2); (5, 1)]
  /\ PrimeEncoder.decode_integer encoder0 (PrimeEncoder.multiply [(2, 1); (3, 1)] [(3, 2); (5, 1)])
     = PrimeEncoder.decode_integer encoder0 [(2, 1); (3, 1)]
       * PrimeEncoder.decode_integer encoder0 [(3, 2); (5, 1)].
Proof.
  assert (Ha : nonneg_exponents (PrimeEncoder.sign_prime encoder0) [(2, 1); (3, 1)]).
  { intros p e [H|[H|[]]] _; inversion H; lia. }
  assert (Hb : nonneg_exponents (PrimeEncoder.sign_prime encoder0) [(3, 2); (5, 1)]).
  { intros p e [H|[H|[]]] _; inversion H; lia. }
  split; [exact Ha|]. split; [exact Hb|].
  exact (multiply_is_multiplication encoder0 [(2, 1); (3, 1)] [(3, 2); (5, 1)] Ha Hb).
Defined.

(** [result[p] = have - e] divides the value by [p ** e] *)
Lemma val_of_sub : forall sign m p e,
  p <> sign -> 0 <= e <= eget m p 0 -> nonneg_exponents sign m ->
  val_of sign (eset m p (eget m p 0 - e)) * p ^ e = val_of sign m.
Proof.
  intros sign m p e Hp. induction m as [|[k x] rest IH]; intros He Hm.
  - unfold eset, eget, Dict.get_default in *. cbn [Dict.set Dict.get val_of] in *.
    rewrite (proj2 (Z.eqb_neq p sign) Hp). assert (e = 0) by lia. subst e.
    rewrite Z.sub_0_r, Z.pow_0_r. ring.
  - unfold eset, eget, Dict.get_default in *. cbn [Dict.set Dict.get val_of] in *.
    destruct (Z.eqb_spec k p) as [->|Hkp]; cbn [val_of].
    + rewrite (proj2 (Z.eqb_neq p sign) Hp).
      replace (p ^ (x - e) * val_of sign rest * p ^ e)
        with (p ^ (x - e) * p ^ e * val_of sign rest) by ring.
      rewrite <- Z.pow_add_r by lia. replace (x - e + e) with x by ring. reflexivity.
    + specialize (IH He (nonneg_tail _ _ _ Hm)).
      destruct (k =? sign); [assumption|]. rewrite <- IH. ring.
Qed.

Lemma sgn_of_sub_sign : forall sign m e,
  sgn_of sign (eset m sign (eget m sign 0 - e)) * parity_sign e = sgn_of sign m.
Proof.
  intros sign m e. induction m as [|[k x] rest IH];
    unfold eset, eget, Dict.get_default in *; cbn [Dict.set Dict.get sgn_of].
  - rewrite Z.eqb_refl. fold (parity_sign (0 - e)).
    rewrite Z.mul_1_r, parity_sign_sub. reflexivity.
  - destruct (Z.eqb_spec k sign) as [->|Hk]; cbn [sgn_of].
    + rewrite Z.eqb_refl. fold (parity_sign (x - e)) (parity_sign x).
      rewrite <- (parity_sign_sub x e). ring.
    + rewrite (proj2 (Z.eqb_neq k sign) Hk). exact IH.
Qed.

(** [del result[p]] of an entry with exponent 0 *)
Lemma del_zero_spec : forall sign m p,
  p <> sign -> eget m p 0 = 0 ->
  val_of sign (edel m p) = val_of sign m /\ sgn_of sign (edel m p) = sgn_of sign m.
Proof.
  intros sign m p Hp. induction m as [|[k x] rest IH]; intros H0;
    unfold edel, eget, Dict.get_default in *; cbn [Dict.del Dict.get val_of sgn_of] in *.
  - split; reflexivity.
  - destruct (Z.eqb_spec k p) as [->|Hkp]; cbn [val_of sgn_of].
    + subst x. rewrite (proj2 (Z.eqb_neq p sign) Hp), Z.pow_0_r. split; [ring|reflexivity].
    + destruct (IH H0) as (-> & ->). split; reflexivity.
Qed.

Lemma in_edel : forall m p kv, In kv (edel m p) -> In kv m.
Proof.
  intros m p kv. induction m as [|[k x] rest IH]; unfold edel in *; cbn [Dict.del]; [auto|].
  destruct (k =? p); simpl; intuition.
Qed.

Lemma divide_loop_spec : forall self items result c,
  nonneg_exponents (PrimeEncoder.sign_prime self) items ->
  nonneg_exponents (PrimeEncoder.sign_prime self) result ->
  PrimeEncoder.divide_loop self items result = Ok c ->
  val_of (PrimeEncoder.sign_prime self) c * val_of (PrimeEncoder.sign_prime self) items
  = val_of (PrimeEncoder.sign_prime self) result
  /\ sgn_of (PrimeEncoder.sign_prime self) c * sgn_of (PrimeEncoder.sign_prime self) items
     = sgn_of (PrimeEncoder.sign_prime self) result
  /\ nonneg_exponents (PrimeEncoder.sign_prime self) c.
Proof.
  intros self items. set (sign := PrimeEncoder.sign_prime self).
  induction items as [|[p e] items IH]; intros result c Hi Hr H; cbn [PrimeEncoder.divide_loop] in H.
  - inversion H; subst. cbn [val_of sgn_of]. repeat split; [ring|ring|assumption].
  - fold sign in H. cbn [val_of sgn_of].
    destruct (Z.eqb_spec p sign) as [->|Hp].
    + destruct (IH _ _ (nonneg_tail _ _ _ Hi)
                  (nonneg_set sign result sign _ Hr ltac:(congruence)) H) as (A & B & C).
      rewrite val_of_set_sign in A. split; [assumption|]. split; [|assumption].
      fold (parity_sign e). rewrite <- (sgn_of_sub_sign sign result e), <- B. ring.
    + destruct (Z.ltb_spec (eget result p 0) e) as [Hlt|Hge]; [discriminate|].
      assert (He : 0 <= e) by (apply (Hi p e); simpl; auto).
      set (r1 := eset result p (eget result p 0 - e)) in *.
      assert (Hr1 : nonneg_exponents sign r1) by (apply nonneg_set; [assumption|lia]).
      assert (Hv1 : val_of sign r1 * p ^ e = val_of sign result)
        by (apply val_of_sub; [assumption|lia|assumption]).
      assert (Hs1 : sgn_of sign r1 = sgn_of sign result) by (apply sgn_of_set_other; assumption).
      destruct (Z.eqb_spec (eget r1 p 0) 0) as [H0|H0].
      * destruct (del_zero_spec sign r1 p Hp H0) as (Hv2 & Hs2).
        assert (Hr2 : nonneg_exponents sign (edel r1 p)).
        { intros q x Hin. apply Hr1. eapply in_edel. eassumption. }
        destruct (IH _ _ (nonneg_tail _ _ _ Hi) Hr2 H) as (A & B & C).
        split; [|split; [congruence|assumption]].
        rewrite <- Hv1, <- Hv2, <- A. ring.
      * destruct (IH _ _ (nonneg_tail _ _ _ Hi) Hr1 H) as (A & B & C).
        split; [|split; [congruence|assumption]].
        rewrite <- Hv1, <- A. ring.
Qed.

(** X11. [divide] divides: when [divide(a, b)] returns, for maps whose primes
    other than the sign marker have non-negative exponents, the quotient map
    times [b] decodes to [a]. *)
Theorem divide_is_division : forall self a b c,
  nonneg_exponents (PrimeEncoder.sign_prime self) a ->
  nonneg_exponents (PrimeEncoder.sign_prime self) b ->
  PrimeEncoder.divide self a b = Ok c ->
  PrimeEncoder.decode_integer self c * PrimeEncoder.decode_integer self b
  = PrimeEncoder.decode_integer self a
  /\ nonneg_exponents (PrimeEncoder.sign_prime self) c.
Proof.
  intros self a b c Ha Hb H. unfold PrimeEncoder.divide in H.
  destruct (divide_loop_spec self b a c Hb Ha H) as (A & B & C).
  split; [|assumption]. rewrite !decode_integer_eq, <- A, <- B. ring.
Qed.

Lemma divide_135_by_45 :
  PrimeEncoder.divide encoder0 [(2, 1); (3, 3); (5, 1)] [(3, 2); (5, 1)] = Ok [(2, 1); (3, 1)].
Proof. vm_compute. reflexivity. Qed.

(** Witness for X11: -135 by 45 on a new encoder *)
Lemma divide_is_division_witness :
  nonneg_exponents (PrimeEncoder.sign_prime encoder0) [(2, 1); (3, 3); (5, 1)]
  /\ nonneg_exponents (PrimeEncoder.sign_prime encoder0) [(3, 2); (5, 1)]
  /\ PrimeEncoder.divide encoder0 [(2, 1); (3, 3); (5, 1)] [(3, 2); (5, 1)] = Ok [(2, 1); (3, 1)]
  /\ PrimeEncoder.decode_integer encoder0 [(2, 1); (3, 1)]
     * PrimeEncoder.decode_integer encoder0 [(3, 2); (5, 1)]
     = PrimeEncoder.decode_integer encoder0 [(2, 1); (3, 3); (5, 1)].
Proof.
  assert (Ha : nonneg_exponents (PrimeEncoder.sign_prime encoder0) [(2, 1); (3, 3); (5, 1)]).
  { intros p e [H|[H|[H|[]]]] _; inversion H; lia. }
  assert (Hb : nonneg_exponents (PrimeEncoder.sign_prime encoder0) [(3, 2); (5, 1)]).
  { intros p e [H|[H|[]]] _; inversion H; lia. }
  split; [exact Ha|]. split; [exact Hb|]. split; [exact divide_135_by_45|].
  exact (proj1 (divide_is_division encoder0 _ _ _ Ha Hb divide_135_by_45)).
Defined.

Lemma eget_drop_zero : forall (m : ExponentMap) p,
  NoDup (Dict.keys m) ->
  eget (filter (fun item => negb (snd item =? 0)) m) p 0 = eget m p 0.
Proof.
  intros m p. induction m as [|[k x] m IH]; intros Hnd; [reflexivity|].
  inversion Hnd as [|? ? Hnotin Hnd']; subst. specialize (IH Hnd').
  cbn [filter snd]. unfold eget, Dict.get_default in *.
  destruct (Z.eqb_spec x 0) as [->|Hx]; cbn [negb Dict.get].
  - rewrite IH. destruct (Z.eqb_spec k p) as [->|Hk]; [|reflexivity].
    apply (get_none_notin Z.eqb Z.eqb_eq) in Hnotin. rewrite Hnotin. reflexivity.
  - destruct (k =? p); [reflexivity|assumption].
Qed.

Lemma accumulate_ge : forall sign items result p,
  p <> sign -> nonneg_exponents sign items ->
  eget result p 0 <= eget (PrimeEncoder.accumulate result items) p 0
  /\ forall e, In (p, e) items ->
               eget result p 0 + e <= eget (PrimeEncoder.accumulate result items) p 0.
Proof.
  intros sign items. unfold PrimeEncoder.accumulate.
  induction items as [|[q x] items IH]; intros result p Hp Hi; cbn [fold_left fst snd].
  - split; [lia|intros e []].
  - destruct (IH (eset result q (eget result q 0 + x)) p Hp (nonneg_tail _ _ _ Hi)) as (A & B).
    assert (Hstep : eget result p 0 <= eget (eset result q (eget result q 0 + x)) p 0
                    /\ (q = p -> eget (eset result q (eget result q 0 + x)) p 0
                                 = eget result p 0 + x)).
    { destruct (Z.eq_dec q p) as [->|Hq].
      - rewrite eget_eset_same. split; [|reflexivity].
        assert (0 <= x) by (apply (Hi p x); simpl; auto). lia.
      - rewrite eget_eset_other by congruence. split; [lia|contradiction]. }
    destruct Hstep as (S1 & S2). split; [lia|].
    intros e [Heq|Hin].
    + inversion Heq; subst. pose proof (S2 eq_refl). lia.
    + specialize (B e Hin). lia.
Qed.

Lemma divide_loop_no_fuel : forall self items result,
  PrimeEncoder.divide_loop self items result <> OutOfFuel.
Proof.
  intros self items. induction items as [|[p e] items IH]; intros result; simpl;
    [discriminate|].
  destruct (p =? PrimeEncoder.sign_prime self); [apply IH|].
  destruct (eget result p 0 <? e); [discriminate|apply IH].
Qed.

(** X12. Division undoes multiplication: for two maps with non-negative
    exponents at the primes other than the sign marker, [divide(multiply(a,
    b), b)] never fails, and unless [b] decodes to 0 its result decodes to
    the same integer as [a]. *)
Theorem divide_undoes_multiply : forall self a b,
  NoDup (Dict.keys b) ->
  nonneg_exponents (PrimeEncoder.sign_prime self) a ->
  nonneg_exponents (PrimeEncoder.sign_prime self) b ->
  exists c,
    PrimeEncoder.divide self (PrimeEncoder.multiply a b) b = Ok c
    /\ (PrimeEncoder.decode_integer self b <> 0 ->
        PrimeEncoder.decode_integer self c = PrimeEncoder.decode_integer self a).
Proof.
  intros self a b Hnd Ha Hb. set (sign := PrimeEncoder.sign_prime self) in *.
  destruct (multiply_spec sign a b Ha Hb) as (Mv & Ms & Mn).
  unfold PrimeEncoder.divide.
  destruct (PrimeEncoder.divide_loop self b (PrimeEncoder.multiply a b)) as [c|e|] eqn:E.
  - exists c. split; [reflexivity|]. intros Hb0.
    destruct (divide_loop_spec self b _ c Hb Mn E) as (A & B & _). fold sign in A, B.
    rewrite !decode_integer_eq in *. fold sign in Hb0 |- *.
    apply (Z.mul_cancel_r _ _ (sgn_of sign b * val_of sign b) Hb0).
    replace (sgn_of sign c * val_of sign c * (sgn_of sign b * val_of sign b))
      with (sgn_of sign c * sgn_of sign b * (val_of sign c * val_of sign b)) by ring.
    rewrite A, B, Mv, Ms. ring.
  - exfalso.
    assert (Hex : exists e, PrimeEncoder.divide_loop self b (PrimeEncoder.multiply a b) = Raise e)
      by (exists e; assumption).
    apply (divide_loop_raises self b _ Hnd) in Hex. destruct Hex as (p & x & Hin & Hp & Hlt).
    fold sign in Hp. unfold PrimeEncoder.multiply in Hlt.
    rewrite eget_drop_zero in Hlt.
    + destruct (accumulate_ge sign b (PrimeEncoder.accumulate [] a) p Hp Hb) as (_ & G).
      specialize (G x Hin).
      assert (H0 : nonneg_exponents sign []) by (intros q y []).
      destruct (accumulate_spec sign a [] H0 Ha) as (_ & _ & An).
      pose proof (eget_nonneg' sign _ p An Hp). lia.
    + apply NoDup_keys_accumulate. apply NoDup_keys_accumulate. constructor.
  - exfalso. exact (divide_loop_no_fuel _ _ _ E).
Qed.

(** Witness for X12: -3 and 45 on a new encoder *)
Lemma divide_undoes_multiply_witness :
  NoDup (Dict.keys [(3, 2); (5, 1)])
  /\ nonneg_exponents (PrimeEncoder.sign_prime encoder0) [(2, 1); (3, 1)]
  /\ nonneg_exponents (PrimeEncoder.sign_prime encoder0) [(3, 2); (5, 1)]
  /\ exists c,
       PrimeEncoder.divide encoder0 (PrimeEncoder.multiply [(2, 1); (3, 1)] [(3, 2); (5, 1)])
                           [(3, 2); (5, 1)] = Ok c
       /\ (PrimeEncoder.decode_integer encoder0 [(3, 2); (5, 1)] <> 0 ->
           PrimeEncoder.decode_integer encoder0 c
           = PrimeEncoder.decode_integer encoder0 [(2, 1); (3, 1)]).
Proof.
  assert (Hnd : NoDup (Dict.keys [(3, 2); (5, 1)])).
  { repeat constructor; simpl; intuition discriminate. }
  assert (Ha : nonneg_exponents (PrimeEncoder.sign_prime encoder0) [(2, 1); (3, 1)]).
  { intros p e [H|[H|[]]] _; inversion H; lia. }
  assert (Hb : nonneg_exponents (PrimeEncoder.sign_prime encoder0) [(3, 2); (5, 1)]).
  { intros p e [H|[H|[]]] _; inversion H; lia. }
  split; [exact Hnd|]. split; [exact Ha|]. split; [exact Hb|].
  exact (divide_undoes_multiply encoder0 [(2, 1); (3, 1)] [(3, 2); (5, 1)] Hnd Ha Hb).
Defined.

(** X13. [add] and [subtract] re-encode the decoded sum and difference. For
    two maps with non-negative exponents at the primes other than the sign
    marker (so that they decode to integers): each raises [ValueError]
    exactly when that number is 0, and what it returns otherwise decodes,
    with the sign marker 2 of a new encoder, to the sum (the difference)
    exactly when that number is odd. *)
Theorem add_and_subtract_reencode : forall fuel self a b,
  enc_ok self -> PrimeEncoder.sign_prime self = 2 ->
  nonneg_exponents (PrimeEncoder.sign_prime self) a ->
  nonneg_exponents (PrimeEncoder.sign_prime self) b ->
  let s := PrimeEncoder.decode_integer self a + PrimeEncoder.decode_integer self b in
  let d := PrimeEncoder.decode_integer self a - PrimeEncoder.decode_integer self b in
  ((exists msg, PrimeEncoder.add fuel self a b = Raise (ValueError msg)) <-> s = 0)
  /\ ((exists msg, PrimeEncoder.subtract fuel self a b = Raise (ValueError msg)) <-> d = 0)
  /\ (forall m self', PrimeEncoder.add fuel self a b = Ok (m, self') ->
        (PrimeEncoder.decode_integer self' m = s <-> Z.odd s = true))
  /\ (forall m self', PrimeEncoder.subtract fuel self a b = Ok (m, self') ->
        (PrimeEncoder.decode_integer self' m = d <-> Z.odd d = true)).
Proof.
  intros fuel self a b Hok Hsign _ _ s d. unfold PrimeEncoder.add, PrimeEncoder.subtract.
  fold s d.
  split; [apply encode_integer_rejects_zero_only|].
  split; [apply encode_integer_rejects_zero_only|].
  split; intros m self' H; (split;
    [intros Hd; rewrite <- Hd; eapply decode_encode_odd; eassumption
    |intros Hodd; eapply odd_roundtrip; [exact (eo_wf _ Hok)|exact Hsign|exact Hodd|exact H]]).
Qed.

Lemma add_minus_3_and_45 :
  PrimeEncoder.add 50 encoder0 [(2, 1); (3, 1)] [(3, 2); (5, 1)]
  = Ok ([(2, 1); (21, 1)], encoder0).
Proof. vm_compute. reflexivity. Qed.

(** Witness for X13: -3 plus 45 on a new encoder is 42, an even number,
    which the returned map does not decode to *)
Lemma add_and_subtract_reencode_witness :
  enc_ok encoder0 /\ PrimeEncoder.sign_prime encoder0 = 2
  /\ nonneg_exponents (PrimeEncoder.sign_prime encoder0) [(2, 1); (3, 1)]
  /\ nonneg_exponents (PrimeEncoder.sign_prime encoder0) [(3, 2); (5, 1)]
  /\ PrimeEncoder.add 50 encoder0 [(2, 1); (3, 1)] [(3, 2); (5, 1)]
     = Ok ([(2, 1); (21, 1)], encoder0)
  /\ (PrimeEncoder.decode_integer encoder0 [(2, 1); (21, 1)] = 42 <-> Z.odd 42 = true).
Proof.
  assert (Ha : nonneg_exponents (PrimeEncoder.sign_prime encoder0) [(2, 1); (3, 1)]).
  { intros p e [H|[H|[]]] _; inversion H; lia. }
  assert (Hb : nonneg_exponents (PrimeEncoder.sign_prime encoder0) [(3, 2); (5, 1)]).
  { intros p e [H|[H|[]]] _; inversion H; lia. }
  split; [exact encoder0_ok|]. split; [reflexivity|].
  split; [exact Ha|]. split; [exact Hb|]. split; [exact add_minus_3_and_45|].
  destruct (add_and_subtract_reencode 50 encoder0 [(2, 1); (3, 1)] [(3, 2); (5, 1)]
              encoder0_ok eq_refl Ha Hb) as (_ & _ & Hadd & _).
  exact (Hadd _ _ add_minus_3_and_45).
Defined.

(* ------------------------------------------------------------------------- *)
(** ** Fact encodings *)

(** The map [encode_fact] builds from the primes of subject, predicate and
    object *)
Definition fact_encoding (ps pp po : Z) : ExponentMap :=
  PrimeEncoder.multiply (PrimeEncoder.multiply [(ps, 1)] [(pp, 1)]) [(po, 1)].

Lemma fact_encoding_eq : forall ps pp po,
  fact_encoding ps pp po
  = if ps =? pp then (if ps =? po then [(ps, 3)] else [(ps, 2); (po, 1)])
    else if ps =? po then [(ps, 2); (pp, 1)]
    else if pp =? po then [(ps, 1); (pp, 2)]
    else [(ps, 1); (pp, 1); (po, 1)].
Proof.
  intros ps pp po.
  unfold fact_encoding, PrimeEncoder.multiply, PrimeEncoder.accumulate, eset, eget,
    Dict.get_default.
  cbn [fold_left Dict.set Dict.get fst snd].
  destruct (Z.eqb_spec ps pp) as [->|Hsp].
  - cbn [filter snd fold_left fst Dict.get Dict.set Z.add Z.eqb negb Pos.add Pos.succ].
    rewrite ?Z.eqb_refl.
    cbn [filter snd fold_left fst Dict.get Dict.set Z.add Z.eqb negb Pos.add Pos.succ].
    destruct (Z.eqb_spec pp po) as [->|Hpo];
      cbn [filter snd fold_left fst Dict.get Dict.set Z.add Z.eqb negb Pos.add Pos.succ];
      reflexivity.
  - cbn [filter snd fold_left fst Dict.get Dict.set Z.add Z.eqb negb Pos.add Pos.succ].
    rewrite ?Z.eqb_refl, ?(proj2 (Z.eqb_neq ps pp) Hsp).
    cbn [filter snd fold_left fst Dict.get Dict.set Z.add Z.eqb negb Pos.add Pos.succ].
    rewrite ?Z.eqb_refl, ?(proj2 (Z.eqb_neq ps pp) Hsp).
    destruct (Z.eqb_spec ps po) as [->|Hso];
      cbn [filter snd fold_left fst Dict.get Dict.set Z.add Z.eqb negb Pos.add Pos.succ].
    + reflexivity.
    + destruct (Z.eqb_spec pp po) as [->|Hpo];
        cbn [filter snd fold_left fst Dict.get Dict.set Z.add Z.eqb negb Pos.add Pos.succ];
        reflexivity.
Qed.

(** Invariant of a knowledge base made by [KnowledgeBase(PrimeEncoder())]
    and used through its methods: [kb_wf], and the sign marker is the prime
    of the reserved concept [_sign]. *)
Record kb_ok (kb : KB) : Prop := {
  ko_wf : kb_wf kb;
  ko_sign : p2c_get (KnowledgeBase.encoder kb)
                    (PrimeEncoder.sign_prime (KnowledgeBase.encoder kb)) = Some "_sign"
}.

Lemma kb_ok_ext : forall kb kb', kb_ok kb -> ext kb kb' -> kb_wf kb' -> kb_ok kb'.
Proof.
  intros kb kb' [Hwf Hsign] X W. constructor; [assumption|].
  rewrite (rl_sign _ _ (ext_reg _ _ X)). apply (rl_p2c _ _ (ext_reg _ _ X)). assumption.
Qed.

Lemma kb_encode_symbol_ok : forall fuel kb x m kb',
  kb_ok kb -> KnowledgeBase.encode_symbol fuel kb x = Ok (m, kb') ->
  kb_ok kb' /\ ext kb kb'
  /\ exists p, c2p_get (KnowledgeBase.encoder kb') (lower x) = Some p /\ m = [(p, 1)].
Proof.
  intros fuel kb x m kb' Hok H.
  destruct (kb_encode_symbol_spec _ _ _ _ _ (ko_wf _ Hok) H) as (W & X & _).
  unfold KnowledgeBase.encode_symbol, PrimeEncoder.encode_symbol in H.
  destruct (PrimeEncoder.get_prime fuel (KnowledgeBase.encoder kb) x) as [[p e]| |] eqn:E;
    simpl in H; try discriminate.
  inversion H; subst m kb'; clear H.
  destruct (get_prime_spec _ _ _ _ _ (kw_enc _ (ko_wf _ Hok)) E) as (_ & _ & Hc & _).
  split; [eapply kb_ok_ext; eassumption|]. split; [assumption|]. exists p. auto.
Qed.

(** What [encode_fact] returns: the map of the three primes the names have
    in the registry afterwards *)
Lemma kb_encode_fact_ok : forall fuel kb f m kb',
  kb_ok kb -> KnowledgeBase.encode_fact fuel kb f = Ok (m, kb') ->
  kb_ok kb' /\ ext kb kb'
  /\ exists ps pp po,
       c2p_get (KnowledgeBase.encoder kb') (lower (Fact.subject f)) = Some ps
       /\ c2p_get (KnowledgeBase.encoder kb') (lower (Fact.predicate f)) = Some pp
       /\ c2p_get (KnowledgeBase.encoder kb') (lower (Fact.object f)) = Some po
       /\ m = fact_encoding ps pp po.
Proof.
  intros fuel kb f m kb' Hok H. unfold KnowledgeBase.encode_fact in H.
  destruct (KnowledgeBase.encode_symbol fuel kb (Fact.subject f)) as [[m1 kb1]| |] eqn:E1;
    simpl in H; try discriminate.
  destruct (KnowledgeBase.encode_symbol fuel kb1 (Fact.predicate f)) as [[m2 kb2]| |] eqn:E2;
    simpl in H; try discriminate.
  destruct (KnowledgeBase.encode_symbol fuel kb2 (Fact.object f)) as [[m3 kb3]| |] eqn:E3;
    simpl in H; try discriminate.
  inversion H; subst m kb'; clear H.
  destruct (kb_encode_symbol_ok _ _ _ _ _ Hok E1) as (W1 & X1 & ps & C1 & ->).
  destruct (kb_encode_symbol_ok _ _ _ _ _ W1 E2) as (W2 & X2 & pp & C2 & ->).
  destruct (kb_encode_symbol_ok _ _ _ _ _ W2 E3) as (W3 & X3 & po & C3 & ->).
  split; [assumption|]. split; [eauto using ext_trans|].
  exists ps, pp, po.
  split; [apply (rl_c2p _ _ (ext_reg _ _ (ext_trans _ _ _ X2 X3))); assumption|].
  split; [apply (rl_c2p _ _ (ext_reg _ _ X3)); assumption|].
  split; [assumption|reflexivity].
Qed.

Lemma truthy_iff : forall s, truthy s = true <-> s <> "".
Proof.
  intros s. unfold truthy. destruct (String.eqb_spec s ""); simpl; split; congruence.
Qed.

Lemma registry_injective : forall e a b pa pb,
  enc_wf e -> c2p_get e a = Some pa -> c2p_get e b = Some pb -> (pa = pb <-> a = b).
Proof.
  intros e a b pa pb Hwf Ca Cb. split.
  - intros Heq. subst pb. apply (ew_c2p _ Hwf) in Ca. apply (ew_c2p _ Hwf) in Cb.
    rewrite Ca in Cb. inversion Cb. reflexivity.
  - intros Heq. subst b. rewrite Ca in Cb. inversion Cb. reflexivity.
Qed.

(** [_decode_fact] on the map of three registered primes *)
Lemma decode_fact_encoding : forall kb s p o ps pp po,
  kb_ok kb ->
  c2p_get (KnowledgeBase.encoder kb) s = Some ps ->
  c2p_get (KnowledgeBase.encoder kb) p = Some pp ->
  c2p_get (KnowledgeBase.encoder kb) o = Some po ->
  (ReasoningEngine._decode_fact (fact_encoding ps pp po) kb = Some (Fact.mk s p o)
   <-> (s <> "_sign" /\ p <> "_sign" /\ o <> "_sign"
        /\ s <> "" /\ p <> "" /\ o <> "" /\ (s = o -> p = s))).
Proof.
  intros kb s p o ps pp po [[Hwf _] Hsign] Cs Cp Co.
  pose proof (ew_c2p _ Hwf _ _ Cs) as Ps.
  pose proof (ew_c2p _ Hwf _ _ Cp) as Pp.
  pose proof (ew_c2p _ Hwf _ _ Co) as Po.
  destruct (ew_p2c _ Hwf _ _ Hsign) as (Csign & _).
  unfold ReasoningEngine._decode_fact.
  set (e := KnowledgeBase.encoder kb) in *.
  set (sign := PrimeEncoder.sign_prime e) in *. clearbody sign. clearbody e.
  pose proof (registry_injective e _ _ _ _ Hwf Cs Csign) as Hss.
  pose proof (registry_injective e _ _ _ _ Hwf Cp Csign) as Hps.
  pose proof (registry_injective e _ _ _ _ Hwf Co Csign) as Hos.
  pose proof (registry_injective e _ _ _ _ Hwf Cs Cp) as Hsp.
  pose proof (registry_injective e _ _ _ _ Hwf Cs Co) as Hso.
  pose proof (registry_injective e _ _ _ _ Hwf Cp Co) as Hpo.
  clear Cs Cp Co Csign Hsign Hwf.
  rewrite fact_encoding_eq.
  pose proof (truthy_iff s) as Ts. pose proof (truthy_iff p) as Tp.
  pose proof (truthy_iff o) as To.
  destruct (Z.eqb_spec ps pp) as [Esp|Esp]; destruct (Z.eqb_spec ps po) as [Eso|Eso];
    destruct (Z.eqb_spec pp po) as [Epo|Epo]; try (exfalso; congruence);
    cbn [flat_map fst snd];
    try change (Z.to_nat 1) with 1%nat; try change (Z.to_nat 2) with 2%nat;
    try change (Z.to_nat 3) with 3%nat;
    destruct (Z.eqb_spec ps sign) as [Es|Es]; destruct (Z.eqb_spec pp sign) as [Ep|Ep];
    destruct (Z.eqb_spec po sign) as [Eo|Eo]; try (exfalso; congruence);
    cbn [app repeat]; rewrite ?Ps, ?Pp, ?Po;
    try (split; [discriminate|intros (A1 & A2 & A3 & _); tauto]);
    destruct (truthy s); destruct (truthy p); destruct (truthy o); cbn [andb];
    (split;
     [intros Heq; try discriminate; inversion Heq; subst; intuition congruence
     |intros (A1 & A2 & A3 & A4 & A5 & A6 & A7); try (exfalso; intuition congruence);
      f_equal; f_equal; intuition congruence]).
Qed.

(** X14. Which facts [_decode_fact] reads back from their encoding. After
    [encode_fact(f)] the three names of [f] are registered, each under a key
    [s], [p], [o] (the name lower-cased, spelled out for an ASCII name)
    whose prime [get_prime] finds for the name; the returned map is decoded
    to the fact [s p o] exactly when none of the keys is [_sign] or empty
    and the fact does not have the same subject and object around another
    predicate. *)
Theorem decode_fact_roundtrip : forall fuel kb f m kb',
  kb_ok kb ->
  KnowledgeBase.encode_fact fuel kb f = Ok (m, kb') ->
  exists s p o ps pp po,
    looks_up kb' (Fact.subject f) ps /\ looks_up kb' (Fact.predicate f) pp
    /\ looks_up kb' (Fact.object f) po
    /\ p2c_get (KnowledgeBase.encoder kb') ps = Some s
    /\ p2c_get (KnowledgeBase.encoder kb') pp = Some p
    /\ p2c_get (KnowledgeBase.encoder kb') po = Some o
    /\ (isascii (Fact.subject f) = true -> s = lower (Fact.subject f))
    /\ (isascii (Fact.predicate f) = true -> p = lower (Fact.predicate f))
    /\ (isascii (Fact.object f) = true -> o = lower (Fact.object f))
    /\ (ReasoningEngine._decode_fact m kb' = Some (Fact.mk s p o)
        <-> (s <> "_sign" /\ p <> "_sign" /\ o <> "_sign"
             /\ s <> "" /\ p <> "" /\ o <> "" /\ (s = o -> p = s))).
Proof.
  intros fuel kb f m kb' Hok H.
  destruct (kb_encode_fact_ok _ _ _ _ _ Hok H) as (Hok' & _ & ps & pp & po & Cs & Cp & Co & ->).
  pose proof (kw_enc _ (ko_wf _ Hok')) as Hwf.
  exists (lower (Fact.subject f)), (lower (Fact.predicate f)), (lower (Fact.object f)),
         ps, pp, po.
  split; [apply registered_looks_up; assumption|].
  split; [apply registered_looks_up; assumption|].
  split; [apply registered_looks_up; assumption|].
  split; [exact (ew_c2p _ Hwf _ _ Cs)|].
  split; [exact (ew_c2p _ Hwf _ _ Cp)|].
  split; [exact (ew_c2p _ Hwf _ _ Co)|].
  split; [reflexivity|]. split; [reflexivity|]. split; [reflexivity|].
  apply decode_fact_encoding; assumption.
Qed.

Lemma kb_empty_ok : kb_ok kb_empty.
Proof. constructor; [exact kb_empty_wf|vm_compute; reflexivity]. Qed.

(** [encode_fact(f)] on [kb], for the examples *)
Definition with_fact (kb : KB) (f : Fact.t) : ExponentMap * KB :=
  unwrap ([], kb) (KnowledgeBase.encode_fact 1 kb f).

Lemma with_fact_socrates :
  KnowledgeBase.encode_fact 1 kb_empty (Fact.mk "Socrates" "is" "Human")
  = Ok ([(3, 1); (5, 1); (7, 1)],
        snd (with_fact kb_empty (Fact.mk "Socrates" "is" "Human"))).
Proof. vm_compute. reflexivity. Qed.

(** Witness for X14: a fact on the empty store *)
Lemma decode_fact_roundtrip_witness :
  kb_ok kb_empty
  /\ KnowledgeBase.encode_fact 1 kb_empty (Fact.mk "Socrates" "is" "Human")
     = Ok ([(3, 1); (5, 1); (7, 1)],
           snd (with_fact kb_empty (Fact.mk "Socrates" "is" "Human")))
  /\ exists s p o ps pp po,
       looks_up (snd (with_fact kb_empty (Fact.mk "Socrates" "is" "Human"))) "Socrates" ps
       /\ looks_up (snd (with_fact kb_empty (Fact.mk "Socrates" "is" "Human"))) "is" pp
       /\ looks_up (snd (with_fact kb_empty (Fact.mk "Socrates" "is" "Human"))) "Human" po
       /\ p2c_get (KnowledgeBase.encoder
                     (snd (with_fact kb_empty (Fact.mk "Socrates" "is" "Human")))) ps = Some s
       /\ p2c_get (KnowledgeBase.encoder
                     (snd (with_fact kb_empty (Fact.mk "Socrates" "is" "Human")))) pp = Some p
       /\ p2c_get (KnowledgeBase.encoder
                     (snd (with_fact kb_empty (Fact.mk "Socrates" "is" "Human")))) po = Some o
       /\ (isascii "Socrates" = true -> s = "socrates")
       /\ (isascii "is" = true -> p = "is")
       /\ (isascii "Human" = true -> o = "human")
       /\ (ReasoningEngine._decode_fact [(3, 1); (5, 1); (7, 1)]
             (snd (with_fact kb_empty (Fact.mk "Socrates" "is" "Human")))
           = Some (Fact.mk s p o)
           <-> (s <> "_sign" /\ p <> "_sign" /\ o <> "_sign"
                /\ s <> "" /\ p <> "" /\ o <> "" /\ (s = o -> p = s))).
Proof.
  split; [exact kb_empty_ok|]. split; [exact with_fact_socrates|].
  exact (decode_fact_roundtrip 1 kb_empty (Fact.mk "Socrates" "is" "Human") _ _
           kb_empty_ok with_fact_socrates).
Defined.

(* ------------------------------------------------------------------------- *)
(** ** Filling the store: [add_fact] and [add_rule] *)

(** [m] returns [r] whenever it is given fuel enough *)
Definition returns {A : Type} (m : nat -> outcome A) (r : A) : Prop :=
  exists F : nat, forall fuel, (F <= fuel)%nat -> m fuel = Ok r.

Definition raises {A : Type} (m : nat -> outcome A) (e : exn) : Prop :=
  exists F : nat, forall fuel, (F <= fuel)%nat -> m fuel = Raise e.

Lemma kb_get_prime_returns : forall kb x,
  kb_wf kb ->
  exists p kb', returns (fun fuel => KnowledgeBase.get_prime fuel kb x) (p, kb').
Proof.
  intros kb x Hwf.
  destruct (get_total (PrimeEncoder._next_index (KnowledgeBase.encoder kb))) as (F & HF).
  destruct (get_prime_total _ F HF F (KnowledgeBase.encoder kb) x (kw_enc _ Hwf)
              (le_n _) (le_n _)) as (p & e' & E).
  exists p, (KnowledgeBase.with_encoder kb e'), F. intros fuel Hle.
  unfold KnowledgeBase.get_prime.
  rewrite (enc_get_prime_mono F fuel _ _ Hle) by congruence. rewrite E. reflexivity.
Qed.

Lemma kb_encode_symbol_returns : forall kb x,
  kb_wf kb ->
  exists m kb', returns (fun fuel => KnowledgeBase.encode_symbol fuel kb x) (m, kb').
Proof.
  intros kb x Hwf. destruct (kb_get_prime_returns kb x Hwf) as (p & kb' & F & HF).
  exists [(p, 1)], kb', F. intros fuel Hle. specialize (HF fuel Hle).
  unfold KnowledgeBase.get_prime in HF.
  unfold KnowledgeBase.encode_symbol, PrimeEncoder.encode_symbol.
  destruct (PrimeEncoder.get_prime fuel (KnowledgeBase.encoder kb) x) as [[p0 e]| |];
    simpl in *; try discriminate.
  inversion HF; subst. reflexivity.
Qed.

Lemma kb_encode_fact_returns : forall kb f,
  kb_wf kb ->
  exists m kb', returns (fun fuel => KnowledgeBase.encode_fact fuel kb f) (m, kb').
Proof.
  intros kb f Hwf.
  destruct (kb_encode_symbol_returns kb (Fact.subject f) Hwf) as (m1 & kb1 & F1 & H1).
  destruct (kb_encode_symbol_spec _ _ _ _ _ Hwf (H1 F1 (le_n _))) as (W1 & _).
  destruct (kb_encode_symbol_returns kb1 (Fact.predicate f) W1) as (m2 & kb2 & F2 & H2).
  destruct (kb_encode_symbol_spec _ _ _ _ _ W1 (H2 F2 (le_n _))) as (W2 & _).
  destruct (kb_encode_symbol_returns kb2 (Fact.object f) W2) as (m3 & kb3 & F3 & H3).
  exists (PrimeEncoder.multiply (PrimeEncoder.multiply m1 m2) m3), kb3, (F1 + F2 + F3)%nat.
  intros fuel Hle. unfold KnowledgeBase.encode_fact.
  rewrite H1 by lia. cbn [bind]. rewrite H2 by lia. cbn [bind]. rewrite H3 by lia.
  reflexivity.
Qed.

(** Knowledge bases that agree but for the registry, which may have grown,
    and the rule list *)
Lemma kb_encode_fact_frame : forall fuel kb f m kb',
  kb_wf kb -> KnowledgeBase.encode_fact fuel kb f = Ok (m, kb') ->
  kb_wf kb' /\ ext kb kb'.
Proof.
  intros fuel kb f m kb' Hwf H.
  destruct (kb_encode_fact_spec _ _ _ _ _ Hwf H) as (W & X & _). auto.
Qed.

(** X15. [add_fact] never fails on a sound store: it returns the encoding,
    which it appends to [fact_encodings] while the fact is appended to
    [facts]; the rules stay and the registry only grows. *)
Theorem add_fact_always_succeeds : forall kb f,
  kb_wf kb ->
  exists m kb',
    returns (fun fuel => KnowledgeBase.add_fact fuel kb f) (m, kb')
    /\ KnowledgeBase.facts kb' = (KnowledgeBase.facts kb ++ [f])%list
    /\ KnowledgeBase.fact_encodings kb' = (KnowledgeBase.fact_encodings kb ++ [m])%list
    /\ KnowledgeBase.rules kb' = KnowledgeBase.rules kb
    /\ reg_le (KnowledgeBase.encoder kb) (KnowledgeBase.encoder kb')
    /\ kb_wf kb'.
Proof.
  intros kb f Hwf. destruct (kb_encode_fact_returns kb f Hwf) as (m & kb1 & F & HF).
  destruct (kb_encode_fact_frame _ _ _ _ _ Hwf (HF F (le_n _))) as (W1 & [(S1 & S2 & S3) R]).
  assert (E : forall fuel, (F <= fuel)%nat ->
                KnowledgeBase.add_fact fuel kb f
                = Ok (m, {| KnowledgeBase.encoder := KnowledgeBase.encoder kb1;
                            KnowledgeBase.fact_encodings :=
                              (KnowledgeBase.fact_encodings kb1 ++ [m])%list;
                            KnowledgeBase.rules := KnowledgeBase.rules kb1;
                            KnowledgeBase.facts := (KnowledgeBase.facts kb1 ++ [f])%list |})).
  { intros fuel Hle. unfold KnowledgeBase.add_fact. rewrite HF by assumption. reflexivity. }
  eexists m, _. split; [exists F; exact E|]. cbn.
  split; [congruence|]. split; [congruence|]. split; [assumption|]. split; [assumption|].
  eapply add_fact_wf; [exact Hwf|]. apply (E F (le_n _)).
Qed.

(** Witness for X15: the empty store *)
Lemma add_fact_always_succeeds_witness :
  kb_wf kb_empty
  /\ exists m kb',
       returns (fun fuel => KnowledgeBase.add_fact fuel kb_empty (Fact.mk "socrates" "is" "human"))
               (m, kb')
       /\ KnowledgeBase.facts kb'
          = (KnowledgeBase.facts kb_empty ++ [Fact.mk "socrates" "is" "human"])%list
       /\ KnowledgeBase.fact_encodings kb' = (KnowledgeBase.fact_encodings kb_empty ++ [m])%list
       /\ KnowledgeBase.rules kb' = KnowledgeBase.rules kb_empty
       /\ reg_le (KnowledgeBase.encoder kb_empty) (KnowledgeBase.encoder kb')
       /\ kb_wf kb'.
Proof.
  split; [exact kb_empty_wf|].
  exact (add_fact_always_succeeds kb_empty (Fact.mk "socrates" "is" "human") kb_empty_wf).
Defined.

Lemma kb_encode_facts_returns : forall conds kb,
  kb_wf kb ->
  exists ms kb', returns (fun fuel => KnowledgeBase.encode_facts fuel kb conds) (ms, kb')
                 /\ kb_wf kb' /\ ext kb kb'.
Proof.
  induction conds as [|c conds IH]; intros kb Hwf.
  - exists [], kb. split; [exists O; reflexivity|]. split; [assumption|apply ext_refl].
  - destruct (kb_encode_fact_returns kb c Hwf) as (m & kb1 & F1 & H1).
    destruct (kb_encode_fact_frame _ _ _ _ _ Hwf (H1 F1 (le_n _))) as (W1 & X1).
    destruct (IH kb1 W1) as (ms & kb2 & (F2 & H2) & W2 & X2).
    exists (m :: ms), kb2. split; [|split; [assumption|eapply ext_trans; eassumption]].
    exists (F1 + F2)%nat. intros fuel Hle. cbn [KnowledgeBase.encode_facts].
    rewrite H1 by lia. cbn [bind]. rewrite H2 by lia. reflexivity.
Qed.

(** A rule of type ["universal"] or ["capability"] *)
Definition quantified (r : Rule.t) : bool :=
  (Rule.type r =? "universal")%string || (Rule.type r =? "capability")%string.

(** The field [add_rule] reads the property prime from *)
Definition target_of (r : Rule.t) : option string :=
  if (Rule.type r =? "universal")%string then Rule.property r else Rule.capability r.

(** The word [add_rule] reads the predicate prime from *)
Definition verb_of (r : Rule.t) : string :=
  if (Rule.type r =? "universal")%string then "is" else "can".

(** [add_rule] on a universal or capability rule with a condition, a
    category and a property (or capability) *)
Lemma add_quantified_rule : forall kb r cond0 rest c t,
  kb_ok kb -> quantified r = true ->
  Rule.conditions r = cond0 :: rest -> Rule.category r = Some c -> target_of r = Some t ->
  exists er kb',
    returns (fun fuel => KnowledgeBase.add_rule fuel kb r) (er, kb')
    /\ KnowledgeBase.rules kb' = (KnowledgeBase.rules kb ++ [er])%list
    /\ KnowledgeBase.facts kb' = KnowledgeBase.facts kb
    /\ KnowledgeBase.fact_encodings kb' = KnowledgeBase.fact_encodings kb
    /\ reg_le (KnowledgeBase.encoder kb) (KnowledgeBase.encoder kb')
    /\ kb_ok kb'
    /\ exists pc pt pv s1 p1 o1 s2 p2 o2,
         c2p_get (KnowledgeBase.encoder kb') (lower c) = Some pc
         /\ c2p_get (KnowledgeBase.encoder kb') (lower t) = Some pt
         /\ c2p_get (KnowledgeBase.encoder kb') (verb_of r) = Some pv
         /\ c2p_get (KnowledgeBase.encoder kb') (lower (Fact.subject cond0)) = Some s1
         /\ c2p_get (KnowledgeBase.encoder kb') (lower (Fact.predicate cond0)) = Some p1
         /\ c2p_get (KnowledgeBase.encoder kb') (lower (Fact.object cond0)) = Some o1
         /\ c2p_get (KnowledgeBase.encoder kb') (lower (Fact.subject (Rule.conclusion r))) = Some s2
         /\ c2p_get (KnowledgeBase.encoder kb') (lower (Fact.predicate (Rule.conclusion r))) = Some p2
         /\ c2p_get (KnowledgeBase.encoder kb') (lower (Fact.object (Rule.conclusion r))) = Some o2
         /\ er = Quantified (Rule.type r) pc pt pv (fact_encoding s1 p1 o1) (fact_encoding s2 p2 o2).
Proof.
  intros kb r cond0 rest c t Hok Hq Hconds Hcat Htgt.
  destruct (kb_encode_fact_returns kb cond0 (ko_wf _ Hok)) as (m1 & kb1 & F1 & H1).
  destruct (kb_encode_fact_ok _ _ _ _ _ Hok (H1 F1 (le_n _)))
    as (K1 & X1 & s1 & p1 & o1 & Cs1 & Cp1 & Co1 & ->).
  destruct (kb_encode_fact_returns kb1 (Rule.conclusion r) (ko_wf _ K1)) as (m2 & kb2 & F2 & H2).
  destruct (kb_encode_fact_ok _ _ _ _ _ K1 (H2 F2 (le_n _)))
    as (K2 & X2 & s2 & p2 & o2 & Cs2 & Cp2 & Co2 & ->).
  destruct (kb_get_prime_returns kb2 c (ko_wf _ K2)) as (pc & kb3 & F3 & H3).
  destruct (kb_get_prime_spec _ _ _ _ _ (ko_wf _ K2) (H3 F3 (le_n _))) as (W3 & X3 & Cc).
  pose proof (kb_ok_ext _ _ K2 X3 W3) as K3.
  destruct (kb_get_prime_returns kb3 t W3) as (pt & kb4 & F4 & H4).
  destruct (kb_get_prime_spec _ _ _ _ _ W3 (H4 F4 (le_n _))) as (W4 & X4 & Ct).
  pose proof (kb_ok_ext _ _ K3 X4 W4) as K4.
  destruct (kb_get_prime_returns kb4 (verb_of r) W4) as (pv & kb5 & F5 & H5).
  destruct (kb_get_prime_spec _ _ _ _ _ W4 (H5 F5 (le_n _))) as (W5 & X5 & Cv).
  pose proof (kb_ok_ext _ _ K4 X5 W5) as K5.
  assert (Hverb : lower (verb_of r) = verb_of r)
    by (unfold verb_of; destruct (Rule.type r =? "universal")%string; reflexivity).
  rewrite Hverb in Cv.
  set (er := Quantified (Rule.type r) pc pt pv (fact_encoding s1 p1 o1) (fact_encoding s2 p2 o2)).
  assert (E : forall fuel, (F1 + F2 + F3 + F4 + F5 <= fuel)%nat ->
                KnowledgeBase.add_rule fuel kb r = Ok (er, KnowledgeBase.append_rule kb5 er)).
  { intros fuel Hle. unfold KnowledgeBase.add_rule. fold (quantified r). rewrite Hq, Hconds.
    rewrite H1 by lia. cbn [bind]. rewrite H2 by lia. cbn [bind].
    rewrite Hcat. cbn [KnowledgeBase.get_prime_opt]. rewrite H3 by lia. cbn [bind].
    unfold target_of, verb_of in *.
    destruct (Rule.type r =? "universal")%string; rewrite Htgt;
      cbn [KnowledgeBase.get_prime_opt]; rewrite H4 by lia; cbn [bind];
      rewrite H5 by lia; reflexivity. }
  assert (X15 : ext kb kb5) by (repeat (eapply ext_trans; [eassumption|]); apply ext_refl).
  destruct X15 as [(S1 & S2 & S3) R].
  exists er, (KnowledgeBase.append_rule kb5 er).
  split; [eexists; exact E|]. cbn.
  split; [congruence|]. split; [assumption|]. split; [assumption|]. split; [assumption|].
  split.
  - constructor; [|exact (ko_sign _ K5)].
    eapply add_rule_wf; [exact (ko_wf _ Hok)|]. apply (E _ (le_n _)).
  - assert (X25 : ext kb2 kb5) by (repeat (eapply ext_trans; [eassumption|]); apply ext_refl).
    assert (X35 : ext kb3 kb5) by (repeat (eapply ext_trans; [eassumption|]); apply ext_refl).
    assert (X12' : ext kb1 kb5) by (eapply ext_trans; eassumption).
    exists pc, pt, pv, s1, p1, o1, s2, p2, o2.
    repeat (match goal with |- _ /\ _ => split end);
      try reflexivity; try assumption;
      first [ apply (rl_c2p _ _ (ext_reg _ _ X5)); assumption
            | apply (rl_c2p _ _ (ext_reg _ _ X35)); assumption
            | apply (rl_c2p _ _ (ext_reg _ _ X25)); assumption
            | apply (rl_c2p _ _ (ext_reg _ _ X12')); assumption ].
Qed.

(** X16. Which rules [add_rule] accepts. A universal or capability rule
    without a condition is refused with [IndexError], and one whose category
    or property (capability, for a capability rule) is [None] with
    [AttributeError]; every other rule is appended to the rule list, facts
    and encodings staying as they were. *)
Theorem add_rule_outcome : forall kb r,
  kb_ok kb ->
  (quantified r = true -> Rule.conditions r = [] ->
   forall fuel, KnowledgeBase.add_rule fuel kb r = Raise IndexError)
  /\ (quantified r = true -> Rule.conditions r <> [] ->
      Rule.category r = None \/ target_of r = None ->
      raises (fun fuel => KnowledgeBase.add_rule fuel kb r) AttributeError)
  /\ (quantified r = false
      \/ (Rule.conditions r <> [] /\ Rule.category r <> None /\ target_of r <> None) ->
      exists er kb',
        returns (fun fuel => KnowledgeBase.add_rule fuel kb r) (er, kb')
        /\ KnowledgeBase.rules kb' = (KnowledgeBase.rules kb ++ [er])%list
        /\ KnowledgeBase.facts kb' = KnowledgeBase.facts kb
        /\ KnowledgeBase.fact_encodings kb' = KnowledgeBase.fact_encodings kb
        /\ kb_ok kb').
Proof.
  intros kb r Hok. split; [|split].
  - intros Hq Hconds fuel. unfold KnowledgeBase.add_rule. fold (quantified r).
    rewrite Hq, Hconds. reflexivity.
  - intros Hq Hconds Hnone.
    destruct (Rule.conditions r) as [|cond0 rest] eqn:Ec; [congruence|].
    destruct (kb_encode_fact_returns kb cond0 (ko_wf _ Hok)) as (m1 & kb1 & F1 & H1).
    destruct (kb_encode_fact_frame _ _ _ _ _ (ko_wf _ Hok) (H1 F1 (le_n _))) as (W1 & _).
    destruct (kb_encode_fact_returns kb1 (Rule.conclusion r) W1) as (m2 & kb2 & F2 & H2).
    destruct (kb_encode_fact_frame _ _ _ _ _ W1 (H2 F2 (le_n _))) as (W2 & _).
    destruct (Rule.category r) as [c|] eqn:Ecat.
    + destruct Hnone as [|Htgt]; [discriminate|].
      destruct (kb_get_prime_returns kb2 c W2) as (pc & kb3 & F3 & H3).
      exists (F1 + F2 + F3)%nat. intros fuel Hle.
      unfold KnowledgeBase.add_rule. fold (quantified r). rewrite Hq, Ec.
      rewrite H1 by lia. cbn [bind]. rewrite H2 by lia. cbn [bind].
      rewrite Ecat. cbn [KnowledgeBase.get_prime_opt]. rewrite H3 by lia. cbn [bind].
      unfold target_of in Htgt.
      destruct (Rule.type r =? "universal")%string; rewrite Htgt; reflexivity.
    + exists (F1 + F2)%nat. intros fuel Hle.
      unfold KnowledgeBase.add_rule. fold (quantified r). rewrite Hq, Ec.
      rewrite H1 by lia. cbn [bind]. rewrite H2 by lia. cbn [bind].
      rewrite Ecat. reflexivity.
  - intros Hcase. destruct (quantified r) eqn:Hq.
    + destruct Hcase as [|(Hconds & Hcat & Htgt)]; [discriminate|].
      destruct (Rule.conditions r) as [|cond0 rest] eqn:Ec; [congruence|].
      destruct (Rule.category r) as [c|] eqn:Ecat; [|congruence].
      destruct (target_of r) as [t|] eqn:Et; [|congruence].
      destruct (add_quantified_rule kb r cond0 rest c t Hok Hq Ec Ecat Et)
        as (er & kb' & A & B & C & D & _ & K & _).
      exists er, kb'. auto.
    + destruct (kb_encode_facts_returns (Rule.conditions r) kb (ko_wf _ Hok))
        as (ms & kb1 & (F1 & H1) & W1 & X1).
      destruct (kb_encode_fact_returns kb1 (Rule.conclusion r) W1) as (m2 & kb2 & F2 & H2).
      destruct (kb_encode_fact_frame _ _ _ _ _ W1 (H2 F2 (le_n _))) as (W2 & X2).
      assert (E : forall fuel, (F1 + F2 <= fuel)%nat ->
                    KnowledgeBase.add_rule fuel kb r
                    = Ok (Standard ms m2, KnowledgeBase.append_rule kb2 (Standard ms m2))).
      { intros fuel Hle. unfold KnowledgeBase.add_rule. fold (quantified r). rewrite Hq.
        rewrite H1 by lia. cbn [bind]. rewrite H2 by lia. reflexivity. }
      assert (X12 : ext kb kb2) by (eapply ext_trans; eassumption).
      pose proof (kb_ok_ext _ _ Hok X12 W2) as K2.
      destruct X12 as [(S1 & S2 & S3) R].
      exists (Standard ms m2), (KnowledgeBase.append_rule kb2 (Standard ms m2)).
      split; [eexists; exact E|]. cbn.
      split; [congruence|]. split; [assumption|]. split; [assumption|].
      constructor; [apply append_standard_wf; assumption|exact (ko_sign _ K2)].
Qed.

(** Witness for X16: a universal rule without a condition on the empty store *)
Lemma add_rule_outcome_witness :
  kb_ok kb_empty
  /\ KnowledgeBase.add_rule 1 kb_empty (Rule.mk [] (Fact.mk "_x_" "is" "mortal") "universal"
                                                (Some "human") (Some "mortal") None)
     = Raise IndexError.
Proof.
  split; [exact kb_empty_ok|].
  exact (proj1 (add_rule_outcome kb_empty
                  (Rule.mk [] (Fact.mk "_x_" "is" "mortal") "universal"
                           (Some "human") (Some "mortal") None) kb_empty_ok)
               eq_refl eq_refl 1%nat).
Defined.

(** X17. The rules made by [create_universal_rule] and
    [create_capability_rule] are always accepted, and the stored entry holds
    the primes that [get_prime] finds afterwards for the category and for
    the property (capability), which are those registered under the
    lower-cased names when the names are ASCII, the prime of [is] (of
    [can]), and the encodings of [_x_ is category] and of [_x_ is property]
    ([_x_ can capability]). *)
Theorem factory_rules_are_accepted : forall kb c t,
  kb_ok kb ->
  (exists er kb' px pis pc pt,
     returns (fun fuel => KnowledgeBase.add_rule fuel kb (Rule.create_universal_rule c t))
             (er, kb')
     /\ KnowledgeBase.rules kb' = (KnowledgeBase.rules kb ++ [er])%list
     /\ kb_ok kb'
     /\ c2p_get (KnowledgeBase.encoder kb') "_x_" = Some px
     /\ c2p_get (KnowledgeBase.encoder kb') "is" = Some pis
     /\ looks_up kb' c pc /\ looks_up kb' t pt
     /\ (isascii c = true -> c2p_get (KnowledgeBase.encoder kb') (lower c) = Some pc)
     /\ (isascii t = true -> c2p_get (KnowledgeBase.encoder kb') (lower t) = Some pt)
     /\ er = Quantified "universal" pc pt pis (fact_encoding px pis pc) (fact_encoding px pis pt))
  /\ (exists er kb' px pis pcan pc pt,
        returns (fun fuel => KnowledgeBase.add_rule fuel kb (Rule.create_capability_rule c t))
                (er, kb')
        /\ KnowledgeBase.rules kb' = (KnowledgeBase.rules kb ++ [er])%list
        /\ kb_ok kb'
        /\ c2p_get (KnowledgeBase.encoder kb') "_x_" = Some px
        /\ c2p_get (KnowledgeBase.encoder kb') "is" = Some pis
        /\ c2p_get (KnowledgeBase.encoder kb') "can" = Some pcan
        /\ looks_up kb' c pc /\ looks_up kb' t pt
        /\ (isascii c = true -> c2p_get (KnowledgeBase.encoder kb') (lower c) = Some pc)
        /\ (isascii t = true -> c2p_get (KnowledgeBase.encoder kb') (lower t) = Some pt)
        /\ er = Quantified "capability" pc pt pcan
                           (fact_encoding px pis pc) (fact_encoding px pcan pt)).
Proof.
  intros kb c t Hok. split.
  - destruct (add_quantified_rule kb (Rule.create_universal_rule c t)
                (Fact.mk "_x_" "is" c) [] c t Hok eq_refl eq_refl eq_refl eq_refl)
      as (er & kb' & A & B & _ & _ & _ & K & pc & pt & pv & s1 & p1 & o1 & s2 & p2 & o2
          & Cc & Ct & Cv & Cs1 & Cp1 & Co1 & Cs2 & Cp2 & Co2 & Her).
    cbn [Rule.conclusion Rule.create_universal_rule Rule.create_capability_rule Rule.type
         Fact.subject Fact.predicate Fact.object] in Cs1, Cp1, Co1, Cs2, Cp2, Co2, Her.
    change (lower "_x_") with "_x_" in *. change (lower "is") with "is" in *.
    change (verb_of (Rule.create_universal_rule c t)) with "is" in Cv.
    assert (E1 : p1 = pv) by (rewrite Cp1 in Cv; inversion Cv; reflexivity).
    assert (E2 : o1 = pc) by (rewrite Co1 in Cc; inversion Cc; reflexivity).
    assert (E3 : s2 = s1) by (rewrite Cs2 in Cs1; inversion Cs1; reflexivity).
    assert (E4 : p2 = pv) by (rewrite Cp2 in Cv; inversion Cv; reflexivity).
    assert (E5 : o2 = pt) by (rewrite Co2 in Ct; inversion Ct; reflexivity).
    subst p1 o1 s2 p2 o2.
    exists er, kb', s1, pv, pc, pt.
    repeat (match goal with |- _ /\ _ => split end);
      try assumption; try (apply registered_looks_up; assumption); intros _; assumption.
  - destruct (add_quantified_rule kb (Rule.create_capability_rule c t)
                (Fact.mk "_x_" "is" c) [] c t Hok eq_refl eq_refl eq_refl eq_refl)
      as (er & kb' & A & B & _ & _ & _ & K & pc & pt & pv & s1 & p1 & o1 & s2 & p2 & o2
          & Cc & Ct & Cv & Cs1 & Cp1 & Co1 & Cs2 & Cp2 & Co2 & Her).
    cbn [Rule.conclusion Rule.create_universal_rule Rule.create_capability_rule Rule.type
         Fact.subject Fact.predicate Fact.object] in Cs1, Cp1, Co1, Cs2, Cp2, Co2, Her.
    change (lower "_x_") with "_x_" in *. change (lower "is") with "is" in *.
    change (lower "can") with "can" in *.
    change (verb_of (Rule.create_capability_rule c t)) with "can" in Cv.
    assert (E2 : o1 = pc) by (rewrite Co1 in Cc; inversion Cc; reflexivity).
    assert (E3 : s2 = s1) by (rewrite Cs2 in Cs1; inversion Cs1; reflexivity).
    assert (E4 : p2 = pv) by (rewrite Cp2 in Cv; inversion Cv; reflexivity).
    assert (E5 : o2 = pt) by (rewrite Co2 in Ct; inversion Ct; reflexivity).
    subst o1 s2 p2 o2.
    exists er, kb', s1, p1, pv, pc, pt.
    repeat (match goal with |- _ /\ _ => split end);
      try assumption; try (apply registered_looks_up; assumption); intros _; assumption.
Qed.

(** Witness for X17: the empty store *)
Lemma factory_rules_are_accepted_witness :
  kb_ok kb_empty
  /\ exists er kb' px pis pc pt,
       returns (fun fuel => KnowledgeBase.add_rule fuel kb_empty
                              (Rule.create_universal_rule "human" "mortal"))
               (er, kb')
       /\ KnowledgeBase.rules kb' = (KnowledgeBase.rules kb_empty ++ [er])%list
       /\ kb_ok kb'
       /\ c2p_get (KnowledgeBase.encoder kb') "_x_" = Some px
       /\ c2p_get (KnowledgeBase.encoder kb') "is" = Some pis
       /\ looks_up kb' "human" pc /\ looks_up kb' "mortal" pt
       /\ (isascii "human" = true -> c2p_get (KnowledgeBase.encoder kb') "human" = Some pc)
       /\ (isascii "mortal" = true -> c2p_get (KnowledgeBase.encoder kb') "mortal" = Some pt)
       /\ er = Quantified "universal" pc pt pis (fact_encoding px pis pc)
                          (fact_encoding px pis pt).
Proof.
  split; [exact kb_empty_ok|].
  exact (proj1 (factory_rules_are_accepted kb_empty "human" "mortal" kb_empty_ok)).
Defined.

(* ------------------------------------------------------------------------- *)
(** ** What the reasoner answers *)

Lemma chain_loop_ext : forall rec : ChainRec,
  (forall kb s v res kb' v', kb_wf kb -> rec kb s v = Ok (res, kb', v') ->
                             kb_wf kb' /\ ext kb kb') ->
  forall rules kb subj sp v res kb' v',
    kb_wf kb -> ReasoningEngine.chain_loop rec rules kb subj sp v = Ok (res, kb', v') ->
    kb_wf kb' /\ ext kb kb'.
Proof.
  intros rec Hrec rules. induction rules as [|rule rest IH];
    intros kb subj sp v res kb' v' Hwf H; simpl in H.
  - inversion H; subst. split; [assumption|apply ext_refl].
  - destruct rule as [ty cat prop pred ce cc|conds concl]; [|eauto].
    destruct (negb (ty =? "universal")%string); [eauto|].
    destruct (negb (cat =? sp)); [eauto|].
    destruct (p2c_get (KnowledgeBase.encoder kb) prop) as [pn|]; [|eauto].
    destruct (negb (truthy pn)); [eauto|].
    destruct (rec kb pn v) as [[[chain kb1] v1]| |] eqn:E; simpl in H; try discriminate.
    destruct (Hrec _ _ _ _ _ _ Hwf E) as (W1 & X1).
    destruct chain as [[|c cs]|].
    + destruct (IH _ _ _ _ _ _ _ W1 H) as (W2 & X2). eauto using ext_trans.
    + inversion H; subst. auto.
    + destruct (IH _ _ _ _ _ _ _ W1 H) as (W2 & X2). eauto using ext_trans.
Qed.

(** The chain search leaves the stored lists alone and only grows the
    registry *)
Lemma universal_chain_ext : forall fuel kb s t v res kb' v',
  kb_wf kb -> ReasoningEngine._universal_chain fuel kb s t v = Ok (res, kb', v') ->
  kb_wf kb' /\ ext kb kb'.
Proof.
  induction fuel as [|f IH]; intros kb s t v res kb' v' Hwf H; simpl in H; [discriminate|].
  destruct (s =? t)%string; [inversion H; subst; split; [assumption|apply ext_refl]|].
  destruct (mem s v); [inversion H; subst; split; [assumption|apply ext_refl]|].
  destruct (KnowledgeBase.get_prime f kb s) as [[sp kb1]| |] eqn:E; simpl in H;
    try discriminate.
  destruct (kb_get_prime_spec _ _ _ _ _ Hwf E) as (W1 & X1 & _).
  assert (Hrules : KnowledgeBase.rules kb1 = KnowledgeBase.rules kb) by apply X1.
  destruct (chain_loop_ext _ (fun kb0 s0 v0 res0 kb0' v0' W0 H0 => IH kb0 s0 t v0 res0 kb0' v0' W0 H0)
              _ _ _ _ _ _ _ _ W1 H) as (W2 & X2).
  eauto using ext_trans.
Qed.

(** Every stored encoding is the map of the primes its fact's names have in
    the registry *)
Definition encodes (e : PrimeEncoder.t) (m : ExponentMap) (f : Fact.t) : Prop :=
  exists ps pp po,
    c2p_get e (lower (Fact.subject f)) = Some ps
    /\ c2p_get e (lower (Fact.predicate f)) = Some pp
    /\ c2p_get e (lower (Fact.object f)) = Some po
    /\ m = fact_encoding ps pp po.

Definition aligned (kb : KB) : Prop :=
  Forall2 (encodes (KnowledgeBase.encoder kb))
          (KnowledgeBase.fact_encodings kb) (KnowledgeBase.facts kb).

Lemma encodes_le : forall e e' m f, reg_le e e' -> encodes e m f -> encodes e' m f.
Proof.
  intros e e' m f R (ps & pp & po & A & B & C & D). exists ps, pp, po.
  repeat split; try assumption; apply (rl_c2p _ _ R); assumption.
Qed.

Lemma Forall2_encodes_le : forall e e' ms fs,
  reg_le e e' -> Forall2 (encodes e) ms fs -> Forall2 (encodes e') ms fs.
Proof.
  intros e e' ms fs R H. induction H; constructor; eauto using encodes_le.
Qed.

Lemma aligned_ext : forall kb kb', ext kb kb' -> aligned kb -> aligned kb'.
Proof.
  intros kb kb' [(S1 & S2 & S3) R] H. unfold aligned in *. rewrite S1, S2.
  eapply Forall2_encodes_le; eassumption.
Qed.

Lemma add_fact_aligned : forall fuel kb f m kb',
  kb_ok kb -> aligned kb -> KnowledgeBase.add_fact fuel kb f = Ok (m, kb') ->
  kb_ok kb' /\ aligned kb' /\ In f (KnowledgeBase.facts kb')
  /\ incl (KnowledgeBase.facts kb) (KnowledgeBase.facts kb').
Proof.
  intros fuel kb f m kb' Hok Hal H.
  pose proof (add_fact_wf _ _ _ _ _ (ko_wf _ Hok) H) as W.
  unfold KnowledgeBase.add_fact in H.
  destruct (KnowledgeBase.encode_fact fuel kb f) as [[m1 kb1]| |] eqn:E; simpl in H;
    try discriminate.
  inversion H; subst m kb'; clear H.
  destruct (kb_encode_fact_ok _ _ _ _ _ Hok E) as (K1 & X1 & Henc).
  pose proof (aligned_ext _ _ X1 Hal) as Hal1.
  destruct X1 as [(S1 & S2 & S3) R].
  split; [constructor; [assumption|exact (ko_sign _ K1)]|].
  split; [|split].
  - unfold aligned in *. cbn. apply Forall2_app; [assumption|].
    constructor; [exact Henc|constructor].
  - cbn. apply in_or_app. right. simpl. auto.
  - cbn. rewrite S1. apply incl_appl. apply incl_refl.
Qed.

Lemma kb_encode_facts_frame : forall fuel conds kb ms kb',
  kb_wf kb -> KnowledgeBase.encode_facts fuel kb conds = Ok (ms, kb') ->
  kb_wf kb' /\ ext kb kb'.
Proof.
  intros fuel conds. induction conds as [|c conds IH]; intros kb ms kb' Hwf H; simpl in H.
  - inversion H; subst. split; [assumption|apply ext_refl].
  - destruct (KnowledgeBase.encode_fact fuel kb c) as [[m0 kb0]| |] eqn:E0;
      simpl in H; try discriminate.
    destruct (KnowledgeBase.encode_facts fuel kb0 conds) as [[ms1 kb1]| |] eqn:E1;
      simpl in H; try discriminate.
    inversion H; subst.
    destruct (kb_encode_fact_frame _ _ _ _ _ Hwf E0) as (W0 & X0).
    destruct (IH _ _ _ W0 E1) as (W1 & X1). eauto using ext_trans.
Qed.

(** [add_rule] changes the rule list only, but for the registry's growth *)
Lemma add_rule_frame : forall fuel kb r er kb',
  kb_wf kb -> KnowledgeBase.add_rule fuel kb r = Ok (er, kb') ->
  exists kb1, ext kb kb1 /\ kb' = KnowledgeBase.append_rule kb1 er.
Proof.
  intros fuel kb r er kb' Hwf H. unfold KnowledgeBase.add_rule in H.
  destruct ((Rule.type r =? "universal")%string || (Rule.type r =? "capability")%string).
  - destruct (Rule.conditions r) as [|cond0 rest]; [discriminate|].
    destruct (KnowledgeBase.encode_fact fuel kb cond0) as [[m1 kb1]| |] eqn:E1;
      simpl in H; try discriminate.
    destruct (KnowledgeBase.encode_fact fuel kb1 (Rule.conclusion r)) as [[m2 kb2]| |] eqn:E2;
      simpl in H; try discriminate.
    destruct (KnowledgeBase.get_prime_opt fuel kb2 (Rule.category r)) as [[cat kb3]| |] eqn:E3;
      simpl in H; try discriminate.
    destruct (kb_encode_fact_frame _ _ _ _ _ Hwf E1) as (W1 & X1).
    destruct (kb_encode_fact_frame _ _ _ _ _ W1 E2) as (W2 & X2).
    destruct (kb_get_prime_opt_spec _ _ _ _ _ W2 E3) as (W3 & X3 & _).
    match type of H with
    | bind ?m _ = _ => destruct m as [[prop kb4]| |] eqn:E4; simpl in H; try discriminate
    end.
    assert (W4 : kb_wf kb4 /\ ext kb3 kb4).
    { destruct (Rule.type r =? "universal")%string;
        destruct (kb_get_prime_opt_spec _ _ _ _ _ W3 E4) as (W & X & _); auto. }
    destruct W4 as (W4 & X4).
    match type of H with
    | bind ?m _ = _ => destruct m as [[pred kb5]| |] eqn:E5; simpl in H; try discriminate
    end.
    assert (X5 : ext kb4 kb5).
    { destruct (Rule.type r =? "universal")%string;
        destruct (kb_get_prime_spec _ _ _ _ _ W4 E5) as (_ & X & _); exact X. }
    inversion H; subst er kb'; clear H.
    exists kb5. split; [|reflexivity].
    repeat (eapply ext_trans; [eassumption|]). apply ext_refl.
  - destruct (KnowledgeBase.encode_facts fuel kb (Rule.conditions r)) as [[encs kb1]| |] eqn:E1;
      simpl in H; try discriminate.
    destruct (kb_encode_facts_frame _ _ _ _ _ Hwf E1) as (W1 & X1).
    destruct (KnowledgeBase.encode_fact fuel kb1 (Rule.conclusion r)) as [[m2 kb2]| |] eqn:E2;
      simpl in H; try discriminate.
    destruct (kb_encode_fact_frame _ _ _ _ _ W1 E2) as (W2 & X2).
    inversion H; subst er kb'; clear H.
    exists kb2. split; [eapply ext_trans; eassumption|reflexivity].
Qed.

Lemma add_rule_aligned : forall fuel kb r er kb',
  kb_ok kb -> aligned kb -> KnowledgeBase.add_rule fuel kb r = Ok (er, kb') ->
  kb_ok kb' /\ aligned kb' /\ KnowledgeBase.facts kb' = KnowledgeBase.facts kb.
Proof.
  intros fuel kb r er kb' Hok Hal H.
  pose proof (add_rule_wf _ _ _ _ _ (ko_wf _ Hok) H) as W.
  destruct (add_rule_frame _ _ _ _ _ (ko_wf _ Hok) H) as (kb1 & X1 & ->).
  pose proof (aligned_ext _ _ X1 Hal) as Hal1.
  destruct Hok as [_ Hsign]. destruct X1 as [(S1 & S2 & S3) R].
  split; [|split; [exact Hal1|exact S1]].
  constructor; [assumption|]. cbn.
  rewrite (rl_sign _ _ R). apply (rl_p2c _ _ R). assumption.
Qed.

Lemma build_aligned : forall fuel script kb kb',
  kb_ok kb -> aligned kb -> build fuel kb script = Ok kb' ->
  kb_ok kb' /\ aligned kb'
  /\ (forall f, In (AddFact f) script \/ In f (KnowledgeBase.facts kb) ->
                In f (KnowledgeBase.facts kb')).
Proof.
  intros fuel script. induction script as [|[f|r] rest IH]; intros kb kb' Hok Hal H; simpl in H.
  - inversion H; subst. split; [assumption|]. split; [assumption|].
    intros f [[]|Hf]; assumption.
  - destruct (KnowledgeBase.add_fact fuel kb f) as [[m kb1]| |] eqn:E; simpl in H;
      try discriminate.
    destruct (add_fact_aligned _ _ _ _ _ Hok Hal E) as (K1 & A1 & Hin & Hincl).
    destruct (IH _ _ K1 A1 H) as (K2 & A2 & Hfacts).
    split; [assumption|]. split; [assumption|].
    intros g [[Heq|Hg]|Hg].
    + inversion Heq; subst. apply Hfacts. right. assumption.
    + apply Hfacts. left. assumption.
    + apply Hfacts. right. apply Hincl. assumption.
  - destruct (KnowledgeBase.add_rule fuel kb r) as [[er kb1]| |] eqn:E; simpl in H;
      try discriminate.
    destruct (add_rule_aligned _ _ _ _ _ Hok Hal E) as (K1 & A1 & Hsame).
    destruct (IH _ _ K1 A1 H) as (K2 & A2 & Hfacts).
    split; [assumption|]. split; [assumption|].
    intros g [[Heq|Hg]|Hg].
    + discriminate.
    + apply Hfacts. left. assumption.
    + apply Hfacts. right. rewrite Hsame. assumption.
Qed.

(** A store built through the public interface *)
Lemma store_of_aligned : forall fuel script kb,
  store_of fuel script = Ok kb ->
  kb_ok kb /\ aligned kb /\ forall f, In (AddFact f) script -> In f (KnowledgeBase.facts kb).
Proof.
  intros fuel script kb H. unfold store_of in H.
  destruct (PrimeEncoder.__init__ fuel) as [e| |] eqn:E; simpl in H; try discriminate.
  pose proof (init_ok _ _ E) as Hok.
  assert (K0 : kb_ok (KnowledgeBase.__init__ e)).
  { constructor; [apply kb_init_wf; exact (eo_wf _ Hok)|exact (eo_sign _ Hok)]. }
  assert (A0 : aligned (KnowledgeBase.__init__ e)) by constructor.
  destruct (build_aligned _ _ _ _ K0 A0 H) as (K & A & Hf).
  split; [assumption|]. split; [assumption|]. intros f Hin. apply Hf. left. assumption.
Qed.

Lemma dict_eqb_fact_encoding : forall ps pp po,
  dict_eqb (fact_encoding ps pp po) (fact_encoding ps pp po) = true.
Proof.
  intros ps pp po. rewrite fact_encoding_eq.
  destruct (Z.eqb_spec ps pp) as [Esp|Esp]; destruct (Z.eqb_spec ps po) as [Eso|Eso];
    destruct (Z.eqb_spec pp po) as [Epo|Epo]; try (exfalso; congruence);
    unfold dict_eqb;
    repeat (progress (cbn [List.length Nat.eqb forallb Dict.get fst snd andb];
                      rewrite ?Z.eqb_refl;
                      repeat match goal with
                             | Hne : _ <> _ |- _ => rewrite (proj2 (Z.eqb_neq _ _) Hne)
                             end));
    reflexivity.
Qed.

(** Past the shortcut, a stored fact is found among the encodings *)
Lemma after_chain_stored : forall fuel rec kb v q d r kb' v',
  kb_ok kb -> aligned kb -> In q (KnowledgeBase.facts kb) ->
  ReasoningEngine.after_chain fuel rec kb v q d = Ok (r, kb', v') ->
  ReasoningEngine.result r = true.
Proof.
  intros fuel rec kb v q d r kb' v' Hok Hal Hin H. unfold ReasoningEngine.after_chain in H.
  destruct (KnowledgeBase.encode_fact fuel kb q) as [[q_enc kb1]| |] eqn:E; simpl in H;
    try discriminate.
  destruct (kb_encode_fact_ok _ _ _ _ _ Hok E) as (K1 & X1 & ps & pp & po & Cs & Cp & Co & ->).
  pose proof (aligned_ext _ _ X1 Hal) as Hal1.
  assert (Hin1 : In q (KnowledgeBase.facts kb1)).
  { destruct X1 as [(S1 & _) _]. rewrite S1. assumption. }
  destruct (find _ (combine (KnowledgeBase.fact_encodings kb1) (KnowledgeBase.facts kb1)))
    as [[m f]|] eqn:Ef.
  - inversion H; subst. reflexivity.
  - exfalso. unfold aligned in Hal1.
    assert (Hex : exists m, In (m, q) (combine (KnowledgeBase.fact_encodings kb1)
                                               (KnowledgeBase.facts kb1))
                            /\ encodes (KnowledgeBase.encoder kb1) m q).
    { clear Ef. induction Hal1 as [|m f ms fs Hmf Hrest IH]; [contradiction|].
      destruct Hin1 as [->|Hin1].
      - exists m. split; [left; reflexivity|assumption].
      - destruct (IH Hin1) as (m' & A & B). exists m'. split; [right; assumption|assumption]. }
    destruct Hex as (m & Hm & (ps' & pp' & po' & Cs' & Cp' & Co' & ->)).
    pose proof (find_none _ _ Ef _ Hm) as Hno. cbn [fst] in Hno.
    rewrite Cs in Cs'. rewrite Cp in Cp'. rewrite Co in Co'.
    inversion Cs'; inversion Cp'; inversion Co'; subst.
    rewrite dict_eqb_fact_encoding in Hno. discriminate.
Qed.

(** X18. What was added is entailed: in a store built by [add_fact] and
    [add_rule] calls on a new knowledge base, [deduce] answers every fact
    that was added with entailed. *)
Theorem added_facts_are_entailed : forall fuel script kb f,
  store_of fuel script = Ok kb -> In (AddFact f) script ->
  exists r kb', deduce_returns kb f r kb' /\ ReasoningEngine.result r = true.
Proof.
  intros fuel script kb f Hstore Hadd.
  destruct (store_of_aligned _ _ _ Hstore) as (Hok & Hal & Hfacts).
  specialize (Hfacts f Hadd).
  destruct (deduce_result kb f (ko_wf _ Hok)) as (r & kb' & Hret & _).
  exists r, kb'. split; [assumption|].
  destruct Hret as (F & HF). pose proof (proj1 (HF F) (le_n F)) as E.
  destruct F as [|n]; [discriminate|].
  unfold ReasoningEngine.deduce in E. cbn [ReasoningEngine._deduce mem existsb] in E.
  destruct ((Fact.predicate f =? "is")%string && (Fact.subject f =? Fact.object f)%string).
  { simpl in E. inversion E; subst. reflexivity. }
  destruct (Fact.predicate f =? "is")%string.
  - destruct (ReasoningEngine._universal_chain n kb (Fact.subject f) (Fact.object f) [])
      as [[[chain kb1] v1]|e|] eqn:Ech; cbn [try_except] in E.
    + destruct (universal_chain_ext _ _ _ _ _ _ _ _ (ko_wf _ Hok) Ech) as (W1 & X1).
      assert (Hafter : forall r0 kb0 v0,
                 ReasoningEngine.after_chain n (ReasoningEngine._deduce n) kb1
                   [Fact.str f] f 0 = Ok (r0, kb0, v0) ->
                 ReasoningEngine.result r0 = true).
      { intros r0 kb0 v0 Ha.
        eapply (after_chain_stored n _ kb1); [| | |exact Ha].
        - eapply kb_ok_ext; eassumption.
        - eapply aligned_ext; eassumption.
        - destruct X1 as [(S1 & _) _]. rewrite S1. assumption. }
      destruct chain as [[|c cs]|].
      * destruct (ReasoningEngine.after_chain _ _ _ _ _ _) as [[[r0 kb0] v0]| |] eqn:Ea;
          simpl in E; try discriminate.
        inversion E; subst. eapply Hafter. reflexivity.
      * simpl in E. inversion E; subst. reflexivity.
      * destruct (ReasoningEngine.after_chain _ _ _ _ _ _) as [[[r0 kb0] v0]| |] eqn:Ea;
          simpl in E; try discriminate.
        inversion E; subst. eapply Hafter. reflexivity.
    + exfalso. eapply universal_chain_never_raises. eassumption.
    + discriminate.
  - destruct (ReasoningEngine.after_chain _ _ _ _ _ _) as [[[r0 kb0] v0]| |] eqn:Ea;
      simpl in E; try discriminate.
    inversion E; subst. eapply after_chain_stored; eassumption.
Qed.

(** The store built by [demo()] *)
Definition demo_script : list Statement :=
  [ AddFact (Fact.mk "socrates" "is" "human");
    AddFact (Fact.mk "plato" "is" "human");
    AddFact (Fact.mk "human" "is" "mammal");
    AddRule (Rule.create_universal_rule "human" "mortal");
    AddRule (Rule.create_universal_rule "mammal" "animal");
    AddRule (Rule.create_capability_rule "bird" "fly");
    AddFact (Fact.mk "socrates" "is" "philosopher");
    AddRule (Rule.mk [Fact.mk "_x_" "is" "human"; Fact.mk "_x_" "is" "philosopher"]
                     (Fact.mk "_x_" "is" "wise") "standard" None None None) ].

Definition kb_demo : KnowledgeBase.t := store demo_script.

Lemma store_of_demo : store_of 1 demo_script = Ok kb_demo.
Proof. vm_compute. reflexivity. Qed.

(** Witness for X18: a fact of the store of [demo()] *)
Lemma added_facts_are_entailed_witness :
  store_of 1 demo_script = Ok kb_demo
  /\ In (AddFact (Fact.mk "socrates" "is" "human")) demo_script
  /\ exists r kb', deduce_returns kb_demo (Fact.mk "socrates" "is" "human") r kb'
                   /\ ReasoningEngine.result r = true.
Proof.
  assert (Hin : In (AddFact (Fact.mk "socrates" "is" "human")) demo_script)
    by (left; reflexivity).
  split; [exact store_of_demo|]. split; [exact Hin|].
  exact (added_facts_are_entailed 1 demo_script kb_demo (Fact.mk "socrates" "is" "human")
           store_of_demo Hin).
Defined.

Lemma quantified_loop_true : forall fuel rec rules kb v q d res kb' v',
  ReasoningEngine.quantified_loop fuel rec rules kb v q d = Ok (Some res, kb', v') ->
  ReasoningEngine.result res = true /\ ReasoningEngine.equation res <> None.
Proof.
  intros fuel rec rules. induction rules as [|rule rest IH]; intros kb v q d res kb' v' H;
    simpl in H; [discriminate|].
  destruct rule as [ty cat prop pred ce cc|conds concl]; [|eauto].
  destruct (((ty =? "universal")%string || (ty =? "capability")%string)
            && (Fact.predicate q =? (if (ty =? "universal")%string then "is" else "can"))%string);
    [|eauto].
  destruct (KnowledgeBase.get_prime fuel kb (Fact.object q)) as [[p kb1]| |]; simpl in H;
    try discriminate.
  destruct (p =? prop); [|eauto].
  destruct (p2c_get (KnowledgeBase.encoder kb1) cat) as [cname|]; [|discriminate].
  destruct (rec kb1 v _ _) as [[[sub kb2] v2]| |]; simpl in H; try discriminate.
  destruct (ReasoningEngine.result sub); [|eauto].
  destruct (p2c_get (KnowledgeBase.encoder kb2) cat) as [cname'|]; [|discriminate].
  inversion H; subst. split; [reflexivity|discriminate].
Qed.

Lemma standard_loop_true : forall rec rules q_enc kb v q d res kb' v',
  ReasoningEngine.standard_loop rec rules q_enc kb v q d = Ok (Some res, kb', v') ->
  ReasoningEngine.result res = true.
Proof.
  intros rec rules. induction rules as [|rule rest IH]; intros q_enc kb v q d res kb' v' H;
    simpl in H; [discriminate|].
  destruct rule as [ty cat prop pred ce cc|conds concl]; [eauto|].
  destruct (dict_eqb concl q_enc); [|eauto].
  destruct (ReasoningEngine.conditions_loop rec conds kb v d []) as [[[ok kb1] v1]| |];
    simpl in H; try discriminate.
  destruct ok as [expl|]; [|eauto].
  inversion H; subst. reflexivity.
Qed.

Lemma transitive_loop_true : forall rec items kb v q d res kb' v',
  ReasoningEngine.transitive_loop rec items kb v q d = Ok (Some res, kb', v') ->
  ReasoningEngine.result res = true.
Proof.
  intros rec items. induction items as [|[m f] rest IH]; intros kb v q d res kb' v' H;
    simpl in H; [discriminate|].
  destruct ((Fact.subject f =? Fact.subject q)%string
            && (Fact.predicate f =? Fact.predicate q)%string); [|eauto].
  destruct (rec kb v _ _) as [[[sub kb1] v1]| |]; simpl in H; try discriminate.
  destruct (ReasoningEngine.result sub); [|eauto].
  inversion H; subst. reflexivity.
Qed.

Lemma after_chain_false : forall fuel rec kb v q d r kb' v',
  ReasoningEngine.after_chain fuel rec kb v q d = Ok (r, kb', v') ->
  ReasoningEngine.result r = false ->
  r = ReasoningEngine.mkResult false ("Could not deduce: " ++ Fact.str q) None.
Proof.
  intros fuel rec kb v q d r kb' v' H Hr. unfold ReasoningEngine.after_chain in H.
  destruct (KnowledgeBase.encode_fact fuel kb q) as [[q_enc kb1]| |]; simpl in H;
    try discriminate.
  destruct (find _ _) as [[m f]|].
  { inversion H; subst. discriminate. }
  destruct (ReasoningEngine.quantified_loop fuel rec _ kb1 v q d) as [[[r1 kb2] v2]| |] eqn:E1;
    simpl in H; try discriminate.
  destruct r1 as [res|].
  { inversion H; subst. apply quantified_loop_true in E1. destruct E1. congruence. }
  destruct (ReasoningEngine.standard_loop rec _ q_enc kb2 v2 q d) as [[[r2 kb3] v3]| |] eqn:E2;
    simpl in H; try discriminate.
  destruct r2 as [res|].
  { inversion H; subst. apply standard_loop_true in E2. congruence. }
  match type of H with
  | bind ?m _ = _ => destruct m as [[[r3 kb4] v4]| |] eqn:E3; simpl in H; try discriminate
  end.
  destruct r3 as [res|].
  - inversion H; subst.
    destruct ((Fact.predicate q =? "is")%string || (Fact.predicate q =? "part of")%string).
    + apply transitive_loop_true in E3. congruence.
    + discriminate.
  - inversion H; subst. reflexivity.
Qed.

(** X19. A negative answer has one shape: whenever [deduce] returns a
    result that is not entailed, its explanation is [Could not deduce:]
    followed by the query, and it carries no equation; in particular the
    circular-reasoning message is never the answer to a query. *)
Theorem negative_answer_shape : forall fuel kb q r kb',
  ReasoningEngine.deduce fuel kb q = Ok (r, kb') ->
  ReasoningEngine.result r = false ->
  r = ReasoningEngine.mkResult false ("Could not deduce: " ++ Fact.str q) None.
Proof.
  intros fuel kb q r kb' H Hr. unfold ReasoningEngine.deduce in H.
  destruct fuel as [|n]; [discriminate|].
  cbn [ReasoningEngine._deduce mem existsb] in H.
  destruct ((Fact.predicate q =? "is")%string && (Fact.subject q =? Fact.object q)%string).
  { simpl in H. inversion H; subst. discriminate. }
  destruct (Fact.predicate q =? "is")%string.
  - destruct (ReasoningEngine._universal_chain n kb (Fact.subject q) (Fact.object q) [])
      as [[[chain kb1] v1]|e|]; cbn [try_except] in H; [| |discriminate].
    + destruct chain as [[|c cs]|].
      * destruct (ReasoningEngine.after_chain _ _ _ _ _ _) as [[[r0 kb0] v0]| |] eqn:Ea;
          simpl in H; try discriminate.
        inversion H; subst. eapply after_chain_false; eassumption.
      * simpl in H. inversion H; subst. discriminate.
      * destruct (ReasoningEngine.after_chain _ _ _ _ _ _) as [[[r0 kb0] v0]| |] eqn:Ea;
          simpl in H; try discriminate.
        inversion H; subst. eapply after_chain_false; eassumption.
    + destruct (ReasoningEngine.after_chain _ _ _ _ _ _) as [[[r0 kb0] v0]| |] eqn:Ea;
        simpl in H; try discriminate.
      inversion H; subst. eapply after_chain_false; eassumption.
  - destruct (ReasoningEngine.after_chain _ _ _ _ _ _) as [[[r0 kb0] v0]| |] eqn:Ea;
      simpl in H; try discriminate.
    inversion H; subst. eapply after_chain_false; eassumption.
Qed.

(** [deduce(q)] on [kb], for the examples *)
Definition answer (kb : KB) (q : Fact.t) : ReasoningEngine.Result * KB :=
  unwrap (ReasoningEngine.mkResult false "" None, kb) (ReasoningEngine.deduce 20 kb q).

Lemma answer_penguin :
  ReasoningEngine.deduce 20 kb_demo (Fact.mk "penguin" "can" "fly")
  = Ok (fst (answer kb_demo (Fact.mk "penguin" "can" "fly")),
        snd (answer kb_demo (Fact.mk "penguin" "can" "fly"))).
Proof. vm_compute. reflexivity. Qed.

Lemma answer_penguin_false :
  ReasoningEngine.result (fst (answer kb_demo (Fact.mk "penguin" "can" "fly"))) = false.
Proof. vm_compute. reflexivity. Qed.

(** Witness for X19: the last query of [demo()] *)
Lemma negative_answer_shape_witness :
  ReasoningEngine.deduce 20 kb_demo (Fact.mk "penguin" "can" "fly")
  = Ok (fst (answer kb_demo (Fact.mk "penguin" "can" "fly")),
        snd (answer kb_demo (Fact.mk "penguin" "can" "fly")))
  /\ ReasoningEngine.result (fst (answer kb_demo (Fact.mk "penguin" "can" "fly"))) = false
  /\ fst (answer kb_demo (Fact.mk "penguin" "can" "fly"))
     = ReasoningEngine.mkResult false "Could not deduce: penguin can fly" None.
Proof.
  split; [exact answer_penguin|]. split; [exact answer_penguin_false|].
  exact (negative_answer_shape 20 kb_demo (Fact.mk "penguin" "can" "fly") _ _
           answer_penguin answer_penguin_false).
Defined.

(* ------------------------------------------------------------------------- *)
(** ** The search along universal rules *)





(** [if chain:] *)
Definition found (chain : option (list string)) : bool :=
  match chain with
  | Some (_ :: _) => true
  | _ => false
  end.

(** No concept of the registry has the empty name *)
Definition no_empty_name (kb : KB) : Prop :=
  c2p_get (KnowledgeBase.encoder kb) "" = None.

Lemma lower_empty : forall s, lower s = "" -> s = "".
Proof. intros [|c s] H; [reflexivity|discriminate]. Qed.

Lemma kb_get_prime_no_empty : forall fuel kb x p kb',
  kb_wf kb -> no_empty_name kb -> x <> "" ->
  KnowledgeBase.get_prime fuel kb x = Ok (p, kb') ->
  kb_wf kb' /\ no_empty_name kb'.
Proof.
  intros fuel kb x p kb' Hwf Hne Hx H.
  destruct (kb_get_prime_spec _ _ _ _ _ Hwf H) as (W & _).
  split; [assumption|].
  unfold KnowledgeBase.get_prime in H.
  destruct (PrimeEncoder.get_prime fuel (KnowledgeBase.encoder kb) x) as [[p0 e]| |] eqn:E;
    simpl in H; try discriminate.
  inversion H; subst p0 kb'; clear H.
  destruct (get_prime_spec _ _ _ _ _ (kw_enc _ Hwf) E) as (_ & _ & _ & [->|Hnew]).
  - exact Hne.
  - destruct Hnew as (_ & _ & _ & Hc & _). unfold no_empty_name in *. simpl.
    destruct (c2p_get e "") as [q|] eqn:Eq; [|reflexivity].
    destruct (Hc _ _ Eq) as [Hl|Hold]; [|congruence].
    exfalso. apply Hx. apply lower_empty. symmetry. assumption.
Qed.

Lemma registered_name_not_empty : forall kb p n,
  kb_wf kb -> no_empty_name kb -> p2c_get (KnowledgeBase.encoder kb) p = Some n -> n <> "".
Proof.
  intros kb p n Hwf Hne Hp ->. destruct (ew_p2c _ (kw_enc _ Hwf) _ _ Hp) as (Hc & _).
  unfold no_empty_name in Hne. congruence.
Qed.

Definition SubsetRec : Type :=
  KB -> string -> list string -> outcome (bool * KB * list string).

(** The two recursive calls agree *)
Definition agree (t : string) (crec : ChainRec) (srec : SubsetRec) : Prop :=
  forall kb s v chain kb' v',
    kb_wf kb -> no_empty_name kb -> s <> "" ->
    crec kb s v = Ok (chain, kb', v') ->
    kb_wf kb' /\ no_empty_name kb'
    /\ ((s =? t)%string = false -> srec kb s v = Ok (found chain, kb', v')).

Lemma subset_loop_agrees : forall t crec srec,
  agree t crec srec ->
  (forall kb v chain kb' v', crec kb t v = Ok (chain, kb', v') ->
                             found chain = true /\ kb' = kb /\ v' = v) ->
  forall rules kb subj sp v chain kb' v',
    kb_wf kb -> no_empty_name kb ->
    ReasoningEngine.chain_loop crec rules kb subj sp v = Ok (chain, kb', v') ->
    kb_wf kb' /\ no_empty_name kb'
    /\ ReasoningEngine.subset_loop srec rules kb t sp v = Ok (found chain, kb', v').
Proof.
  intros t crec srec Hagree Hat rules.
  induction rules as [|rule rest IH]; intros kb subj sp v chain kb' v' Hwf Hne H;
    cbn [ReasoningEngine.chain_loop ReasoningEngine.subset_loop] in *.
  - inversion H; subst. auto.
  - destruct rule as [ty cat prop pred ce cc|conds concl]; [|eauto].
    destruct (negb (ty =? "universal")%string); [eauto|].
    destruct (negb (cat =? sp)); [eauto|].
    destruct (p2c_get (KnowledgeBase.encoder kb) prop) as [pn|] eqn:Ep; [|eauto].
    pose proof (registered_name_not_empty _ _ _ Hwf Hne Ep) as Hpn.
    rewrite (proj2 (truthy_iff pn) Hpn) in H. cbn [negb] in H.
    destruct (crec kb pn v) as [[[c1 kb1] v1]| |] eqn:Ec; simpl in H; try discriminate.
    destruct (Hagree _ _ _ _ _ _ Hwf Hne Hpn Ec) as (W1 & N1 & Hs).
    destruct (String.eqb_spec pn t) as [->|Hpt].
    + destruct (Hat _ _ _ _ _ Ec) as (Hf & -> & ->).
      destruct c1 as [[|c cs]|]; try discriminate.
      inversion H; subst. auto.
    + rewrite (Hs eq_refl). cbn [bind].
      destruct c1 as [[|c cs]|]; cbn [found].
      * eauto.
      * inversion H; subst. auto.
      * eauto.
Qed.

(** X21. The unused helper [_is_universal_subset] computes the same as the
    chain search: in a registry without an empty concept name, whenever
    [_universal_chain] returns, [_is_universal_subset] called with the same
    arguments returns [True] exactly if a chain was found, and leaves the
    same registry and visited set. *)
Theorem universal_subset_agrees_with_chain : forall fuel kb s t v chain kb' v',
  kb_wf kb -> no_empty_name kb -> s <> "" ->
  ReasoningEngine._universal_chain fuel kb s t v = Ok (chain, kb', v') ->
  ReasoningEngine._is_universal_subset fuel kb s t v = Ok (found chain, kb', v').
Proof.
  intros fuel kb s t v chain kb' v' Hwf Hne Hs H.
  assert (Hall : forall fuel kb s v chain kb' v',
             kb_wf kb -> no_empty_name kb -> s <> "" ->
             ReasoningEngine._universal_chain fuel kb s t v = Ok (chain, kb', v') ->
             kb_wf kb' /\ no_empty_name kb'
             /\ ReasoningEngine._is_universal_subset fuel kb s t v = Ok (found chain, kb', v')).
  { clear. induction fuel as [|f IH]; intros kb s v chain kb' v' Hwf Hne Hs H;
      cbn [ReasoningEngine._universal_chain ReasoningEngine._is_universal_subset] in *;
      [discriminate|].
    destruct (s =? t)%string; [inversion H; subst; auto|].
    destruct (mem s v); [inversion H; subst; auto|].
    destruct (KnowledgeBase.get_prime f kb s) as [[sp kb1]| |] eqn:E; simpl in H;
      try discriminate.
    destruct (kb_get_prime_no_empty _ _ _ _ _ Hwf Hne Hs E) as (W1 & N1).
    cbn [bind].
    apply (subset_loop_agrees t
             (fun kb0 s0 v0 => ReasoningEngine._universal_chain f kb0 s0 t v0)
             (fun kb0 s0 v0 => ReasoningEngine._is_universal_subset f kb0 s0 t v0))
      with (subj := s); try assumption.
    - intros kb0 s0 v0 c0 kb0' v0' W0 N0 Hs0 H0.
      destruct (IH _ _ _ _ _ _ W0 N0 Hs0 H0) as (A & B & C). auto.
    - intros kb0 v0 c0 kb0' v0' H0. destruct f as [|f']; [discriminate|].
      cbn [ReasoningEngine._universal_chain] in H0. rewrite String.eqb_refl in H0.
      inversion H0; subst. auto. }
  apply (Hall fuel kb s v chain kb' v' Hwf Hne Hs H).
Qed.

Lemma hilbert_chain :
  ReasoningEngine._universal_chain 5 kb_hilbert "Hilbert_spaces" "normed_spaces" []
  = Ok (Some ["Hilbert_spaces"; "inner_product_spaces"; "normed_spaces"], kb_hilbert,
        ["inner_product_spaces"; "Hilbert_spaces"]).
Proof. vm_compute. reflexivity. Qed.

Lemma hilbert_no_empty_name : no_empty_name kb_hilbert.
Proof. vm_compute. reflexivity. Qed.

(** Witness for X21: the Hilbert-space store *)
Lemma universal_subset_agrees_with_chain_witness :
  kb_wf kb_hilbert /\ no_empty_name kb_hilbert /\ "Hilbert_spaces" <> ""
  /\ ReasoningEngine._universal_chain 5 kb_hilbert "Hilbert_spaces" "normed_spaces" []
     = Ok (Some ["Hilbert_spaces"; "inner_product_spaces"; "normed_spaces"], kb_hilbert,
           ["inner_product_spaces"; "Hilbert_spaces"])
  /\ ReasoningEngine._is_universal_subset 5 kb_hilbert "Hilbert_spaces" "normed_spaces" []
     = Ok (true, kb_hilbert, ["inner_product_spaces"; "Hilbert_spaces"]).
Proof.
  assert (Hs : "Hilbert_spaces" <> "") by discriminate.
  split; [exact kb_hilbert_wf|]. split; [exact hilbert_no_empty_name|].
  split; [exact Hs|]. split; [exact hilbert_chain|].
  exact (universal_subset_agrees_with_chain 5 kb_hilbert "Hilbert_spaces" "normed_spaces" []
           _ _ _ kb_hilbert_wf hilbert_no_empty_name Hs hilbert_chain).
Defined.

(* ------------------------------------------------------------------------- *)
(** ** Applying a universal or capability rule *)

(** [q] has the encoding of a stored fact *)
Definition known (kb : KB) (q : Fact.t) : Prop :=
  exists m, In m (KnowledgeBase.fact_encodings kb) /\ encodes (KnowledgeBase.encoder kb) m q.

Lemma known_ext : forall kb kb' q, ext kb kb' -> known kb q -> known kb' q.
Proof.
  intros kb kb' q [(S1 & S2 & S3) R] (m & Hin & Henc). exists m. rewrite S2.
  split; [assumption|]. eapply encodes_le; eassumption.
Qed.

Lemma stored_known : forall kb f, aligned kb -> In f (KnowledgeBase.facts kb) -> known kb f.
Proof.
  intros kb f Hal Hin. unfold aligned in Hal. unfold known.
  induction Hal as [|m g ms gs Hmg Hrest IH]; [contradiction|].
  destruct Hin as [->|Hin].
  - exists m. split; [left; reflexivity|assumption].
  - destruct (IH Hin) as (m' & A & B). exists m'. split; [right; assumption|assumption].
Qed.

Lemma known_lower : forall kb x p c,
  known kb (Fact.mk x p c) -> known kb (Fact.mk x p (lower c)).
Proof.
  intros kb x p c (m & Hin & ps & pp & po & A & B & C & D). exists m. split; [assumption|].
  exists ps, pp, po. cbn [Fact.subject Fact.predicate Fact.object] in *.
  rewrite lower_idem. auto.
Qed.

Lemma after_chain_known : forall fuel rec kb v q d r kb' v',
  kb_ok kb -> aligned kb -> known kb q ->
  ReasoningEngine.after_chain fuel rec kb v q d = Ok (r, kb', v') ->
  ReasoningEngine.result r = true.
Proof.
  intros fuel rec kb v q d r kb' v' Hok Hal Hkn H. unfold ReasoningEngine.after_chain in H.
  destruct (KnowledgeBase.encode_fact fuel kb q) as [[q_enc kb1]| |] eqn:E; simpl in H;
    try discriminate.
  destruct (kb_encode_fact_ok _ _ _ _ _ Hok E) as (K1 & X1 & ps & pp & po & Cs & Cp & Co & ->).
  pose proof (aligned_ext _ _ X1 Hal) as Hal1.
  destruct (known_ext _ _ _ X1 Hkn) as (m & Hm & (ps' & pp' & po' & Cs' & Cp' & Co' & ->)).
  destruct (find _ (combine (KnowledgeBase.fact_encodings kb1) (KnowledgeBase.facts kb1)))
    as [[m f]|] eqn:Ef.
  - inversion H; subst. reflexivity.
  - exfalso. unfold aligned in Hal1.
    assert (Hex : exists f, In (fact_encoding ps' pp' po', f)
                               (combine (KnowledgeBase.fact_encodings kb1)
                                        (KnowledgeBase.facts kb1))).
    { clear Ef. induction Hal1 as [|m f ms fs Hmf Hrest IH]; [contradiction|].
      destruct Hm as [->|Hm].
      - exists f. left. reflexivity.
      - destruct (IH Hm) as (f' & A). exists f'. right. assumption. }
    destruct Hex as (f & Hf).
    pose proof (find_none _ _ Ef _ Hf) as Hno. cbn [fst] in Hno.
    rewrite Cs in Cs'. rewrite Cp in Cp'. rewrite Co in Co'.
    inversion Cs'; inversion Cp'; inversion Co'; subst.
    rewrite dict_eqb_fact_encoding in Hno. discriminate.
Qed.

(** A query with a stored encoding that was not visited before is entailed *)
Lemma deduce_known : forall fuel kb v q d r kb' v',
  kb_ok kb -> aligned kb -> known kb q -> mem (Fact.str q) v = false ->
  ReasoningEngine._deduce fuel kb v q d = Ok (r, kb', v') ->
  ReasoningEngine.result r = true.
Proof.
  intros fuel kb v q d r kb' v' Hok Hal Hkn Hv E.
  destruct fuel as [|n]; [discriminate|].
  cbn [ReasoningEngine._deduce] in E. rewrite Hv in E.
  destruct ((Fact.predicate q =? "is")%string && (Fact.subject q =? Fact.object q)%string).
  { inversion E; subst. reflexivity. }
  destruct (Fact.predicate q =? "is")%string.
  - destruct (ReasoningEngine._universal_chain n kb (Fact.subject q) (Fact.object q) [])
      as [[[chain kb1] v1]|e|] eqn:Ech; cbn [try_except] in E.
    + destruct (universal_chain_ext _ _ _ _ _ _ _ _ (ko_wf _ Hok) Ech) as (W1 & X1).
      assert (Hafter : forall r0 kb0 v0,
                 ReasoningEngine.after_chain n (ReasoningEngine._deduce n) kb1
                   (Fact.str q :: v) q d = Ok (r0, kb0, v0) ->
                 ReasoningEngine.result r0 = true).
      { intros r0 kb0 v0 Ha.
        eapply (after_chain_known n _ kb1); [| | |exact Ha].
        - eapply kb_ok_ext; eassumption.
        - eapply aligned_ext; eassumption.
        - eapply known_ext; eassumption. }
      destruct chain as [[|c cs]|].
      * eapply Hafter. eassumption.
      * inversion E; subst. reflexivity.
      * eapply Hafter. eassumption.
    + exfalso. eapply universal_chain_never_raises. eassumption.
    + discriminate.
  - eapply after_chain_known; eassumption.
Qed.

Lemma append_inj_l : forall x a b : string, x ++ a = x ++ b -> a = b.
Proof.
  induction x as [|c x IH]; intros a b H; simpl in H; [assumption|].
  inversion H. auto.
Qed.

(** The loop over the universal and capability rules of [_deduce], when the
    first rule that matches the query has a category the subject is known
    to be in *)
Lemma quantified_loop_applies : forall fuel n pre kb v q d ty pc pp pv ce cc post lc res kb' v',
  kb_ok kb -> aligned kb ->
  ((ty =? "universal")%string || (ty =? "capability")%string) = true ->
  Fact.predicate q = (if (ty =? "universal")%string then "is" else "can") ->
  c2p_get (KnowledgeBase.encoder kb) (lower (Fact.object q)) = Some pp ->
  p2c_get (KnowledgeBase.encoder kb) pc = Some lc ->
  known kb (Fact.mk (Fact.subject q) "is" lc) ->
  mem (Fact.str (Fact.mk (Fact.subject q) "is" lc)) v = false ->
  (forall ty' pc' pp' pv' ce' cc',
      In (Quantified ty' pc' pp' pv' ce' cc') pre ->
      ((ty' =? "universal")%string || (ty' =? "capability")%string) = true ->
      Fact.predicate q = (if (ty' =? "universal")%string then "is" else "can") ->
      pp' <> pp) ->
  ReasoningEngine.quantified_loop fuel (ReasoningEngine._deduce n)
    (pre ++ Quantified ty pc pp pv ce cc :: post)%list kb v q d = Ok (res, kb', v') ->
  exists r, res = Some r /\ ReasoningEngine.result r = true.
Proof.
  intros fuel n pre kb v q d ty pc pp pv ce cc post lc res kb' v'
         Hok Hal Hty Hpred Hpp Hpc Hkn Hv.
  assert (Hget : KnowledgeBase.get_prime fuel kb (Fact.object q) = Ok (pp, kb)).
  { unfold KnowledgeBase.get_prime. rewrite (get_prime_known fuel _ _ _ Hpp). cbn [bind].
    destruct kb; reflexivity. }
  induction pre as [|rule pre IH]; intros Hpre H; cbn [app ReasoningEngine.quantified_loop] in H.
  - rewrite Hty, Hpred, String.eqb_refl in H. cbn [andb] in H.
    rewrite Hget in H. cbn [bind] in H. rewrite Z.eqb_refl, Hpc in H.
    destruct (ReasoningEngine._deduce n kb v _ (d + 1)) as [[[sub kb2] v2]| |] eqn:Esub;
      simpl in H; try discriminate.
    rewrite (deduce_known _ _ _ _ _ _ _ _ Hok Hal Hkn Hv Esub) in H.
    destruct (p2c_get (KnowledgeBase.encoder kb2) pc); [|discriminate].
    inversion H; subst. eexists. split; reflexivity.
  - assert (Hrest : forall ty' pc' pp' pv' ce' cc',
               In (Quantified ty' pc' pp' pv' ce' cc') pre ->
               ((ty' =? "universal")%string || (ty' =? "capability")%string) = true ->
               Fact.predicate q = (if (ty' =? "universal")%string then "is" else "can") ->
               pp' <> pp).
    { intros. eapply Hpre; eauto. right. eassumption. }
    destruct rule as [ty' pc' pp' pv' ce' cc'|conds concl]; [|auto].
    destruct ((ty' =? "universal")%string || (ty' =? "capability")%string) eqn:Hty';
      cbn [andb] in H; [|auto].
    destruct (String.eqb_spec (Fact.predicate q)
                (if (ty' =? "universal")%string then "is" else "can")) as [Hp'|Hp']; [|auto].
    rewrite Hget in H. cbn [bind] in H.
    assert (Hne : pp' <> pp) by (eapply Hpre; [left; reflexivity|assumption|assumption]).
    rewrite (proj2 (Z.eqb_neq pp pp')) in H by congruence. auto.
Qed.

(** What [add_rule] stores for a rule *)
Definition rule_entry (e : PrimeEncoder.t) (er : EncodedRule) (r : Rule.t) : Prop :=
  if quantified r
  then exists c t pc pt pv ce cc,
         Rule.category r = Some c /\ target_of r = Some t
         /\ c2p_get e (lower c) = Some pc /\ c2p_get e (lower t) = Some pt
         /\ er = Quantified (Rule.type r) pc pt pv ce cc
  else exists conds concl, er = Standard conds concl.

Lemma rule_entry_le : forall e e' er r, reg_le e e' -> rule_entry e er r -> rule_entry e' er r.
Proof.
  intros e e' er r R H. unfold rule_entry in *. destruct (quantified r); [|assumption].
  destruct H as (c & t & pc & pt & pv & ce & cc & A & B & C & D & E).
  exists c, t, pc, pt, pv, ce, cc.
  repeat (match goal with |- _ /\ _ => split end); try assumption;
    apply (rl_c2p _ _ R); assumption.
Qed.

Lemma Forall2_rule_entry_le : forall e e' ers rs,
  reg_le e e' -> Forall2 (rule_entry e) ers rs -> Forall2 (rule_entry e') ers rs.
Proof.
  intros e e' ers rs R H. induction H; constructor; eauto using rule_entry_le.
Qed.

Lemma add_rule_entry : forall fuel kb r er kb',
  kb_wf kb -> KnowledgeBase.add_rule fuel kb r = Ok (er, kb') ->
  rule_entry (KnowledgeBase.encoder kb') er r.
Proof.
  intros fuel kb r er kb' Hwf H. unfold KnowledgeBase.add_rule in H.
  unfold rule_entry, quantified, target_of.
  destruct ((Rule.type r =? "universal")%string || (Rule.type r =? "capability")%string).
  - destruct (Rule.conditions r) as [|cond0 rest]; [discriminate|].
    destruct (KnowledgeBase.encode_fact fuel kb cond0) as [[m1 kb1]| |] eqn:E1;
      simpl in H; try discriminate.
    destruct (KnowledgeBase.encode_fact fuel kb1 (Rule.conclusion r)) as [[m2 kb2]| |] eqn:E2;
      simpl in H; try discriminate.
    destruct (kb_encode_fact_frame _ _ _ _ _ Hwf E1) as (W1 & X1).
    destruct (kb_encode_fact_frame _ _ _ _ _ W1 E2) as (W2 & X2).
    destruct (Rule.category r) as [c|]; [|discriminate].
    cbn [KnowledgeBase.get_prime_opt] in H.
    destruct (KnowledgeBase.get_prime fuel kb2 c) as [[pc kb3]| |] eqn:E3;
      simpl in H; try discriminate.
    destruct (kb_get_prime_spec _ _ _ _ _ W2 E3) as (W3 & X3 & Cc).
    assert (Hstep : exists t pt pv kb4 kb5,
               (if (Rule.type r =? "universal")%string then Rule.property r
                else Rule.capability r) = Some t
               /\ KnowledgeBase.get_prime fuel kb3 t = Ok (pt, kb4)
               /\ KnowledgeBase.get_prime fuel kb4
                    (if (Rule.type r =? "universal")%string then "is" else "can") = Ok (pv, kb5)
               /\ er = Quantified (Rule.type r) pc pt pv m1 m2
               /\ kb' = KnowledgeBase.append_rule kb5 er).
    { destruct (Rule.type r =? "universal")%string.
      - destruct (Rule.property r) as [t|]; [|discriminate].
        cbn [KnowledgeBase.get_prime_opt] in H.
        destruct (KnowledgeBase.get_prime fuel kb3 t) as [[pt kb4]| |] eqn:E4;
          simpl in H; try discriminate.
        destruct (KnowledgeBase.get_prime fuel kb4 "is") as [[pv kb5]| |] eqn:E5;
          simpl in H; try discriminate.
        inversion H; subst. exists t, pt, pv, kb4, kb5. auto.
      - destruct (Rule.capability r) as [t|]; [|discriminate].
        cbn [KnowledgeBase.get_prime_opt] in H.
        destruct (KnowledgeBase.get_prime fuel kb3 t) as [[pt kb4]| |] eqn:E4;
          simpl in H; try discriminate.
        destruct (KnowledgeBase.get_prime fuel kb4 "can") as [[pv kb5]| |] eqn:E5;
          simpl in H; try discriminate.
        inversion H; subst. exists t, pt, pv, kb4, kb5. auto. }
    destruct Hstep as (t & pt & pv & kb4 & kb5 & Ht & E4 & E5 & -> & ->).
    destruct (kb_get_prime_spec _ _ _ _ _ W3 E4) as (W4 & X4 & Ct).
    destruct (kb_get_prime_spec _ _ _ _ _ W4 E5) as (W5 & X5 & _).
    exists c, t, pc, pt, pv, m1, m2. cbn.
    split; [reflexivity|]. split; [assumption|].
    split; [apply (rl_c2p _ _ (ext_reg _ _ (ext_trans _ _ _ X4 X5))); assumption|].
    split; [apply (rl_c2p _ _ (ext_reg _ _ X5)); assumption|reflexivity].
  - destruct (KnowledgeBase.encode_facts fuel kb (Rule.conditions r)) as [[encs kb1]| |];
      simpl in H; try discriminate.
    destruct (KnowledgeBase.encode_fact fuel kb1 (Rule.conclusion r)) as [[m2 kb2]| |];
      simpl in H; try discriminate.
    inversion H; subst. eauto.
Qed.

(** The rules of a script, in order *)
Fixpoint rules_of (script : list Statement) : list Rule.t :=
  match script with
  | [] => []
  | AddFact _ :: rest => rules_of rest
  | AddRule r :: rest => r :: rules_of rest
  end.

Lemma rules_of_app : forall s1 s2, rules_of (s1 ++ s2) = (rules_of s1 ++ rules_of s2)%list.
Proof.
  induction s1 as [|[f|r] s1 IH]; intros s2; simpl; [reflexivity|apply IH|].
  rewrite IH. reflexivity.
Qed.

Lemma rules_of_In : forall script r, In r (rules_of script) -> In (AddRule r) script.
Proof.
  induction script as [|[f|r0] script IH]; intros r H; simpl in *; [contradiction| |].
  - right. auto.
  - destruct H as [->|H]; [left; reflexivity|right; auto].
Qed.

Lemma build_rules : forall fuel script kb kb' rs,
  kb_wf kb -> Forall2 (rule_entry (KnowledgeBase.encoder kb)) (KnowledgeBase.rules kb) rs ->
  build fuel kb script = Ok kb' ->
  Forall2 (rule_entry (KnowledgeBase.encoder kb')) (KnowledgeBase.rules kb')
          (rs ++ rules_of script)%list.
Proof.
  intros fuel script. induction script as [|[f|r] rest IH]; intros kb kb' rs Hwf Hrs H;
    simpl in H.
  - inversion H; subst. simpl. rewrite app_nil_r. assumption.
  - destruct (KnowledgeBase.add_fact fuel kb f) as [[m kb1]| |] eqn:E; simpl in H;
      try discriminate.
    pose proof (add_fact_wf _ _ _ _ _ Hwf E) as W1.
    simpl. eapply IH; [exact W1| |exact H].
    unfold KnowledgeBase.add_fact in E.
    destruct (KnowledgeBase.encode_fact fuel kb f) as [[m1 kb0]| |] eqn:E0; simpl in E;
      try discriminate.
    inversion E; subst m kb1; clear E. cbn.
    destruct (kb_encode_fact_frame _ _ _ _ _ Hwf E0) as (_ & [(S1 & S2 & S3) R]).
    rewrite S3. eapply Forall2_rule_entry_le; eassumption.
  - destruct (KnowledgeBase.add_rule fuel kb r) as [[er kb1]| |] eqn:E; simpl in H;
      try discriminate.
    pose proof (add_rule_wf _ _ _ _ _ Hwf E) as W1.
    pose proof (add_rule_entry _ _ _ _ _ Hwf E) as Hentry.
    destruct (add_rule_frame _ _ _ _ _ Hwf E) as (kb0 & [(S1 & S2 & S3) R] & Hkb1).
    simpl. replace (rs ++ r :: rules_of rest)%list with ((rs ++ [r]) ++ rules_of rest)%list
      by (rewrite <- app_assoc; reflexivity).
    eapply IH; [exact W1| |exact H].
    subst kb1. cbn in *. rewrite S3. apply Forall2_app.
    + eapply Forall2_rule_entry_le; eassumption.
    + constructor; [assumption|constructor].
Qed.

Lemma store_of_rules : forall fuel script kb,
  store_of fuel script = Ok kb ->
  Forall2 (rule_entry (KnowledgeBase.encoder kb)) (KnowledgeBase.rules kb) (rules_of script).
Proof.
  intros fuel script kb H. unfold store_of in H.
  destruct (PrimeEncoder.__init__ fuel) as [e| |] eqn:E; simpl in H; try discriminate.
  apply (build_rules fuel script (KnowledgeBase.__init__ e) kb []
           (kb_init_wf e (init_spec _ _ E)) (Forall2_nil _) H).
Qed.

(** A rule of the script that would be tried on a query for [t] before [r]:
    a universal or capability rule for the same predicate whose property
    (capability) is the concept of [t], that is, [get_prime] finds one prime
    for both names in the store *)
Definition competes (kb : KB) (r' r : Rule.t) (t : string) : Prop :=
  quantified r' = true /\ verb_of r' = verb_of r
  /\ exists t' p, target_of r' = Some t' /\ looks_up kb t' p /\ looks_up kb t p.

Lemma Forall2_In_l : forall (A B : Type) (R : A -> B -> Prop) l1 l2 a,
  Forall2 R l1 l2 -> In a l1 -> exists b, In b l2 /\ R a b.
Proof.
  intros A B R l1 l2 a H. induction H as [|x y l1 l2 Hxy Hrest IH]; intros Hin;
    [contradiction|].
  destruct Hin as [->|Hin]; [exists y; simpl; auto|].
  destruct (IH Hin) as (b & Hb & Hr). exists b. simpl. auto.
Qed.

(** Past the shortcut, the first rule that matches the query applies *)
Lemma after_chain_applies : forall n kb q d ty pre pc pp pv ce cc post lc r kb' v',
  kb_ok kb -> aligned kb ->
  KnowledgeBase.rules kb = (pre ++ Quantified ty pc pp pv ce cc :: post)%list ->
  ((ty =? "universal")%string || (ty =? "capability")%string) = true ->
  Fact.predicate q = (if (ty =? "universal")%string then "is" else "can") ->
  c2p_get (KnowledgeBase.encoder kb) (lower (Fact.object q)) = Some pp ->
  p2c_get (KnowledgeBase.encoder kb) pc = Some lc ->
  known kb (Fact.mk (Fact.subject q) "is" lc) ->
  (forall ty' pc' pp' pv' ce' cc',
      In (Quantified ty' pc' pp' pv' ce' cc') pre ->
      ((ty' =? "universal")%string || (ty' =? "capability")%string) = true ->
      Fact.predicate q = (if (ty' =? "universal")%string then "is" else "can") ->
      pp' <> pp) ->
  ReasoningEngine.after_chain n (ReasoningEngine._deduce n) kb [Fact.str q] q d
  = Ok (r, kb', v') ->
  ReasoningEngine.result r = true.
Proof.
  intros n kb q d ty pre pc pp pv ce cc post lc r kb' v'
         Hok Hal Hrules Hty Hpred Hpp Hpc Hkn Hpre H.
  destruct (String.eqb_spec (Fact.str (Fact.mk (Fact.subject q) "is" lc)) (Fact.str q))
    as [Hsame|Hdiff].
  - (* the membership fact is the query itself *)
    assert (Hq : q = Fact.mk (Fact.subject q) "is" lc).
    { destruct q as [x p o]. unfold Fact.str in Hsame.
      cbn [Fact.subject Fact.predicate Fact.object] in *.
      apply append_inj_l in Hsame. subst p.
      destruct (ty =? "universal")%string; simpl in Hsame; inversion Hsame.
      reflexivity. }
    rewrite <- Hq in Hkn. eapply after_chain_known; eassumption.
  - unfold ReasoningEngine.after_chain in H.
    destruct (KnowledgeBase.encode_fact n kb q) as [[q_enc kb1]| |] eqn:E; simpl in H;
      try discriminate.
    destruct (kb_encode_fact_ok _ _ _ _ _ Hok E) as (K1 & X1 & _).
    destruct (find _ _) as [[m f]|].
    { inversion H; subst. reflexivity. }
    destruct (ReasoningEngine.quantified_loop n _ _ kb1 _ q d) as [[[r1 kb2] v2]| |] eqn:E1;
      simpl in H; try discriminate.
    assert (Hr1 : exists r0, r1 = Some r0 /\ ReasoningEngine.result r0 = true).
    { assert (Hrules1 : KnowledgeBase.rules kb1 = KnowledgeBase.rules kb) by apply X1.
      rewrite Hrules1, Hrules in E1.
      eapply (quantified_loop_applies n n pre kb1); [| | | | | | | | |exact E1];
        try eassumption.
      - eapply aligned_ext; eassumption.
      - apply (rl_c2p _ _ (ext_reg _ _ X1)). assumption.
      - apply (rl_p2c _ _ (ext_reg _ _ X1)). eassumption.
      - eapply known_ext; eassumption.
      - cbn [mem existsb]. rewrite (proj2 (String.eqb_neq _ _) Hdiff). reflexivity. }
    destruct Hr1 as (r0 & -> & Hr0). inversion H; subst. assumption.
Qed.

(** X22. A universal or capability rule applies to the members of its
    category: in a store built from a script that adds the fact [x is c] and
    the rule made by [create_universal_rule(c, t)] (or
    [create_capability_rule(c, t)]), with no earlier universal or capability
    rule of the script for the same predicate whose property (capability)
    has the prime of [t] in the store, [deduce] answers [x is t]
    (respectively [x can t]) with entailed. *)
Theorem quantified_rule_applies : forall fuel s1 s2 kb x c t r,
  store_of fuel (s1 ++ AddRule r :: s2) = Ok kb ->
  r = Rule.create_universal_rule c t \/ r = Rule.create_capability_rule c t ->
  In (AddFact (Fact.mk x "is" c)) (s1 ++ AddRule r :: s2) ->
  (forall r', In (AddRule r') s1 -> ~ competes kb r' r t) ->
  exists res kb',
    deduce_returns kb (Fact.mk x (verb_of r) t) res kb'
    /\ ReasoningEngine.result res = true.
Proof.
  intros fuel s1 s2 kb x c t r Hstore Hr Hfact Hfirst.
  destruct (store_of_aligned _ _ _ Hstore) as (Hok & Hal & Hfacts).
  pose proof (store_of_rules _ _ _ Hstore) as Hrs.
  rewrite rules_of_app in Hrs. cbn [rules_of] in Hrs.
  apply Forall2_app_inv_r in Hrs.
  destruct Hrs as (pre & rest & Hpre & Hrest & Hrules).
  inversion Hrest as [|er r0 post rs0 Her Hpost]; subst; clear Hrest.
  assert (Hq : quantified r = true /\ Rule.category r = Some c /\ target_of r = Some t
               /\ Rule.type r = (if (verb_of r =? "is")%string then "universal" else "capability")
               /\ (verb_of r = "is" \/ verb_of r = "can")).
  { destruct Hr as [-> | ->]; cbn; auto 10. }
  destruct Hq as (Hquant & Hcat & Htgt & Htype & Hverb).
  unfold rule_entry in Her. rewrite Hquant in Her.
  destruct Her as (c0 & t0 & pc & pt & pv & ce & cc & Hc0 & Ht0 & Cc & Ct & ->).
  rewrite Hcat in Hc0. rewrite Htgt in Ht0. injection Hc0 as <-. injection Ht0 as <-.
  set (q := Fact.mk x (verb_of r) t).
  assert (Hty : ((Rule.type r =? "universal")%string || (Rule.type r =? "capability")%string)
                = true) by exact Hquant.
  assert (Hpred : Fact.predicate q
                  = (if (Rule.type r =? "universal")%string then "is" else "can"))
    by reflexivity.
  pose proof (ew_c2p _ (kw_enc _ (ko_wf _ Hok)) _ _ Cc) as Hpc.
  assert (Hkn : known kb (Fact.mk (Fact.subject q) "is" (lower c))).
  { apply known_lower. apply stored_known; [assumption|]. apply Hfacts. assumption. }
  assert (Hprev : forall ty' pc' pp' pv' ce' cc',
             In (Quantified ty' pc' pp' pv' ce' cc') pre ->
             ((ty' =? "universal")%string || (ty' =? "capability")%string) = true ->
             Fact.predicate q = (if (ty' =? "universal")%string then "is" else "can") ->
             pp' <> pt).
  { intros ty' pc' pp' pv' ce' cc' Hin Hty' Hp' Heq. subst pp'.
    destruct (Forall2_In_l _ _ _ _ _ _ Hpre Hin) as (r' & Hr' & Hentry).
    apply (Hfirst r' (rules_of_In _ _ Hr')).
    unfold rule_entry in Hentry. destruct (quantified r') eqn:Hq'.
    - destruct Hentry as (c' & t' & pc1 & pt1 & pv1 & ce1 & cc1 & _ & Ht' & _ & Ct' & Heq).
      inversion Heq; subst. split; [exact Hq'|]. split.
      + unfold verb_of at 1. rewrite <- Hp'. reflexivity.
      + eexists t', _. split; [assumption|].
        split; apply registered_looks_up; eassumption.
    - destruct Hentry as (conds & concl & Heq). discriminate. }
  destruct (deduce_result kb q (ko_wf _ Hok)) as (res & kb' & Hret & _).
  exists res, kb'. split; [assumption|].
  destruct Hret as (F & HF). pose proof (proj1 (HF F) (le_n F)) as E.
  destruct F as [|n]; [discriminate|].
  unfold ReasoningEngine.deduce in E. cbn [ReasoningEngine._deduce mem existsb] in E.
  destruct ((Fact.predicate q =? "is")%string && (Fact.subject q =? Fact.object q)%string).
  { simpl in E. inversion E; subst. reflexivity. }
  destruct (Fact.predicate q =? "is")%string.
  - destruct (ReasoningEngine._universal_chain n kb (Fact.subject q) (Fact.object q) [])
      as [[[chain kb1] v1]|e|] eqn:Ech; cbn [try_except] in E.
    + destruct (universal_chain_ext _ _ _ _ _ _ _ _ (ko_wf _ Hok) Ech) as (W1 & X1).
      assert (Hafter : forall r0 kb0 v0,
                 ReasoningEngine.after_chain n (ReasoningEngine._deduce n) kb1
                   [Fact.str q] q 0 = Ok (r0, kb0, v0) ->
                 ReasoningEngine.result r0 = true).
      { intros r0 kb0 v0 Ha.
        eapply (after_chain_applies n kb1 q 0 (Rule.type r) pre pc pt pv ce cc post (lower c));
          [| | | | | | | | |exact Ha]; try eassumption.
        - eapply kb_ok_ext; eassumption.
        - eapply aligned_ext; eassumption.
        - destruct X1 as [(_ & _ & S3) _]. rewrite S3. assumption.
        - apply (rl_c2p _ _ (ext_reg _ _ X1)). assumption.
        - apply (rl_p2c _ _ (ext_reg _ _ X1)). assumption.
        - eapply known_ext; eassumption. }
      destruct chain as [[|c1 cs]|].
      * destruct (ReasoningEngine.after_chain _ _ _ _ _ _) as [[[r0 kb0] v0]| |] eqn:Ea;
          simpl in E; try discriminate.
        inversion E; subst. eapply Hafter. reflexivity.
      * simpl in E. inversion E; subst. reflexivity.
      * destruct (ReasoningEngine.after_chain _ _ _ _ _ _) as [[[r0 kb0] v0]| |] eqn:Ea;
          simpl in E; try discriminate.
        inversion E; subst. eapply Hafter. reflexivity.
    + exfalso. eapply universal_chain_never_raises. eassumption.
    + discriminate.
  - destruct (ReasoningEngine.after_chain _ _ _ _ _ _) as [[[r0 kb0] v0]| |] eqn:Ea;
      simpl in E; try discriminate.
    inversion E; subst.
    eapply (after_chain_applies n kb q 0 (Rule.type r) pre pc pt pv ce cc post (lower c));
      [| | | | | | | | |exact Ea]; eassumption.
Qed.

(** Witness for X22: "socrates is mortal" in the store of [demo()] *)
Lemma quantified_rule_applies_witness :
  let s1 := [ AddFact (Fact.mk "socrates" "is" "human");
              AddFact (Fact.mk "plato" "is" "human");
              AddFact (Fact.mk "human" "is" "mammal") ] in
  let r := Rule.create_universal_rule "human" "mortal" in
  let s2 := [ AddRule (Rule.create_universal_rule "mammal" "animal");
              AddRule (Rule.create_capability_rule "bird" "fly");
              AddFact (Fact.mk "socrates" "is" "philosopher");
              AddRule (Rule.mk [Fact.mk "_x_" "is" "human"; Fact.mk "_x_" "is" "philosopher"]
                               (Fact.mk "_x_" "is" "wise") "standard" None None None) ] in
  store_of 1 (s1 ++ AddRule r :: s2) = Ok kb_demo
  /\ In (AddFact (Fact.mk "socrates" "is" "human")) (s1 ++ AddRule r :: s2)
  /\ (forall r', In (AddRule r') s1 -> ~ competes kb_demo r' r "mortal")
  /\ exists res kb',
       deduce_returns kb_demo (Fact.mk "socrates" "is" "mortal") res kb'
       /\ ReasoningEngine.result res = true.
Proof.
  intros s1 r s2.
  assert (Hin : In (AddFact (Fact.mk "socrates" "is" "human")) (s1 ++ AddRule r :: s2))
    by (left; reflexivity).
  assert (Hfirst : forall r', In (AddRule r') s1 -> ~ competes kb_demo r' r "mortal").
  { intros r' [H|[H|[H|[]]]]; discriminate. }
  split; [exact store_of_demo|]. split; [exact Hin|]. split; [exact Hfirst|].
  exact (quantified_rule_applies 1 s1 s2 kb_demo "socrates" "human" "mortal" r
           store_of_demo (or_introl eq_refl) Hin Hfirst).
Defined.

(* ------------------------------------------------------------------------- *)
(** ** When the keys of an integer's encoding are prime *)

(** [r] has no prime divisor below [b] *)
Definition rough (r b : Z) : Prop := forall d, Z.prime d -> (d | r) -> b <= d.

Lemma rough_prime : forall r b, 0 <= b -> 1 < r -> r < b * b -> rough r b -> Z.prime r.
Proof.
  intros r b Hb0 Hr Hlt Hrough.
  destruct (prime_dec r) as [Hp|Hnp]; [apply prime_alt; assumption|exfalso].
  assert (Hnp' : ~ Z.prime r) by (intros H; apply Hnp; apply prime_alt; assumption).
  destruct (composite_factor r ltac:(lia) Hnp') as (p & k & Hp & Hrk & Hpk).
  assert (Hb : b <= p) by (apply Hrough; [assumption|exists k; lia]).
  pose proof (Z.prime_ge_2 p Hp).
  assert (p * p <= p * k) by nia. assert (b * b <= p * p) by nia. lia.
Qed.

Lemma strip_divides : forall fuel p enc r enc' r',
  PrimeEncoder.strip fuel p enc r = Ok (enc', r') -> (r' | r).
Proof.
  induction fuel as [|f IH]; intros p enc r enc' r' H; simpl in H; [discriminate|].
  destruct (Z.eqb_spec p 0) as [|Hp]; [discriminate|].
  destruct (Z.eqb_spec (r mod p) 0) as [Hmod|Hmod].
  - apply IH in H. eapply Z.divide_trans; [exact H|].
    exists p. rewrite (Z_div_exact_full_2 r p Hp Hmod) at 1. ring.
  - inversion H; subst. apply Z.divide_refl.
Qed.

Lemma strip_le : forall fuel p enc r enc' r',
  2 <= p -> 1 <= r -> PrimeEncoder.strip fuel p enc r = Ok (enc', r') -> 1 <= r' <= r.
Proof.
  induction fuel as [|f IH]; intros p enc r enc' r' Hp Hr H; simpl in H; [discriminate|].
  destruct (Z.eqb_spec p 0); [discriminate|].
  destruct (Z.eqb_spec (r mod p) 0) as [Hmod|Hmod].
  - assert (Hdiv : r = p * (r / p)) by (apply Z_div_exact_full_2; lia).
    assert (Hq : 1 <= r / p <= r) by nia.
    destruct (IH _ _ _ _ _ Hp (proj1 Hq) H). lia.
  - inversion H; subst. lia.
Qed.

(** Maps all of whose keys are prime *)
Definition prime_keys (m : ExponentMap) : Prop := forall p e, In (p, e) m -> Z.prime p.

Lemma prime_keys_set : forall m p v, prime_keys m -> Z.prime p -> prime_keys (eset m p v).
Proof.
  intros m p v Hm Hp q e Hin. apply in_set in Hin; [|exact Z.eqb_eq].
  destruct Hin as [Heq|Hin]; [inversion Heq; subst; assumption|eauto].
Qed.

Lemma strip_prime_keys : forall fuel p enc r enc' r',
  Z.prime p -> prime_keys enc -> PrimeEncoder.strip fuel p enc r = Ok (enc', r') ->
  prime_keys enc'.
Proof.
  induction fuel as [|f IH]; intros p enc r enc' r' Hp Hk H; simpl in H; [discriminate|].
  destruct (p =? 0); [discriminate|].
  destruct (r mod p =? 0).
  - eapply IH; [exact Hp| |exact H]. apply prime_keys_set; assumption.
  - inversion H; subst. assumption.
Qed.

(** In the list of all primes in order, a prime above the entry at [i] is at
    least the entry at [i + 1] *)
Lemma next_prime : forall g (i : nat) a b d,
  pg_exact g ->
  nth_error (PrimeGenerator._primes g) i = Some a ->
  nth_error (PrimeGenerator._primes g) (S i) = Some b ->
  Z.prime d -> a < d -> b <= d.
Proof.
  intros g i a b d [Hwf Hp Hs] Ha Hb Hd Had.
  destruct (Z.le_gt_cases b d) as [|Hlt]; [assumption|exfalso].
  assert (Hb' : In b (PrimeGenerator._primes g)) by (eapply nth_error_In; eassumption).
  pose proof (pg_bounds g Hwf b Hb') as Hbb.
  assert (Hin : In d (PrimeGenerator._primes g)) by (apply (pg_complete g Hwf); [assumption|lia]).
  apply In_nth_error in Hin. destruct Hin as (j & Hj).
  destruct (Nat.lt_trichotomy j i) as [Hji|[->|Hij]].
  - pose proof (StronglySorted_nth _ _ _ _ _ Hs Hji Hj Ha). lia.
  - rewrite Ha in Hj. inversion Hj. lia.
  - destruct (Nat.eq_dec j (S i)) as [->|Hne].
    + rewrite Hb in Hj. inversion Hj. lia.
    + assert (Hlt' : (S i < j)%nat) by lia.
      pose proof (StronglySorted_nth _ _ _ _ _ Hs Hlt' Hb Hj). lia.
Qed.

(** The trial division over the primes at the indices [i .. i + len], when
    the remainder is below the square of the last of them *)
Lemma trial_small : forall fuel (len i : nat) g enc r enc' r' g' a z,
  pg_exact g -> (i + len < List.length (PrimeGenerator._primes g))%nat ->
  nth_error (PrimeGenerator._primes g) i = Some a ->
  nth_error (PrimeGenerator._primes g) (i + len) = Some z ->
  1 <= r -> r < z * z -> rough r a -> prime_keys enc ->
  PrimeEncoder.trial fuel (i :: seq (S i) len) g enc r = Ok (enc', r', g') ->
  prime_keys enc' /\ (r' = 1 \/ Z.prime r').
Proof.
  intros fuel len. induction len as [|len IH];
    intros i g enc r enc' r' g' a z Hex Hlen Ha Hz Hr Hrz Hrough Hk H;
    cbn [seq PrimeEncoder.trial] in H.
  - rewrite Nat.add_0_r in Hz. rewrite Ha in Hz. inversion Hz; subst z.
    destruct (PrimeGenerator.get fuel g i) as [[p g1]| |] eqn:Eg; simpl in H; try discriminate.
    destruct (get_ok_spec _ _ _ _ _ (pe_wf _ Hex) Eg) as (_ & _ & Hnth & Hsame).
    rewrite (Hsame ltac:(lia)) in *. rewrite Ha in Hnth. inversion Hnth; subst p.
    destruct (Z.ltb_spec r (a * a)); [|lia].
    inversion H; subst. split; [assumption|].
    destruct (Z.eq_dec r' 1); [auto|right].
    assert (Hpa : Z.prime a) by (apply (pe_prime _ Hex); eapply nth_error_In; eassumption).
    pose proof (Z.prime_ge_2 a Hpa).
    apply (rough_prime r' a); [lia|lia|assumption|assumption].
  - destruct (PrimeGenerator.get fuel g i) as [[p g1]| |] eqn:Eg; simpl in H; try discriminate.
    destruct (get_ok_spec _ _ _ _ _ (pe_wf _ Hex) Eg) as (_ & _ & Hnth & Hsame).
    rewrite (Hsame ltac:(lia)) in *. rewrite Ha in Hnth. inversion Hnth; subst p.
    assert (Hpa : Z.prime a) by (apply (pe_prime _ Hex); eapply nth_error_In; eassumption).
    pose proof (Z.prime_ge_2 a Hpa) as Ha2.
    destruct (Z.ltb_spec r (a * a)) as [Hlt|Hge].
    + inversion H; subst. split; [assumption|].
      destruct (Z.eq_dec r' 1); [auto|right].
      apply (rough_prime r' a); [lia|lia|assumption|assumption].
    + destruct (PrimeEncoder.strip fuel a enc r) as [[enc1 r1]| |] eqn:Es; simpl in H;
        try discriminate.
      pose proof (strip_le _ _ _ _ _ _ Ha2 Hr Es) as Hr1.
      pose proof (strip_divides _ _ _ _ _ _ Es) as Hdiv.
      pose proof (strip_ends _ _ _ _ _ _ Es) as Hend.
      pose proof (strip_prime_keys _ _ _ _ _ _ Hpa Hk Es) as Hk1.
      destruct (nth_error (PrimeGenerator._primes g) (S i)) as [b|] eqn:Hb.
      2:{ apply nth_error_None in Hb. lia. }
      apply (IH (S i) g enc1 r1 enc' r' g' b z); try assumption; try lia.
      * replace (S i + len)%nat with (i + S len)%nat by lia. assumption.
      * intros d Hd Hdr1.
        apply (next_prime g i a b d Hex Ha Hb Hd).
        assert (a <= d) by (apply Hrough; [assumption|eapply Z.divide_trans; eassumption]).
        destruct (Z.eq_dec a d) as [->|]; [|lia].
        exfalso. apply Hend. apply Z.mod_divide; [lia|assumption].
Qed.

(** X23. When the keys of an encoding are prime: on an encoder made by
    [PrimeEncoder()], if [|n|] is below the square of the prime registered
    last, every key of the map returned by [encode_integer(n)] is a prime
    number (the sign marker's key included). *)
Theorem small_integers_get_prime_keys : forall fuel self n m self' z,
  enc_ok self ->
  nth_error (PrimeGenerator._primes (PrimeEncoder.prime_gen self))
            (PrimeEncoder._next_index self - 1) = Some z ->
  Z.abs n < z * z ->
  PrimeEncoder.encode_integer fuel self n = Ok (m, self') ->
  forall p e, In (p, e) m -> Z.prime p.
Proof.
  intros fuel self n m self' z Hok Hz Hsmall H.
  unfold PrimeEncoder.encode_integer in H.
  destruct (Z.eqb_spec n 0) as [|Hn]; [discriminate|].
  destruct (ew_used _ (eo_wf _ Hok) _ _ (eo_sign _ Hok)) as (i0 & Hi0 & Hsign).
  assert (Hps : Z.prime (PrimeEncoder.sign_prime self)).
  { apply (pe_prime _ (eo_exact _ Hok)). eapply nth_error_In. eassumption. }
  assert (Hstart :
    forall enc0 n0,
      (enc0, n0) = (if n <? 0 then (eset [] (PrimeEncoder.sign_prime self) 1, - n) else ([], n)) ->
      n0 = Z.abs n /\ prime_keys enc0).
  { intros enc0 n0 E. destruct (Z.ltb_spec n 0); inversion E; subst.
    - split; [lia|]. intros p e [Heq|[]]. inversion Heq; subst. assumption.
    - split; [lia|]. intros p e []. }
  destruct (if n <? 0 then _ else _) as [enc0 n0].
  destruct (Hstart enc0 n0 eq_refl) as (Hn0 & Hk0).
  destruct (PrimeEncoder.trial fuel _ _ enc0 n0) as [[[enc1 r1] g1]| |] eqn:Et;
    simpl in H; try discriminate.
  inversion H; subst m self'; clear H.
  destruct (PrimeEncoder._next_index self) as [|k] eqn:Ek; [lia|].
  replace (S k - 1)%nat with k in Hz by lia.
  pose proof (ew_index _ (eo_wf _ Hok)) as Hidx. rewrite Ek in Hidx.
  assert (Hne : PrimeGenerator._primes (PrimeEncoder.prime_gen self) <> []).
  { intros E0. rewrite E0 in Hz. destruct k; discriminate. }
  pose proof (first_prime_two _ (eo_exact _ Hok) Hne) as H2.
  change (seq 0 (S k)) with (0%nat :: seq 1 k) in Et.
  destruct (trial_small fuel k 0 _ enc0 n0 enc1 r1 g1 2 z (eo_exact _ Hok)) as (Hk1 & Hr1);
    try assumption; try lia.
  - intros d Hd _. apply Z.prime_ge_2. assumption.
  - destruct (Z.ltb_spec 1 r1) as [Hgt|Hle]; [|assumption].
    apply prime_keys_set; [assumption|]. destruct Hr1 as [->|Hp]; [lia|assumption].
Qed.

(** A new encoder after [get_prime('human')] and [get_prime('mortal')] *)
Definition encoder2 : PrimeEncoder.t :=
  snd (with_concept (snd (with_concept encoder0 "human")) "mortal").

Lemma encoder2_ok : enc_ok encoder2.
Proof.
  destruct (get_prime_ok _ _ _ _ _ encoder0_ok with_concept_human) as (H1 & _).
  destruct (get_prime_ok _ _ _ _ _ H1 with_concept_mortal) as (H2 & _).
  exact H2.
Qed.

Lemma encoder2_last :
  nth_error (PrimeGenerator._primes (PrimeEncoder.prime_gen encoder2))
            (PrimeEncoder._next_index encoder2 - 1) = Some 5.
Proof. vm_compute. reflexivity. Qed.

Lemma encode_minus_20 :
  PrimeEncoder.encode_integer 30 encoder2 (-20) = Ok ([(2, 3); (5, 1)], encoder2).
Proof. vm_compute. reflexivity. Qed.

(** Witness for X23: -20 on an encoder with the primes 2, 3 and 5 given out *)
Lemma small_integers_get_prime_keys_witness :
  enc_ok encoder2
  /\ nth_error (PrimeGenerator._primes (PrimeEncoder.prime_gen encoder2))
               (PrimeEncoder._next_index encoder2 - 1) = Some 5
  /\ Z.abs (-20) < 5 * 5
  /\ PrimeEncoder.encode_integer 30 encoder2 (-20) = Ok ([(2, 3); (5, 1)], encoder2)
  /\ forall p e, In (p, e) [(2, 3); (5, 1)] -> Z.prime p.
Proof.
  assert (Hs : Z.abs (-20) < 5 * 5) by (vm_compute; reflexivity).
  split; [exact encoder2_ok|]. split; [exact encoder2_last|]. split; [exact Hs|].
  split; [exact encode_minus_20|].
  exact (small_integers_get_prime_keys 30 encoder2 (-20) [(2, 3); (5, 1)] encoder2 5
           encoder2_ok encoder2_last Hs encode_minus_20).
Defined.
